(** * Gruut text processor: a shallow embedding of [gruut/text_processor.py]

    The development follows the Python module top to bottom: Python string
    primitives, the fragment of the [re] module the processor relies on, the
    node classes and the graph, the settings with their compiled patterns,
    the SSML tree builder, the split / transform / verbalize passes, the
    sentence breaker and the sentence iterator.  Theorems come after the
    definitions.

    Python [str] values are lists of characters; a character is a code point
    below 256 ([ascii]). *)

From Stdlib Require Import Ascii String Bool Arith ZArith Lia Permutation List.
Import ListNotations.

(** ** Python string primitives *)

Module Py.

Definition str := list ascii.

(** A string literal. *)
Definition lit (x : string) : str := list_ascii_of_string x.

Definition code (c : ascii) : nat := nat_of_ascii c.

Definition chr_eqb (a b : ascii) : bool := Ascii.eqb a b.
Arguments chr_eqb : simpl never.

Fixpoint str_eqb (a b : str) : bool :=
  match a, b with
  | [], [] => true
  | x :: a', y :: b' => chr_eqb x y && str_eqb a' b'
  | _, _ => false
  end.

(** [str.isspace] on one character (code points below 256). *)
Definition is_space (c : ascii) : bool :=
  let n := code c in
  ((9 <=? n) && (n <=? 13)) || ((28 <=? n) && (n <=? 32))
  || (n =? 133) || (n =? 160).

(** [c in "0123456789"]. *)
Definition is_ascii_digit (c : ascii) : bool :=
  let n := code c in (48 <=? n) && (n <=? 57).

(** [str.isalpha] on one character (code points below 256). *)
Definition is_alpha (c : ascii) : bool :=
  let n := code c in
  ((65 <=? n) && (n <=? 90)) || ((97 <=? n) && (n <=? 122))
  || (n =? 170) || (n =? 181) || (n =? 186)
  || ((192 <=? n) && (n <=? 214)) || ((216 <=? n) && (n <=? 246))
  || ((248 <=? n) && (n <=? 255)).

Definition is_ascii_alnum (c : ascii) : bool :=
  let n := code c in
  is_ascii_digit c || ((65 <=? n) && (n <=? 90)) || ((97 <=? n) && (n <=? 122)).

(** [\w] of the [re] module (code points below 256): alphanumerics and the
    underscore. *)
Definition is_word_char (c : ascii) : bool :=
  is_alpha c || is_ascii_digit c || (code c =? 95)
  || (code c =? 178) || (code c =? 179) || (code c =? 185)
  || ((188 <=? code c) && (code c <=? 190)).

Fixpoint take_while (p : ascii -> bool) (s : str) : str :=
  match s with
  | c :: s' => if p c then c :: take_while p s' else []
  | [] => []
  end.

Fixpoint drop_while (p : ascii -> bool) (s : str) : str :=
  match s with
  | c :: s' => if p c then drop_while p s' else s
  | [] => []
  end.

Definition lstrip (s : str) : str := drop_while is_space s.
Definition rstrip (s : str) : str := rev (drop_while is_space (rev s)).
Definition strip (s : str) : str := rstrip (lstrip s).

Fixpoint startswith (s p : str) {struct p} : bool :=
  match p, s with
  | [], _ => true
  | x :: p', y :: s' => chr_eqb x y && startswith s' p'
  | _ :: _, [] => false
  end.

Definition endswith (s p : str) : bool := startswith (rev s) (rev p).

(** [sep.join(parts)]. *)
Fixpoint join (sep : str) (parts : list str) : str :=
  match parts with
  | [] => []
  | [p] => p
  | p :: rest => p ++ sep ++ join sep rest
  end.

(** [c in s]. *)
Definition contains (c : ascii) (s : str) : bool := existsb (chr_eqb c) s.

(** [str.upper] on 8-bit characters (ASCII and Latin-1).  The sharp s
    (223) becomes "SS"; the micro sign (181) and the y with diaeresis
    (255) have their upper case outside these characters (U+039C and
    U+0178) and are left as they are. *)
Definition upper_chr (c : ascii) : ascii :=
  let n := code c in
  if ((97 <=? n) && (n <=? 122))
     || ((224 <=? n) && (n <=? 246)) || ((248 <=? n) && (n <=? 254))
  then ascii_of_nat (n - 32) else c.

Definition upper (s : str) : str :=
  flat_map (fun c => if code c =? 223 then lit "SS" else [upper_chr c]) s.

Definition lower_chr (c : ascii) : ascii :=
  let n := code c in
  if ((65 <=? n) && (n <=? 90))
     || ((192 <=? n) && (n <=? 214)) || ((216 <=? n) && (n <=? 222))
  then ascii_of_nat (n + 32) else c.

Definition lower (s : str) : str := map lower_chr s.

(** [str.replace(old, "")] for a one-character [old]. *)
Definition remove_chr (c : ascii) (s : str) : str :=
  filter (fun x => negb (chr_eqb x c)) s.

(** [s.split(c, maxsplit=1)[0]]: everything before the first [c]. *)
Definition before_chr (c : ascii) (s : str) : str :=
  take_while (fun x => negb (chr_eqb x c)) s.

(** [xml.sax.saxutils.escape]: ampersand, greater-than and less-than are
    replaced by their entities. *)
Definition escape_chr (c : ascii) : str :=
  if chr_eqb c "&"%char then lit "&amp;"
  else if chr_eqb c ">"%char then lit "&gt;"
  else if chr_eqb c "<"%char then lit "&lt;"
  else [c].

Definition escape (s : str) : str := flat_map escape_chr s.

(** [re.escape]: the characters that are special in a pattern get a
    backslash. *)
Definition re_special : str :=
  lit "()[]{}?*+-|^$\.&~# " ++ map ascii_of_nat [9; 10; 13; 11; 12].

Definition re_escape_chr (c : ascii) : str :=
  if contains c re_special then ["\"%char; c] else [c].

Definition re_escape (s : str) : str := flat_map re_escape_chr s.

(** Results of calls that may raise. *)
Inductive Exc (A : Type) : Type :=
| Ok (a : A)
| Raise (e : str).
Arguments Ok {A} a.
Arguments Raise {A} e.

Definition bind {A B} (x : Exc A) (f : A -> Exc B) : Exc B :=
  match x with
  | Ok a => f a
  | Raise e => Raise e
  end.

(** A loop whose body may raise, threading an accumulator. *)
Fixpoint foldM {A S} (f : S -> A -> Exc S) (l : list A) (s : S) : Exc S :=
  match l with
  | [] => Ok s
  | x :: l' => bind (f s x) (foldM f l')
  end.

(** [enumerate]. *)
Fixpoint enumerate_from {A} (i : nat) (l : list A) : list (nat * A) :=
  match l with
  | [] => []
  | x :: l' => (i, x) :: enumerate_from (S i) l'
  end.

Definition enumerate {A} (l : list A) : list (nat * A) := enumerate_from 0 l.

(** [l.index(x)], with [None] for [ValueError]. *)
Fixpoint index_of {A} (eqb : A -> A -> bool) (x : A) (l : list A) : option nat :=
  match l with
  | [] => None
  | y :: l' => if eqb x y then Some 0 else option_map S (index_of eqb x l')
  end.

(** [l.insert(i, x)]: past the end it appends. *)
Definition list_insert {A} (i : nat) (x : A) (l : list A) : list A :=
  firstn i l ++ x :: skipn i l.

(** Truthiness of an optional string ([None] and [""] are false). *)
Definition truthy (o : option str) : bool :=
  match o with
  | Some (_ :: _) => true
  | _ => false
  end.

Definition nonempty (s : str) : bool :=
  match s with [] => false | _ => true end.

Definition nonempty_list {A} (l : list A) : bool :=
  match l with [] => false | _ => true end.

Definition opt_eqb (a b : option str) : bool :=
  match a, b with
  | None, None => true
  | Some x, Some y => str_eqb x y
  | _, _ => false
  end.

End Py.

Import Py.

Declare Scope exc_scope.
Notation "x <- c ;; k" := (bind c (fun x => k))
  (at level 61, c at next level, right associativity) : exc_scope.
Open Scope exc_scope.

(** ** The [re] module

    Compiled patterns are abstract syntax trees of the fragment of the
    pattern language the processor builds or is configured with.  Matching is
    by backtracking, as in [re]: every construct lists its possible matches
    in priority order (alternatives left to right, repetitions greedy), and
    the match that is found is the first of that list. *)

Module Re.

Inductive regex : Type :=
| RFail                                    (* matches nothing *)
| REmpty                                   (* the empty pattern *)
| RLit (s : str)                           (* an escaped literal *)
| RCls (c : ascii -> bool)                 (* a character class, once *)
| RRep (c : ascii -> bool) (min : nat)     (* a class, [min] times or more *)
| RAlt (a b : regex)                       (* a|b *)
| RSeq (a b : regex)                       (* ab *)
| ROpt (a : regex)                         (* a? *)
| RGroup (k : nat) (a : regex)             (* capturing group number k *)
| RBegin                                   (* ^ *)
| REnd.                                    (* $ *)

(** [l1|l2|...] for escaped literals, in the order given. *)
Fixpoint alt_of (lits : list str) : regex :=
  match lits with
  | [] => RFail
  | [l] => RLit l
  | l :: rest => RAlt (RLit l) (alt_of rest)
  end.

(** A compiled pattern: its source (the [pattern] attribute), the program,
    the number of capturing groups and the names of the named ones. *)
Record Pattern : Type := {
  pattern : str;
  prog : regex;
  groups : nat;
  groupindex : list (str * nat)
}.

Definition caps := list (nat * str).

Fixpoint get_cap (cs : caps) (k : nat) : option str :=
  match cs with
  | [] => None
  | (j, v) :: cs' => if j =? k then Some v else get_cap cs' k
  end.

Definition set_cap (k : nat) (v : str) (cs : caps) : caps := (k, v) :: cs.

(** A candidate match: the position after it, the rest of the subject and
    the captures. *)
Definition cand := (nat * str * caps)%type.

Definition cand_end (c : cand) : nat := fst (fst c).

(** Counting down from [n] to [mn]. *)
Fixpoint downto (n mn : nat) : list nat :=
  if n <? mn then []
  else match n with
       | 0 => [0]
       | S n' => n :: downto n' mn
       end.

(** The candidates of [r] at position [i], where [s] is the subject from
    [i] on. *)
Fixpoint m (r : regex) (i : nat) (s : str) (cs : caps) : list cand :=
  match r with
  | RFail => []
  | REmpty => [(i, s, cs)]
  | RLit l =>
      if startswith s l then [(i + length l, skipn (length l) s, cs)] else []
  | RCls c =>
      match s with
      | x :: s' => if c x then [(S i, s', cs)] else []
      | [] => []
      end
  | RRep c mn =>
      map (fun k => (i + k, skipn k s, cs))
          (downto (length (take_while c s)) mn)
  | RAlt a b => m a i s cs ++ m b i s cs
  | RSeq a b =>
      flat_map (fun c : cand => let '(j, s', cs') := c in m b j s' cs')
               (m a i s cs)
  | ROpt a => m a i s cs ++ [(i, s, cs)]
  | RGroup k a =>
      map (fun c : cand =>
             let '(j, s', cs') := c in (j, s', set_cap k (firstn (j - i) s) cs'))
          (m a i s cs)
  | RBegin => if i =? 0 then [(i, s, cs)] else []
  | REnd =>
      match s with
      | [] => [(i, s, cs)]
      | [c] => if chr_eqb c (ascii_of_nat 10) then [(i, s, cs)] else []
      | _ => []
      end
  end.

(** A match object: start, end and captures. *)
Record Match : Type := {
  m_start : nat;
  m_end : nat;
  m_caps : caps
}.

(** [Pattern.match]: a match at the start of the subject. *)
Definition re_match (p : Pattern) (s : str) : option Match :=
  match m (prog p) 0 s [] with
  | (j, _, cs) :: _ => Some {| m_start := 0; m_end := j; m_caps := cs |}
  | [] => None
  end.

(** The leftmost match at or after position [i]; with [adv] an empty match
    at [i] itself is refused (the scanner has to advance after an empty
    match). *)
Fixpoint search_from (r : regex) (adv : bool) (i : nat) (s : str)
  : option Match :=
  let cands := m r i s [] in
  let cands' :=
    if adv then filter (fun c => negb (cand_end c =? i)) cands else cands in
  match cands' with
  | (j, _, cs) :: _ => Some {| m_start := i; m_end := j; m_caps := cs |}
  | [] =>
      match s with
      | [] => None
      | _ :: s' => search_from r false (S i) s'
      end
  end.

(** [Pattern.search]. *)
Definition re_search (p : Pattern) (s : str) : option Match :=
  search_from (prog p) false 0 s.

(** The loop of [Pattern.split]: [s] is the subject from [last] on, [n] the
    number of splits made so far; [maxsplit = 0] means no limit.  A group
    that did not take part in the match gives [None]. *)
Fixpoint split_loop (fuel : nat) (p : Pattern) (maxsplit n : nat)
         (adv : bool) (last : nat) (s : str) : list (option str) :=
  match fuel with
  | 0 => [Some s]
  | S fuel' =>
      if negb (maxsplit =? 0) && (maxsplit <=? n) then [Some s]
      else
        match search_from (prog p) adv last s with
        | None => [Some s]
        | Some mt =>
            Some (firstn (m_start mt - last) s)
            :: map (get_cap (m_caps mt)) (seq 1 (groups p))
            ++ split_loop fuel' p maxsplit (S n)
                 (m_end mt =? m_start mt) (m_end mt)
                 (skipn (m_end mt - last) s)
        end
  end.

(** [Pattern.split(s, maxsplit)].  The scanner never stays at one position
    for more than two searches, which bounds the loop. *)
Definition re_split (p : Pattern) (s : str) (maxsplit : nat)
  : list (option str) :=
  split_loop (2 * length s + 2) p maxsplit 0 false 0 s.

(** [filter(None, parts)]: the parts that are neither [None] nor empty. *)
Fixpoint filter_none (parts : list (option str)) : list str :=
  match parts with
  | [] => []
  | Some (c :: s) :: rest => (c :: s) :: filter_none rest
  | _ :: rest => filter_none rest
  end.

(** A split part used as a string; the patterns split on have every group
    take part in every match. *)
Definition part_str (o : option str) : str :=
  match o with Some s => s | None => [] end.

(** Replacement templates: literal text, [\N] and [\g<name>]. *)
Inductive titem : Type :=
| TLit (c : ascii)
| TNum (k : nat)
| TName (n : str).

Definition digit_val (c : ascii) : nat := code c - 48.

(** Reading a template; [None] for a malformed one.  The fuel is the
    length of the template. *)
Fixpoint parse_template (fuel : nat) (t : str) : option (list titem) :=
  match fuel with
  | 0 => match t with [] => Some [] | _ => None end
  | S fuel' =>
      match t with
      | [] => Some []
      | "\"%char :: "g"%char :: "<"%char :: t' =>
          let name := take_while (fun c => negb (chr_eqb c ">"%char)) t' in
          match skipn (length name) t' with
          | _ :: t'' =>
              option_map (cons (TName name)) (parse_template fuel' t'')
          | [] => None
          end
      | "\"%char :: c :: t' =>
          if is_ascii_digit c then
            match t' with
            | d :: t'' =>
                if is_ascii_digit d then
                  option_map (cons (TNum (10 * digit_val c + digit_val d)))
                             (parse_template fuel' t'')
                else
                  option_map (cons (TNum (digit_val c)))
                             (parse_template fuel' t')
            | [] => Some [TNum (digit_val c)]
            end
          else if chr_eqb c "\"%char then
            option_map (cons (TLit c)) (parse_template fuel' t')
          else None
      | c :: t' => option_map (cons (TLit c)) (parse_template fuel' t')
      end
  end.

Fixpoint lookup_name (n : str) (gi : list (str * nat)) : option nat :=
  match gi with
  | [] => None
  | (k, v) :: gi' => if str_eqb k n then Some v else lookup_name n gi'
  end.

Fixpoint expand_items (p : Pattern) (cs : caps) (its : list titem)
  : Exc str :=
  match its with
  | [] => Ok []
  | TLit c :: rest => r <- expand_items p cs rest ;; Ok (c :: r)
  | TNum k :: rest =>
      if (1 <=? k) && (k <=? groups p) then
        r <- expand_items p cs rest ;; Ok (part_str (get_cap cs k) ++ r)
      else Raise (lit "invalid group reference")
  | TName n :: rest =>
      match lookup_name n (groupindex p) with
      | Some k =>
          r <- expand_items p cs rest ;; Ok (part_str (get_cap cs k) ++ r)
      | None => Raise (lit "unknown group name")
      end
  end.

(** [Match.expand(template)]: a group that did not take part expands to the
    empty string. *)
Definition expand (p : Pattern) (mt : Match) (template : str) : Exc str :=
  match parse_template (length template) template with
  | Some its => expand_items p (m_caps mt) its
  | None => Raise (lit "bad escape")
  end.

(** The loop of [Pattern.subn], the template already read. *)
Fixpoint subn_loop (fuel : nat) (p : Pattern) (its : list titem) (n : nat)
         (adv : bool) (last : nat) (s : str) : Exc (str * nat) :=
  match fuel with
  | 0 => Ok (s, n)
  | S fuel' =>
      match search_from (prog p) adv last s with
      | None => Ok (s, n)
      | Some mt =>
          e <- expand_items p (m_caps mt) its ;;
          rn <- subn_loop fuel' p its (S n) (m_end mt =? m_start mt)
                  (m_end mt) (skipn (m_end mt - last) s) ;;
          Ok (firstn (m_start mt - last) s ++ e ++ fst rn, snd rn)
      end
  end.

(** [Pattern.subn(template, s)]: the new string and the number of
    substitutions. *)
Definition re_subn (p : Pattern) (template s : str) : Exc (str * nat) :=
  match parse_template (length template) template with
  | Some its => subn_loop (2 * length s + 2) p its 0 false 0 s
  | None => Raise (lit "bad escape")
  end.

End Re.

Import Re.

(** ** Node classes, graph and records of [gruut.const]

    The classes are imported by the processor from [gruut.const]; their
    fields are the ones the processor reads and writes, with the defaults
    the processor relies on (empty strings, [None], [implicit = False]). *)

Module Const.

Inductive BreakType : Type := MAJOR | MINOR.

Definition BreakType_eqb (a b : BreakType) : bool :=
  match a, b with
  | MAJOR, MAJOR | MINOR, MINOR => true
  | _, _ => false
  end.

(** [InterpretAs], [InterpretAsFormat] and [WordRole] are string enums. *)
Definition SPELL_OUT : str := lit "spell-out".
Definition DATE : str := lit "date".
Definition NUMBER : str := lit "number".
Definition CURRENCY : str := lit "currency".
Definition NUMBER_CARDINAL : str := lit "cardinal".
Definition NUMBER_ORDINAL : str := lit "ordinal".
Definition NUMBER_DIGITS : str := lit "digits".
Definition NUMBER_YEAR : str := lit "year".
Definition DATE_MDY_ORDINAL : str := lit "mOy".
Definition ROLE_DEFAULT : str := [].
Definition ROLE_LETTER : str := lit "gruut:letter".

(** A [decimal.Decimal]: a finite number with its sign, coefficient and
    exponent, or one of the special values the constructor accepts
    ("Infinity", "NaN", "sNaN"), which keep a sign only. *)
Inductive DecKind : Type :=
| DFinite
| DInfinity
| DNaN
| DsNaN.

Record Decimal : Type := {
  d_neg : bool;
  d_coef : N;
  d_exp : Z;
  d_kind : DecKind
}.

(** The fields of a [datetime] the processor reads. *)
Record DateTime : Type := {
  dt_year : Z;
  dt_month : nat;
  dt_day : nat
}.

(** An [xml.etree.ElementTree.Element]. *)
#[local] Unset Elimination Schemes.
Inductive Element : Type :=
| mkElement (tag : str) (attrib : list (str * str)) (etext : option str)
            (children : list Element) (etail : option str).
#[local] Set Elimination Schemes.

Definition e_tag (e : Element) : str :=
  match e with mkElement t _ _ _ _ => t end.
Definition e_attrib (e : Element) : list (str * str) :=
  match e with mkElement _ a _ _ _ => a end.
Definition e_text (e : Element) : option str :=
  match e with mkElement _ _ t _ _ => t end.
Definition e_children (e : Element) : list Element :=
  match e with mkElement _ _ _ c _ => c end.
Definition e_tail (e : Element) : option str :=
  match e with mkElement _ _ _ _ t => t end.

(** The fields of a [WordNode]. *)
Record WordData : Type := {
  text : str;
  text_with_ws : str;
  interpret_as : str;
  format : str;
  number : option Decimal;
  date : option DateTime;
  currency_symbol : option str;
  currency_name : option str;
  role : str;
  pos : option str;
  phonemes : option (list str)
}.

(** The node classes. *)
Inductive NodeData : Type :=
| SpeakNode
| ParagraphNode
| SentenceNode
| WordNode (w : WordData)
| BreakWordNode (break_type : BreakType) (btext btext_with_ws : str)
| BreakNode (time : str)
| PunctuationWordNode (ptext ptext_with_ws : str)
| IgnoreNode.

(** A node: the fields of the base class [Node] and the class with its own
    fields. *)
Record Node : Type := {
  node : nat;
  element : option Element;
  voice : str;
  lang : str;
  implicit : bool;
  data : NodeData
}.

Definition isSentenceNode (n : Node) : bool :=
  match data n with SentenceNode => true | _ => false end.
Definition isParagraphNode (n : Node) : bool :=
  match data n with ParagraphNode => true | _ => false end.
Definition isWordNode (n : Node) : bool :=
  match data n with WordNode _ => true | _ => false end.

(** [WordNode(node=..., text=..., text_with_ws=..., ...)] with the other
    fields at their defaults. *)
Definition default_word (t tws : str) : WordData :=
  {| text := t; text_with_ws := tws; interpret_as := []; format := [];
     number := None; date := None; currency_symbol := None;
     currency_name := None; role := ROLE_DEFAULT; pos := None;
     phonemes := None |}.

Definition mkNode (d : NodeData) : Node :=
  {| node := 0; element := None; voice := []; lang := []; implicit := false;
     data := d |}.

Definition with_node (i : nat) (n : Node) : Node :=
  {| node := i; element := element n; voice := voice n; lang := lang n;
     implicit := implicit n; data := data n |}.

Definition with_data (d : NodeData) (n : Node) : Node :=
  {| node := node n; element := element n; voice := voice n; lang := lang n;
     implicit := implicit n; data := d |}.

(** What a split pass yields: a node class with its keyword arguments, here
    the node still without its number. *)
Definition word_kw (t tws lg rl : str) : Node :=
  {| node := 0; element := None; voice := []; lang := lg; implicit := true;
     data := WordNode
       {| text := t; text_with_ws := tws; interpret_as := []; format := [];
          number := None; date := None; currency_symbol := None;
          currency_name := None; role := rl; pos := None;
          phonemes := None |} |}.

Definition punct_kw (t tws lg : str) : Node :=
  {| node := 0; element := None; voice := []; lang := lg; implicit := true;
     data := PunctuationWordNode t tws |}.

Definition break_kw (bt : BreakType) (t tws lg : str) : Node :=
  {| node := 0; element := None; voice := []; lang := lg; implicit := true;
     data := BreakWordNode bt t tws |}.

(** The [networkx.DiGraph] of the processor.  Nodes are numbered by
    [len(graph)] when they are added, so the node list is indexed by node
    number; the edges are kept in insertion order, which gives each node its
    ordered out-edges (and in-edges).  [log] collects what the module's
    logger is given. *)
Record Graph : Type := {
  nodes : list Node;
  edges : list (nat * nat);
  log : list str
}.

Definition empty_graph : Graph := {| nodes := []; edges := []; log := [] |}.

Definition edge_eqb (a b : nat * nat) : bool :=
  (fst a =? fst b) && (snd a =? snd b).

Definition has_edge (es : list (nat * nat)) (e : nat * nat) : bool :=
  existsb (edge_eqb e) es.

(** [len(graph)]. *)
Definition len (g : Graph) : nat := length (nodes g).

(** [graph.add_node(len(graph), data=n)]. *)
Definition add_node (g : Graph) (n : Node) : Graph :=
  {| nodes := nodes g ++ [n]; edges := edges g; log := log g |}.

(** [graph.add_edge(u, v)]: an edge that is there already stays where it
    is. *)
Definition add_edge (g : Graph) (u v : nat) : Graph :=
  {| nodes := nodes g;
     edges := if has_edge (edges g) (u, v) then edges g
              else edges g ++ [(u, v)];
     log := log g |}.

Definition add_edges_from (g : Graph) (es : list (nat * nat)) : Graph :=
  fold_left (fun g' e => add_edge g' (fst e) (snd e)) es g.

Definition remove_edges_from (g : Graph) (es : list (nat * nat)) : Graph :=
  {| nodes := nodes g;
     edges := filter (fun e => negb (has_edge es e)) (edges g);
     log := log g |}.

Definition out_edges (g : Graph) (u : nat) : list (nat * nat) :=
  filter (fun e => fst e =? u) (edges g).

Definition successors (g : Graph) (u : nat) : list nat :=
  map snd (out_edges g u).

Definition predecessors (g : Graph) (v : nat) : list nat :=
  map fst (filter (fun e => snd e =? v) (edges g)).

Definition out_degree (g : Graph) (u : nat) : nat := length (out_edges g u).

(** [graph.nodes[i][DATA_PROP]]. *)
Definition get_node (g : Graph) (i : nat) : option Node := nth_error (nodes g) i.

Fixpoint set_nth {A} (i : nat) (x : A) (l : list A) : list A :=
  match l, i with
  | [], _ => []
  | _ :: l', 0 => x :: l'
  | y :: l', S i' => y :: set_nth i' x l'
  end.

(** A node object changed in place. *)
Definition set_node (g : Graph) (i : nat) (n : Node) : Graph :=
  {| nodes := set_nth i n (nodes g); edges := edges g; log := log g |}.

Definition add_log (g : Graph) (msg : str) : Graph :=
  {| nodes := nodes g; edges := edges g; log := log g ++ [msg] |}.

(** The output records [Word] and [Sentence]. *)
Record Word : Type := {
  idx : nat;
  sent_idx : nat;
  w_text : str;
  w_text_with_ws : str;
  w_phonemes : option (list str);
  w_pos : option str;
  w_lang : str;
  w_voice : str;
  is_break : bool;
  is_punctuation : bool
}.

Record Sentence : Type := {
  s_idx : nat;
  s_text : str;
  s_text_with_ws : str;
  s_lang : str;
  s_voice : str;
  words : list Word
}.

End Const.

Import Const.

(** ** Helpers of [gruut.utils]

    The module [gruut.utils] is imported by the processor; the helpers are
    written here from what the specification and the callers say about
    them. *)

Module Utils.

(** Modelled from the spec: [grouper(parts, 2)] of [gruut.utils], which the
    processor uses to pair each split part with the separator after it; the
    last part is paired with [None]. *)
Fixpoint grouper (parts : list (option str))
  : list (option str * option str) :=
  match parts with
  | [] => []
  | [p] => [(p, None)]
  | p :: q :: rest => (p, q) :: grouper rest
  end.

(** [get_whitespace] of [gruut.utils], the default of the setting of that
    name; the module is not among the sources, the function is modelled by
    what it returns: the leading and the trailing whitespace of a string
    that is one word with whitespace around it, and two empty strings for
    any other string. *)
Definition get_whitespace (s : str) : str * str :=
  let rest := drop_while is_space s in
  let trail := drop_while (fun c => negb (is_space c)) rest in
  if nonempty (take_while (fun c => negb (is_space c)) rest)
     && forallb is_space trail
  then (take_while is_space s, trail)
  else ([], []).

(** Words of a string, separated by whitespace ([str.split()]). *)
Fixpoint ws_words (cur : str) (s : str) : list str :=
  match s with
  | [] => match cur with [] => [] | _ => [rev cur] end
  | c :: s' =>
      if is_space c
      then match cur with [] => ws_words [] s' | _ => rev cur :: ws_words [] s' end
      else ws_words (c :: cur) s'
  end.

(** Modelled from the spec: [normalize_whitespace] of [gruut.utils], the
    default of the setting of that name: the text without outer whitespace
    and with single spaces between its words. *)
Definition normalize_whitespace (s : str) : str :=
  join (lit " ") (ws_words [] s).

(** Modelled from the spec: [has_digit] of [gruut.utils], the default of
    [is_maybe_number], [is_maybe_currency] and [is_maybe_date]. *)
Definition has_digit (s : str) : bool := existsb is_ascii_digit s.

(** Modelled from the spec: [tag_no_namespace] of [gruut.utils]:
    "namespaces are stripped before comparison". *)
Definition tag_no_namespace (t : str) : str :=
  if contains "}"%char t
  then rev (take_while (fun c => negb (chr_eqb c "}"%char)) (rev t))
  else t.

(** Modelled from the spec: [attrib_no_namespace] of [gruut.utils]: the
    value of the first attribute with that name, namespace apart. *)
Fixpoint attrib_lookup (name : str) (attrs : list (str * str)) : option str :=
  match attrs with
  | [] => None
  | (k, v) :: rest =>
      if str_eqb (tag_no_namespace k) name then Some v
      else attrib_lookup name rest
  end.

Definition attrib_no_namespace (e : Element) (name : str) : option str :=
  attrib_lookup name (e_attrib e).

(** What the reader of the element tree yields. *)
Inductive Event : Type :=
| EvStart (e : Element) (is_last : bool)
| EvText (t : str)
| EvEnd (e : Element).

Definition text_event (o : option str) : list Event :=
  match o with
  | Some t => if nonempty (strip t) then [EvText t] else []
  | None => []
  end.

(** Modelled from the spec: [text_and_elements] of [gruut.utils]: "for each
    element, in order: the start event (element + optional metadata dict),
    the leading text of the element, recursive events for each child", the
    end event, and the tail text of the element: the tail is the text
    after the end tag, and it is yielded after the end event.  A text is
    passed on, as it is, when it is not blank; the metadata says whether
    the element is the last child of its parent. *)
Fixpoint text_and_elements (is_last : bool) (e : Element) : list Event :=
  match e with
  | mkElement _ _ tx ch tl =>
      EvStart e is_last
      :: text_event tx
      ++ (fix go (l : list Element) : list Event :=
            match l with
            | [] => []
            | [c] => text_and_elements true c
            | c :: l' => text_and_elements false c ++ go l'
            end) ch
      ++ EvEnd e :: text_event tl
  end.

(** [networkx.dfs_preorder_nodes]: the stack holds the nodes still to look
    at; a node is yielded the first time it is taken from the stack, and its
    successors are pushed in edge order. *)
Fixpoint dfs (fuel : nat) (g : Graph) (stack visited : list nat) : list nat :=
  match fuel with
  | 0 => []
  | S fuel' =>
      match stack with
      | [] => []
      | u :: rest =>
          if existsb (Nat.eqb u) visited then dfs fuel' g rest visited
          else u :: dfs fuel' g (successors g u ++ rest) (u :: visited)
      end
  end.

(** Every step either drops a visited node from the stack or visits a node
    and pushes its out-edges, so one step per edge and one for the source
    are enough. *)
Definition dfs_preorder_nodes (g : Graph) (source : nat) : list nat :=
  dfs (S (length (edges g))) g [source] [].

(** Modelled from the spec: [leaves] of [gruut.utils]: the nodes of
    out-degree zero, in depth-first order. *)
Definition leaves (g : Graph) (root : nat) : list nat :=
  filter (fun u => out_degree g u =? 0) (dfs_preorder_nodes g root).

(** Attaching the nodes a split function yields under a leaf. *)
Definition attach (leaf : Node) (g : Graph) (n : Node) : Graph :=
  let i := len g in
  add_edge (add_node g (with_node i n)) (node leaf) i.

(** Modelled from the spec: [pipeline_split] of [gruut.utils]: "each split
    pass visits every current leaf; for each matching leaf it yields zero or
    more new child nodes"; the leaves are listed before the first visit. *)
Definition pipeline_split (split_func : Graph -> Node -> Exc (list Node))
           (g : Graph) (root : nat) : Exc Graph :=
  foldM (fun g' leaf =>
           match get_node g' leaf with
           | Some n =>
               news <- split_func g' n ;;
               Ok (fold_left (attach n) news g')
           | None => Ok g'
           end)
        (leaves g root) g.

(** Modelled from the spec: [pipeline_transform] of [gruut.utils]: the
    transform function is called on every leaf, the leaves being listed
    before the first call. *)
Definition pipeline_transform (transform_func : Graph -> Node -> Exc Graph)
           (g : Graph) (root : nat) : Exc Graph :=
  foldM (fun g' leaf =>
           match get_node g' leaf with
           | Some n => transform_func g' n
           | None => Ok g'
           end)
        (leaves g root) g.

End Utils.

Import Utils.

(** ** Settings *)

Module Settings.

(** [REGEX_TYPE]: a pattern is configured as a string or compiled. *)
Inductive REGEX_TYPE : Type :=
| RawStr (s : str)
| Compiled (p : Pattern).

(** The argument of [num2words]: [int(decimal)] or [float(decimal)]. *)
Inductive Num : Type :=
| NInt (z : Z)
| NFloat (d : Decimal).

Record Num2WordsKwargs : Type := {
  kw_lang : str;
  kw_to : option str;
  kw_currency : option str;
  kw_separator : option str
}.

(** The libraries the processor calls: [re.compile] on configured strings,
    [babel], [dateparser], [num2words], the XML reader and
    [gruut.utils.resolve_lang].  [parse_decimal] gives [None] where babel
    raises its [ValueError].  [locale_currencies] is the table of currency
    symbols and names of a locale babel knows; for any other locale
    [babel.Locale] raises and no settings are made, a case that is not
    modelled. *)
Record Libs : Type := {
  re_compile : str -> Pattern;
  parse_decimal : str -> str -> option Decimal;
  dateparser_parse : str -> str -> bool -> option DateTime;
  format_month : DateTime -> str -> str;
  num2words : Num -> Num2WordsKwargs -> Exc str;
  locale_currencies : str -> list (str * str);
  fromstring : str -> Exc Element;
  resolve_lang : str -> str
}.

Definition LookupPhonemes := str -> option str -> Exc (option (list str)).
Definition GetPartsOfSpeech := list str -> Exc (list str).
Definition PostProcessSentence := Graph -> Node -> Exc Graph.

(** The fields of [TextProcessorSettings] as the constructor receives them.
    A set is given by its elements in iteration order. *)
Record TextProcessorSettingsArgs : Type := {
  a_lang : str;
  a_split_pattern : REGEX_TYPE;
  a_join_str : str;
  a_keep_whitespace : bool;
  a_is_non_word : option (str -> bool);
  a_get_whitespace : str -> str * str;
  a_normalize_whitespace : str -> str;
  a_begin_punctuations : option (list str);
  a_begin_punctuations_pattern : option REGEX_TYPE;
  a_end_punctuations : option (list str);
  a_end_punctuations_pattern : option REGEX_TYPE;
  a_replacements : list (REGEX_TYPE * str);
  a_abbreviations : list (REGEX_TYPE * str);
  a_spell_out_words : list (str * str);
  a_major_breaks : list str;
  a_major_breaks_pattern : option REGEX_TYPE;
  a_minor_breaks : list str;
  a_minor_breaks_pattern : option REGEX_TYPE;
  a_word_breaks : list str;
  a_word_breaks_pattern : option REGEX_TYPE;
  a_is_maybe_number : option (str -> bool);
  a_babel_locale : option str;
  a_num2words_lang : option str;
  a_default_currency : str;
  a_currencies : list (str * str);
  a_currency_symbols : list str;
  a_is_maybe_currency : option (str -> bool);
  a_dateparser_lang : option str;
  a_is_maybe_date : option (str -> bool);
  a_default_date_format : str;
  a_get_parts_of_speech : option GetPartsOfSpeech;
  a_is_initialism : option (str -> bool);
  a_split_initialism : option (str -> list str);
  a_lookup_phonemes : option LookupPhonemes;
  a_guess_phonemes : option LookupPhonemes;
  a_pre_process_text : option (str -> str);
  a_post_process_sentence : option PostProcessSentence
}.

(** The settings after [__post_init__]: every pattern is compiled. *)
Record TextProcessorSettings : Type := {
  s_lang_code : str;
  split_pattern : Pattern;
  join_str : str;
  keep_whitespace : bool;
  is_non_word : option (str -> bool);
  get_whitespace : str -> str * str;
  normalize_whitespace : str -> str;
  begin_punctuations_pattern : option Pattern;
  end_punctuations_pattern : option Pattern;
  replacements : list (Pattern * str);
  abbreviations : list (Pattern * str);
  spell_out_words : list (str * str);
  major_breaks_pattern : option Pattern;
  minor_breaks_pattern : option Pattern;
  word_breaks_pattern : option Pattern;
  is_maybe_number : option (str -> bool);
  babel_locale : str;
  num2words_lang : str;
  default_currency : str;
  currencies : list (str * str);
  currency_symbols : list str;
  is_maybe_currency : option (str -> bool);
  dateparser_lang : str;
  is_maybe_date : option (str -> bool);
  default_date_format : str;
  get_parts_of_speech : option GetPartsOfSpeech;
  is_initialism : option (str -> bool);
  split_initialism : option (str -> list str);
  lookup_phonemes : option LookupPhonemes;
  guess_phonemes : option LookupPhonemes;
  pre_process_text : option (str -> str);
  post_process_sentence : option PostProcessSentence
}.

(** [DEFAULT_SPLIT_PATTERN] of [gruut.const]: [re.compile("(\s+)")]. *)
Definition DEFAULT_SPLIT_PATTERN : Pattern :=
  {| pattern := lit "(\s+)"; prog := RGroup 1 (RRep is_space 1);
     groups := 1; groupindex := [] |}.

(** ["|".join(re.escape(b) for b in literals)]. *)
Definition pattern_str (literals : list str) : str :=
  join (lit "|") (map re_escape literals).

(** The patterns [__post_init__] writes itself.  The source is the string
    the code builds; the program is that source read by the pattern
    language: the escaped literals are alternatives in the order of the
    source. *)

(** ["^({pattern_str})"]. *)
Definition compile_begin (literals : list str) : Pattern :=
  {| pattern := lit "^(" ++ pattern_str literals ++ lit ")";
     prog := RSeq RBegin (RGroup 1 (alt_of literals));
     groups := 1; groupindex := [] |}.

(** ["({pattern_str})$"]. *)
Definition compile_end (literals : list str) : Pattern :=
  {| pattern := lit "(" ++ pattern_str literals ++ lit ")$";
     prog := RSeq (RGroup 1 (alt_of literals)) REnd;
     groups := 1; groupindex := [] |}.

(** ["((?:{pattern_str})(?:\s+|$))"]. *)
Definition compile_major (literals : list str) : Pattern :=
  {| pattern := lit "((?:" ++ pattern_str literals ++ lit ")(?:\s+|$))";
     prog := RGroup 1 (RSeq (alt_of literals)
                            (RAlt (RRep is_space 1) REnd));
     groups := 1; groupindex := [] |}.

(** The literals, then optional whitespace, all in one group. *)
Definition compile_minor (literals : list str) : Pattern :=
  {| pattern := lit "((?:" ++ pattern_str literals ++ lit ")\s*" ++ lit ")";
     prog := RGroup 1 (RSeq (alt_of literals) (RRep is_space 0));
     groups := 1; groupindex := [] |}.

(** ["(?:{pattern_str})"]. *)
Definition compile_word_breaks (literals : list str) : Pattern :=
  {| pattern := lit "(?:" ++ pattern_str literals ++ lit ")";
     prog := alt_of literals;
     groups := 0; groupindex := [] |}.

(** What is appended to an abbreviation pattern and to its template. *)
Definition abbreviation_suffix (major_breaks : list str) : str :=
  lit "(?P<break>" ++ pattern_str major_breaks
  ++ lit ")?(?P<whitespace>\s*" ++ lit ")$".

Definition template_suffix : str := lit "\g<break>\g<whitespace>".

(** [d[key] = value] on a dict whose keys are compiled patterns; patterns
    with the same source are the same key. *)
Fixpoint dict_set (d : list (Pattern * str)) (k : Pattern) (v : str)
  : list (Pattern * str) :=
  match d with
  | [] => [(k, v)]
  | (k', v') :: d' =>
      if str_eqb (pattern k') (pattern k) then (k', v) :: d'
      else (k', v') :: dict_set d' k v
  end.

(** [sorted(symbols, key=operator.length_hint, reverse=True)]: a stable
    sort by decreasing length. *)
Fixpoint insert_by_length (x : str) (l : list str) : list str :=
  match l with
  | [] => [x]
  | y :: l' =>
      if length y <=? length x then x :: l
      else y :: insert_by_length x l'
  end.

Definition sorted_by_length_desc (l : list str) : list str :=
  fold_right insert_by_length [] l.

Section PostInit.

Variable L : Libs.

(** [maybe_compile_regex] of [gruut.utils]. *)
Definition maybe_compile_regex (r : REGEX_TYPE) : Pattern :=
  match r with
  | RawStr s => re_compile L s
  | Compiled p => p
  end.

(** The loop over [self.abbreviations.items()]. *)
Definition compile_abbreviation (major_breaks : list str)
           (entry : REGEX_TYPE * str) : Pattern * str :=
  let '(pat, template) := entry in
  match pat with
  | RawStr s =>
      if negb (endswith s (lit "$")) && nonempty_list major_breaks then
        (re_compile L (s ++ abbreviation_suffix major_breaks),
         template ++ template_suffix)
      else (re_compile L s, template)
  | Compiled p => (p, template)
  end.

Definition compile_abbreviations (major_breaks : list str)
           (abbrs : list (REGEX_TYPE * str)) : list (Pattern * str) :=
  fold_left (fun d entry =>
               let '(p, t) := compile_abbreviation major_breaks entry in
               dict_set d p t)
            abbrs [].

(** A pattern given explicitly goes before the one made from the set. *)
Definition pattern_or_set (explicit : option REGEX_TYPE)
           (literals : list str) (mk : list str -> Pattern)
  : option Pattern :=
  match explicit with
  | Some r => Some (maybe_compile_regex r)
  | None =>
      match literals with
      | [] => None
      | _ => Some (mk literals)
      end
  end.

Definition set_or_empty (o : option (list str)) : list str :=
  match o with Some l => l | None => [] end.

Definition post_init (a : TextProcessorSettingsArgs) : TextProcessorSettings :=
  let locale :=
    match a_babel_locale a with
    | Some l => l
    | None =>
        if contains "-"%char (a_lang a) then
          let before := before_chr "-"%char (a_lang a) in
          let after := skipn (S (length before)) (a_lang a) in
          join (lit "_") [lower before; upper after]
        else a_lang a
    end in
  let n2w :=
    match a_num2words_lang a with Some l => l | None => locale end in
  let dpl :=
    match a_dateparser_lang a with
    | Some l => l
    | None => before_chr "_"%char locale
    end in
  let curr :=
    match a_currencies a with
    | [] => locale_currencies L locale
    | c => c
    end in
  let syms :=
    match a_currency_symbols a with
    | [] => sorted_by_length_desc (map fst curr)
    | s => s
    end in
  {| s_lang_code := a_lang a;
     split_pattern := maybe_compile_regex (a_split_pattern a);
     join_str := a_join_str a;
     keep_whitespace := a_keep_whitespace a;
     is_non_word := a_is_non_word a;
     get_whitespace := a_get_whitespace a;
     normalize_whitespace := a_normalize_whitespace a;
     begin_punctuations_pattern :=
       pattern_or_set (a_begin_punctuations_pattern a)
                      (set_or_empty (a_begin_punctuations a)) compile_begin;
     end_punctuations_pattern :=
       pattern_or_set (a_end_punctuations_pattern a)
                      (set_or_empty (a_end_punctuations a)) compile_end;
     replacements :=
       map (fun pt => (maybe_compile_regex (fst pt), snd pt))
           (a_replacements a);
     abbreviations :=
       compile_abbreviations (a_major_breaks a) (a_abbreviations a);
     spell_out_words := a_spell_out_words a;
     major_breaks_pattern :=
       pattern_or_set (a_major_breaks_pattern a) (a_major_breaks a)
                      compile_major;
     minor_breaks_pattern :=
       pattern_or_set (a_minor_breaks_pattern a) (a_minor_breaks a)
                      compile_minor;
     word_breaks_pattern :=
       pattern_or_set (a_word_breaks_pattern a) (a_word_breaks a)
                      compile_word_breaks;
     is_maybe_number := a_is_maybe_number a;
     babel_locale := locale;
     num2words_lang := n2w;
     default_currency := a_default_currency a;
     currencies := curr;
     currency_symbols := syms;
     is_maybe_currency := a_is_maybe_currency a;
     dateparser_lang := dpl;
     is_maybe_date := a_is_maybe_date a;
     default_date_format := a_default_date_format a;
     get_parts_of_speech := a_get_parts_of_speech a;
     is_initialism := a_is_initialism a;
     split_initialism := a_split_initialism a;
     lookup_phonemes := a_lookup_phonemes a;
     guess_phonemes := a_guess_phonemes a;
     pre_process_text := a_pre_process_text a;
     post_process_sentence := a_post_process_sentence a |}.

End PostInit.

(** The defaults of the dataclass fields. *)
Definition default_args (lang_code : str) : TextProcessorSettingsArgs :=
  {| a_lang := lang_code;
     a_split_pattern := Compiled DEFAULT_SPLIT_PATTERN;
     a_join_str := lit " ";
     a_keep_whitespace := true;
     a_is_non_word := None;
     a_get_whitespace := Utils.get_whitespace;
     a_normalize_whitespace := Utils.normalize_whitespace;
     a_begin_punctuations := None;
     a_begin_punctuations_pattern := None;
     a_end_punctuations := None;
     a_end_punctuations_pattern := None;
     a_replacements := [];
     a_abbreviations := [];
     a_spell_out_words := [];
     a_major_breaks := [];
     a_major_breaks_pattern := None;
     a_minor_breaks := [];
     a_minor_breaks_pattern := None;
     a_word_breaks := [];
     a_word_breaks_pattern := None;
     a_is_maybe_number := Some has_digit;
     a_babel_locale := None;
     a_num2words_lang := None;
     a_default_currency := lit "USD";
     a_currencies := [];
     a_currency_symbols := [];
     a_is_maybe_currency := Some has_digit;
     a_dateparser_lang := None;
     a_is_maybe_date := Some has_digit;
     a_default_date_format := DATE_MDY_ORDINAL;
     a_get_parts_of_speech := None;
     a_is_initialism := None;
     a_split_initialism := None;
     a_lookup_phonemes := None;
     a_guess_phonemes := None;
     a_pre_process_text := None;
     a_post_process_sentence := None |}.

End Settings.

Import Settings.

(** ** The text processor *)

Module TextProcessor.

(** The processor object: the default language, the settings by language
    and the keyword arguments default settings are made from. *)
Record Processor : Type := {
  default_lang : str;
  settings : list (str * TextProcessorSettings);
  default_settings_kwargs : str -> TextProcessorSettingsArgs
}.

Fixpoint settings_get (d : list (str * TextProcessorSettings)) (k : str)
  : option TextProcessorSettings :=
  match d with
  | [] => None
  | (k', v) :: d' => if str_eqb k' k then Some v else settings_get d' k
  end.

(** The keyword arguments [scope_kwargs] builds for a new node. *)
Record Scope : Type := {
  sc_voice : option str;
  sc_lang : str;
  sc_say_as : option (str * str);
  sc_role : option str
}.

(** The local variables of [__call__] while it reads the document. *)
Record Build : Type := {
  graph : Graph;
  last_paragraph : option Node;
  last_sentence : option Node;
  last_speak : option Node;
  root : option Node;
  voice_stack : list str;
  say_as_stack : list (str * str);
  lang_stack : list (str * str);
  current_lang : str;
  in_word : bool;
  is_last_word : bool;
  word_role : option str;
  last_alias : option str;
  skip_elements : bool
}.

Definition set_graph (b : Build) (g : Graph) : Build :=
  {| graph := g; last_paragraph := last_paragraph b;
     last_sentence := last_sentence b; last_speak := last_speak b;
     root := root b; voice_stack := voice_stack b;
     say_as_stack := say_as_stack b; lang_stack := lang_stack b;
     current_lang := current_lang b; in_word := in_word b;
     is_last_word := is_last_word b; word_role := word_role b;
     last_alias := last_alias b; skip_elements := skip_elements b |}.

Section Processor.

Variable L : Libs.

(** [TextProcessor.__init__]. *)
Definition init (dl : str) (st : list (str * TextProcessorSettings))
           (kwargs : str -> TextProcessorSettingsArgs) : Processor :=
  {| default_lang := dl;
     settings :=
       match settings_get st dl with
       | Some _ => st
       | None => st ++ [(dl, post_init L (kwargs dl))]
       end;
     default_settings_kwargs := kwargs |}.

Variable self : Processor.

(** [get_settings]: the settings of the language, of the resolved language,
    or default ones made for it (the result is what the method returns; the
    entry it stores for later calls is the same value). *)
Definition get_settings (lg : str) : TextProcessorSettings :=
  let lg' := match lg with [] => default_lang self | _ => lg end in
  match settings_get (settings self) lg' with
  | Some s => s
  | None =>
      match settings_get (settings self) (resolve_lang L lg') with
      | Some s => s
      | None => post_init L (default_settings_kwargs self lg')
      end
  end.

(** A node made with the keyword arguments of the scope. *)
Definition scoped_node (i : nat) (el : option Element) (impl : bool)
           (sc : Scope) (d : NodeData) : Node :=
  {| node := i; element := el;
     voice := match sc_voice sc with Some v => v | None => [] end;
     lang := sc_lang sc; implicit := impl; data := d |}.

Definition scoped_word (sc : Scope) (t tws : str) : NodeData :=
  WordNode
    {| text := t; text_with_ws := tws;
       interpret_as := match sc_say_as sc with Some p => fst p | None => [] end;
       format := match sc_say_as sc with Some p => snd p | None => [] end;
       number := None; date := None; currency_symbol := None;
       currency_name := None;
       role := match sc_role sc with Some r => r | None => ROLE_DEFAULT end;
       pos := None; phonemes := None |}.

(** [scope_kwargs(target_class)]. *)
Definition scope_kwargs (b : Build) (for_word : bool) : Scope :=
  {| sc_voice := match voice_stack b with v :: _ => Some v | [] => None end;
     sc_lang := current_lang b;
     sc_say_as :=
       if for_word
       then match say_as_stack b with p :: _ => Some p | [] => None end
       else None;
     sc_role := if for_word then word_role b else None |}.

(** The groups of [_pipeline_tokenize] and the text of each word. *)
Definition tokenize_groups (st : TextProcessorSettings) (txt : str)
  : list (option str * option str) :=
  filter (fun g => truthy (fst g)) (grouper (re_split (split_pattern st) txt 0)).

Definition tokenize_word_text (st : TextProcessorSettings) (first_ws : str)
           (ig : nat * (option str * option str)) : str :=
  let '(group_idx, (part, sep)) := ig in
  let word_text := part_str part in
  if keep_whitespace st then
    (if group_idx =? 0 then first_ws ++ word_text else word_text)
    ++ part_str sep
  else word_text.

(** [_pipeline_tokenize]: splits text into word nodes under
    [parent_node]. *)
Definition _pipeline_tokenize (g : Graph) (parent_node : Node) (txt : str)
           (sc : Scope) : Graph :=
  let st := get_settings (sc_lang sc) in
  let txt' :=
    match pre_process_text st with Some f => f txt | None => txt end in
  let groups := tokenize_groups st txt' in
  let first_ws := fst (get_whitespace st txt') in
  fold_left
    (fun g' ig =>
       let word_text := tokenize_word_text st first_ws ig in
       let word_node :=
         scoped_node (len g') None true sc
                     (scoped_word sc (strip word_text) word_text) in
       add_edge (add_node g' word_node) (node parent_node) (node word_node))
    (enumerate groups) g.

(** The implicit [<speak>], [<p>] and [<s>] a text chunk or an element
    may need. *)
Definition ensure_speak (b : Build) : Build :=
  match last_speak b with
  | Some _ => b
  | None =>
      let n := with_node (len (graph b))
                 {| node := 0; element := None; voice := []; lang := [];
                    implicit := true; data := SpeakNode |} in
      {| graph := add_node (graph b) n; last_paragraph := last_paragraph b;
         last_sentence := last_sentence b; last_speak := Some n;
         root := match root b with Some r => Some r | None => Some n end;
         voice_stack := voice_stack b; say_as_stack := say_as_stack b;
         lang_stack := lang_stack b; current_lang := current_lang b;
         in_word := in_word b; is_last_word := is_last_word b;
         word_role := word_role b; last_alias := last_alias b;
         skip_elements := skip_elements b |}
  end.

Definition set_last_paragraph (b : Build) (g : Graph) (p : option Node)
  : Build :=
  {| graph := g; last_paragraph := p;
     last_sentence := last_sentence b; last_speak := last_speak b;
     root := root b; voice_stack := voice_stack b;
     say_as_stack := say_as_stack b; lang_stack := lang_stack b;
     current_lang := current_lang b; in_word := in_word b;
     is_last_word := is_last_word b; word_role := word_role b;
     last_alias := last_alias b; skip_elements := skip_elements b |}.

Definition set_last_sentence (b : Build) (g : Graph) (s : option Node)
  : Build :=
  {| graph := g; last_paragraph := last_paragraph b;
     last_sentence := s; last_speak := last_speak b;
     root := root b; voice_stack := voice_stack b;
     say_as_stack := say_as_stack b; lang_stack := lang_stack b;
     current_lang := current_lang b; in_word := in_word b;
     is_last_word := is_last_word b; word_role := word_role b;
     last_alias := last_alias b; skip_elements := skip_elements b |}.

Definition speak_number (b : Build) : nat :=
  match last_speak b with Some n => node n | None => 0 end.

(** A paragraph under the current [<speak>] when none is open. *)
Definition ensure_paragraph (impl : bool) (b : Build) : Build :=
  match last_paragraph b with
  | Some _ => b
  | None =>
      let p_node := scoped_node (len (graph b)) None impl
                                (scope_kwargs b false) ParagraphNode in
      set_last_paragraph b
        (add_edge (add_node (graph b) p_node) (speak_number b) (node p_node))
        (Some p_node)
  end.

Definition paragraph_number (b : Build) : nat :=
  match last_paragraph b with Some n => node n | None => 0 end.

Definition ensure_sentence (b : Build) : Build :=
  match last_sentence b with
  | Some _ => b
  | None =>
      let s_node := scoped_node (len (graph b)) None true
                                (scope_kwargs b false) SentenceNode in
      set_last_sentence b
        (add_edge (add_node (graph b) s_node) (paragraph_number b)
                  (node s_node))
        (Some s_node)
  end.

(** The branch of the loop for a text chunk. *)
Definition on_text (b : Build) (chunk : str) : Build :=
  if skip_elements b then b
  else
    let txt := match last_alias b with Some a => a | None => chunk end in
    let b1 := ensure_sentence (ensure_paragraph true (ensure_speak b)) in
    match last_sentence b1 with
    | None => b1
    | Some s_node =>
        if in_word b1 then
          let st := get_settings (current_lang b1) in
          let word_text :=
            if keep_whitespace st && negb (is_last_word b1)
               && negb (endswith txt (join_str st))
            then txt ++ join_str st else txt in
          let word_node :=
            scoped_node (len (graph b1)) None false (scope_kwargs b1 true)
              (scoped_word (scope_kwargs b1 true) (strip word_text) word_text) in
          set_graph b1 (add_edge (add_node (graph b1) word_node)
                                 (node s_node) (node word_node))
        else
          set_graph b1 (_pipeline_tokenize (graph b1) s_node txt
                                           (scope_kwargs b1 true))
    end.

Definition tag_is (t : str) (name : string) : bool := str_eqb t (lit name).

(** The branch of the loop for the end of an element. *)
Definition on_end (b : Build) (e : Element) : Build :=
  let end_tag := tag_no_namespace (e_tag e) in
  if tag_is end_tag "voice" then
    {| graph := graph b; last_paragraph := last_paragraph b;
       last_sentence := last_sentence b; last_speak := last_speak b;
       root := root b; voice_stack := tl (voice_stack b);
       say_as_stack := say_as_stack b; lang_stack := lang_stack b;
       current_lang := current_lang b; in_word := in_word b;
       is_last_word := is_last_word b; word_role := word_role b;
       last_alias := last_alias b; skip_elements := skip_elements b |}
  else if tag_is end_tag "say-as" then
    {| graph := graph b; last_paragraph := last_paragraph b;
       last_sentence := last_sentence b; last_speak := last_speak b;
       root := root b; voice_stack := voice_stack b;
       say_as_stack := tl (say_as_stack b); lang_stack := lang_stack b;
       current_lang := current_lang b; in_word := in_word b;
       is_last_word := is_last_word b; word_role := word_role b;
       last_alias := last_alias b; skip_elements := skip_elements b |}
  else
    let lang_stack' :=
      match lang_stack b with
      | (t, _) :: rest => if str_eqb t end_tag then rest else lang_stack b
      | [] => []
      end in
    let current_lang' :=
      match lang_stack' with
      | (_, l) :: _ => l
      | [] => default_lang self
      end in
    let is_w := tag_is end_tag "w" || tag_is end_tag "token" in
    let is_s := negb is_w && tag_is end_tag "s" in
    let is_p := negb is_w && negb is_s && tag_is end_tag "p" in
    let is_speak :=
      negb is_w && negb is_s && negb is_p && tag_is end_tag "speak" in
    (* the second test for "s", meant for the end of <sub> *)
    let is_sub :=
      negb is_w && negb is_s && negb is_p && negb is_speak
      && tag_is end_tag "s" in
    let is_metadata :=
      negb is_w && negb is_s && negb is_p && negb is_speak && negb is_sub
      && tag_is end_tag "metadata" in
    {| graph := graph b;
       last_paragraph := if is_p then None else last_paragraph b;
       last_sentence := if is_s then None else last_sentence b;
       last_speak := if is_speak then root b else last_speak b;
       root := root b;
       voice_stack := voice_stack b;
       say_as_stack := say_as_stack b;
       lang_stack := lang_stack';
       current_lang := current_lang';
       in_word := if is_w then false else in_word b;
       is_last_word := if is_w then false else is_last_word b;
       word_role := if is_w then None else word_role b;
       last_alias := if is_sub then None else last_alias b;
       skip_elements := if is_metadata then false else skip_elements b |}.

(** [maybe_lang = attrib_no_namespace(elem, "lang")] pushed on the language
    stack when it is set. *)
Definition push_lang (b : Build) (elem_tag : str) (e : Element) : Build :=
  match attrib_no_namespace e (lit "lang") with
  | Some (c :: l) =>
      {| graph := graph b; last_paragraph := last_paragraph b;
         last_sentence := last_sentence b; last_speak := last_speak b;
         root := root b; voice_stack := voice_stack b;
         say_as_stack := say_as_stack b;
         lang_stack := (elem_tag, c :: l) :: lang_stack b;
         current_lang := c :: l; in_word := in_word b;
         is_last_word := is_last_word b; word_role := word_role b;
         last_alias := last_alias b; skip_elements := skip_elements b |}
  | _ => b
  end.

(** An attribute read with the default [""], as for [<say-as>], [<sub>]
    and [<break>].  The name of a [<voice>] is read without a default; a
    voice that is missing is kept here as the empty string, which the tests
    on the voice of a word do not tell from [None]. *)
Definition attrib_or_empty (e : Element) (name : string) : str :=
  match attrib_no_namespace e (lit name) with Some v => v | None => [] end.

(** The branch of the loop for the start of an element. *)
Definition on_start (b : Build) (e : Element) (is_last : bool) : Exc Build :=
  if skip_elements b then Ok b
  else
    let elem_tag := tag_no_namespace (e_tag e) in
    if tag_is elem_tag "speak" then
      let b1 := push_lang b elem_tag e in
      let speak_node := scoped_node (len (graph b1)) (Some e) false
                                    (scope_kwargs b1 false) SpeakNode in
      let root' := match root b1 with Some r => r | None => speak_node end in
      Ok {| graph := add_node (graph b1) root';
            last_paragraph := last_paragraph b1;
            last_sentence := last_sentence b1; last_speak := Some root';
            root := Some root'; voice_stack := voice_stack b1;
            say_as_stack := say_as_stack b1; lang_stack := lang_stack b1;
            current_lang := current_lang b1; in_word := in_word b1;
            is_last_word := is_last_word b1; word_role := word_role b1;
            last_alias := last_alias b1; skip_elements := skip_elements b1 |}
    else if tag_is elem_tag "voice" then
      Ok {| graph := graph b; last_paragraph := last_paragraph b;
            last_sentence := last_sentence b; last_speak := last_speak b;
            root := root b;
            voice_stack := attrib_or_empty e "name" :: voice_stack b;
            say_as_stack := say_as_stack b; lang_stack := lang_stack b;
            current_lang := current_lang b; in_word := in_word b;
            is_last_word := is_last_word b; word_role := word_role b;
            last_alias := last_alias b; skip_elements := skip_elements b |}
    else if tag_is elem_tag "p" then
      let b1 := push_lang (ensure_speak b) elem_tag e in
      let p_node := scoped_node (len (graph b1)) (Some e) false
                                (scope_kwargs b1 false) ParagraphNode in
      Ok (set_last_paragraph b1
            (add_edge (add_node (graph b1) p_node) (speak_number b1)
                      (node p_node))
            (Some p_node))
    else if tag_is elem_tag "s" then
      let b1 := push_lang (ensure_paragraph false (ensure_speak b)) elem_tag e in
      let s_node := scoped_node (len (graph b1)) (Some e) false
                                (scope_kwargs b1 false) SentenceNode in
      Ok (set_last_sentence b1
            (add_edge (add_node (graph b1) s_node) (paragraph_number b1)
                      (node s_node))
            (Some s_node))
    else if tag_is elem_tag "w" || tag_is elem_tag "token" then
      let b1 := push_lang b elem_tag e in
      Ok {| graph := graph b1; last_paragraph := last_paragraph b1;
            last_sentence := last_sentence b1; last_speak := last_speak b1;
            root := root b1; voice_stack := voice_stack b1;
            say_as_stack := say_as_stack b1; lang_stack := lang_stack b1;
            current_lang := current_lang b1; in_word := true;
            is_last_word := is_last;
            word_role := attrib_no_namespace e (lit "role");
            last_alias := last_alias b1; skip_elements := skip_elements b1 |}
    else if tag_is elem_tag "break" then
      let last_target :=
        match last_sentence b with
        | Some n => Some n
        | None =>
            match last_paragraph b with
            | Some n => Some n
            | None => last_speak b
            end
        end in
      match last_target with
      | None => Raise (lit "AssertionError")
      | Some t =>
          let break_node :=
            {| node := len (graph b); element := Some e; voice := [];
               lang := []; implicit := false;
               data := BreakNode (attrib_or_empty e "time") |} in
          Ok (set_graph b (add_edge (add_node (graph b) break_node)
                                    (node t) (node break_node)))
      end
    else if tag_is elem_tag "say-as" then
      Ok {| graph := graph b; last_paragraph := last_paragraph b;
            last_sentence := last_sentence b; last_speak := last_speak b;
            root := root b; voice_stack := voice_stack b;
            say_as_stack :=
              (attrib_or_empty e "interpret-as", attrib_or_empty e "format")
              :: say_as_stack b;
            lang_stack := lang_stack b;
            current_lang := current_lang b; in_word := in_word b;
            is_last_word := is_last_word b; word_role := word_role b;
            last_alias := last_alias b; skip_elements := skip_elements b |}
    else if tag_is elem_tag "sub" then
      Ok {| graph := graph b; last_paragraph := last_paragraph b;
            last_sentence := last_sentence b; last_speak := last_speak b;
            root := root b; voice_stack := voice_stack b;
            say_as_stack := say_as_stack b; lang_stack := lang_stack b;
            current_lang := current_lang b; in_word := in_word b;
            is_last_word := is_last_word b; word_role := word_role b;
            last_alias := Some (attrib_or_empty e "alias");
            skip_elements := skip_elements b |}
    else if tag_is elem_tag "metadata" then
      Ok {| graph := graph b; last_paragraph := last_paragraph b;
            last_sentence := last_sentence b; last_speak := last_speak b;
            root := root b; voice_stack := voice_stack b;
            say_as_stack := say_as_stack b; lang_stack := lang_stack b;
            current_lang := current_lang b; in_word := in_word b;
            is_last_word := is_last_word b; word_role := word_role b;
            last_alias := last_alias b; skip_elements := true |}
    else Ok b.

Definition on_event (b : Build) (ev : Event) : Exc Build :=
  match ev with
  | EvText t => Ok (on_text b t)
  | EvEnd e => Ok (on_end b e)
  | EvStart e is_last => on_start b e is_last
  end.

Definition initial_build : Build :=
  {| graph := empty_graph; last_paragraph := None; last_sentence := None;
     last_speak := None; root := None; voice_stack := [];
     say_as_stack := []; lang_stack := [];
     current_lang := default_lang self; in_word := false;
     is_last_word := false; word_role := None; last_alias := None;
     skip_elements := false |}.

(** The loop of [__call__] over the events of the document. *)
Definition build_tree (events : list Event) : Exc Build :=
  foldM on_event events initial_build.

(** *** Split passes *)

Definition word_of (n : Node) : option WordData :=
  match data n with WordNode w => Some w | _ => None end.

(** Calling an optional predicate of the settings: [None] lets the word
    through. *)
Definition maybe (p : option (str -> bool)) (t : str) : bool :=
  match p with Some f => f t | None => true end.

(** [lookup_phonemes(word.text)] as a test: is the word in the lexicon? *)
Definition in_lexicon (st : TextProcessorSettings) (t : str) : Exc bool :=
  match lookup_phonemes st with
  | None => Ok false
  | Some f =>
      r <- f t None ;;
      Ok (match r with Some (_ :: _) => true | _ => false end)
  end.

(** The text of part number [i] of [n] parts with the whitespace of the
    word around the first and the last one, and the join string between
    the parts. *)
Definition with_outer_ws (st : TextProcessorSettings) (first_ws last_ws : str)
           (last_idx i : nat) (part : str) : str :=
  if keep_whitespace st then
    (if i =? 0 then first_ws ++ part else part)
    ++ (if i =? last_idx then last_ws else join_str st)
  else part.

(** [_break_words]: break apart words according to the word breaks
    pattern. *)
Definition _break_words (g : Graph) (n : Node) : Exc (list Node) :=
  match word_of n with
  | None => Ok []
  | Some word =>
      if nonempty (interpret_as word) then Ok []
      else if negb (implicit n) then Ok []
      else
        let st := get_settings (lang n) in
        match word_breaks_pattern st with
        | None => Ok []
        | Some pat =>
            known <- in_lexicon st (text word) ;;
            if (known : bool) then Ok []
            else
              let parts := re_split pat (text word) 0 in
              if length parts <? 2 then Ok []
              else
                let '(first_ws, last_ws) :=
                  get_whitespace st (text_with_ws word) in
                let last_part_idx := length parts - 1 in
                Ok (map (fun ip : nat * option str =>
                           let part_text :=
                             with_outer_ws st first_ws last_ws last_part_idx
                                           (fst ip) (part_str (snd ip)) in
                           word_kw (strip part_text) part_text (lang n)
                                   ROLE_DEFAULT)
                        (enumerate parts))
        end
  end.

(** The first loop of [_split_punctuations]: punctuation at the beginning
    of the word.  The result is the texts of the punctuation words and what
    is left of the word; [None] when the fuel is used up, where the Python
    loop would not end. *)
Fixpoint peel_begin (fuel : nat) (pat : Pattern) (first_ws : str)
         (first_word : bool) (word_text : str) : option (list str * str) :=
  match fuel with
  | 0 => None
  | S fuel' =>
      match nonempty word_text, filter_none (re_split pat word_text 1) with
      | true, [punct_text; rest] =>
          let punct_text' :=
            if first_word then first_ws ++ punct_text else punct_text in
          match peel_begin fuel' pat first_ws false rest with
          | Some (ps, w) => Some (punct_text' :: ps, w)
          | None => None
          end
      | _, _ => Some ([], word_text)
      end
  end.

(** The second loop: punctuation at the end of the word, in the order it
    is found (last one first). *)
Fixpoint peel_end (fuel : nat) (pat : Pattern) (word_text : str)
  : option (list str * str) :=
  match fuel with
  | 0 => None
  | S fuel' =>
      match nonempty word_text, filter_none (re_split pat word_text 1) with
      | true, [rest; punct_text] =>
          match peel_end fuel' pat rest with
          | Some (ps, w) => Some (punct_text :: ps, w)
          | None => None
          end
      | _, _ => Some ([], word_text)
      end
  end.

Definition _split_punctuations (g : Graph) (n : Node) : Exc (list Node) :=
  match word_of n with
  | None => Ok []
  | Some word =>
      if nonempty (interpret_as word) then Ok []
      else
        let st := get_settings (lang n) in
        match begin_punctuations_pattern st, end_punctuations_pattern st with
        | None, None => Ok []
        | bp, ep =>
            let '(first_ws, last_ws) :=
              get_whitespace st (text_with_ws word) in
            let fuel := S (length (text word)) in
            match (match bp with
                   | Some pat => peel_begin fuel pat first_ws true (text word)
                   | None => Some ([], text word)
                   end) with
            | None => Raise (lit "the loop does not end")
            | Some (begin_puncts, word_text1) =>
                match (match ep with
                       | Some pat => peel_end fuel pat word_text1
                       | None => Some ([], word_text1)
                       end) with
                | None => Raise (lit "the loop does not end")
                | Some (end_punctuations, word_text2) =>
                    let begin_nodes :=
                      map (fun p => punct_kw (strip p) p (lang n))
                          begin_puncts in
                    if negb (nonempty_list begin_puncts
                             || nonempty_list end_punctuations)
                    then Ok begin_nodes
                    else
                      let word_text :=
                        if keep_whitespace st
                           && negb (nonempty_list end_punctuations)
                        then word_text2 ++ last_ws else word_text2 in
                      let word_nodes :=
                        if nonempty word_text
                        then [word_kw (strip word_text) word_text (lang n)
                                      ROLE_DEFAULT]
                        else [] in
                      let last_punct_idx := length end_punctuations - 1 in
                      let end_nodes :=
                        map (fun ip : nat * str =>
                               let punct_text :=
                                 if keep_whitespace st
                                    && (fst ip =? last_punct_idx)
                                 then snd ip ++ last_ws else snd ip in
                               punct_kw (strip punct_text) punct_text (lang n))
                            (enumerate (rev end_punctuations)) in
                      Ok (begin_nodes ++ word_nodes ++ end_nodes)
                end
            end
        end
  end.

Definition _split_major_breaks (g : Graph) (n : Node) : Exc (list Node) :=
  match word_of n with
  | None => Ok []
  | Some word =>
      if nonempty (interpret_as word) then Ok []
      else
        let st := get_settings (lang n) in
        match major_breaks_pattern st with
        | None => Ok []
        | Some pat =>
            match re_split pat (text_with_ws word) 0 with
            | p0 :: p1 :: _ =>
                let word_part := part_str p0 in
                let break_part := part_str p1 in
                if nonempty (strip word_part) then
                  Ok [word_kw (strip word_part) word_part (lang n)
                              ROLE_DEFAULT;
                      break_kw MAJOR (strip break_part) break_part (lang n)]
                else
                  let break_part' := word_part ++ break_part in
                  Ok [break_kw MAJOR (strip break_part') break_part' (lang n)]
            | _ => Ok []
            end
        end
  end.

Definition _split_minor_breaks (g : Graph) (n : Node) : Exc (list Node) :=
  match word_of n with
  | None => Ok []
  | Some word =>
      if nonempty (interpret_as word) then Ok []
      else
        let st := get_settings (lang n) in
        match minor_breaks_pattern st with
        | None => Ok []
        | Some pat =>
            match re_split pat (text_with_ws word) 0 with
            | p0 :: p1 :: _ =>
                let word_part := part_str p0 in
                let break_part := part_str p1 in
                Ok [word_kw (strip word_part) word_part (lang n) ROLE_DEFAULT;
                    break_kw MINOR (strip break_part) break_part (lang n)]
            | _ => Ok []
            end
        end
  end.

Fixpoint dict_get (d : list (str * str)) (k : str) : option str :=
  match d with
  | [] => None
  | (k', v) :: d' => if str_eqb k' k then Some v else dict_get d' k
  end.

(** [_split_spell_out]: expand spell-out (a-1 -> a dash one). *)
Definition _split_spell_out (g : Graph) (n : Node) : Exc (list Node) :=
  match word_of n with
  | None => Ok []
  | Some word =>
      if negb (str_eqb (interpret_as word) SPELL_OUT) then Ok []
      else
        let st := get_settings (lang n) in
        let '(first_ws, last_ws) := get_whitespace st (text_with_ws word) in
        let last_char_idx := length (text word) - 1 in
        Ok (flat_map
              (fun ic : nat * ascii =>
                 let '(i, c) := ic in
                 let '(word_text, rl) :=
                   match dict_get (spell_out_words st) [c] with
                   | Some t => (t, ROLE_DEFAULT)
                   | None =>
                       if is_alpha c then ([c], ROLE_LETTER)
                       else ([c], ROLE_DEFAULT)
                   end in
                 if negb (nonempty word_text) then []
                 else
                   let word_text' :=
                     with_outer_ws st first_ws last_ws last_char_idx i
                                   word_text in
                   [word_kw (strip word_text') word_text' (lang n) rl])
              (enumerate (text word)))
  end.

(** The words of an expanded text, as [_split_replacements] and
    [_split_abbreviations] make them. *)
Definition retokenize (st : TextProcessorSettings) (lg new_text : str)
  : list Node :=
  flat_map
    (fun grp : option str * option str =>
       let part :=
         if keep_whitespace st then part_str (fst grp) ++ part_str (snd grp)
         else part_str (fst grp) in
       if negb (nonempty (strip part)) then []
       else [word_kw (normalize_whitespace st part) part lg ROLE_DEFAULT])
    (grouper (re_split (split_pattern st) new_text 0)).

(** The loop over the replacements: the text after all of them and whether
    one of them changed it. *)
Fixpoint apply_replacements (rs : list (Pattern * str)) (new_text : str)
         (matched : bool) : Exc (str * bool) :=
  match rs with
  | [] => Ok (new_text, matched)
  | (pat, template) :: rs' =>
      r <- re_subn pat template new_text ;;
      apply_replacements rs' (fst r) (matched || (0 <? snd r))
  end.

(** [_split_replacements]: do regex replacements on word text. *)
Definition _split_replacements (g : Graph) (n : Node) : Exc (list Node) :=
  match word_of n with
  | None => Ok []
  | Some word =>
      if nonempty (interpret_as word) then Ok []
      else
        let st := get_settings (lang n) in
        match replacements st with
        | [] => Ok []
        | rs =>
            r <- apply_replacements rs (text_with_ws word) false ;;
            if snd r then Ok (retokenize st (lang n) (fst r)) else Ok []
        end
  end.

(** The loop over the abbreviations: the expansion by the first pattern
    that matches. *)
Fixpoint first_abbreviation (abbrs : list (Pattern * str)) (tws : str)
  : Exc (option str) :=
  match abbrs with
  | [] => Ok None
  | (pat, template) :: rest =>
      match re_match pat tws with
      | Some mt => new_text <- expand pat mt template ;; Ok (Some new_text)
      | None => first_abbreviation rest tws
      end
  end.

(** [_split_abbreviations]: expand abbreviations. *)
Definition _split_abbreviations (g : Graph) (n : Node) : Exc (list Node) :=
  match word_of n with
  | None => Ok []
  | Some word =>
      if nonempty (interpret_as word) then Ok []
      else
        let st := get_settings (lang n) in
        match abbreviations st with
        | [] => Ok []
        | abbrs =>
            r <- first_abbreviation abbrs (text_with_ws word) ;;
            match r with
            | Some new_text => Ok (retokenize st (lang n) new_text)
            | None => Ok []
            end
        end
  end.

(** [_split_initialism]: split apart ABC or A.B.C. *)
Definition _split_initialism (g : Graph) (n : Node) : Exc (list Node) :=
  match word_of n with
  | None => Ok []
  | Some word =>
      if nonempty (interpret_as word) then Ok []
      else
        let st := get_settings (lang n) in
        match is_initialism st, split_initialism st with
        | Some is_init, Some split_init =>
            known <- in_lexicon st (text word) ;;
            if (known : bool) then Ok []
            else if negb (is_init (text word)) then Ok []
            else
              let parts := split_init (text word) in
              let '(first_ws, last_ws) :=
                get_whitespace st (text_with_ws word) in
              let last_part_idx := length parts - 1 in
              Ok (flat_map
                    (fun ip : nat * str =>
                       if negb (nonempty (snd ip)) then []
                       else
                         let part_text :=
                           with_outer_ws st first_ws last_ws last_part_idx
                                         (fst ip) (snd ip) in
                         [word_kw (strip part_text) part_text (lang n)
                                  ROLE_LETTER])
                    (enumerate parts))
        | _, _ => Ok []
        end
  end.

(** [_split_ignore_non_words]: mark non-words as ignored. *)
Definition _split_ignore_non_words (g : Graph) (n : Node) : Exc (list Node) :=
  match word_of n with
  | None => Ok []
  | Some word =>
      if nonempty (interpret_as word) then Ok []
      else
        let st := get_settings (lang n) in
        match is_non_word st with
        | None => Ok []
        | Some f => if f (text word) then Ok [mkNode IgnoreNode] else Ok []
        end
  end.

(** *** Transformations *)

Definition set_word (g : Graph) (n : Node) (w : WordData) : Graph :=
  set_node g (node n) (with_data (WordNode w) n).

Definition as_number (w : WordData) (d : Decimal) : WordData :=
  {| text := text w; text_with_ws := text_with_ws w;
     interpret_as := NUMBER; format := format w;
     number := Some d; date := date w;
     currency_symbol := currency_symbol w;
     currency_name := currency_name w; role := role w; pos := pos w;
     phonemes := phonemes w |}.

Definition _transform_number (g : Graph) (n : Node) : Exc Graph :=
  match word_of n with
  | None => Ok g
  | Some word =>
      if nonempty (interpret_as word)
         && negb (str_eqb (interpret_as word) NUMBER)
      then Ok g
      else
        let st := get_settings (lang n) in
        if negb (nonempty (babel_locale st)) then Raise (lit "AssertionError")
        else
          match parse_decimal L (text word) (babel_locale st) with
          | Some d => Ok (set_word g n (as_number word d))
          | None => Ok g
          end
  end.

Definition as_currency_symbol (w : WordData) (sym : str) (d : Decimal)
  : WordData :=
  {| text := text w; text_with_ws := text_with_ws w;
     interpret_as := CURRENCY; format := format w;
     number := Some d; date := date w;
     currency_symbol := Some sym;
     currency_name := currency_name w; role := role w; pos := pos w;
     phonemes := phonemes w |}.

Definition as_currency_name (w : WordData) (name : str) (d : Decimal)
  : WordData :=
  {| text := text w; text_with_ws := text_with_ws w;
     interpret_as := CURRENCY; format := format w;
     number := Some d; date := date w;
     currency_symbol := currency_symbol w;
     currency_name := Some name; role := role w; pos := pos w;
     phonemes := phonemes w |}.

(** The loop over the currency symbols: the first symbol the text starts
    with and whose remainder parses. *)
Fixpoint parse_with_symbols (st : TextProcessorSettings) (t : str)
         (symbols : list str) : option (str * Decimal) :=
  match symbols with
  | [] => None
  | sym :: rest =>
      if startswith t sym then
        match parse_decimal L (skipn (length sym) t) (babel_locale st) with
        | Some d => Some (sym, d)
        | None => parse_with_symbols st t rest
        end
      else parse_with_symbols st t rest
  end.

Definition _transform_currency (g : Graph) (n : Node) : Exc Graph :=
  match word_of n with
  | None => Ok g
  | Some word =>
      if nonempty (interpret_as word)
         && negb (str_eqb (interpret_as word) CURRENCY)
      then Ok g
      else
        let st := get_settings (lang n) in
        if negb (maybe (is_maybe_currency st) (text word)) then Ok g
        else if negb (nonempty (babel_locale st))
        then Raise (lit "AssertionError")
        else
          match parse_with_symbols st (text word) (currency_symbols st) with
          | Some (sym, d) => Ok (set_word g n (as_currency_symbol word sym d))
          | None =>
              if str_eqb (interpret_as word) CURRENCY
                 && nonempty (default_currency st)
              then
                match parse_decimal L (text word) (babel_locale st) with
                | Some d =>
                    Ok (set_word g n
                          (as_currency_name word (default_currency st) d))
                | None => Ok g
                end
              else Ok g
          end
  end.

Definition with_date (w : WordData) (ia : str) (d : DateTime) : WordData :=
  {| text := text w; text_with_ws := text_with_ws w;
     interpret_as := ia; format := format w;
     number := number w; date := Some d;
     currency_symbol := currency_symbol w;
     currency_name := currency_name w; role := role w; pos := pos w;
     phonemes := phonemes w |}.

Definition _transform_date (g : Graph) (n : Node) : Exc Graph :=
  match word_of n with
  | None => Ok g
  | Some word =>
      if nonempty (interpret_as word)
         && negb (str_eqb (interpret_as word) DATE)
      then Ok g
      else
        let st := get_settings (lang n) in
        if negb (maybe (is_maybe_date st) (text word)) then Ok g
        else if negb (nonempty (dateparser_lang st))
        then Raise (lit "AssertionError")
        else
          match dateparser_parse L (text word) (dateparser_lang st) true with
          | Some d => Ok (set_word g n (with_date word DATE d))
          | None =>
              if str_eqb (interpret_as word) DATE then
                match dateparser_parse L (text word) (dateparser_lang st)
                                       false with
                | Some d => Ok (set_word g n (with_date word (interpret_as word) d))
                | None => Ok g
                end
              else Ok g
          end
  end.

(** *** Verbalization *)

(** The precision of the default context of [decimal]. *)
Definition DEC_PREC : N := 28.

(** The integer part of the magnitude of a finite decimal. *)
Definition dec_int_mag (d : Decimal) : N :=
  if (0 <=? d_exp d)%Z
  then (d_coef d * N.pow 10 (Z.to_N (d_exp d)))%N
  else (d_coef d / N.pow 10 (Z.to_N (- d_exp d)))%N.

(** [(d % 1) != 0].  The remainder is an [InvalidOperation] for an
    infinity, for a signaling NaN, and when the integer quotient has more
    digits than the precision of the context; the remainder of a quiet NaN
    is a NaN, which is not equal to zero. *)
Definition dec_has_frac (d : Decimal) : Exc bool :=
  match d_kind d with
  | DInfinity | DsNaN => Raise (lit "InvalidOperation")
  | DNaN => Ok true
  | DFinite =>
      if (N.pow 10 DEC_PREC <=? dec_int_mag d)%N
      then Raise (lit "InvalidOperation")
      else if (0 <=? d_exp d)%Z then Ok false
      else Ok (negb (N.eqb (N.modulo (d_coef d)
                                     (N.pow 10 (Z.to_N (- d_exp d)))) 0))
  end.

(** [int(d)] for a finite decimal: towards zero. *)
Definition dec_int (d : Decimal) : Z :=
  if d_neg d then (- Z.of_N (dec_int_mag d))%Z else Z.of_N (dec_int_mag d).

(** The coefficient of [d.to_integral_value()] for a negative exponent:
    rounding half to even. *)
Definition dec_round (d : Decimal) : N :=
  let p := N.pow 10 (Z.to_N (- d_exp d)) in
  let q := (d_coef d / p)%N in
  let r := (d_coef d mod p)%N in
  if (p <? 2 * r)%N then (q + 1)%N
  else if (N.eqb (2 * r) p) && N.odd q then (q + 1)%N
  else q.

Fixpoint uint_digits (u : Decimal.uint) : list N :=
  match u with
  | Decimal.Nil => []
  | Decimal.D0 u' => 0%N :: uint_digits u'
  | Decimal.D1 u' => 1%N :: uint_digits u'
  | Decimal.D2 u' => 2%N :: uint_digits u'
  | Decimal.D3 u' => 3%N :: uint_digits u'
  | Decimal.D4 u' => 4%N :: uint_digits u'
  | Decimal.D5 u' => 5%N :: uint_digits u'
  | Decimal.D6 u' => 6%N :: uint_digits u'
  | Decimal.D7 u' => 7%N :: uint_digits u'
  | Decimal.D8 u' => 8%N :: uint_digits u'
  | Decimal.D9 u' => 9%N :: uint_digits u'
  end.

(** [[Decimal(d) for d in str(number.to_integral_value())]]: a sign, an
    exponent or a letter of a special value in the string is not a decimal
    and raises. *)
Definition dec_digits (d : Decimal) : Exc (list Decimal) :=
  match d_kind d with
  | DFinite =>
      if d_neg d then Raise (lit "InvalidOperation")
      else if (0 <? d_exp d)%Z then Raise (lit "InvalidOperation")
      else
        let c := if (d_exp d =? 0)%Z then d_coef d else dec_round d in
        Ok (map (fun k => {| d_neg := false; d_coef := k; d_exp := 0%Z;
                             d_kind := DFinite |})
                (uint_digits (N.to_uint c)))
  | _ => Raise (lit "InvalidOperation")
  end.

(** [re.sub(r"\W", join_str, s).strip()]. *)
Definition words_only (st : TextProcessorSettings) (s : str) : str :=
  strip (flat_map (fun c => if is_word_char c then [c] else join_str st) s).

(** The texts of the words a verbalized string is split into, with the
    whitespace of the original word around them. *)
Definition verbal_texts (st : TextProcessorSettings) (tws s : str)
  : list str :=
  let groups := grouper (re_split (split_pattern st) s 0) in
  let '(first_ws, last_ws) := get_whitespace st tws in
  let last_group_idx := length groups - 1 in
  flat_map
    (fun ig : nat * (option str * option str) =>
       let '(group_idx, (part, sep)) := ig in
       if negb (truthy part) then []
       else
         [if keep_whitespace st then
            (if group_idx =? 0 then first_ws ++ part_str part
             else part_str part)
            ++ (if group_idx =? last_group_idx then last_ws
                else part_str sep)
          else part_str part])
    (enumerate groups).

(** A word node for each text, added under the word. *)
Definition add_words (g : Graph) (n : Node) (texts : list str) : Graph :=
  fold_left
    (fun g' t =>
       let w := with_node (len g') (word_kw (strip t) t (lang n) ROLE_DEFAULT) in
       add_edge (add_node g' w) (node n) (node w))
    texts g.

Definition number_to (fmt : str) : option str :=
  if str_eqb fmt NUMBER_CARDINAL then Some (lit "cardinal")
  else if str_eqb fmt NUMBER_ORDINAL then Some (lit "ordinal")
  else if str_eqb fmt NUMBER_YEAR then Some (lit "year")
  else if str_eqb fmt NUMBER_DIGITS then Some (lit "cardinal")
  else None.

(** [float(d)] when the number has a fractional part, [int(d)] when it
    has none. *)
Definition to_num (d : Decimal) : Exc Num :=
  num_has_frac <- dec_has_frac d ;;
  Ok (if (num_has_frac : bool) then NFloat d else NInt (dec_int d)).

Definition number_kwargs (st : TextProcessorSettings) (w : WordData)
  : Num2WordsKwargs :=
  {| kw_lang := num2words_lang st;
     kw_to := number_to (format w);
     kw_currency := None; kw_separator := None |}.

(** [_verbalize_number]: split numbers into words. *)
Definition _verbalize_number (g : Graph) (n : Node) : Exc Graph :=
  match word_of n with
  | None => Ok g
  | Some word =>
      match number word with
      | None => Ok g
      | Some num =>
          if negb (str_eqb (interpret_as word) NUMBER) then Ok g
          else
            let st := get_settings (lang n) in
            if negb (maybe (is_maybe_number st) (text word)) then Ok g
            else if negb (nonempty (num2words_lang st))
            then Raise (lit "AssertionError")
            else
              let kwargs := number_kwargs st word in
              decimal_nums <-
                (if str_eqb (format word) NUMBER_DIGITS
                 then dec_digits num else Ok [num]) ;;
              foldM (fun g' decimal_num =>
                       final_num <- to_num decimal_num ;;
                       num_str <- num2words L final_num kwargs ;;
                       Ok (add_words g' n
                             (verbal_texts st (text_with_ws word)
                                           (words_only st num_str))))
                    decimal_nums g
      end
  end.

Definition date_kwargs (st : TextProcessorSettings) (to : string)
  : Num2WordsKwargs :=
  {| kw_lang := num2words_lang st; kw_to := Some (lit to);
     kw_currency := None; kw_separator := None |}.

(** The letters of the date format filled in; a letter that is not one of
    M, D, O and Y is a [KeyError] of [str.format]. *)
Fixpoint date_fields (m d o y : str) (fmt : str) : Exc (list str) :=
  match fmt with
  | [] => Ok []
  | c :: fmt' =>
      rest <- date_fields m d o y fmt' ;;
      if chr_eqb c "M"%char then Ok (m :: rest)
      else if chr_eqb c "D"%char then Ok (d :: rest)
      else if chr_eqb c "O"%char then Ok (o :: rest)
      else if chr_eqb c "Y"%char then Ok (y :: rest)
      else Raise (lit "KeyError")
  end.

(** [_verbalize_date]: split dates into words. *)
Definition _verbalize_date (g : Graph) (n : Node) : Exc Graph :=
  match word_of n with
  | None => Ok g
  | Some word =>
      match date word with
      | None => Ok g
      | Some dt =>
          if negb (str_eqb (interpret_as word) DATE) then Ok g
          else
            let st := get_settings (lang n) in
            if negb (nonempty (babel_locale st))
            then Raise (lit "AssertionError")
            else if negb (nonempty (num2words_lang st))
            then Raise (lit "AssertionError")
            else
            let date_format :=
              upper (strip (match format word with
                            | [] => default_date_format st
                            | f => f
                            end)) in
            let month_str :=
              if contains "M"%char date_format
              then format_month L dt (babel_locale st) else [] in
            day_card_str <-
              (if contains "D"%char date_format
               then num2words L (NInt (Z.of_nat (dt_day dt)))
                              (date_kwargs st "cardinal")
               else Ok []) ;;
            day_ord_str <-
              (if contains "O"%char date_format
               then num2words L (NInt (Z.of_nat (dt_day dt)))
                              (date_kwargs st "ordinal")
               else Ok []) ;;
            year_str <-
              (if contains "Y"%char date_format
               then num2words L (NInt (dt_year dt)) (date_kwargs st "year")
               else Ok []) ;;
            fields <- date_fields month_str day_card_str day_ord_str year_str
                                  date_format ;;
            let date_str := join (join_str st) fields in
            Ok (add_words g n
                  (filter nonempty
                          (verbal_texts st (text_with_ws word) date_str)))
      end
  end.

Definition with_currency_name (w : WordData) (name : str) : WordData :=
  {| text := text w; text_with_ws := text_with_ws w;
     interpret_as := interpret_as w; format := format w;
     number := number w; date := date w;
     currency_symbol := currency_symbol w;
     currency_name := Some name; role := role w; pos := pos w;
     phonemes := phonemes w |}.

(** The name of the currency: the one of the word, or the one the symbol
    stands for, or the default. *)
Definition currency_name_for (st : TextProcessorSettings) (w : WordData)
  : str :=
  match currencies st with
  | [] => default_currency st
  | cs =>
      match dict_get cs (part_str (currency_symbol w)) with
      | Some name => name
      | None => default_currency st
      end
  end.

(** The word with the name of its currency filled in. *)
Definition named_currency_word (st : TextProcessorSettings) (w : WordData)
  : WordData :=
  if truthy (currency_name w) then w
  else with_currency_name w (currency_name_for st w).

Definition currency_kwargs (st : TextProcessorSettings) (w : WordData)
  : Num2WordsKwargs :=
  {| kw_lang := num2words_lang st;
     kw_to := Some (lit "currency");
     kw_currency := currency_name (named_currency_word st w);
     kw_separator := Some (lit "|") |}.

(** [_verbalize_currency]: split currency amounts into words. *)
Definition _verbalize_currency (g : Graph) (n : Node) : Exc Graph :=
  match word_of n with
  | None => Ok g
  | Some word =>
      match number word with
      | None => Ok g
      | Some decimal_num =>
          if negb (str_eqb (interpret_as word) CURRENCY) then Ok g
          else
            match currency_symbol word, currency_name word with
            | None, None => Ok g
            | _, _ =>
                let st := get_settings (lang n) in
                if negb (nonempty (num2words_lang st))
                then Raise (lit "AssertionError")
                else
                num_has_frac <- dec_has_frac decimal_num ;;
                let g1 :=
                  if truthy (currency_name word) then g
                  else set_word g n (named_currency_word st word) in
                match num2words L (NFloat decimal_num)
                                (currency_kwargs st word) with
                | Raise e => Ok (add_log g1 (lit "verbalize_currency: " ++ e))
                | Ok num_str =>
                    let num_str' :=
                      if (num_has_frac : bool) then remove_chr "|"%char num_str
                      else before_chr "|"%char num_str in
                    Ok (add_words g1 n
                          (verbal_texts st (text_with_ws word)
                                        (words_only st num_str')))
                end
            end
      end
  end.

(** *** The sentence breaker *)

(** The path from a node up to the nearest sentence, nearest node first:
    [s_path].  [None] where Python would raise (a node without
    predecessor) or not end. *)
Fixpoint path_to_sentence (fuel : nat) (g : Graph) (i : nat)
  : option (list Node) :=
  match fuel with
  | 0 => None
  | S fuel' =>
      match predecessors g i with
      | [] => None
      | parent_node :: _ =>
          match get_node g parent_node with
          | None => None
          | Some parent =>
              if isSentenceNode parent then Some [parent]
              else
                match path_to_sentence fuel' g parent_node with
                | Some path => Some (parent :: path)
                | None => None
                end
          end
      end
  end.

(** [_find_parent]: tries to find a node of the class in the tree above
    the node; first among the predecessors, then above each of them. *)
Fixpoint _find_parent (fuel : nat) (g : Graph) (i : nat)
         (is_class : Node -> bool) : option Node :=
  match fuel with
  | 0 => None
  | S fuel' =>
      let parents :=
        flat_map (fun k => match get_node g k with
                           | Some p => [p]
                           | None => []
                           end)
                 (predecessors g i) in
      match find is_class parents with
      | Some p => Some p
      | None =>
          (fix above (ps : list Node) : option Node :=
             match ps with
             | [] => None
             | p :: ps' =>
                 match _find_parent fuel' g (node p) is_class with
                 | Some r => Some r
                 | None => above ps'
                 end
             end) parents
      end
  end.

(** The end of a turn of the loop of [_break_sentences]: a new sentence
    is created right after the current one in the paragraph, and the edges
    after the break are moved to it. *)
Definition move_to_new_sentence (g : Graph) (p_node s_node : Node)
           (p_edges : list (nat * nat)) (s_edge_idx : nat)
           (edges_to_move : list (nat * nat)) : Graph :=
  let g1 := remove_edges_from g p_edges in
  let new_s_node :=
    {| node := len g1; element := None; voice := []; lang := [];
       implicit := true; data := SentenceNode |} in
  let g2 := add_node g1 new_s_node in
  let p_edges' :=
    list_insert (s_edge_idx + 1) (node p_node, node new_s_node) p_edges in
  let g3 := add_edges_from g2 p_edges' in
  let g4 := remove_edges_from g3 edges_to_move in
  add_edges_from g4 (map (fun e => (node new_s_node, snd e)) edges_to_move).

(** One turn of the loop of [_break_sentences], for the leaf [leaf_node]. *)
Definition break_sentence_at (g : Graph) (leaf_node : Node) : Exc Graph :=
  match data leaf_node with
  | BreakWordNode MAJOR _ _ =>
      match path_to_sentence (S (len g)) g (node leaf_node) with
      | None => Raise (lit "StopIteration")
      | Some s_path =>
          match rev s_path with
          | s_node :: below_s_node :: _ =>
              if negb (implicit s_node) then Ok g
              else
                let s_edges := out_edges g (node s_node) in
                match index_of edge_eqb (node s_node, node below_s_node)
                               s_edges with
                | None => Raise (lit "ValueError")
                | Some break_edge_idx =>
                    match skipn (break_edge_idx + 1) s_edges with
                    | [] => Ok g
                    | edges_to_move =>
                        match _find_parent (S (len g)) g (node s_node)
                                           isParagraphNode with
                        | None => Raise (lit "AssertionError")
                        | Some p_node =>
                            let p_edges := out_edges g (node p_node) in
                            match index_of edge_eqb (node p_node, node s_node)
                                           p_edges with
                            | None => Raise (lit "ValueError")
                            | Some s_edge_idx =>
                                Ok (move_to_new_sentence g p_node s_node
                                      p_edges s_edge_idx edges_to_move)
                            end
                        end
                    end
                end
          | _ => Raise (lit "AssertionError")
          end
      end
  | _ => Ok g
  end.

(** [_break_sentences]: break sentences apart at
    [BreakWordNode(break_type="major")] nodes. *)
Definition _break_sentences (g : Graph) (root_node : nat) : Exc Graph :=
  foldM (fun g' leaf =>
           match get_node g' leaf with
           | Some n => break_sentence_at g' n
           | None => Ok g'
           end)
        (leaves g root_node) g.

(** *** Parts of speech and phonemes *)

Definition with_pos (w : WordData) (tag : str) : WordData :=
  {| text := text w; text_with_ws := text_with_ws w;
     interpret_as := interpret_as w; format := format w;
     number := number w; date := date w;
     currency_symbol := currency_symbol w;
     currency_name := currency_name w;
     role := match role w with [] => lit "gruut:" ++ tag | r => r end;
     pos := Some tag; phonemes := phonemes w |}.

Definition with_phonemes (w : WordData) (p : option (list str)) : WordData :=
  {| text := text w; text_with_ws := text_with_ws w;
     interpret_as := interpret_as w; format := format w;
     number := number w; date := date w;
     currency_symbol := currency_symbol w;
     currency_name := currency_name w; role := role w; pos := pos w;
     phonemes := p |}.

Definition word_at (g : Graph) (i : nat) : option (Node * WordData) :=
  match get_node g i with
  | Some n => match data n with WordNode w => Some (n, w) | _ => None end
  | None => None
  end.

Definition has_phonemes (w : WordData) : bool :=
  match phonemes w with Some (_ :: _) => true | _ => false end.

(** The second half of [process_sentence] for one word. *)
Definition phonemize_word (g : Graph) (i : nat) : Exc Graph :=
  match word_at g i with
  | None => Ok g
  | Some (n, word) =>
      if has_phonemes word then Ok g
      else
        let st := get_settings (lang n) in
        word1 <-
          match lookup_phonemes st with
          | Some f => p <- f (text word) (Some (role word)) ;;
                      Ok (with_phonemes word p)
          | None => Ok word
          end ;;
        word2 <-
          (if has_phonemes word1 then Ok word1
           else match guess_phonemes st with
                | Some f => p <- f (text word1) (Some (role word1)) ;;
                            Ok (with_phonemes word1 p)
                | None => Ok word1
                end) ;;
        Ok (set_word g n word2)
  end.

(** [process_sentence(words)]; [cur] is the node the loop over the tree is
    at when the function is called. *)
Definition process_sentence (pos_flag phonemize : bool) (cur : Node)
           (g : Graph) (word_ids : list nat) : Exc Graph :=
  g1 <-
    (if pos_flag then
       match get_parts_of_speech (get_settings (lang cur)) with
       | Some tagger =>
           pos_tags <-
             tagger (flat_map (fun i => match word_at g i with
                                        | Some (_, w) => [text w]
                                        | None => []
                                        end) word_ids) ;;
           Ok (fold_left
                 (fun g' it =>
                    match word_at g' (fst it) with
                    | Some (n, w) => set_word g' n (with_pos w (snd it))
                    | None => g'
                    end)
                 (combine word_ids pos_tags) g)
       | None => Ok g
       end
     else Ok g) ;;
  if phonemize then foldM phonemize_word word_ids g1 else Ok g1.

(** The loop that gathers the words of each sentence; the state is the
    graph and the words gathered so far. *)
Definition gather_step (pos_flag phonemize : bool)
           (acc : Graph * list nat) (i : nat) : Exc (Graph * list nat) :=
  let '(g, sentence_words) := acc in
  match get_node g i with
  | None => Ok acc
  | Some n =>
      if isSentenceNode n then
        match sentence_words with
        | [] => Ok acc
        | _ =>
            g' <- process_sentence pos_flag phonemize n g sentence_words ;;
            Ok (g', [])
        end
      else if (out_degree g i =? 0) && isWordNode n
      then Ok (g, sentence_words ++ [i])
      else Ok acc
  end.

Definition enrich (pos_flag phonemize : bool) (g : Graph) (root_node : nat)
  : Exc Graph :=
  let order := dfs_preorder_nodes g root_node in
  acc <- foldM (gather_step pos_flag phonemize) order (g, []) ;;
  match snd acc, get_node (fst acc) (last order root_node) with
  | _ :: _, Some cur =>
      process_sentence pos_flag phonemize cur (fst acc) (snd acc)
  | _, _ => Ok (fst acc)
  end.

(** The sentence post-processors; [post_process_graph] does nothing. *)
Definition post_process_sentences (g : Graph) (root_node : nat) : Exc Graph :=
  foldM (fun g' i =>
           match get_node g' i with
           | Some n =>
               if isSentenceNode n then
                 match post_process_sentence (get_settings (lang n)) with
                 | Some f => f g' n
                 | None => Ok g'
                 end
               else Ok g'
           | None => Ok g'
           end)
        (dfs_preorder_nodes g root_node) g.

(** *** The pipeline *)

(** The passes of [__call__] after the tree is built. *)
Definition run_pipeline (pos_flag phonemize post_process : bool)
           (g0 : Graph) (r : nat) : Exc Graph :=
  g <- pipeline_split _split_replacements g0 r ;;
  g <- pipeline_split _split_punctuations g r ;;
  g <- pipeline_split _split_minor_breaks g r ;;
  g <- pipeline_split _split_abbreviations g r ;;
  g <- pipeline_split _split_initialism g r ;;
  g <- pipeline_split _split_major_breaks g r ;;
  g <- pipeline_split _split_punctuations g r ;;
  g <- pipeline_split _split_initialism g r ;;
  g <- _break_sentences g r ;;
  g <- pipeline_split _split_spell_out g r ;;
  g <- pipeline_transform _transform_number g r ;;
  g <- pipeline_transform _transform_currency g r ;;
  g <- pipeline_transform _transform_date g r ;;
  g <- pipeline_transform _verbalize_number g r ;;
  g <- pipeline_transform _verbalize_currency g r ;;
  g <- pipeline_transform _verbalize_date g r ;;
  g <- pipeline_split _break_words g r ;;
  g <- pipeline_split _split_ignore_non_words g r ;;
  g <- enrich pos_flag phonemize g r ;;
  if post_process then post_process_sentences g r else Ok g.

(** [__call__] from the events of the document on. *)
Definition process_events (events : list Event)
           (pos_flag phonemize post_process : bool) : Exc (Graph * Node) :=
  b <- build_tree events ;;
  match root b with
  | None => Raise (lit "AssertionError")
  | Some r =>
      g <- run_pipeline pos_flag phonemize post_process (graph b) (node r) ;;
      Ok (g, r)
  end.

(** The first lines of [__call__]: the document handed to the XML
    reader. *)
Definition xml_text (txt : str) (ssml add_speak_tag : bool) : str :=
  let txt1 := if ssml then txt else escape txt in
  if add_speak_tag && negb (startswith (lstrip txt1) (lit "<"))
  then lit "<speak>" ++ txt1 ++ lit "</speak>"
  else txt1.

(** [__call__]: processes text and SSML. *)
Definition call (txt : str) (ssml pos_flag phonemize post_process
                             add_speak_tag : bool) : Exc (Graph * Node) :=
  root_element <- fromstring L (xml_text txt ssml add_speak_tag) ;;
  process_events (text_and_elements false root_element)
                 pos_flag phonemize post_process.

(** *** Sentences *)

Definition get_lang (explicit_lang : bool) (lg : str) : str :=
  if explicit_lang || negb (str_eqb lg (default_lang self)) then lg else [].

Definition set_voice (v : str) (w : Word) : Word :=
  {| idx := idx w; sent_idx := sent_idx w; w_text := w_text w;
     w_text_with_ws := w_text_with_ws w; w_phonemes := w_phonemes w;
     w_pos := w_pos w; w_lang := w_lang w; w_voice := v;
     is_break := is_break w; is_punctuation := is_punctuation w |}.

(** The voice used across all words: the loop of [make_sentence]. *)
Fixpoint common_voice (ws : list Word) (sent_voice : str) : str :=
  match ws with
  | [] => sent_voice
  | w :: ws' =>
      match w_voice w with
      | [] => common_voice ws' sent_voice
      | v =>
          if nonempty sent_voice && negb (str_eqb sent_voice v) then []
          else common_voice ws' v
      end
  end.

Definition make_sentence (explicit_lang : bool) (n : Node) (ws : list Word)
           (si : nat) : Sentence :=
  let st := get_settings (lang n) in
  let tws := concat (map w_text_with_ws ws) in
  let sent_voice := common_voice ws [] in
  {| s_idx := si;
     s_text := normalize_whitespace st tws;
     s_text_with_ws := tws;
     s_lang := get_lang explicit_lang (lang n);
     s_voice := sent_voice;
     words := match sent_voice with
              | [] => ws
              | v => map (set_voice v) ws
              end |}.

(** [_phonemes_for_break]; the symbols are [IPA.BREAK_MAJOR] and
    [IPA.BREAK_MINOR] of [gruut_ipa]: the double bar (U+2016), which is
    not among the 8-bit characters of the strings here and is written with
    two bars, and the bar. *)
Definition _phonemes_for_break (bt : BreakType) : option (list str) :=
  match bt with
  | MAJOR => Some [lit "||"]
  | MINOR => Some [lit "|"]
  end.

(** The local variables of [sentences]. *)
Record Iter : Type := {
  it_sent_idx : nat;
  it_word_idx : nat;
  it_words : list Word;
  it_last_sentence_node : option Node;
  it_out : list Sentence
}.

Definition push_word (it : Iter) (w : Word) : Iter :=
  {| it_sent_idx := it_sent_idx it; it_word_idx := S (it_word_idx it);
     it_words := it_words it ++ [w];
     it_last_sentence_node := it_last_sentence_node it;
     it_out := it_out it |}.

(** The word a leaf gives, if it gives one. *)
Definition leaf_word (major_breaks minor_breaks punctuations explicit_lang
                      break_phonemes : bool) (it : Iter) (n : Node)
  : option Word :=
  match data n with
  | WordNode word =>
      Some {| idx := it_word_idx it; sent_idx := it_sent_idx it;
              w_text := text word; w_text_with_ws := text_with_ws word;
              w_phonemes := phonemes word; w_pos := pos word;
              w_lang := get_lang explicit_lang (lang n);
              w_voice := voice n; is_break := false;
              is_punctuation := false |}
  | BreakWordNode bt t tws =>
      if (minor_breaks && BreakType_eqb bt MINOR)
         || (major_breaks && BreakType_eqb bt MAJOR)
      then
        Some {| idx := it_word_idx it; sent_idx := it_sent_idx it;
                w_text := t; w_text_with_ws := tws;
                w_phonemes :=
                  if break_phonemes then _phonemes_for_break bt else None;
                w_pos := None;
                w_lang := get_lang explicit_lang (lang n);
                w_voice := []; is_break := true;
                is_punctuation := false |}
      else None
  | PunctuationWordNode t tws =>
      if punctuations then
        Some {| idx := it_word_idx it; sent_idx := it_sent_idx it;
                w_text := t; w_text_with_ws := tws;
                w_phonemes := None; w_pos := None;
                w_lang := get_lang explicit_lang (lang n);
                w_voice := []; is_break := false;
                is_punctuation := true |}
      else None
  | _ => None
  end.

Definition sentences_step (g : Graph)
           (major_breaks minor_breaks punctuations explicit_lang
            break_phonemes : bool) (it : Iter) (i : nat) : Iter :=
  match get_node g i with
  | None => it
  | Some n =>
      if isSentenceNode n then
        match it_words it, it_last_sentence_node it with
        | _ :: _, Some last =>
            {| it_sent_idx := S (it_sent_idx it); it_word_idx := 0;
               it_words := []; it_last_sentence_node := Some n;
               it_out := it_out it
                         ++ [make_sentence explicit_lang last (it_words it)
                                           (it_sent_idx it)] |}
        | _, _ =>
            {| it_sent_idx := it_sent_idx it; it_word_idx := it_word_idx it;
               it_words := it_words it; it_last_sentence_node := Some n;
               it_out := it_out it |}
        end
      else if out_degree g i =? 0 then
        match leaf_word major_breaks minor_breaks punctuations explicit_lang
                        break_phonemes it n with
        | Some w => push_word it w
        | None => it
        end
      else it
  end.

(** [sentences]: the sentences of a processed graph. *)
Definition sentences (g : Graph) (r : Node)
           (major_breaks minor_breaks punctuations explicit_lang
            break_phonemes : bool) : list Sentence :=
  let it :=
    fold_left (sentences_step g major_breaks minor_breaks punctuations
                              explicit_lang break_phonemes)
              (dfs_preorder_nodes g (node r))
              {| it_sent_idx := 0; it_word_idx := 0; it_words := [];
                 it_last_sentence_node := None; it_out := [] |} in
  match it_words it, it_last_sentence_node it with
  | _ :: _, Some last =>
      it_out it
      ++ [make_sentence explicit_lang last (it_words it) (it_sent_idx it)]
  | _, _ => it_out it
  end.

(** [words]: the words of all sentences. *)
Definition all_words (g : Graph) (r : Node)
           (major_breaks minor_breaks punctuations explicit_lang
            break_phonemes : bool) : list Word :=
  flat_map words (sentences g r major_breaks minor_breaks punctuations
                            explicit_lang break_phonemes).

End Processor.

End TextProcessor.

Import TextProcessor.

(** ** Made-up collaborators

    As the tests of the repository do, the examples below run the processor
    with small stand-ins for the libraries: a reader for the documents the
    plain-text path produces, a decimal parser for digit strings and a
    [num2words] for a few numbers. *)

Module Fixtures.

(** [Char] of XML 1.0 for code points below 256: tab, line feed, carriage
    return and everything from the space on. *)
Definition xml_char (c : ascii) : bool :=
  let n := code c in (n =? 9) || (n =? 10) || (n =? 13) || (32 <=? n).

Definition LF : ascii := ascii_of_nat 10.
Definition CR : ascii := ascii_of_nat 13.

(** Character data as the reader returns it: the three entities of
    [saxutils.escape] are replaced, line ends are normalized to a line
    feed, and a character that is not an XML character, a [<] or an
    ampersand that starts no entity is an error. *)
Fixpoint chardata (s : str) : option str :=
  match s with
  | [] => Some []
  | c :: s' =>
      if chr_eqb c "&"%char then
        match s' with
        | c1 :: c2 :: c3 :: s3 =>
            if str_eqb [c1; c2; c3] (lit "lt;")
            then option_map (cons "<"%char) (chardata s3)
            else if str_eqb [c1; c2; c3] (lit "gt;")
            then option_map (cons ">"%char) (chardata s3)
            else
              match s3 with
              | c4 :: s4 =>
                  if str_eqb [c1; c2; c3; c4] (lit "amp;")
                  then option_map (cons "&"%char) (chardata s4)
                  else None
              | [] => None
              end
        | _ => None
        end
      else if chr_eqb c "<"%char || negb (xml_char c) then None
      else if chr_eqb c CR then
        match s' with
        | d :: s'' =>
            if chr_eqb d LF then option_map (cons LF) (chardata s'')
            else option_map (cons LF) (chardata s')
        | [] => Some [LF]
        end
      else option_map (cons c) (chardata s')
  end.

(** Line ends as the XML reader reports them. *)
Fixpoint normalize_eol (s : str) : str :=
  match s with
  | [] => []
  | c :: s' =>
      if chr_eqb c CR then
        match s' with
        | d :: s'' =>
            if chr_eqb d LF then LF :: normalize_eol s''
            else LF :: normalize_eol s'
        | [] => [LF]
        end
      else c :: normalize_eol s'
  end.

(** A reader for documents of the shape [<speak>character data</speak>];
    anything else is refused. *)
Definition plain_fromstring (doc : str) : Exc Element :=
  let open := lit "<speak>" in
  let close := lit "</speak>" in
  if startswith doc open && endswith doc close
     && (length open + length close <=? length doc) then
    let body :=
      firstn (length doc - length open - length close)
             (skipn (length open) doc) in
    match chardata body with
    | Some [] => Ok (mkElement (lit "speak") [] None [] None)
    | Some t => Ok (mkElement (lit "speak") [] (Some t) [] None)
    | None => Raise (lit "ParseError")
    end
  else Raise (lit "ParseError").

(** A decimal parser for strings of ASCII digits. *)
Definition digits_value (t : str) : N :=
  fold_left (fun a c => (10 * a + N.of_nat (digit_val c))%N) t 0%N.

Definition parse_digits (t : str) (locale : str) : option Decimal :=
  if nonempty t && forallb is_ascii_digit t
  then Some {| d_neg := false; d_coef := digits_value t; d_exp := 0;
               d_kind := DFinite |}
  else None.

(** A [num2words] that knows a few cardinals and raises for currencies it
    is not told about. *)
Definition small_num2words (n : Num) (kw : Num2WordsKwargs) : Exc str :=
  match kw_currency kw, n with
  | Some _, _ => Raise (lit "NotImplementedError")
  | None, NInt 1 => Ok (lit "one")
  | None, NInt 2 => Ok (lit "two")
  | None, NInt 3 => Ok (lit "three")
  | None, NInt 7 => Ok (lit "seven")
  | None, NInt 10 => Ok (lit "ten")
  | None, NInt 21 => Ok (lit "twenty-one")
  | None, _ => Raise (lit "NotImplementedError")
  end.

(** A [num2words] that also speaks dollars. *)
Definition dollar_num2words (n : Num) (kw : Num2WordsKwargs) : Exc str :=
  match kw_currency kw, n with
  | Some _, NFloat {| d_neg := false; d_coef := 10%N; d_exp := 0%Z;
                      d_kind := DFinite |} =>
      Ok (lit "ten dollars|zero cents")
  | _, _ => small_num2words n kw
  end.

Definition no_pattern (s : str) : Pattern :=
  {| pattern := s; prog := RFail; groups := 0; groupindex := [] |}.

Definition libs : Libs :=
  {| re_compile := no_pattern;
     parse_decimal := parse_digits;
     dateparser_parse := fun _ _ _ => None;
     format_month := fun _ _ => [];
     num2words := small_num2words;
     locale_currencies := fun _ => [(lit "$", lit "USD")];
     fromstring := plain_fromstring;
     resolve_lang := fun l => l |}.

Definition dollar_libs : Libs :=
  {| re_compile := no_pattern;
     parse_decimal := parse_digits;
     dateparser_parse := fun _ _ _ => None;
     format_month := fun _ _ => [];
     num2words := dollar_num2words;
     locale_currencies := fun _ => [(lit "$", lit "USD")];
     fromstring := plain_fromstring;
     resolve_lang := fun l => l |}.

Definition en_US : str := lit "en_US".

(** A processor made from keyword arguments, with the default language. *)
Definition processor (L : Libs) (kwargs : TextProcessorSettingsArgs)
  : Processor :=
  init L en_US [] (fun lang_code => kwargs).

(** An element with text only. *)
Definition leaf_element (tag : string) (attrs : list (str * str))
           (t : string) : Element :=
  mkElement (lit tag) attrs (Some (lit t)) [] None.

(** An element with children only. *)
Definition parent_element (tag : string) (ch : list Element) : Element :=
  mkElement (lit tag) [] None ch None.

(** The [text_with_ws] of the words of the sentences of a processed
    document. *)
Definition texts_with_ws (L : Libs) (p : Processor)
           (r : Exc (Graph * Node)) : Exc (list str) :=
  gr <- r ;;
  Ok (map w_text_with_ws
          (all_words L p (fst gr) (snd gr) true true true true true)).

(** The default settings with other break and punctuation sets. *)
Definition with_sets (a : TextProcessorSettingsArgs)
           (begin_p end_p : option (list str)) (minor major wbreaks : list str)
  : TextProcessorSettingsArgs :=
  {| a_lang := a_lang a;
     a_split_pattern := a_split_pattern a;
     a_join_str := a_join_str a;
     a_keep_whitespace := a_keep_whitespace a;
     a_is_non_word := a_is_non_word a;
     a_get_whitespace := a_get_whitespace a;
     a_normalize_whitespace := a_normalize_whitespace a;
     a_begin_punctuations := begin_p;
     a_begin_punctuations_pattern := a_begin_punctuations_pattern a;
     a_end_punctuations := end_p;
     a_end_punctuations_pattern := a_end_punctuations_pattern a;
     a_replacements := a_replacements a;
     a_abbreviations := a_abbreviations a;
     a_spell_out_words := a_spell_out_words a;
     a_major_breaks := major;
     a_major_breaks_pattern := a_major_breaks_pattern a;
     a_minor_breaks := minor;
     a_minor_breaks_pattern := a_minor_breaks_pattern a;
     a_word_breaks := wbreaks;
     a_word_breaks_pattern := a_word_breaks_pattern a;
     a_is_maybe_number := a_is_maybe_number a;
     a_babel_locale := a_babel_locale a;
     a_num2words_lang := a_num2words_lang a;
     a_default_currency := a_default_currency a;
     a_currencies := a_currencies a;
     a_currency_symbols := a_currency_symbols a;
     a_is_maybe_currency := a_is_maybe_currency a;
     a_dateparser_lang := a_dateparser_lang a;
     a_is_maybe_date := a_is_maybe_date a;
     a_default_date_format := a_default_date_format a;
     a_get_parts_of_speech := a_get_parts_of_speech a;
     a_is_initialism := a_is_initialism a;
     a_split_initialism := a_split_initialism a;
     a_lookup_phonemes := a_lookup_phonemes a;
     a_guess_phonemes := a_guess_phonemes a;
     a_pre_process_text := a_pre_process_text a;
     a_post_process_sentence := a_post_process_sentence a |}.

(** [TextProcessor(word_breaks={"-"})], as in [test_word_breaks]. *)
Definition word_breaks_args : TextProcessorSettingsArgs :=
  with_sets (default_args en_US) None None [] [] [lit "-"].

(** The default settings with other predicates, abbreviations and
    phoneme lookup. *)
Definition with_callbacks (a : TextProcessorSettingsArgs)
           (maybe_number : option (str -> bool))
           (abbrs : list (REGEX_TYPE * str))
           (lookup : option LookupPhonemes)
  : TextProcessorSettingsArgs :=
  {| a_lang := a_lang a;
     a_split_pattern := a_split_pattern a;
     a_join_str := a_join_str a;
     a_keep_whitespace := a_keep_whitespace a;
     a_is_non_word := a_is_non_word a;
     a_get_whitespace := a_get_whitespace a;
     a_normalize_whitespace := a_normalize_whitespace a;
     a_begin_punctuations := a_begin_punctuations a;
     a_begin_punctuations_pattern := a_begin_punctuations_pattern a;
     a_end_punctuations := a_end_punctuations a;
     a_end_punctuations_pattern := a_end_punctuations_pattern a;
     a_replacements := a_replacements a;
     a_abbreviations := abbrs;
     a_spell_out_words := a_spell_out_words a;
     a_major_breaks := a_major_breaks a;
     a_major_breaks_pattern := a_major_breaks_pattern a;
     a_minor_breaks := a_minor_breaks a;
     a_minor_breaks_pattern := a_minor_breaks_pattern a;
     a_word_breaks := a_word_breaks a;
     a_word_breaks_pattern := a_word_breaks_pattern a;
     a_is_maybe_number := maybe_number;
     a_babel_locale := a_babel_locale a;
     a_num2words_lang := a_num2words_lang a;
     a_default_currency := a_default_currency a;
     a_currencies := a_currencies a;
     a_currency_symbols := a_currency_symbols a;
     a_is_maybe_currency := a_is_maybe_currency a;
     a_dateparser_lang := a_dateparser_lang a;
     a_is_maybe_date := a_is_maybe_date a;
     a_default_date_format := a_default_date_format a;
     a_get_parts_of_speech := a_get_parts_of_speech a;
     a_is_initialism := a_is_initialism a;
     a_split_initialism := a_split_initialism a;
     a_lookup_phonemes := lookup;
     a_guess_phonemes := a_guess_phonemes a;
     a_pre_process_text := a_pre_process_text a;
     a_post_process_sentence := a_post_process_sentence a |}.

(** The word nodes of a graph, by node number. *)
Definition word_data (g : Graph) (i : nat) : option WordData :=
  match get_node g i with
  | Some n => word_of n
  | None => None
  end.

(** [<speak><sub alias="A">x</sub><w>y</w></speak>]. *)
Definition sub_then_word : Element :=
  parent_element "speak"
    [leaf_element "sub" [(lit "alias", lit "A")] "x";
     leaf_element "w" [] "y"].

(** Settings whose [is_maybe_number] lets no word through. *)
Definition never_number_args : TextProcessorSettingsArgs :=
  with_callbacks (default_args en_US) (Some (fun _ => false)) [] None.



(** A word that is ten dollars, and a graph with a sentence that has just
    this word. *)
Definition ten_dollars_word : WordData :=
  {| text := lit "$10"; text_with_ws := lit "$10";
     interpret_as := CURRENCY; format := [];
     number := Some {| d_neg := false; d_coef := 10%N; d_exp := 0%Z;
                       d_kind := DFinite |};
     date := None; currency_symbol := Some (lit "$");
     currency_name := None; role := ROLE_DEFAULT; pos := None;
     phonemes := None |}.

Definition ten_dollars_node : Node :=
  {| node := 1; element := None; voice := []; lang := en_US;
     implicit := true; data := WordNode ten_dollars_word |}.

Definition ten_dollars_graph : Graph :=
  {| nodes := [with_data SentenceNode (mkNode SentenceNode);
               ten_dollars_node];
     edges := [(0, 1)]; log := [] |}.

(** Begin punctuation with a literal that is a prefix of another one, the
    shorter one first in the set. *)
Definition nested_parens_args : TextProcessorSettingsArgs :=
  with_sets (default_args en_US) (Some [lit "("; lit "(("]) None [] [] [].

(** [re.compile("Mr")] and an abbreviation for it. *)
Definition mr_pattern : Pattern :=
  {| pattern := lit "Mr"; prog := RLit (lit "Mr"); groups := 0;
     groupindex := [] |}.

Definition mister_args : TextProcessorSettingsArgs :=
  with_callbacks (default_args en_US) (Some has_digit)
                 [(Compiled mr_pattern, lit "Mister")] None.

End Fixtures.

Import Fixtures.

(** ** Properties of nodes and graphs *)

Module Props.

(** The text of a word node is its text with whitespace, stripped. *)
Definition text_is_stripped (n : Node) : Prop :=
  match data n with
  | WordNode w => text w = strip (text_with_ws w)
  | _ => True
  end.

(** The text of a word node is its text with whitespace, normalized by
    the settings. *)
Definition text_is_normalized (st : TextProcessorSettings) (n : Node) : Prop :=
  match data n with
  | WordNode w => text w = normalize_whitespace st (text_with_ws w)
  | _ => True
  end.

(** The nodes of [g'] that were added after [g]. *)
Definition created (g g' : Graph) : list Node := skipn (len g) (nodes g').

(** [<speak><say-as interpret-as="spell-out"> ab</say-as></speak>]. *)
Definition spell_out_with_space : Element :=
  parent_element "speak"
    [leaf_element "say-as" [(lit "interpret-as", lit "spell-out")] " ab"].

(** What the interpretation of a word promises about its fields: a number
    has its value, a date its date, a currency amount its value and a
    currency symbol or name. *)
Definition word_typed (w : WordData) : Prop :=
  (interpret_as w = NUMBER -> number w <> None)
  /\ (interpret_as w = DATE -> date w <> None)
  /\ (interpret_as w = CURRENCY ->
      number w <> None
      /\ (currency_symbol w <> None \/ currency_name w <> None)).

Definition typed_ok (n : Node) : Prop :=
  match data n with
  | WordNode w => word_typed w
  | _ => True
  end.

(** A word without interpretation. *)
Definition uninterpreted (n : Node) : Prop :=
  match data n with
  | WordNode w => interpret_as w = []
  | _ => True
  end.

(** No [<say-as>] element starts among the events. *)
Definition no_say_as (events : list Event) : Prop :=
  forall e is_last,
    In (EvStart e is_last) events ->
    tag_is (tag_no_namespace (e_tag e)) "say-as" = false.

(** While a document without [<say-as>] is read: the stack of [<say-as>]
    is empty, and the nodes made so far keep the promise of the
    interpretations. *)
Definition build_ok (b : Build) : Prop :=
  say_as_stack b = []
  /\ Forall typed_ok (nodes (graph b))
  /\ (forall r, root b = Some r -> typed_ok r).





(** The settings with another phoneme guesser. *)
Definition with_guess (a : TextProcessorSettingsArgs)
           (guess : option LookupPhonemes)
  : TextProcessorSettingsArgs :=
  {| a_lang := a_lang a;
     a_split_pattern := a_split_pattern a;
     a_join_str := a_join_str a;
     a_keep_whitespace := a_keep_whitespace a;
     a_is_non_word := a_is_non_word a;
     a_get_whitespace := a_get_whitespace a;
     a_normalize_whitespace := a_normalize_whitespace a;
     a_begin_punctuations := a_begin_punctuations a;
     a_begin_punctuations_pattern := a_begin_punctuations_pattern a;
     a_end_punctuations := a_end_punctuations a;
     a_end_punctuations_pattern := a_end_punctuations_pattern a;
     a_replacements := a_replacements a;
     a_abbreviations := a_abbreviations a;
     a_spell_out_words := a_spell_out_words a;
     a_major_breaks := a_major_breaks a;
     a_major_breaks_pattern := a_major_breaks_pattern a;
     a_minor_breaks := a_minor_breaks a;
     a_minor_breaks_pattern := a_minor_breaks_pattern a;
     a_word_breaks := a_word_breaks a;
     a_word_breaks_pattern := a_word_breaks_pattern a;
     a_is_maybe_number := a_is_maybe_number a;
     a_babel_locale := a_babel_locale a;
     a_num2words_lang := a_num2words_lang a;
     a_default_currency := a_default_currency a;
     a_currencies := a_currencies a;
     a_currency_symbols := a_currency_symbols a;
     a_is_maybe_currency := a_is_maybe_currency a;
     a_dateparser_lang := a_dateparser_lang a;
     a_is_maybe_date := a_is_maybe_date a;
     a_default_date_format := a_default_date_format a;
     a_get_parts_of_speech := a_get_parts_of_speech a;
     a_is_initialism := a_is_initialism a;
     a_split_initialism := a_split_initialism a;
     a_lookup_phonemes := a_lookup_phonemes a;
     a_guess_phonemes := guess;
     a_pre_process_text := a_pre_process_text a;
     a_post_process_sentence := a_post_process_sentence a |}.

(** A lexicon that knows no word, and a guesser that is out of order. *)
Definition empty_lookup : LookupPhonemes := fun _ _ => Ok None.

Definition broken_guess : LookupPhonemes :=
  fun _ _ => Raise (lit "GuessError").

Definition broken_guess_args : TextProcessorSettingsArgs :=
  with_guess (with_callbacks (default_args en_US) (Some has_digit) []
                             (Some empty_lookup))
             (Some broken_guess).

(** No language has a sentence post-processor. *)
Definition no_post_processor (L : Libs) (self : Processor) : Prop :=
  forall lg, post_process_sentence (get_settings L self lg) = None.

(** [<speak><say-as interpret-as="number">abc</say-as></speak>]. *)
Definition forced_number : Element :=
  parent_element "speak"
    [leaf_element "say-as" [(lit "interpret-as", lit "number")] "abc"].

Fixpoint nodup_edges (es : list (nat * nat)) : bool :=
  match es with
  | [] => true
  | e :: es' => negb (has_edge es' e) && nodup_edges es'
  end.

(** A well-formed graph: no edge twice, edges between nodes of the graph,
    and every node object numbered by its place. *)
Definition wf_graph (g : Graph) : bool :=
  nodup_edges (edges g)
  && forallb (fun e => (fst e <? len g) && (snd e <? len g)) (edges g)
  && forallb (fun ix => node (snd ix) =? fst ix) (enumerate (nodes g)).

(** One turn of the loop of [_break_sentences], for the leaf with the
    number [leaf]. *)
Definition break_turn (g : Graph) (leaf : nat) : Exc Graph :=
  match get_node g leaf with
  | Some n => break_sentence_at g n
  | None => Ok g
  end.

(** The sentence the breaker adds. *)
Definition new_sentence (g : Graph) : Node :=
  {| node := len g; element := None; voice := []; lang := [];
     implicit := true; data := SentenceNode |}.

(** A tree for "a. b" after the split passes: the sentence has the words
    "a." and "b", and "a." has been split into "a" and the break ".". *)
Definition two_sentences_graph : Graph :=
  {| nodes :=
       [ {| node := 0; element := None; voice := []; lang := en_US;
            implicit := true; data := SpeakNode |};
         {| node := 1; element := None; voice := []; lang := en_US;
            implicit := true; data := ParagraphNode |};
         {| node := 2; element := None; voice := []; lang := en_US;
            implicit := true; data := SentenceNode |};
         with_node 3 (word_kw (lit "a.") (lit "a. ") en_US ROLE_DEFAULT);
         with_node 4 (word_kw (lit "b") (lit "b") en_US ROLE_DEFAULT);
         with_node 5 (word_kw (lit "a") (lit "a") en_US ROLE_DEFAULT);
         with_node 6 (break_kw MAJOR (lit ".") (lit ". ") en_US) ];
     edges := [(0, 1); (1, 2); (2, 3); (2, 4); (3, 5); (3, 6)];
     log := [] |}.

(** Settings that only split at whitespace and keep it: no
    pre-processing, replacements, punctuation, breaks, abbreviations,
    initialisms, word breaks, non-word test, tagger, lexicon or
    post-processor. *)
Definition plain_settings (st : TextProcessorSettings) : Prop :=
  keep_whitespace st = true
  /\ split_pattern st = DEFAULT_SPLIT_PATTERN
  /\ pre_process_text st = None
  /\ replacements st = []
  /\ begin_punctuations_pattern st = None
  /\ end_punctuations_pattern st = None
  /\ minor_breaks_pattern st = None
  /\ major_breaks_pattern st = None
  /\ word_breaks_pattern st = None
  /\ abbreviations st = []
  /\ is_initialism st = None
  /\ is_non_word st = None
  /\ get_parts_of_speech st = None
  /\ lookup_phonemes st = None
  /\ guess_phonemes st = None
  /\ post_process_sentence st = None.

(** The settings name the locale of the number parser and the language of
    the date parser, as the transformations assert. *)
Definition locales_set (st : TextProcessorSettings) : Prop :=
  nonempty (babel_locale st) = true /\ nonempty (dateparser_lang st) = true.

(** The texts with whitespace of the words [_pipeline_tokenize] makes. *)
Definition token_texts (st : TextProcessorSettings) (txt : str) : list str :=
  map (tokenize_word_text st (fst (get_whitespace st txt)))
      (enumerate (tokenize_groups st txt)).

(** The parts and separators of a text split at its runs of whitespace,
    as [split_loop] finds them with the default split pattern. *)
Fixpoint ws_split (fuel : nat) (s : str) : list (option str) :=
  match fuel with
  | 0 => [Some s]
  | S fuel' =>
      let part := take_while (fun c => negb (is_space c)) s in
      match drop_while (fun c => negb (is_space c)) s with
      | [] => [Some s]
      | rest =>
          Some part :: Some (take_while is_space rest)
          :: ws_split fuel' (drop_while is_space rest)
      end
  end.

(** A stripped word text that is no number, no currency amount and no
    date: the test of the settings refuses it, or the parser does. *)
Definition numeral_free (L : Libs) (st : TextProcessorSettings) (t : str)
  : Prop :=
  (maybe (is_maybe_number st) t = false
   \/ parse_decimal L t (babel_locale st) = None)
  /\ (maybe (is_maybe_currency st) t = false
      \/ parse_with_symbols L st t (currency_symbols st) = None)
  /\ (maybe (is_maybe_date st) t = false
      \/ dateparser_parse L t (dateparser_lang st) true = None).

(** No word of the text is a number, a currency amount or a date. *)
Definition no_numerals (L : Libs) (st : TextProcessorSettings) (txt : str)
  : Prop :=
  forall t, In t (token_texts st txt) -> numeral_free L st (strip t).

Definition word_text_with_ws (n : Node) : str :=
  match data n with
  | WordNode w => text_with_ws w
  | _ => []
  end.

(** A word node that no pass splits: its text is the stripped text with
    whitespace and is numeral free, and it is not interpreted, or as a
    number that is not to be verbalized. *)
Definition plain_word (L : Libs) (st : TextProcessorSettings) (n : Node)
  : Prop :=
  exists w,
    data n = WordNode w
    /\ text w = strip (text_with_ws w)
    /\ numeral_free L st (text w)
    /\ (interpret_as w = []
        \/ (interpret_as w = NUMBER
            /\ maybe (is_maybe_number st) (text w) = false)).

(** The tree of a plain text in the language [lg]: a speak, a paragraph
    and a sentence node, and under the sentence one word node for each
    text, in the order of the texts. *)
Definition plain_graph (L : Libs) (st : TextProcessorSettings) (lg : str)
           (texts : list str) (g : Graph) : Prop :=
  exists n0 n1 n2 ws,
    nodes g = n0 :: n1 :: n2 :: ws
    /\ data n0 = SpeakNode /\ data n1 = ParagraphNode
    /\ data n2 = SentenceNode
    /\ Forall (fun n => lang n = lg) (nodes g)
    /\ map node ws = seq 3 (length ws)
    /\ Forall (plain_word L st) ws
    /\ map word_text_with_ws ws = texts
    /\ edges g
       = (0, 1) :: (1, 2) :: map (fun k => (2, 3 + k)) (seq 0 (length ws)).

(** A node of a plain tree, as the passes meet it: in the language [lg],
    no break, and a word only if it is a plain word. *)
Definition calm (L : Libs) (st : TextProcessorSettings) (lg : str)
           (n : Node) : Prop :=
  lang n = lg
  /\ match data n with
     | WordNode _ => plain_word L st n
     | BreakWordNode _ _ _ => False
     | _ => True
     end.

(** A [<speak>] element with text only. *)
Definition speak_element (txt : str) : Element :=
  mkElement (lit "speak") [] (Some txt) [] None.

(** The element an XML reader gives for [<speak>txt</speak>] when it gives
    the text back: an empty element has no text at all. *)
Definition speak_document (txt : str) : Element :=
  mkElement (lit "speak") []
            (match txt with [] => None | _ => Some txt end) [] None.

(** The nodes that are there when the text of [<speak>txt</speak>] is
    reached: the speak node of the element, and an implicit paragraph and
    sentence. *)
Definition speak_node (lg txt : str) : Node :=
  {| node := 0; element := Some (speak_element txt); voice := [];
     lang := lg; implicit := false; data := SpeakNode |}.

Definition implicit_node (i : nat) (lg : str) (d : NodeData) : Node :=
  {| node := i; element := None; voice := []; lang := lg; implicit := true;
     data := d |}.

Definition plain_base (lg txt : str) : Graph :=
  {| nodes := [speak_node lg txt; implicit_node 1 lg ParagraphNode;
               implicit_node 2 lg SentenceNode];
     edges := [(0, 1); (1, 2)];
     log := [] |}.

Definition plain_scope (lg : str) : Scope :=
  {| sc_voice := None; sc_lang := lg; sc_say_as := None; sc_role := None |}.

End Props.

Import Props.

(** ** What the passes keep *)

Module Shape.

(** The text and the text with whitespace of a node that has them. *)
Definition texts_of (n : Node) : option (str * str) :=
  match data n with
  | WordNode w => Some (text w, text_with_ws w)
  | BreakWordNode _ t tws => Some (t, tws)
  | PunctuationWordNode t tws => Some (t, tws)
  | _ => None
  end.

(** Every node object carries the number it is stored under. *)
Definition numbered (g : Graph) : bool :=
  forallb (fun ix => node (snd ix) =? fst ix) (enumerate (nodes g)).

(** [g'] has the edges of [g] and, node by node, the same texts. *)
Definition same_shape (g g' : Graph) : Prop :=
  numbered g' = true
  /\ edges g' = edges g
  /\ map texts_of (nodes g') = map texts_of (nodes g).

(** [g'] has the nodes of [g], with the same texts, and maybe more nodes
    after them. *)
Definition keeps_texts (g g' : Graph) : Prop :=
  numbered g' = true
  /\ exists more, map texts_of (nodes g') = map texts_of (nodes g) ++ more.

(** [g'] is [g] with new word nodes after its nodes, all of them children
    of [n]: implicit, in the language of [n], not interpreted, their text
    the stripped text with whitespace; no edge of [g] is lost. *)
Definition adds_children (n : Node) (g g' : Graph) : Prop :=
  exists news,
    nodes g' = nodes g ++ news
    /\ map node news = seq (len g) (length news)
    /\ Forall (fun m =>
                 lang m = lang n /\ implicit m = true
                 /\ exists w, data m = WordNode w
                              /\ interpret_as w = []
                              /\ text w = strip (text_with_ws w)) news
    /\ incl (edges g) (edges g')
    /\ (forall m, In m news -> In (node n, node m) (edges g')).

(** What is said of an emitted word: its text with whitespace, and whether
    it is a break or a punctuation. *)
Definition said (w : Word) : str * bool * bool :=
  (w_text_with_ws w, is_break w, is_punctuation w).

(** What [sentences] says for a node, with its options to leave out breaks
    and punctuation; [None] for a node that gives no word. *)
Definition spoken (major_breaks minor_breaks punctuations : bool) (n : Node)
  : option (str * bool * bool) :=
  match data n with
  | WordNode w => Some (text_with_ws w, false, false)
  | BreakWordNode bt _ tws =>
      if (minor_breaks && BreakType_eqb bt MINOR)
         || (major_breaks && BreakType_eqb bt MAJOR)
      then Some (tws, true, false) else None
  | PunctuationWordNode _ tws =>
      if punctuations then Some (tws, false, true) else None
  | _ => None
  end.

(** The leaves of the tree [sentences] turns into words, in the order it
    visits them. *)
Definition spoken_leaves (g : Graph) (major_breaks minor_breaks
                                      punctuations : bool)
           (order : list nat) : list (str * bool * bool) :=
  flat_map
    (fun i =>
       match get_node g i with
       | Some n =>
           if isSentenceNode n then []
           else if out_degree g i =? 0 then
             match spoken major_breaks minor_breaks punctuations n with
             | Some t => [t]
             | None => []
             end
           else []
       | None => []
       end)
    order.

(** A word that is neither a break nor a punctuation. *)
Definition is_plain (w : Word) : bool :=
  negb (is_break w) && negb (is_punctuation w).

(** A sentence with at least one word, whose words are numbered from zero
    and carry the number of the sentence. *)
Definition well_numbered (s : Sentence) : Prop :=
  words s <> []
  /\ map idx (words s) = seq 0 (length (words s))
  /\ Forall (fun w => sent_idx w = s_idx s) (words s).

(** Does the traversal meet a sentence node? *)
Definition meets_sentence (g : Graph) (order : list nat) : bool :=
  existsb (fun i => match get_node g i with
                    | Some n => isSentenceNode n
                    | None => false
                    end) order.

(** A tree whose nodes are numbered as they are made: every node object
    carries its number, every node but the first has one edge into it, the
    edges are in the order of the nodes they lead to, and an edge leads
    from an older node to a newer one. *)
Definition tree_like (g : Graph) : Prop :=
  numbered g = true
  /\ map snd (edges g) = seq 1 (len g - 1)
  /\ Forall (fun e : nat * nat => fst e < snd e) (edges g).

(** No [<speak>] starts after the first event of the document. *)
Definition one_speak (events : list Event) : Prop :=
  forall e is_last,
    In (EvStart e is_last) (tl events) ->
    tag_is (tag_no_namespace (e_tag e)) "speak" = false.

(** The node, if there is one, is a node of the graph. *)
Definition known (g : Graph) (o : option Node) : Prop :=
  forall n, o = Some n -> node n < len g.

(** While the document is read: the graph is a tree, it is empty as long
    as there is no root, there is a root once there is a [<speak>], and
    the open elements are nodes of the graph. *)
Definition tree_build (b : Build) : Prop :=
  tree_like (graph b)
  /\ (root b = None -> nodes (graph b) = [])
  /\ (last_speak b = None -> root b = None)
  /\ known (graph b) (last_speak b)
  /\ known (graph b) (last_paragraph b)
  /\ known (graph b) (last_sentence b)
  /\ known (graph b) (root b).

(** The text with whitespace of a word, break or punctuation node. *)
Definition node_text_with_ws (n : Node) : str :=
  match texts_of n with
  | Some (_, tws) => tws
  | None => []
  end.

(** A pattern that is one capturing group, maybe anchored: [(...)],
    [^(...)] or [(...)$].  The patterns [__post_init__] makes from the
    punctuation and break sets are of this kind, and so is the default
    split pattern. *)
Definition whole_group (p : Pattern) : bool :=
  (groups p =? 1)
  && match prog p with
     | RGroup 1 _ => true
     | RSeq RBegin (RGroup 1 _) => true
     | RSeq (RGroup 1 _) REnd => true
     | _ => false
     end.

(** The three shapes of such a pattern. *)
Definition whole (r : regex) : Prop :=
  (exists a, r = RGroup 1 a)
  \/ (exists a, r = RSeq RBegin (RGroup 1 a))
  \/ (exists a, r = RSeq (RGroup 1 a) REnd).

(** [TextProcessor(begin_punctuations={"("}, end_punctuations={")"},
    minor_breaks={","})]. *)
Definition parens_args : TextProcessorSettingsArgs :=
  with_sets (default_args en_US) (Some [lit "("]) (Some [lit ")"])
            [lit ","] [] [].

(** The word "(hi)" with whitespace around it, and the word "a,b". *)
Definition parens_node : Node :=
  with_node 1 (word_kw (lit "(hi)") (lit " (hi) ") en_US ROLE_DEFAULT).

Definition comma_node : Node :=
  with_node 1 (word_kw (lit "a,b") (lit "a,b ") en_US ROLE_DEFAULT).

(** The tree of [two_sentences_graph] under an explicit [<s>] element. *)
Definition explicit_sentence_graph : Graph :=
  {| nodes :=
       map (fun n =>
              if isSentenceNode n
              then {| node := node n;
                      element := Some (leaf_element "s" [] "a. b");
                      voice := voice n; lang := lang n; implicit := false;
                      data := data n |}
              else n)
           (nodes two_sentences_graph);
     edges := edges two_sentences_graph;
     log := [] |}.

(** [TextProcessor(major_breaks={"."})]. *)
Definition major_breaks_args : TextProcessorSettingsArgs :=
  with_sets (default_args en_US) None None [] [lit "."] [].

(** The tree of the document "a. b 21" before the passes of the pipeline. *)
Definition parsed_graph : Graph :=
  match build_tree libs (processor libs major_breaks_args)
                   (text_and_elements false (speak_element (lit "a. b 21")))
  with
  | Ok b => graph b
  | Raise _ => empty_graph
  end.

(** The word "ninety-nine" under a sentence. *)
Definition ninety_nine_node : Node :=
  with_node 1 (word_kw (lit "ninety-nine") (lit "ninety-nine ") en_US
                       ROLE_DEFAULT).

Definition ninety_nine_graph : Graph :=
  {| nodes := [implicit_node 0 en_US SentenceNode; ninety_nine_node];
     edges := [(0, 1)]; log := [] |}.

(** A [<metadata>] element with an element and text inside. *)
Definition metadata_element : Element :=
  parent_element "metadata" [leaf_element "title" [] "x"].

End Shape.

Import Shape.

(** * Theorems *)

(** ** The alias of [<sub>] *)

(** No end event clears the alias: the second test for ["s"] in the
    end-of-element branch can never be reached. *)
Lemma on_end_keeps_last_alias (self : Processor) (b : Build) (e : Element) :
  last_alias (on_end self b e) = last_alias b.
Proof.
  unfold on_end.
  destruct (tag_is (tag_no_namespace (e_tag e)) "voice"); [reflexivity|].
  destruct (tag_is (tag_no_namespace (e_tag e)) "say-as"); [reflexivity|].
  cbn [last_alias].
  destruct (tag_is (tag_no_namespace (e_tag e)) "w"
            || tag_is (tag_no_namespace (e_tag e)) "token"); cbn;
    [reflexivity|].
  destruct (tag_is (tag_no_namespace (e_tag e)) "s"); cbn; [reflexivity|].
  rewrite !andb_false_r. reflexivity.
Qed.

(** C7: in [<speak><sub alias="A">x</sub><w>y</w></speak>] the text of the
    [<w>] element, which comes after the end of [<sub>], is replaced by the
    alias as well: the words are "A" and "A", not "A" and "y". *)
Theorem sub_alias_replaces_later_text :
  texts_with_ws libs (processor libs (default_args en_US))
    (process_events libs (processor libs (default_args en_US))
       (text_and_elements false sub_then_word) true true true)
  = Ok [lit "A"; lit "A"].
Proof. vm_compute. reflexivity. Qed.

(** ** The number transformation *)

(** The number transformation parses whatever the word text is: the
    predicate [is_maybe_number] is not asked. *)
Lemma transform_number_parses (L : Libs) (self : Processor) (g : Graph)
      (n : Node) (word : WordData) (d : Decimal) :
  word_of n = Some word ->
  interpret_as word = [] \/ interpret_as word = NUMBER ->
  nonempty (babel_locale (get_settings L self (lang n))) = true ->
  parse_decimal L (text word)
                (babel_locale (get_settings L self (lang n))) = Some d ->
  _transform_number L self g n = Ok (set_word g n (as_number word d)).
Proof.
  intros Hw Hia Hl Hp. unfold _transform_number. rewrite Hw, Hl, Hp.
  destruct Hia as [-> | ->]; reflexivity.
Qed.

(** On a parse failure the graph is left as it is. *)
Lemma transform_number_failure (L : Libs) (self : Processor) (g : Graph)
      (n : Node) (word : WordData) :
  word_of n = Some word ->
  nonempty (babel_locale (get_settings L self (lang n))) = true ->
  parse_decimal L (text word)
                (babel_locale (get_settings L self (lang n))) = None ->
  _transform_number L self g n = Ok g.
Proof.
  intros Hw Hl Hp. unfold _transform_number. rewrite Hw, Hl, Hp.
  destruct (_ && _); reflexivity.
Qed.

(** C4: with settings whose [is_maybe_number] lets no word through, the
    word "7" is parsed all the same: after processing, the word has
    [interpret_as = number] and the parsed value 7. *)
Theorem transform_number_ignores_is_maybe_number :
  maybe (is_maybe_number
           (get_settings libs (processor libs never_number_args) en_US))
        (lit "7") = false
  /\ exists g r,
      call libs (processor libs never_number_args) (lit "7")
           false true true true true = Ok (g, r)
      /\ option_map (fun w => (text w, interpret_as w, number w))
                    (word_data g 3)
         = Some (lit "7", NUMBER,
                 Some {| d_neg := false; d_coef := 7%N; d_exp := 0%Z;
                         d_kind := DFinite |}).
Proof.
  split; [vm_compute; reflexivity|].
  eexists. eexists. split; vm_compute; reflexivity.
Qed.

(** ** Collaborators that raise *)

Lemma str_eqb_refl (s : str) : str_eqb s s = true.
Proof.
  induction s as [|c s IH]; [reflexivity|].
  cbn. unfold chr_eqb. rewrite Ascii.eqb_refl. exact IH.
Qed.

Lemma str_eqb_eq (a b : str) : str_eqb a b = true <-> a = b.
Proof.
  split.
  - revert b. induction a as [|x a IH]; intros [|y b] H; cbn in H;
      try discriminate; [reflexivity|].
    apply andb_true_iff in H. destruct H as [Hc Hs].
    apply Ascii.eqb_eq in Hc. subst. f_equal. apply IH. exact Hs.
  - intros ->. apply str_eqb_refl.
Qed.





(** The remainder is refused for an infinity and for an integer part of
    more than 28 digits. *)
Lemma remainder_refused (neg : bool) (coef : N) :
  dec_has_frac {| d_neg := neg; d_coef := coef; d_exp := 0%Z;
                  d_kind := DInfinity |}
  = Raise (lit "InvalidOperation")
  /\ ((N.pow 10 28 <= coef)%N ->
      dec_has_frac {| d_neg := neg; d_coef := coef; d_exp := 0%Z;
                      d_kind := DFinite |}
      = Raise (lit "InvalidOperation")).
Proof.
  split; [reflexivity|]. intros H. unfold dec_has_frac, dec_int_mag.
  cbn [d_kind d_exp d_coef Z.leb Z.compare Z.to_N].
  rewrite N.pow_0_r, N.mul_1_r.
  apply N.leb_le in H. unfold DEC_PREC. rewrite H. reflexivity.
Qed.










(** So does a phoneme guesser that raises, for a word the lexicon does
    not know. *)
Lemma guess_failure_reaches_caller :
  call libs (processor libs broken_guess_args) (lit "a")
       false true true true true = Raise (lit "GuessError").
Proof. vm_compute. reflexivity. Qed.


(** ** Compiled alternations *)

Lemma startswith_firstn (s l : str) :
  startswith s l = true -> firstn (length l) s = l.
Proof.
  revert s. induction l as [|x l IH]; intros s H; [reflexivity|].
  destruct s as [|y s]; cbn in H; [discriminate|].
  apply andb_true_iff in H. destruct H as [Hc Hs].
  apply Ascii.eqb_eq in Hc. subst. cbn. f_equal. apply IH. exact Hs.
Qed.

(** The candidates of an alternation of literals: the literals the subject
    starts with, in the order of the alternation. *)
Lemma m_alt_of (lits : list str) (i : nat) (s : str) (cs : caps) :
  m (alt_of lits) i s cs
  = map (fun l => (i + length l, skipn (length l) s, cs))
        (filter (startswith s) lits).
Proof.
  induction lits as [|l lits IH]; [reflexivity|].
  destruct lits as [|l' lits'].
  - cbn. destruct (startswith s l); reflexivity.
  - change (alt_of (l :: l' :: lits')) with (RAlt (RLit l) (alt_of (l' :: lits'))).
    cbn [m]. rewrite IH. cbn [filter].
    destruct (startswith s l); reflexivity.
Qed.

(** A begin pattern matches the first literal, in the order of the
    alternation, that the word starts with. *)
Lemma compile_begin_match (lits : list str) (s : str) :
  re_match (compile_begin lits) s
  = match filter (startswith s) lits with
    | l :: _ => Some {| m_start := 0; m_end := length l; m_caps := [(1, l)] |}
    | [] => None
    end.
Proof.
  unfold re_match, compile_begin. cbn [prog m Nat.eqb flat_map].
  rewrite app_nil_r, m_alt_of.
  destruct (filter (startswith s) lits) as [|l rest] eqn:Hf; [reflexivity|].
  cbn. rewrite Nat.sub_0_r.
  assert (Hl : startswith s l = true).
  { assert (Hin : In l (filter (startswith s) lits))
      by (rewrite Hf; left; reflexivity).
    apply filter_In in Hin. apply Hin. }
  rewrite (startswith_firstn _ _ Hl). reflexivity.
Qed.

(** C5, as stated, fails: with the begin punctuations "(" and "((" in
    this order, the alternation of the compiled pattern is not sorted by
    decreasing length, and on "((x" the shorter literal is matched. *)
Lemma alternation_not_sorted :
  exists p,
    begin_punctuations_pattern (post_init libs nested_parens_args) = Some p
    /\ pattern p = lit "^(\(|\(\()"
    /\ option_map m_end (re_match p (lit "((x")) = Some 1.
Proof. eexists. repeat split; vm_compute; reflexivity. Qed.

(** C5, amended: the alternation of a compiled pattern lists the escaped
    literals in the iteration order of the configured set, without sorting,
    and a begin pattern takes the first literal of that order that the word
    starts with. *)
Theorem alternation_follows_set_order (L : Libs)
        (a : TextProcessorSettingsArgs) :
  (forall lits,
      a_begin_punctuations_pattern a = None ->
      a_begin_punctuations a = Some lits -> lits <> [] ->
      exists p,
        begin_punctuations_pattern (post_init L a) = Some p
        /\ pattern p = lit "^(" ++ join (lit "|") (map re_escape lits)
                           ++ lit ")"
        /\ forall s,
            re_match p s
            = match filter (startswith s) lits with
              | l :: _ =>
                  Some {| m_start := 0; m_end := length l;
                          m_caps := [(1, l)] |}
              | [] => None
              end)
  /\ (forall lits,
         a_end_punctuations_pattern a = None ->
         a_end_punctuations a = Some lits -> lits <> [] ->
         option_map pattern (end_punctuations_pattern (post_init L a))
         = Some (lit "(" ++ join (lit "|") (map re_escape lits) ++ lit ")$"))
  /\ (a_major_breaks_pattern a = None -> a_major_breaks a <> [] ->
      option_map pattern (major_breaks_pattern (post_init L a))
      = Some (lit "((?:" ++ join (lit "|") (map re_escape (a_major_breaks a))
                  ++ lit ")(?:\s+|$))"))
  /\ (a_minor_breaks_pattern a = None -> a_minor_breaks a <> [] ->
      option_map pattern (minor_breaks_pattern (post_init L a))
      = Some (lit "((?:" ++ join (lit "|") (map re_escape (a_minor_breaks a))
                  ++ lit ")\s*" ++ lit ")"))
  /\ (a_word_breaks_pattern a = None -> a_word_breaks a <> [] ->
      option_map pattern (word_breaks_pattern (post_init L a))
      = Some (lit "(?:" ++ join (lit "|") (map re_escape (a_word_breaks a))
                  ++ lit ")")).
Proof.
  repeat split.
  - intros lits Hp Hs Hne. exists (compile_begin lits).
    cbn. rewrite Hp, Hs. cbn.
    destruct lits as [|l lits]; [congruence|].
    repeat split. intros s. apply compile_begin_match.
  - intros lits Hp Hs Hne. cbn. rewrite Hp, Hs. cbn.
    destruct lits as [|l lits]; [congruence|]. reflexivity.
  - intros Hp Hne. cbn. rewrite Hp. cbn.
    destruct (a_major_breaks a) as [|l lits]; [congruence|]. reflexivity.
  - intros Hp Hne. cbn. rewrite Hp. cbn.
    destruct (a_minor_breaks a) as [|l lits]; [congruence|]. reflexivity.
  - intros Hp Hne. cbn. rewrite Hp. cbn.
    destruct (a_word_breaks a) as [|l lits]; [congruence|]. reflexivity.
Qed.

(** ** Abbreviations *)

(** The patterns before the first one that matches are passed over. *)
Lemma first_abbreviation_skips (pre post : list (Pattern * str))
      (p : Pattern) (t tws : str) (mt : Match) :
  (forall q, In q pre -> re_match (fst q) tws = None) ->
  re_match p tws = Some mt ->
  first_abbreviation (pre ++ (p, t) :: post) tws
  = (new_text <- expand p mt t ;; Ok (Some new_text)).
Proof.
  intros Hpre Hm. induction pre as [|[q tq] pre IH].
  - cbn. rewrite Hm. reflexivity.
  - cbn. pose proof (Hpre (q, tq) (or_introl eq_refl)) as Hq.
    cbn in Hq. rewrite Hq.
    apply IH. intros q' Hin. apply Hpre. right. exact Hin.
Qed.

Lemma first_abbreviation_none (abbrs : list (Pattern * str)) (tws : str) :
  (forall q, In q abbrs -> re_match (fst q) tws = None) ->
  first_abbreviation abbrs tws = Ok None.
Proof.
  induction abbrs as [|[q tq] abbrs IH]; intros H; [reflexivity|].
  cbn. pose proof (H (q, tq) (or_introl eq_refl)) as Hq.
  cbn in Hq. rewrite Hq.
  apply IH. intros q' Hin. apply H. right. exact Hin.
Qed.

Lemma dict_set_fresh (d : list (Pattern * str)) (k : Pattern) (v : str) :
  (forall q, In q d -> pattern (fst q) <> pattern k) ->
  dict_set d k v = d ++ [(k, v)].
Proof.
  induction d as [|[k' v'] d IH]; intros H; [reflexivity|].
  cbn. destruct (str_eqb (pattern k') (pattern k)) eqn:E.
  - apply str_eqb_eq in E. exfalso.
    apply (H (k', v')); [left; reflexivity|exact E].
  - f_equal. apply IH. intros q Hin. apply H. right. exact Hin.
Qed.

(** With patterns of different sources, the compiled abbreviations keep
    the insertion order of the configured ones. *)
Lemma compile_abbreviations_order (L : Libs) (mb : list str)
      (abbrs : list (REGEX_TYPE * str)) :
  NoDup (map (fun e => pattern (fst (compile_abbreviation L mb e))) abbrs) ->
  compile_abbreviations L mb abbrs = map (compile_abbreviation L mb) abbrs.
Proof.
  unfold compile_abbreviations.
  assert (G : forall acc,
             NoDup (map (fun e => pattern (fst e)) acc
                    ++ map (fun e => pattern (fst (compile_abbreviation L mb e)))
                           abbrs) ->
             fold_left
               (fun d entry =>
                  let '(p, t) := compile_abbreviation L mb entry in
                  dict_set d p t) abbrs acc
             = acc ++ map (compile_abbreviation L mb) abbrs).
  { induction abbrs as [|e abbrs IH]; intros acc Hnd.
    - cbn. rewrite app_nil_r. reflexivity.
    - cbn [fold_left map].
      destruct (compile_abbreviation L mb e) as [p t] eqn:Hc.
      rewrite dict_set_fresh.
      + rewrite IH.
        * rewrite <- app_assoc. reflexivity.
        * rewrite map_app. cbn [map fst]. rewrite <- app_assoc. cbn [app].
          cbn [map] in Hnd. rewrite Hc in Hnd. cbn [fst] in Hnd. exact Hnd.
      + intros q Hin Heq. cbn [map] in Hnd. rewrite Hc in Hnd. cbn [fst] in Hnd.
        apply NoDup_remove_2 in Hnd. apply Hnd. apply in_or_app. left.
        cbn [fst] in Heq. rewrite <- Heq.
        apply (in_map (fun e0 => pattern (fst e0))) in Hin. exact Hin. }
  intros H. rewrite (G []); [reflexivity|exact H].
Qed.

(** C6, as stated, fails: the abbreviation pattern "Mr" expands the word
    "Mrs" to "Mister" although it matches only its first two characters;
    and a raw pattern that ends in "$" is compiled as it is, with major
    breaks configured. *)
Lemma abbreviation_prefix_match :
  option_map m_end (re_match mr_pattern (lit "Mrs")) = Some 2
  /\ texts_with_ws libs (processor libs mister_args)
       (call libs (processor libs mister_args) (lit "Mrs")
             false true true true true)
     = Ok [lit "Mister"]
  /\ compile_abbreviation libs [lit "."] (RawStr (lit "Mrs$"), lit "Missus")
     = (re_compile libs (lit "Mrs$"), lit "Missus").
Proof. repeat split; vm_compute; reflexivity. Qed.

(** The pass tries the patterns on the text with whitespace, in order,
    and re-tokenizes the expansion of the first that matches. *)
Lemma split_abbreviations_first (L : Libs) (self : Processor) (g : Graph)
      (n : Node) (w : WordData) (pre : list (Pattern * str)) (p : Pattern)
      (t : str) (post : list (Pattern * str)) (mt : Match) :
  word_of n = Some w -> interpret_as w = [] ->
  abbreviations (get_settings L self (lang n)) = pre ++ (p, t) :: post ->
  (forall q, In q pre -> re_match (fst q) (text_with_ws w) = None) ->
  re_match p (text_with_ws w) = Some mt ->
  _split_abbreviations L self g n
  = (new_text <- expand p mt t ;;
     Ok (retokenize (get_settings L self (lang n)) (lang n) new_text)).
Proof.
  intros Hw Hia Ha Hpre Hm. unfold _split_abbreviations.
  rewrite Hw, Hia. cbn [nonempty].
  destruct (abbreviations (get_settings L self (lang n))) as [|a0 abbrs]
    eqn:E; [destruct pre; discriminate|].
  rewrite Ha, (first_abbreviation_skips pre post p t _ mt Hpre Hm).
  destruct (expand p mt t); reflexivity.
Qed.

Lemma split_abbreviations_none (L : Libs) (self : Processor) (g : Graph)
      (n : Node) (w : WordData) :
  word_of n = Some w ->
  (forall q, In q (abbreviations (get_settings L self (lang n))) ->
             re_match (fst q) (text_with_ws w) = None) ->
  _split_abbreviations L self g n = Ok [].
Proof.
  intros Hw Hall. unfold _split_abbreviations. rewrite Hw.
  destruct (nonempty (interpret_as w)); [reflexivity|].
  destruct (abbreviations (get_settings L self (lang n))) as [|a0 abbrs]
    eqn:E; [reflexivity|].
  rewrite (first_abbreviation_none _ _ Hall). reflexivity.
Qed.

(** The compiled abbreviation at the place of a configured one. *)
Lemma post_init_abbreviation (L : Libs) (a : TextProcessorSettingsArgs)
      (pre : list (REGEX_TYPE * str)) (e : REGEX_TYPE * str)
      (post : list (REGEX_TYPE * str)) :
  NoDup (map (fun e0 =>
                pattern (fst (compile_abbreviation L (a_major_breaks a) e0)))
             (a_abbreviations a)) ->
  a_abbreviations a = pre ++ e :: post ->
  length (abbreviations (post_init L a)) = length (a_abbreviations a)
  /\ nth_error (abbreviations (post_init L a)) (length pre)
     = Some (compile_abbreviation L (a_major_breaks a) e).
Proof.
  intros Hnd Ha. unfold post_init. cbn [abbreviations].
  rewrite (compile_abbreviations_order L _ _ Hnd), Ha.
  split; [apply length_map|].
  rewrite map_app. cbn [map].
  rewrite nth_error_app2 by (rewrite length_map; apply Nat.le_refl).
  rewrite length_map, Nat.sub_diag. reflexivity.
Qed.

(** C6, amended.
    - The pass tries the compiled patterns in their order on the text with
      whitespace of the word; the first that matches at its start
      ([Pattern.match]) gives the expansion, which is re-tokenized; when
      none matches the word is left alone.
    - [__post_init__] keeps the abbreviations (of different pattern
      sources) in the order they were configured.  A pattern given as a
      string that does not end in "$" is compiled, when major breaks are
      configured, with the optional break group, the whitespace group and
      "$" appended, and its template gets the two group references; a
      string that ends in "$", any string when no major breaks are
      configured, and a compiled pattern are taken as they are. *)
Theorem abbreviations_first_match_at_start (L : Libs) (self : Processor) :
  (forall g n w pre p t post mt,
      word_of n = Some w -> interpret_as w = [] ->
      abbreviations (get_settings L self (lang n)) = pre ++ (p, t) :: post ->
      (forall q, In q pre -> re_match (fst q) (text_with_ws w) = None) ->
      re_match p (text_with_ws w) = Some mt ->
      _split_abbreviations L self g n
      = (new_text <- expand p mt t ;;
         Ok (retokenize (get_settings L self (lang n)) (lang n) new_text)))
  /\ (forall g n w,
         word_of n = Some w ->
         (forall q, In q (abbreviations (get_settings L self (lang n))) ->
                    re_match (fst q) (text_with_ws w) = None) ->
         _split_abbreviations L self g n = Ok [])
  /\ (forall a pre post,
         NoDup (map (fun e0 =>
                       pattern (fst (compile_abbreviation
                                       L (a_major_breaks a) e0)))
                    (a_abbreviations a)) ->
         length (abbreviations (post_init L a)) = length (a_abbreviations a)
         /\ (forall s t,
                a_abbreviations a = pre ++ (RawStr s, t) :: post ->
                endswith s (lit "$") = false -> a_major_breaks a <> [] ->
                nth_error (abbreviations (post_init L a)) (length pre)
                = Some (re_compile L
                          (s ++ lit "(?P<break>"
                             ++ join (lit "|")
                                     (map re_escape (a_major_breaks a))
                             ++ lit ")?(?P<whitespace>\s*" ++ lit ")$"),
                        t ++ lit "\g<break>\g<whitespace>"))
         /\ (forall s t,
                a_abbreviations a = pre ++ (RawStr s, t) :: post ->
                endswith s (lit "$") = true \/ a_major_breaks a = [] ->
                nth_error (abbreviations (post_init L a)) (length pre)
                = Some (re_compile L s, t))
         /\ (forall p t,
                a_abbreviations a = pre ++ (Compiled p, t) :: post ->
                nth_error (abbreviations (post_init L a)) (length pre)
                = Some (p, t))).
Proof.
  split; [|split].
  - intros. eapply split_abbreviations_first; eassumption.
  - intros. eapply split_abbreviations_none; eassumption.
  - intros a pre post Hnd.
    split; [|split; [|split]].
    + unfold post_init. cbn [abbreviations].
      rewrite (compile_abbreviations_order L _ _ Hnd). apply length_map.
    + intros s t Ha He Hmb.
      rewrite (proj2 (post_init_abbreviation L a pre _ post Hnd Ha)).
      unfold compile_abbreviation. rewrite He.
      destruct (a_major_breaks a) as [|b mb]; [congruence|]. reflexivity.
    + intros s t Ha Hcase.
      rewrite (proj2 (post_init_abbreviation L a pre _ post Hnd Ha)).
      unfold compile_abbreviation.
      destruct Hcase as [He | ->]; [rewrite He; reflexivity|].
      destruct (negb _); reflexivity.
    + intros p t Ha.
      rewrite (proj2 (post_init_abbreviation L a pre _ post Hnd Ha)).
      reflexivity.
Qed.

(** ** Plain text handed to the XML reader *)

Lemma startswith_app (p s : str) : startswith (p ++ s) p = true.
Proof.
  induction p as [|c p IH]; [reflexivity|].
  cbn. unfold chr_eqb. rewrite Ascii.eqb_refl. exact IH.
Qed.

Lemma escape_chr_no_lt (c x : ascii) :
  In x (escape_chr c) -> x <> "<"%char.
Proof.
  unfold escape_chr.
  destruct (chr_eqb c "&"%char) eqn:E1;
    [cbn; intros H; repeat (destruct H as [<- | H]; [discriminate|]);
     destruct H|].
  destruct (chr_eqb c ">"%char) eqn:E2;
    [cbn; intros H; repeat (destruct H as [<- | H]; [discriminate|]);
     destruct H|].
  destruct (chr_eqb c "<"%char) eqn:E3;
    [cbn; intros H; repeat (destruct H as [<- | H]; [discriminate|]);
     destruct H|].
  cbn. intros [<- | []]. intros ->. discriminate.
Qed.

Lemma escape_no_lt (s : str) (x : ascii) : In x (escape s) -> x <> "<"%char.
Proof.
  unfold escape. intros H. apply in_flat_map in H.
  destruct H as [c [_ Hc]]. eapply escape_chr_no_lt. exact Hc.
Qed.

Lemma drop_while_incl (p : ascii -> bool) (s : str) (x : ascii) :
  In x (drop_while p s) -> In x s.
Proof.
  induction s as [|c s IH]; cbn; [tauto|].
  destruct (p c); [intros H; right; apply IH; exact H|tauto].
Qed.

(** The escaped text never begins with [<], whitespace apart. *)
Lemma escaped_not_markup (txt : str) :
  startswith (lstrip (escape txt)) (lit "<") = false.
Proof.
  unfold lstrip.
  destruct (drop_while is_space (escape txt)) as [|c s] eqn:E; [reflexivity|].
  cbn. rewrite andb_true_r.
  assert (Hc : c <> "<"%char).
  { apply (escape_no_lt txt). apply (drop_while_incl is_space).
    rewrite E. left. reflexivity. }
  destruct (chr_eqb "<" c) eqn:Eq; [|reflexivity].
  apply Ascii.eqb_eq in Eq. congruence.
Qed.

Lemma xml_text_plain (txt : str) :
  xml_text txt false true = lit "<speak>" ++ escape txt ++ lit "</speak>".
Proof.
  unfold xml_text. rewrite escaped_not_markup. reflexivity.
Qed.

Lemma chardata_escape_step (c : ascii) (rest : str) :
  xml_char c = true -> chr_eqb c CR = false ->
  chardata (escape_chr c ++ rest) = option_map (cons c) (chardata rest).
Proof.
  intros Hx Hcr. unfold escape_chr.
  destruct (chr_eqb c "&"%char) eqn:E1.
  { apply Ascii.eqb_eq in E1. subst c. reflexivity. }
  destruct (chr_eqb c ">"%char) eqn:E2.
  { apply Ascii.eqb_eq in E2. subst c. reflexivity. }
  destruct (chr_eqb c "<"%char) eqn:E3.
  { apply Ascii.eqb_eq in E3. subst c. reflexivity. }
  cbn [app chardata]. rewrite E1, E3, Hx, Hcr. reflexivity.
Qed.

Lemma escape_cons (c : ascii) (s : str) :
  escape (c :: s) = escape_chr c ++ escape s.
Proof. reflexivity. Qed.

Lemma escape_chr_CR : escape_chr CR = [CR].
Proof. reflexivity. Qed.

Lemma escape_head_not_LF (d : ascii) (r : str) :
  chr_eqb d LF = false ->
  exists h t, escape (d :: r) = h :: t /\ chr_eqb h LF = false.
Proof.
  intros Hd. rewrite escape_cons. unfold escape_chr.
  destruct (chr_eqb d "&"%char); [eexists; eexists; split; reflexivity|].
  destruct (chr_eqb d ">"%char); [eexists; eexists; split; reflexivity|].
  destruct (chr_eqb d "<"%char); [eexists; eexists; split; reflexivity|].
  eexists; eexists; split; [reflexivity|exact Hd].
Qed.

(** What the reader returns for escaped text made of XML characters. *)
Lemma chardata_escape (txt : str) :
  forallb xml_char txt = true ->
  chardata (escape txt) = Some (normalize_eol txt).
Proof.
  remember (length txt) as k eqn:Hk.
  assert (Hle : length txt <= k) by lia. clear Hk.
  revert txt Hle. induction k as [|k IH]; intros txt Hle Hall.
  - destruct txt; [reflexivity|cbn in Hle; lia].
  - destruct txt as [|c rest]; [reflexivity|].
    cbn in Hle. cbn [forallb] in Hall. apply andb_true_iff in Hall.
    destruct Hall as [Hc Hrest].
    destruct (chr_eqb c CR) eqn:Ecr.
    + apply Ascii.eqb_eq in Ecr. subst c.
      rewrite escape_cons, escape_chr_CR. cbn [app].
      destruct rest as [|d r].
      * reflexivity.
      * destruct (chr_eqb d LF) eqn:Elf.
        -- apply Ascii.eqb_eq in Elf. subst d.
           change (escape (LF :: r)) with (LF :: escape r).
           cbn [forallb] in Hrest. apply andb_true_iff in Hrest.
           destruct Hrest as [_ Hr].
           assert (IHr := IH r ltac:(cbn in Hle; lia) Hr).
           change (chardata (CR :: LF :: escape r))
             with (option_map (cons LF) (chardata (escape r))).
           rewrite IHr. reflexivity.
        -- destruct (escape_head_not_LF d r Elf) as [h [t [He Hh]]].
           assert (IHr := IH (d :: r) ltac:(cbn in Hle |- *; lia) Hrest).
           rewrite He in IHr |- *.
           cbn [chardata]. change (chr_eqb CR "&"%char) with false.
           cbn [orb negb]. change (xml_char CR) with true.
           change (chr_eqb CR "<"%char) with false.
           cbn [orb negb]. change (chr_eqb CR CR) with true. rewrite Hh.
           cbn [chardata] in IHr. rewrite IHr.
           cbn [normalize_eol]. change (chr_eqb CR CR) with true.
           rewrite Elf. reflexivity.
    + rewrite escape_cons, chardata_escape_step by assumption.
      rewrite (IH rest ltac:(lia) Hrest). cbn [normalize_eol option_map].
      rewrite Ecr. reflexivity.
Qed.

Lemma skipn_app_exact {A} (a b : list A) : skipn (length a) (a ++ b) = b.
Proof. induction a; [reflexivity|assumption]. Qed.

Lemma firstn_app_exact {A} (a b : list A) : firstn (length a) (a ++ b) = a.
Proof. induction a as [|x a IH]; [reflexivity|cbn; f_equal; exact IH]. Qed.

Lemma plain_fromstring_wrapped (body : str) :
  plain_fromstring (lit "<speak>" ++ body ++ lit "</speak>")
  = match chardata body with
    | Some [] => Ok (mkElement (lit "speak") [] None [] None)
    | Some t => Ok (mkElement (lit "speak") [] (Some t) [] None)
    | None => Raise (lit "ParseError")
    end.
Proof.
  unfold plain_fromstring.
  rewrite startswith_app.
  assert (He : endswith (lit "<speak>" ++ body ++ lit "</speak>")
                        (lit "</speak>") = true).
  { unfold endswith. rewrite !rev_app_distr. rewrite <- app_assoc.
    apply startswith_app. }
  rewrite He.
  assert (Hlen : length (lit "<speak>" ++ body ++ lit "</speak>")
                 = 7 + (length body + 8)).
  { rewrite !length_app. reflexivity. }
  rewrite Hlen.
  change (length (lit "<speak>")) with 7.
  change (length (lit "</speak>")) with 8.
  replace (7 + 8 <=? 7 + (length body + 8)) with true
    by (symmetry; apply Nat.leb_le; lia).
  cbn [andb].
  replace (7 + (length body + 8) - 7 - 8) with (length body) by lia.
  change 7 with (length (lit "<speak>")) at 1.
  rewrite skipn_app_exact, firstn_app_exact. reflexivity.
Qed.

(** C10, as stated, fails: a form feed is not an XML character, escaping
    leaves it alone, and the reader refuses the document. *)
Lemma form_feed_is_refused :
  call libs (processor libs (default_args en_US))
       (lit "a" ++ [ascii_of_nat 12] ++ lit "b")
       false true true true true
  = Raise (lit "ParseError").
Proof. vm_compute. reflexivity. Qed.

(** C10, amended: with [ssml = false] and [add_speak_tag = true] the
    escaped text never begins with [<], so it is always wrapped in
    [<speak>]; the wrapped document is read back as the text (with XML line
    ends) whenever the text is made of XML characters. *)
Theorem plain_text_is_escaped_and_wrapped (txt : str) :
  startswith (lstrip (escape txt)) (lit "<") = false
  /\ xml_text txt false true = lit "<speak>" ++ escape txt ++ lit "</speak>"
  /\ (forallb xml_char txt = true ->
      plain_fromstring (xml_text txt false true)
      = Ok (mkElement (lit "speak") []
              (match normalize_eol txt with [] => None | t => Some t end)
              [] None)).
Proof.
  split; [apply escaped_not_markup|].
  split; [apply xml_text_plain|].
  intros Hall. rewrite xml_text_plain, plain_fromstring_wrapped.
  rewrite (chardata_escape txt Hall).
  destruct (normalize_eol txt); reflexivity.
Qed.

(** ** The text of created words *)

Lemma Forall_map_all {A B} (P : B -> Prop) (f : A -> B) (l : list A) :
  (forall x, P (f x)) -> Forall P (map f l).
Proof. intros H. induction l; cbn; constructor; auto. Qed.

Lemma Forall_flat_map_all {A B} (P : B -> Prop) (f : A -> list B)
      (l : list A) :
  (forall x, Forall P (f x)) -> Forall P (flat_map f l).
Proof.
  intros H. induction l; cbn; [constructor|].
  apply Forall_app. split; auto.
Qed.

Lemma Ok_inj {A} (a b : A) : Ok a = Ok b -> a = b.
Proof. intros H. injection H. auto. Qed.

(** Works through the tests of a pass until its result is in sight. *)
Ltac pass_cases :=
  repeat match goal with
         | |- Ok _ = Ok _ -> _ => intros ?H; apply Ok_inj in H; subst
         | |- Raise _ = Ok _ -> _ => discriminate
         | |- context [match ?x with _ => _ end] => destruct x eqn:?
         | |- context [if ?x then _ else _] => destruct x eqn:?
         end.

Ltac stripped_nodes :=
  repeat first
    [ apply Forall_nil
    | apply Forall_cons; [cbn; auto|]
    | apply Forall_app; split
    | apply Forall_map_all; intros; cbn; auto
    | apply Forall_flat_map_all; intros ].

Lemma break_words_stripped L self g n news :
  _break_words L self g n = Ok news -> Forall text_is_stripped news.
Proof.
  unfold _break_words, bind. pass_cases; stripped_nodes.
Qed.

Lemma split_punctuations_stripped L self g n news :
  _split_punctuations L self g n = Ok news -> Forall text_is_stripped news.
Proof.
  unfold _split_punctuations. pass_cases; stripped_nodes.
Qed.

Lemma split_major_breaks_stripped L self g n news :
  _split_major_breaks L self g n = Ok news -> Forall text_is_stripped news.
Proof.
  unfold _split_major_breaks. pass_cases; stripped_nodes.
Qed.

Lemma split_minor_breaks_stripped L self g n news :
  _split_minor_breaks L self g n = Ok news -> Forall text_is_stripped news.
Proof.
  unfold _split_minor_breaks. pass_cases; stripped_nodes.
Qed.

Lemma split_spell_out_stripped L self g n news :
  _split_spell_out L self g n = Ok news -> Forall text_is_stripped news.
Proof.
  unfold _split_spell_out. pass_cases; stripped_nodes.
  pass_cases; stripped_nodes.
Qed.

Lemma split_initialism_stripped L self g n news :
  _split_initialism L self g n = Ok news -> Forall text_is_stripped news.
Proof.
  unfold _split_initialism, bind. pass_cases; stripped_nodes.
  pass_cases; stripped_nodes.
Qed.

Lemma take_drop_while (p : ascii -> bool) (s : str) :
  take_while p s ++ drop_while p s = s.
Proof.
  induction s as [|c s IH]; [reflexivity|].
  cbn. destruct (p c); [cbn; f_equal; exact IH|reflexivity].
Qed.

Lemma take_while_all (p : ascii -> bool) (s : str) :
  forallb p (take_while p s) = true.
Proof.
  induction s as [|c s IH]; [reflexivity|].
  cbn. destruct (p c) eqn:E; [cbn; rewrite E; exact IH|reflexivity].
Qed.

Lemma forallb_rev (p : ascii -> bool) (s : str) :
  forallb p (rev s) = forallb p s.
Proof.
  induction s as [|c s IH]; [reflexivity|].
  cbn. rewrite forallb_app, IH. cbn. rewrite andb_true_r. apply andb_comm.
Qed.

(** A string is its stripped form between two runs of whitespace. *)
Lemma strip_decomposition (s : str) :
  s = take_while is_space s ++ strip s
      ++ rev (take_while is_space (rev (lstrip s)))
  /\ forallb is_space (take_while is_space s) = true
  /\ forallb is_space (rev (take_while is_space (rev (lstrip s)))) = true.
Proof.
  repeat split.
  - unfold strip, rstrip.
    rewrite <- rev_app_distr, take_drop_while, rev_involutive.
    unfold lstrip. symmetry. apply take_drop_while.
  - apply take_while_all.
  - rewrite forallb_rev. apply take_while_all.
Qed.

Lemma length_set_nth {A} (i : nat) (x : A) (l : list A) :
  length (set_nth i x l) = length l.
Proof.
  revert i. induction l as [|y l IH]; intros [|i]; cbn; try reflexivity.
  f_equal. apply IH.
Qed.

(** The words a verbalizer adds come after the nodes that were there, and
    their text is stripped. *)
Lemma add_words_nodes self_lang (g : Graph) (n : Node) (texts : list str) :
  lang n = self_lang ->
  exists news,
    nodes (add_words g n texts) = nodes g ++ news
    /\ Forall text_is_stripped news.
Proof.
  intros _. revert g. induction texts as [|t texts IH]; intros g.
  - exists []. cbn. rewrite app_nil_r. split; constructor.
  - cbn [add_words fold_left].
    match goal with
    | |- context [fold_left ?f texts ?g1] =>
        destruct (IH g1) as [news [Hn Hs]]
    end.
    unfold add_words in Hn. cbn [node with_node] in Hn |- *.
    eexists. split.
    + rewrite Hn. cbn [nodes add_edge add_node]. rewrite <- app_assoc.
      reflexivity.
    + constructor; [reflexivity|exact Hs].
Qed.

(** Adding words keeps what was created before and creates stripped
    words. *)
Lemma created_add_words (g0 g : Graph) (n : Node) (texts : list str) :
  len g0 <= len g ->
  Forall text_is_stripped (created g0 g) ->
  len g0 <= len (add_words g n texts)
  /\ Forall text_is_stripped (created g0 (add_words g n texts)).
Proof.
  intros Hle Hc.
  destruct (add_words_nodes (lang n) g n texts eq_refl) as [news [Hn Hs]].
  unfold created, len in *. rewrite Hn. split.
  - rewrite length_app. lia.
  - rewrite skipn_app.
    replace (length (nodes g0) - length (nodes g)) with 0 by lia.
    apply Forall_app. split; assumption.
Qed.

Lemma created_same_length (g0 g : Graph) :
  length (nodes g) = length (nodes g0) ->
  len g0 <= len g /\ Forall text_is_stripped (created g0 g).
Proof.
  intros Hl. unfold created, len. rewrite <- Hl. split; [lia|].
  rewrite skipn_all. constructor.
Qed.

Lemma verbalize_number_loop_stripped L st tws kwargs n
      (nums : list Decimal) (g0 g g' : Graph) :
  len g0 <= len g /\ Forall text_is_stripped (created g0 g) ->
  foldM (fun g1 decimal_num =>
           final_num <- to_num decimal_num ;;
           num_str <- num2words L final_num kwargs ;;
           Ok (add_words g1 n (verbal_texts st tws (words_only st num_str))))
        nums g = Ok g' ->
  len g0 <= len g' /\ Forall text_is_stripped (created g0 g').
Proof.
  revert g. induction nums as [|d nums IH]; intros g Hg Hf.
  - cbn in Hf. apply Ok_inj in Hf. subst. exact Hg.
  - cbn [foldM] in Hf. unfold bind at 1 in Hf.
    destruct (to_num d) as [final_num|e0]; cbn [bind] in Hf; [|discriminate].
    destruct (num2words L final_num kwargs) as [num_str|e] eqn:En;
      cbn in Hf; [|discriminate].
    eapply IH; [|exact Hf].
    destruct Hg as [Hle Hc]. apply created_add_words; assumption.
Qed.

Lemma verbalize_number_stripped L self g n g' :
  _verbalize_number L self g n = Ok g' ->
  Forall text_is_stripped (created g g').
Proof.
  unfold _verbalize_number.
  assert (Hsame : forall g1, Ok g = Ok g1 ->
                             Forall text_is_stripped (created g g1)).
  { intros g1 H. apply Ok_inj in H. subst.
    apply created_same_length. reflexivity. }
  destruct (word_of n) as [word|]; [|apply Hsame].
  destruct (number word) as [num|]; [|apply Hsame].
  destruct (negb _); [apply Hsame|].
  destruct (negb _); [apply Hsame|].
  destruct (negb _); [discriminate|].
  unfold bind at 1.
  destruct (if str_eqb (format word) NUMBER_DIGITS then dec_digits num
            else Ok [num]) as [nums|e]; [|discriminate].
  intros Hf.
  eapply verbalize_number_loop_stripped in Hf;
    [apply Hf|apply created_same_length; reflexivity].
Qed.

Lemma verbalize_date_stripped L self g n g' :
  _verbalize_date L self g n = Ok g' ->
  Forall text_is_stripped (created g g').
Proof.
  unfold _verbalize_date.
  assert (Hsame : forall g1, Ok g = Ok g1 ->
                             Forall text_is_stripped (created g g1)).
  { intros g1 H. apply Ok_inj in H. subst.
    apply created_same_length. reflexivity. }
  destruct (word_of n) as [word|]; [|apply Hsame].
  destruct (date word) as [dt|]; [|apply Hsame].
  destruct (negb _); [apply Hsame|].
  destruct (negb _); [discriminate|].
  destruct (negb _); [discriminate|].
  unfold bind.
  repeat match goal with
         | |- context [match ?x with Ok _ => _ | Raise _ => _ end] =>
             destruct x; [|discriminate]
         end.
  intros H. apply Ok_inj in H. subst.
  apply created_add_words; apply created_same_length; reflexivity.
Qed.

Lemma verbalize_currency_stripped L self g n g' :
  _verbalize_currency L self g n = Ok g' ->
  Forall text_is_stripped (created g g').
Proof.
  unfold _verbalize_currency.
  assert (Hsame : forall g1, Ok g = Ok g1 ->
                             Forall text_is_stripped (created g g1)).
  { intros g1 H. apply Ok_inj in H. subst.
    apply created_same_length. reflexivity. }
  destruct (word_of n) as [word|]; [|apply Hsame].
  destruct (number word) as [num|]; [|apply Hsame].
  destruct (negb _); [apply Hsame|].
  assert (Hg1 : length (nodes (if truthy (currency_name word) then g
                               else set_word g n
                                      (named_currency_word
                                         (get_settings L self (lang n)) word)))
                = length (nodes g)).
  { destruct (truthy _); [reflexivity|apply length_set_nth]. }
  destruct (currency_symbol word); destruct (currency_name word);
    try apply Hsame;
    (destruct (negb _); [discriminate|]);
    (destruct (dec_has_frac num); cbn [bind]; [|discriminate]);
    (destruct (num2words L _ _);
     intros H; apply Ok_inj in H; subst;
     [apply created_add_words; apply created_same_length; exact Hg1
     |apply created_same_length; exact Hg1]).
Qed.

Lemma pipeline_tokenize_stripped L self g parent txt sc :
  Forall text_is_stripped (created g (_pipeline_tokenize L self g parent txt sc)).
Proof.
  unfold _pipeline_tokenize.
  set (st := get_settings L self (sc_lang sc)).
  set (txt' := match pre_process_text st with
               | Some f => f txt
               | None => txt
               end).
  generalize (enumerate (tokenize_groups st txt')). intros l.
  assert (G : forall g1,
             len g <= len g1 /\ Forall text_is_stripped (created g g1) ->
             let g2 :=
               fold_left
                 (fun g' ig =>
                    let word_text :=
                      tokenize_word_text st (fst (get_whitespace st txt')) ig in
                    let word_node :=
                      scoped_node (len g') None true sc
                        (scoped_word sc (strip word_text) word_text) in
                    add_edge (add_node g' word_node) (node parent)
                             (node word_node)) l g1 in
             len g <= len g2 /\ Forall text_is_stripped (created g g2)).
  { induction l as [|ig l IH]; intros g1 Hg1; [exact Hg1|].
    cbn [fold_left]. apply IH. destruct Hg1 as [Hle Hc].
    unfold created, len in *. cbn [nodes add_edge add_node]. split.
    - rewrite length_app. lia.
    - rewrite skipn_app.
      replace (length (nodes g) - length (nodes g1)) with 0 by lia.
      apply Forall_app. split; [exact Hc|].
      constructor; [reflexivity|constructor]. }
  apply G. apply created_same_length. reflexivity.
Qed.

Lemma retokenize_normalized st lg new_text :
  Forall (text_is_normalized st) (retokenize st lg new_text).
Proof.
  unfold retokenize. apply Forall_flat_map_all. intros grp.
  destruct (negb _); constructor; [reflexivity|constructor].
Qed.

Lemma split_replacements_normalized L self g n news :
  _split_replacements L self g n = Ok news ->
  Forall (text_is_normalized (get_settings L self (lang n))) news.
Proof.
  unfold _split_replacements, bind.
  pass_cases; try constructor; apply retokenize_normalized.
Qed.

Lemma split_abbreviations_normalized L self g n news :
  _split_abbreviations L self g n = Ok news ->
  Forall (text_is_normalized (get_settings L self (lang n))) news.
Proof.
  unfold _split_abbreviations, bind.
  pass_cases; try constructor; apply retokenize_normalized.
Qed.

(** C9, as stated, fails: spelling out " ab" creates a word with the text
    "a" whose text with whitespace is " a ", which does not start with the
    text. *)
Lemma leading_whitespace_is_kept :
  exists g r w,
    process_events libs (processor libs (default_args en_US))
      (text_and_elements false spell_out_with_space) true true true
    = Ok (g, r)
    /\ word_data g 4 = Some w
    /\ text w = lit "a"
    /\ text_with_ws w = lit " a "
    /\ startswith (text_with_ws w) (text w) = false.
Proof.
  eexists. eexists. eexists.
  split; [vm_compute; reflexivity|].
  split; [vm_compute; reflexivity|].
  repeat split.
Qed.

(** C9, amended: the text of every word node created by tokenization, by
    the punctuation, break, initialism, spell-out and word-break passes and
    by the verbalizers is its text with whitespace, stripped; so the text
    with whitespace is the text between a run of leading and a run of
    trailing whitespace.  The words of the replacement and abbreviation
    passes have their text normalized by the settings. *)
Theorem created_words_text_is_stripped (L : Libs) (self : Processor)
        (g : Graph) (n : Node) :
  (forall f news,
      In f [_break_words L self; _split_punctuations L self;
            _split_minor_breaks L self; _split_major_breaks L self;
            _split_initialism L self; _split_spell_out L self] ->
      f g n = Ok news -> Forall text_is_stripped news)
  /\ (forall f g',
         In f [_verbalize_number L self; _verbalize_currency L self;
               _verbalize_date L self] ->
         f g n = Ok g' -> Forall text_is_stripped (created g g'))
  /\ (forall txt sc,
         Forall text_is_stripped
                (created g (_pipeline_tokenize L self g n txt sc)))
  /\ (forall f news,
         In f [_split_replacements L self; _split_abbreviations L self] ->
         f g n = Ok news ->
         Forall (text_is_normalized (get_settings L self (lang n))) news)
  /\ (forall s,
         s = take_while is_space s ++ strip s
             ++ rev (take_while is_space (rev (lstrip s)))
         /\ forallb is_space (take_while is_space s) = true
         /\ forallb is_space (rev (take_while is_space (rev (lstrip s))))
            = true).
Proof.
  split; [|split; [|split; [|split]]].
  - intros f news Hin Hf. cbn in Hin.
    destruct Hin as [<-|[<-|[<-|[<-|[<-|[<-|[]]]]]]].
    + eapply break_words_stripped; exact Hf.
    + eapply split_punctuations_stripped; exact Hf.
    + eapply split_minor_breaks_stripped; exact Hf.
    + eapply split_major_breaks_stripped; exact Hf.
    + eapply split_initialism_stripped; exact Hf.
    + eapply split_spell_out_stripped; exact Hf.
  - intros f g' Hin Hf. cbn in Hin. destruct Hin as [<-|[<-|[<-|[]]]].
    + eapply verbalize_number_stripped; exact Hf.
    + eapply verbalize_currency_stripped; exact Hf.
    + eapply verbalize_date_stripped; exact Hf.
  - intros. apply pipeline_tokenize_stripped.
  - intros f news Hin Hf. cbn in Hin. destruct Hin as [<-|[<-|[]]].
    + eapply split_replacements_normalized; exact Hf.
    + eapply split_abbreviations_normalized; exact Hf.
  - apply strip_decomposition.
Qed.

(** ** The sentence breaker *)

Lemma edge_eqb_eq (a b : nat * nat) : edge_eqb a b = true <-> a = b.
Proof.
  unfold edge_eqb. destruct a as [a1 a2], b as [b1 b2]. cbn.
  rewrite andb_true_iff, !Nat.eqb_eq. split.
  - intros [-> ->]. reflexivity.
  - intros H. injection H. auto.
Qed.

Lemma has_edge_In (es : list (nat * nat)) (e : nat * nat) :
  has_edge es e = true <-> In e es.
Proof.
  unfold has_edge. rewrite existsb_exists. split.
  - intros [x [Hin Hx]]. apply edge_eqb_eq in Hx. subst. exact Hin.
  - intros Hin. exists e. split; [exact Hin|apply edge_eqb_eq; reflexivity].
Qed.

Lemma has_edge_false (es : list (nat * nat)) (e : nat * nat) :
  has_edge es e = false <-> ~ In e es.
Proof.
  rewrite <- has_edge_In. destruct (has_edge es e); split; intros H;
    try reflexivity; try discriminate; try (intros H'; discriminate).
  exfalso. apply H. reflexivity.
Qed.

Lemma nodup_edges_NoDup (es : list (nat * nat)) :
  nodup_edges es = true -> NoDup es.
Proof.
  induction es as [|e es IH]; intros H; [constructor|].
  cbn in H. apply andb_true_iff in H. destruct H as [H1 H2].
  constructor; [|apply IH; exact H2].
  apply has_edge_false. destruct (has_edge es e); [discriminate|reflexivity].
Qed.

Lemma enumerate_from_nth {A} (l : list A) (k i : nat) (x : A) :
  nth_error l i = Some x -> In (k + i, x) (enumerate_from k l).
Proof.
  revert k i. induction l as [|y l IH]; intros k [|i] H; cbn in H;
    try discriminate.
  - injection H as ->. left. f_equal. lia.
  - right. replace (k + S i) with (S k + i) by lia. apply IH. exact H.
Qed.

(** What a well-formed graph gives. *)
Lemma wf_graph_facts (g : Graph) :
  wf_graph g = true ->
  NoDup (edges g)
  /\ (forall e, In e (edges g) -> fst e < len g /\ snd e < len g)
  /\ (forall i n, get_node g i = Some n -> node n = i).
Proof.
  unfold wf_graph. rewrite !andb_true_iff. intros [[H1 H2] H3].
  split; [apply nodup_edges_NoDup; exact H1|]. split.
  - intros e Hin. rewrite forallb_forall in H2. specialize (H2 e Hin).
    apply andb_true_iff in H2. destruct H2 as [Ha Hb].
    apply Nat.ltb_lt in Ha. apply Nat.ltb_lt in Hb. split; assumption.
  - intros i n Hn. rewrite forallb_forall in H3.
    specialize (H3 (i, n)). cbn in H3. apply Nat.eqb_eq. apply H3.
    apply (enumerate_from_nth (nodes g) 0 i). exact Hn.
Qed.

Lemma index_of_nth {A} (eqb : A -> A -> bool) (x : A) (l : list A) (i : nat) :
  (forall a b, eqb a b = true -> a = b) ->
  index_of eqb x l = Some i -> nth_error l i = Some x.
Proof.
  intros Heq. revert i. induction l as [|y l IH]; intros i H; [discriminate|].
  cbn in H. destruct (eqb x y) eqn:E.
  - injection H as <-. apply Heq in E. subst. reflexivity.
  - destruct (index_of eqb x l) as [k|]; [|discriminate].
    injection H as <-. cbn. apply IH. reflexivity.
Qed.

(** Adding edges that are new and different from each other appends
    them. *)
Lemma add_edges_from_fresh (es : list (nat * nat)) (g : Graph) :
  NoDup es -> (forall e, In e es -> ~ In e (edges g)) ->
  edges (add_edges_from g es) = edges g ++ es
  /\ nodes (add_edges_from g es) = nodes g.
Proof.
  unfold add_edges_from. revert g.
  induction es as [|e es IH]; intros g Hnd Hfresh.
  - cbn. rewrite app_nil_r. split; reflexivity.
  - cbn [fold_left]. inversion Hnd as [|? ? Hnotin Hnd']; subst.
    assert (He : has_edge (edges g) (fst e, snd e) = false).
    { apply has_edge_false. rewrite <- surjective_pairing.
      apply Hfresh. left. reflexivity. }
    destruct (IH (add_edge g (fst e) (snd e)) Hnd') as [IHe IHn].
    + intros e' Hin. unfold add_edge. cbn [edges]. rewrite He.
      intros Hin'. apply in_app_or in Hin'. destruct Hin' as [Hin'|Hin'].
      * apply (Hfresh e'); [right; exact Hin|exact Hin'].
      * cbn in Hin'. destruct Hin' as [Heq|[]].
        rewrite <- surjective_pairing in Heq. subst. contradiction.
    + rewrite IHe, IHn. unfold add_edge. cbn [edges nodes]. rewrite He.
      rewrite <- surjective_pairing, <- app_assoc. split; reflexivity.
Qed.

Lemma filter_filter {A} (f h : A -> bool) (l : list A) :
  filter f (filter h l) = filter (fun x => h x && f x) l.
Proof.
  induction l as [|x l IH]; [reflexivity|].
  cbn. destruct (h x); cbn; [destruct (f x); rewrite IH; reflexivity|exact IH].
Qed.

Lemma filter_none_in {A} (f : A -> bool) (l : list A) :
  (forall x, In x l -> f x = false) -> filter f l = [].
Proof.
  induction l as [|x l IH]; intros H; [reflexivity|].
  cbn. rewrite (H x) by (left; reflexivity). apply IH.
  intros y Hy. apply H. right. exact Hy.
Qed.

Lemma filter_all_in {A} (f : A -> bool) (l : list A) :
  (forall x, In x l -> f x = true) -> filter f l = l.
Proof.
  induction l as [|x l IH]; intros H; [reflexivity|].
  cbn. rewrite (H x) by (left; reflexivity). f_equal. apply IH.
  intros y Hy. apply H. right. exact Hy.
Qed.

(** Removing the tail of a list without repetitions leaves its head. *)
Lemma filter_not_second (a b : list (nat * nat)) :
  NoDup (a ++ b) ->
  filter (fun e => negb (has_edge b e)) (a ++ b) = a.
Proof.
  intros Hnd. rewrite filter_app.
  rewrite (filter_all_in _ a).
  - rewrite (filter_none_in _ b); [apply app_nil_r|].
    intros x Hx. apply has_edge_In in Hx. rewrite Hx. reflexivity.
  - intros x Hx. apply negb_true_iff. apply has_edge_false. intros Hx'.
    induction a as [|y a IH]; [destruct Hx|].
    cbn in Hnd. inversion Hnd as [|? ? Hnotin Hnd']; subst.
    destruct Hx as [->|Hx].
    + apply Hnotin. apply in_or_app. right. exact Hx'.
    + apply IH; assumption.
Qed.

Lemma filter_not_tail (l : list (nat * nat)) (k : nat) :
  NoDup l ->
  filter (fun e => negb (has_edge (skipn k l) e)) l = firstn k l.
Proof.
  intros Hnd.
  pose proof (filter_not_second (firstn k l) (skipn k l)) as H.
  rewrite firstn_skipn in H. apply H. exact Hnd.
Qed.

Lemma NoDup_list_insert {A} (k : nat) (x : A) (l : list A) :
  NoDup l -> ~ In x l -> NoDup (list_insert k x l).
Proof.
  intros Hnd Hx. unfold list_insert.
  apply (Permutation_NoDup (l := x :: firstn k l ++ skipn k l)).
  - apply Permutation_middle.
  - rewrite firstn_skipn. constructor; assumption.
Qed.

Lemma In_list_insert {A} (k : nat) (x y : A) (l : list A) :
  In y (list_insert k x l) -> y = x \/ In y l.
Proof.
  unfold list_insert. intros H. apply in_app_or in H.
  destruct H as [H|[H|H]].
  - right. rewrite <- (firstn_skipn k l). apply in_or_app. left. exact H.
  - left. symmetry. exact H.
  - right. rewrite <- (firstn_skipn k l). apply in_or_app. right. exact H.
Qed.

Lemma NoDup_retarget (new s : nat) (l : list (nat * nat)) :
  NoDup l -> (forall e, In e l -> fst e = s) ->
  NoDup (map (fun e => (new, snd e)) l).
Proof.
  induction l as [|e l IH]; intros Hnd Hs; [constructor|].
  inversion Hnd as [|? ? Hnotin Hnd']; subst. cbn. constructor.
  - intros Hin. apply in_map_iff in Hin. destruct Hin as [e' [Heq Hin]].
    injection Heq as Heq. apply Hnotin.
    assert (e' = e); [|subst; exact Hin].
    rewrite (surjective_pairing e), (surjective_pairing e'). f_equal.
    + rewrite (Hs e') by (right; exact Hin).
      rewrite (Hs e) by (left; reflexivity). reflexivity.
    + exact Heq.
  - apply IH; [exact Hnd'|]. intros e' Hin. apply Hs. right. exact Hin.
Qed.

Lemma NoDup_skipn_edges (k : nat) (l : list (nat * nat)) :
  NoDup l -> NoDup (skipn k l).
Proof.
  intros H. rewrite <- (firstn_skipn k l) in H.
  apply NoDup_app_remove_l in H. exact H.
Qed.

Lemma In_skipn {A} (k : nat) (x : A) (l : list A) :
  In x (skipn k l) -> In x l.
Proof.
  intros H. rewrite <- (firstn_skipn k l). apply in_or_app. right. exact H.
Qed.

(** The edges and nodes after a sentence is split. *)
Lemma move_to_new_sentence_graph (g : Graph) (p_node s_node : Node)
      (j i : nat) :
  NoDup (edges g) ->
  (forall e, In e (edges g) -> fst e < len g /\ snd e < len g) ->
  node p_node < len g -> node s_node < len g ->
  node p_node <> node s_node ->
  let E := out_edges g (node s_node) in
  let P := out_edges g (node p_node) in
  let g' := move_to_new_sentence g p_node s_node P j (skipn (i + 1) E) in
  nodes g' = nodes g ++ [new_sentence g]
  /\ edges g'
     = filter (fun e => negb (has_edge (skipn (i + 1) E) e))
              (filter (fun e => negb (fst e =? node p_node)) (edges g))
       ++ list_insert (j + 1) (node p_node, len g) P
       ++ map (fun e => (len g, snd e)) (skipn (i + 1) E).
Proof.
  intros Hnd Hbound Hp Hs Hps E P g'.
  assert (HE : forall e, In e E -> fst e = node s_node /\ In e (edges g)).
  { intros e He. apply filter_In in He. destruct He as [Hin Hf].
    apply Nat.eqb_eq in Hf. split; assumption. }
  assert (HP : forall e, In e P -> fst e = node p_node /\ In e (edges g)).
  { intros e He. apply filter_In in He. destruct He as [Hin Hf].
    apply Nat.eqb_eq in Hf. split; assumption. }
  assert (HndP : NoDup P) by (apply NoDup_filter; exact Hnd).
  assert (HndE : NoDup E) by (apply NoDup_filter; exact Hnd).
  set (M := skipn (i + 1) E) in *.
  assert (HM : forall e, In e M -> fst e = node s_node /\ In e (edges g)).
  { intros e He. apply HE. apply (In_skipn (i + 1)). exact He. }
  (* the edges of the paragraph are taken out *)
  assert (H1 : edges (remove_edges_from g P)
               = filter (fun e => negb (fst e =? node p_node)) (edges g)).
  { cbn [remove_edges_from edges]. apply filter_ext_in. intros e He.
    f_equal. destruct (fst e =? node p_node) eqn:Ef.
    - apply has_edge_In. apply filter_In. split; assumption.
    - apply has_edge_false. intros Hin. apply HP in Hin.
      destruct Hin as [Hin _]. apply Nat.eqb_neq in Ef. contradiction. }
  set (P' := list_insert (j + 1) (node p_node, len g) P).
  assert (HP' : forall e, In e P' -> fst e = node p_node).
  { intros e He. apply In_list_insert in He. destruct He as [->|He];
      [reflexivity|apply HP; exact He]. }
  assert (HndP' : NoDup P').
  { apply NoDup_list_insert; [exact HndP|]. intros Hin. apply HP in Hin.
    destruct Hin as [_ Hin]. apply Hbound in Hin. cbn in Hin. lia. }
  unfold g', move_to_new_sentence.
  change (len (remove_edges_from g P)) with (len g). cbn [node].
  fold P'.
  destruct (add_edges_from_fresh P'
              (add_node (remove_edges_from g P)
                 {| node := len g; element := None; voice := []; lang := [];
                    implicit := true; data := SentenceNode |}) HndP')
    as [H3e H3n].
  { intros e He Hin. cbn [add_node edges] in Hin. rewrite H1 in Hin.
    apply filter_In in Hin. destruct Hin as [_ Hf].
    rewrite (HP' e He), Nat.eqb_refl in Hf. discriminate. }
  cbn [add_node edges nodes] in H3e, H3n.
  change (nodes (remove_edges_from g P)) with (nodes g) in H3n.
  rewrite H1 in H3e.
  set (g3 := add_edges_from _ P') in *.
  assert (H4 : edges (remove_edges_from g3 M)
               = filter (fun e => negb (has_edge M e))
                        (filter (fun e => negb (fst e =? node p_node))
                                (edges g))
                 ++ P').
  { cbn [remove_edges_from edges]. rewrite H3e, filter_app. f_equal.
    apply filter_all_in. intros e He. apply negb_true_iff.
    apply has_edge_false. intros Hin. apply HM in Hin.
    destruct Hin as [Hin _]. rewrite (HP' e He) in Hin. contradiction. }
  destruct (add_edges_from_fresh (map (fun e => (len g, snd e)) M)
              (remove_edges_from g3 M)) as [H5e H5n].
  { apply (NoDup_retarget (len g) (node s_node)).
    - apply (NoDup_skipn_edges). exact HndE.
    - intros e He. apply HM. exact He. }
  { intros e He Hin. apply in_map_iff in He. destruct He as [e0 [<- _]].
    rewrite H4 in Hin. apply in_app_or in Hin. destruct Hin as [Hin|Hin].
    - apply filter_In in Hin. destruct Hin as [Hin _].
      apply filter_In in Hin. destruct Hin as [Hin _].
      apply Hbound in Hin. cbn in Hin. lia.
    - apply HP' in Hin. cbn in Hin. lia. }
  rewrite H5e, H5n, H4. cbn [remove_edges_from nodes]. rewrite H3n.
  rewrite <- app_assoc. split; reflexivity.
Qed.

(** The out-edges after a sentence is split: the paragraph has the new
    sentence right after the old one, the old sentence keeps the edges up
    to the break, the new sentence has the edges after it, and no other
    node is touched. *)
Lemma move_to_new_sentence_out_edges (g : Graph) (p_node s_node : Node)
      (j i : nat) :
  NoDup (edges g) ->
  (forall e, In e (edges g) -> fst e < len g /\ snd e < len g) ->
  node p_node < len g -> node s_node < len g ->
  node p_node <> node s_node ->
  let E := out_edges g (node s_node) in
  let P := out_edges g (node p_node) in
  let g' := move_to_new_sentence g p_node s_node P j (skipn (i + 1) E) in
  out_edges g' (node p_node)
  = firstn (j + 1) P ++ (node p_node, len g) :: skipn (j + 1) P
  /\ out_edges g' (node s_node) = firstn (i + 1) E
  /\ out_edges g' (len g) = map (fun e => (len g, snd e)) (skipn (i + 1) E)
  /\ (forall u, u <> node p_node -> u <> node s_node -> u <> len g ->
                out_edges g' u = out_edges g u).
Proof.
  intros Hnd Hbound Hp Hs Hps E P g'.
  destruct (move_to_new_sentence_graph g p_node s_node j i
              Hnd Hbound Hp Hs Hps) as [_ He].
  fold E P g' in He.
  assert (HE : forall e, In e E -> fst e = node s_node /\ In e (edges g)).
  { intros e Hin. apply filter_In in Hin. destruct Hin as [Hin Hf].
    apply Nat.eqb_eq in Hf. split; assumption. }
  assert (HP : forall e, In e P -> fst e = node p_node /\ In e (edges g)).
  { intros e Hin. apply filter_In in Hin. destruct Hin as [Hin Hf].
    apply Nat.eqb_eq in Hf. split; assumption. }
  set (M := skipn (i + 1) E) in *.
  assert (HM : forall e, In e M -> fst e = node s_node /\ In e (edges g)).
  { intros e Hin. apply HE. apply (In_skipn (i + 1)). exact Hin. }
  set (P' := list_insert (j + 1) (node p_node, len g) P) in *.
  assert (HP' : forall e, In e P' -> fst e = node p_node).
  { intros e Hin. apply In_list_insert in Hin. destruct Hin as [->|Hin];
      [reflexivity|apply HP; exact Hin]. }
  set (N := map (fun e => (len g, snd e)) M) in *.
  assert (HN : forall e, In e N -> fst e = len g).
  { intros e Hin. apply in_map_iff in Hin. destruct Hin as [e0 [<- _]].
    reflexivity. }
  assert (Hout : forall u,
             out_edges g' u
             = filter (fun e => negb (fst e =? node p_node)
                                && (negb (has_edge M e) && (fst e =? u)))
                      (edges g)
               ++ filter (fun e => fst e =? u) P'
               ++ filter (fun e => fst e =? u) N).
  { intros u. unfold out_edges at 1. rewrite He, !filter_app, !filter_filter.
    reflexivity. }
  repeat split.
  - rewrite Hout.
    rewrite filter_none_in.
    + rewrite (filter_all_in _ P'), (filter_none_in _ N).
      * rewrite app_nil_r. reflexivity.
      * intros e Hin. rewrite (HN e Hin). apply Nat.eqb_neq. lia.
      * intros e Hin. rewrite (HP' e Hin). apply Nat.eqb_refl.
    + intros e _. destruct (fst e =? node p_node) eqn:Ep; cbn;
        [reflexivity|apply andb_false_r].
  - rewrite Hout.
    rewrite (filter_none_in _ P'), (filter_none_in _ N).
    + rewrite !app_nil_r.
      rewrite <- (filter_not_tail E (i + 1)) by (apply NoDup_filter; exact Hnd).
      fold M. unfold E, out_edges. rewrite filter_filter.
      apply filter_ext. intros e.
      destruct (fst e =? node s_node) eqn:Es.
      * apply Nat.eqb_eq in Es.
        replace (fst e =? node p_node) with false
          by (symmetry; apply Nat.eqb_neq; congruence).
        cbn. rewrite andb_true_r. reflexivity.
      * rewrite !andb_false_r. reflexivity.
    + intros e Hin. rewrite (HN e Hin). apply Nat.eqb_neq. lia.
    + intros e Hin. rewrite (HP' e Hin). apply Nat.eqb_neq. exact Hps.
  - rewrite Hout.
    rewrite filter_none_in.
    + rewrite (filter_none_in _ P'), (filter_all_in _ N).
      * reflexivity.
      * intros e Hin. rewrite (HN e Hin). apply Nat.eqb_refl.
      * intros e Hin. rewrite (HP' e Hin). apply Nat.eqb_neq. lia.
    + intros e Hin. apply Hbound in Hin.
      replace (fst e =? len g) with false
        by (symmetry; apply Nat.eqb_neq; lia).
      rewrite !andb_false_r. reflexivity.
  - intros u Hup Hus Hun. rewrite Hout.
    rewrite (filter_none_in _ P'), (filter_none_in _ N).
    + rewrite !app_nil_r. unfold out_edges. apply filter_ext_in.
      intros e Hin. destruct (fst e =? u) eqn:Eu;
        [|rewrite !andb_false_r; reflexivity].
      apply Nat.eqb_eq in Eu.
      replace (fst e =? node p_node) with false
        by (symmetry; apply Nat.eqb_neq; congruence).
      replace (has_edge M e) with false; [reflexivity|].
      symmetry. apply has_edge_false. intros HinM. apply HM in HinM.
      destruct HinM as [HinM _]. congruence.
    + intros e Hin. rewrite (HN e Hin). apply Nat.eqb_neq. congruence.
    + intros e Hin. rewrite (HP' e Hin). apply Nat.eqb_neq. congruence.
Qed.

Lemma path_to_sentence_nodes (fuel : nat) (g : Graph) (i : nat)
      (path : list Node) :
  path_to_sentence fuel g i = Some path ->
  (forall n, In n path -> exists k, get_node g k = Some n)
  /\ (forall s rest, rev path = s :: rest -> isSentenceNode s = true).
Proof.
  revert i path. induction fuel as [|fuel IH]; intros i path H;
    [discriminate|].
  cbn in H. destruct (predecessors g i) as [|parent_node ps]; [discriminate|].
  destruct (get_node g parent_node) as [parent|] eqn:Hn; [|discriminate].
  destruct (isSentenceNode parent) eqn:Hs.
  - injection H as <-. split.
    + intros n [<-|[]]. exists parent_node. exact Hn.
    + intros s rest Hr. cbn in Hr. injection Hr as <- _. exact Hs.
  - destruct (path_to_sentence fuel g parent_node) as [path'|] eqn:Hp;
      [|discriminate].
    injection H as <-. destruct (IH _ _ Hp) as [IH1 IH2]. split.
    + intros n [<-|Hin]; [exists parent_node; exact Hn|apply IH1; exact Hin].
    + intros s rest Hr. cbn in Hr.
      destruct (rev path') as [|s' rest'] eqn:Hrev.
      * destruct path' as [|x path'']; [|
          apply (f_equal (@length Node)) in Hrev;
          cbn in Hrev; rewrite length_app in Hrev; cbn in Hrev; lia].
        destruct fuel; cbn in Hp; [discriminate|].
        destruct (predecessors g parent_node); [discriminate|].
        destruct (get_node g n); [|discriminate].
        destruct (isSentenceNode n0); [discriminate|].
        destruct (path_to_sentence fuel g n); discriminate.
      * cbn in Hr. injection Hr as <- _. apply (IH2 s' rest'). reflexivity.
Qed.

Lemma find_parent_spec (fuel : nat) (g : Graph) (i : nat)
      (is_class : Node -> bool) (p : Node) :
  _find_parent fuel g i is_class = Some p ->
  is_class p = true /\ exists k, get_node g k = Some p.
Proof.
  revert i p. induction fuel as [|fuel IH]; intros i p H; [discriminate|].
  cbn in H.
  set (parents := flat_map (fun k => match get_node g k with
                                     | Some q => [q]
                                     | None => []
                                     end) (predecessors g i)) in *.
  assert (Hpar : forall q, In q parents -> exists k, get_node g k = Some q).
  { intros q Hq. apply in_flat_map in Hq. destruct Hq as [k [_ Hk]].
    destruct (get_node g k) as [q'|] eqn:E; [|destruct Hk].
    destruct Hk as [<-|[]]. exists k. exact E. }
  destruct (find is_class parents) as [q|] eqn:Hf.
  - injection H as <-. apply find_some in Hf. destruct Hf as [Hin Hc].
    split; [exact Hc|apply Hpar; exact Hin].
  - clear Hf Hpar. induction parents as [|q qs IHq]; [discriminate|].
    destruct (_find_parent fuel g (node q) is_class) as [r|] eqn:Hr.
    + injection H as <-. apply (IH _ _ Hr).
    + apply IHq. exact H.
Qed.

Lemma get_node_lt (g : Graph) (k : nat) (n : Node) :
  get_node g k = Some n -> k < len g.
Proof.
  intros H. apply nth_error_Some. unfold get_node in H. congruence.
Qed.

(** One turn for a major break leaf whose path to the nearest sentence is
    [s_path]: an explicit sentence is left as it is; so is a sentence
    without edges after the edge toward the break; otherwise a new implicit
    sentence is added, the paragraph gets it right after the current
    sentence, the current sentence keeps its edges up to and including the
    edge toward the break, the new sentence gets the edges after it in
    their order, and no other node changes its edges. *)
Lemma break_sentence_at_cases (g : Graph) (leaf : Node) (t tws : str)
        (s_path : list Node) (s_node below : Node) (rest : list Node) :
  data leaf = BreakWordNode MAJOR t tws ->
  path_to_sentence (S (len g)) g (node leaf) = Some s_path ->
  rev s_path = s_node :: below :: rest ->
  let E := out_edges g (node s_node) in
  (implicit s_node = false -> break_sentence_at g leaf = Ok g)
  /\ (forall i,
         implicit s_node = true ->
         index_of edge_eqb (node s_node, node below) E = Some i ->
         skipn (i + 1) E = [] ->
         break_sentence_at g leaf = Ok g)
  /\ (forall i p_node j,
         implicit s_node = true ->
         index_of edge_eqb (node s_node, node below) E = Some i ->
         skipn (i + 1) E <> [] ->
         wf_graph g = true ->
         _find_parent (S (len g)) g (node s_node) isParagraphNode
         = Some p_node ->
         let P := out_edges g (node p_node) in
         index_of edge_eqb (node p_node, node s_node) P = Some j ->
         exists g',
           break_sentence_at g leaf = Ok g'
           /\ nodes g' = nodes g ++ [new_sentence g]
           /\ nth_error P j = Some (node p_node, node s_node)
           /\ out_edges g' (node p_node)
              = firstn (j + 1) P ++ (node p_node, len g) :: skipn (j + 1) P
           /\ nth_error E i = Some (node s_node, node below)
           /\ out_edges g' (node s_node) = firstn (i + 1) E
           /\ out_edges g' (len g)
              = map (fun e => (len g, snd e)) (skipn (i + 1) E)
           /\ successors g' (node s_node) ++ successors g' (len g)
              = successors g (node s_node)
           /\ (forall u, u <> node p_node -> u <> node s_node ->
                         u <> len g -> out_edges g' u = out_edges g u)).
Proof.
  intros Hleaf Hpath Hrev E.
  assert (Heqb : forall a b, edge_eqb a b = true -> a = b)
    by (intros a b; apply edge_eqb_eq).
  repeat split.
  - intros Himp. unfold break_sentence_at.
    rewrite Hleaf, Hpath, Hrev, Himp. reflexivity.
  - intros i Himp Hidx Hskip. unfold break_sentence_at.
    rewrite Hleaf, Hpath, Hrev, Himp. cbn [negb]. fold E.
    rewrite Hidx, Hskip. reflexivity.
  - intros i p_node j Himp Hidx Hskip Hwf Hfind P Hj.
    destruct (wf_graph_facts g Hwf) as [Hnd [Hbound Hnum]].
    destruct (path_to_sentence_nodes _ _ _ _ Hpath) as [Hin Hsent].
    assert (Hs_in : In s_node s_path).
    { apply in_rev. rewrite Hrev. left. reflexivity. }
    destruct (Hin s_node Hs_in) as [ks Hks].
    pose proof (Hsent s_node (below :: rest) Hrev) as Hs_sent.
    destruct (find_parent_spec _ _ _ _ _ Hfind) as [Hp_par [kp Hkp]].
    assert (Hs_lt : node s_node < len g).
    { rewrite (Hnum ks s_node Hks). eapply get_node_lt. exact Hks. }
    assert (Hp_lt : node p_node < len g).
    { rewrite (Hnum kp p_node Hkp). eapply get_node_lt. exact Hkp. }
    assert (Hps : node p_node <> node s_node).
    { intros Heq. rewrite (Hnum kp p_node Hkp), (Hnum ks s_node Hks) in Heq.
      subst kp. rewrite Hks in Hkp. injection Hkp as <-.
      unfold isParagraphNode in Hp_par. unfold isSentenceNode in Hs_sent.
      destruct (data s_node); discriminate. }
    destruct (move_to_new_sentence_graph g p_node s_node j i
                Hnd Hbound Hp_lt Hs_lt Hps) as [Hnodes _].
    destruct (move_to_new_sentence_out_edges g p_node s_node j i
                Hnd Hbound Hp_lt Hs_lt Hps) as [Hop [Hos [Hon Hother]]].
    fold E P in Hnodes, Hop, Hos, Hon, Hother.
    exists (move_to_new_sentence g p_node s_node P j (skipn (i + 1) E)).
    split.
    { unfold break_sentence_at.
      rewrite Hleaf, Hpath, Hrev, Himp. cbn [negb]. fold E.
      rewrite Hidx. destruct (skipn (i + 1) E) as [|e0 M] eqn:HM;
        [congruence|].
      rewrite Hfind. fold P. rewrite Hj. reflexivity. }
    split; [exact Hnodes|].
    split; [apply (index_of_nth edge_eqb); assumption|].
    split; [exact Hop|].
    split; [apply (index_of_nth edge_eqb); assumption|].
    split; [exact Hos|].
    split; [exact Hon|].
    split; [|exact Hother].
    unfold successors at 1 2. rewrite Hos, Hon, map_map. cbn [snd].
    rewrite <- map_app, firstn_skipn. reflexivity.
Qed.

(** *** The loop of the breaker *)

(** The first predecessor of a node is joined to it by an edge. *)
Lemma first_predecessor_edge (g : Graph) (i k : nat) (ks : list nat) :
  predecessors g i = k :: ks -> In (k, i) (edges g).
Proof.
  unfold predecessors. intros H.
  assert (Hin : In k (map fst (filter (fun e => snd e =? i) (edges g))))
    by (rewrite H; left; reflexivity).
  apply in_map_iff in Hin. destruct Hin as [[a b] [Ha Hf]].
  apply filter_In in Hf. destruct Hf as [Hin Hb].
  cbn in Ha, Hb. apply Nat.eqb_eq in Hb. subst. exact Hin.
Qed.

(** The path starts with the first parent of the node. *)
Lemma path_to_sentence_head (fuel : nat) (g : Graph) (i : nat)
      (path : list Node) :
  path_to_sentence fuel g i = Some path ->
  exists x rest k ks,
    path = x :: rest /\ predecessors g i = k :: ks
    /\ get_node g k = Some x.
Proof.
  destruct fuel as [|fuel]; [discriminate|]. cbn.
  destruct (predecessors g i) as [|k ks]; [discriminate|].
  destruct (get_node g k) as [x|] eqn:Hn; [|discriminate].
  destruct (isSentenceNode x).
  - intros H. injection H as <-. exists x, [], k, ks. auto.
  - destruct (path_to_sentence fuel g k) as [path'|]; [|discriminate].
    intros H. injection H as <-. exists x, path', k, ks. auto.
Qed.

(** In a graph whose node objects carry their numbers, the sentence of the
    path is joined by an edge to the node below it on the path. *)
Lemma path_to_sentence_edge (fuel : nat) (g : Graph) (i : nat)
      (path : list Node) (s below : Node) (rest : list Node) :
  (forall k n, get_node g k = Some n -> node n = k) ->
  path_to_sentence fuel g i = Some path ->
  rev path = s :: below :: rest ->
  In (node s, node below) (edges g).
Proof.
  intros Hnum. revert i path rest.
  induction fuel as [|fuel IH]; intros i path rest H Hrev; [discriminate|].
  cbn in H.
  destruct (predecessors g i) as [|parent_node ps] eqn:Hpred;
    [discriminate|].
  destruct (get_node g parent_node) as [parent|] eqn:Hn; [|discriminate].
  destruct (isSentenceNode parent) eqn:Hs.
  - injection H as <-. cbn in Hrev. discriminate.
  - destruct (path_to_sentence fuel g parent_node) as [path'|] eqn:Hp;
      [|discriminate].
    injection H as <-. cbn [rev] in Hrev.
    destruct (path_to_sentence_head _ _ _ _ Hp)
      as [x [tl [k [ks [Hpath [Hpp Hx]]]]]].
    destruct (rev path') as [|y [|z rest']] eqn:Hr.
    + subst path'. apply (f_equal (@length Node)) in Hr. cbn in Hr.
      rewrite length_app in Hr. cbn in Hr. lia.
    + cbn in Hrev. injection Hrev as <- <- _.
      assert (Hone : path' = [y]).
      { rewrite <- (rev_involutive path'), Hr. reflexivity. }
      rewrite Hone in Hpath. injection Hpath as -> _.
      rewrite (Hnum _ _ Hx), (Hnum _ _ Hn).
      apply (first_predecessor_edge g _ _ ks). exact Hpp.
    + cbn in Hrev. injection Hrev as <- <- _.
      apply (IH parent_node path' rest' Hp). exact Hr.
Qed.

Lemma index_of_In (e : nat * nat) (l : list (nat * nat)) :
  In e l -> exists i, index_of edge_eqb e l = Some i.
Proof.
  induction l as [|y l IH]; intros H; [destruct H|].
  cbn. destruct (edge_eqb e y) eqn:E; [exists 0; reflexivity|].
  destruct H as [<- | H].
  - assert (Hrefl : edge_eqb y y = true) by (apply edge_eqb_eq; reflexivity).
    congruence.
  - destruct (IH H) as [i Hi]. rewrite Hi. exists (S i). reflexivity.
Qed.

Lemma out_edge_index (g : Graph) (a b : nat) :
  In (a, b) (edges g) ->
  exists i, index_of edge_eqb (a, b) (out_edges g a) = Some i.
Proof.
  intros H. apply index_of_In. unfold out_edges. apply filter_In.
  split; [exact H|]. cbn. apply Nat.eqb_refl.
Qed.

(** A paragraph that is the first parent of the node is the one
    [_find_parent] finds. *)
Lemma find_parent_first (fuel : nat) (g : Graph) (i : nat) (p : Node)
      (others : list nat) :
  predecessors g i = node p :: others ->
  get_node g (node p) = Some p -> isParagraphNode p = true ->
  _find_parent (S fuel) g i isParagraphNode = Some p.
Proof.
  intros Hpred Hp Hc. cbn [_find_parent]. rewrite Hpred.
  cbn [flat_map]. rewrite Hp. cbn [app find]. rewrite Hc. reflexivity.
Qed.

(** C2: the loop of [_break_sentences] at a leaf.  The leaves are listed
    before the loop; [g1] is the graph the turns for the leaves before [k]
    have left, and the loop goes on from the graph the turn for [k] leaves.
    - A leaf that is not a major break leaves the graph as it is.
    - For a major break leaf whose path to the nearest sentence is
      [s_path]: the edge toward the break is among the out-edges [E] of
      the sentence, at [i]; an explicit sentence is left as it is; so is
      a sentence without edges after [i]; otherwise (the sentence being
      under a paragraph) a new implicit sentence is added, the paragraph
      gets it right after the current sentence, the current sentence keeps
      its edges up to and including the edge toward the break, the new
      sentence gets the edges after it in their order, and no other node
      changes its edges. *)
Theorem break_sentences_cases (g : Graph) (r : nat) (before : list nat)
        (k : nat) (after : list nat) (g1 : Graph) :
  leaves g r = before ++ k :: after ->
  foldM break_turn before g = Ok g1 ->
  ((get_node g1 k = None
    \/ exists leaf, get_node g1 k = Some leaf
                    /\ forall t tws, data leaf <> BreakWordNode MAJOR t tws) ->
   _break_sentences g r = foldM break_turn after g1)
  /\ (forall leaf t tws s_path s_node below rest,
         wf_graph g1 = true ->
         get_node g1 k = Some leaf ->
         data leaf = BreakWordNode MAJOR t tws ->
         path_to_sentence (S (len g1)) g1 (node leaf) = Some s_path ->
         rev s_path = s_node :: below :: rest ->
         let E := out_edges g1 (node s_node) in
         exists i,
           nth_error E i = Some (node s_node, node below)
           /\ (implicit s_node = false \/ skipn (i + 1) E = [] ->
               _break_sentences g r = foldM break_turn after g1)
           /\ (forall p_node others,
                  implicit s_node = true -> skipn (i + 1) E <> [] ->
                  predecessors g1 (node s_node) = node p_node :: others ->
                  get_node g1 (node p_node) = Some p_node ->
                  isParagraphNode p_node = true ->
                  let P := out_edges g1 (node p_node) in
                  exists j g',
                    nth_error P j = Some (node p_node, node s_node)
                    /\ _break_sentences g r = foldM break_turn after g'
                    /\ nodes g' = nodes g1 ++ [new_sentence g1]
                    /\ out_edges g' (node p_node)
                       = firstn (j + 1) P
                         ++ (node p_node, len g1) :: skipn (j + 1) P
                    /\ out_edges g' (node s_node) = firstn (i + 1) E
                    /\ out_edges g' (len g1)
                       = map (fun e => (len g1, snd e)) (skipn (i + 1) E)
                    /\ successors g' (node s_node)
                       ++ successors g' (len g1)
                       = successors g1 (node s_node)
                    /\ (forall u,
                           u <> node p_node -> u <> node s_node ->
                           u <> len g1 ->
                           out_edges g' u = out_edges g1 u))).
Proof.
  intros Hl Hb.
  assert (Hloop : forall g2,
             break_turn g1 k = Ok g2 ->
             _break_sentences g r = foldM break_turn after g2).
  { intros g2 Hk. unfold _break_sentences.
    change (foldM break_turn (leaves g r) g = foldM break_turn after g2).
    rewrite Hl. clear Hl. revert g Hb.
    induction before as [|x before IH]; intros g Hb.
    - cbn in Hb. injection Hb as ->. cbn [app foldM]. rewrite Hk.
      reflexivity.
    - cbn [app foldM] in Hb |- *. unfold bind in Hb |- *.
      destruct (break_turn g x) as [gx|e]; [|discriminate].
      apply IH. exact Hb. }
  split.
  - intros Hk. apply Hloop. unfold break_turn.
    destruct Hk as [-> | [leaf [-> Hd]]]; [reflexivity|].
    unfold break_sentence_at.
    destruct (data leaf) as [| | |w|[] t tws|tm|pt ptws|] eqn:Ed;
      try reflexivity.
    exfalso. apply (Hd t tws). reflexivity.
  - intros leaf t tws s_path s_node below rest Hwf Hk Hleaf Hpath Hrev E.
    destruct (wf_graph_facts g1 Hwf) as [Hnd [Hbound Hnum]].
    pose proof (path_to_sentence_edge _ _ _ _ _ _ _ Hnum Hpath Hrev) as He.
    destruct (out_edge_index g1 _ _ He) as [i Hi]. fold E in Hi.
    assert (Heqb : forall a b, edge_eqb a b = true -> a = b)
      by (intros a b; apply edge_eqb_eq).
    destruct (break_sentence_at_cases g1 leaf t tws s_path s_node below
                rest Hleaf Hpath Hrev) as [C1 [C2 C3]].
    fold E in C2, C3.
    exists i. split; [apply (index_of_nth edge_eqb); assumption|]. split.
    + intros Hcase. apply Hloop. unfold break_turn. rewrite Hk.
      destruct (implicit s_node) eqn:Himp.
      * destruct Hcase as [Hc | Hc]; [discriminate|].
        apply (C2 i eq_refl Hi Hc).
      * apply C1. reflexivity.
    + intros p_node others Himp Hskip Hpred Hp Hpar P.
      pose proof (first_predecessor_edge _ _ _ _ Hpred) as Hps.
      destruct (out_edge_index g1 _ _ Hps) as [j Hj]. fold P in Hj.
      destruct (C3 i p_node j Himp Hi Hskip Hwf
                   (find_parent_first _ _ _ _ _ Hpred Hp Hpar) Hj)
        as [g' [Hg' [Hn [Hpj [Hop [_ [Hos [Hon [Hsucc Hother]]]]]]]]].
      exists j, g'. split; [exact Hpj|]. split.
      { apply Hloop. unfold break_turn. rewrite Hk. exact Hg'. }
      split; [exact Hn|]. split; [exact Hop|]. split; [exact Hos|].
      split; [exact Hon|]. split; [exact Hsucc | exact Hother].
Qed.

(** The theorem at work on the tree for "a. b", whose leaves are the word
    "a", the break "." and the word "b": the sentence 2 keeps the word
    "a." with its break, the new sentence 7 gets the word "b". *)
Lemma break_sentences_cases_witness :
  exists g',
    _break_sentences two_sentences_graph 0 = Ok g'
    /\ nodes g' = nodes two_sentences_graph
                  ++ [new_sentence two_sentences_graph]
    /\ out_edges g' 1 = [(1, 2); (1, 7)]
    /\ out_edges g' 2 = [(2, 3)]
    /\ out_edges g' 7 = [(7, 4)].
Proof.
  destruct (proj2 (break_sentences_cases two_sentences_graph 0 [5] 6 [4]
                     two_sentences_graph eq_refl eq_refl)
              (with_node 6 (break_kw MAJOR (lit ".") (lit ". ") en_US))
              (lit ".") (lit ". ")
              [with_node 3 (word_kw (lit "a.") (lit "a. ") en_US
                                    ROLE_DEFAULT);
               implicit_node 2 en_US SentenceNode]
              (implicit_node 2 en_US SentenceNode)
              (with_node 3 (word_kw (lit "a.") (lit "a. ") en_US
                                    ROLE_DEFAULT))
              [] eq_refl eq_refl eq_refl eq_refl eq_refl)
    as [i [Hi [_ H]]].
  assert (Ei : i = 0).
  { destruct i as [|[|i]]; [reflexivity | discriminate Hi |].
    vm_compute in Hi. destruct i; discriminate Hi. }
  subst i.
  destruct (H (implicit_node 1 en_US ParagraphNode) []
              eq_refl ltac:(vm_compute; discriminate)
              eq_refl eq_refl eq_refl)
    as [j [g' [Hj [Hg' [Hn [Hp [Hs [Hnew _]]]]]]]].
  assert (Ej : j = 0).
  { destruct j as [|[|j]]; [reflexivity | discriminate Hj |].
    vm_compute in Hj. destruct j; discriminate Hj. }
  subst j.
  exists g'. split.
  - rewrite Hg'. unfold break_turn, foldM.
    assert (Hfour : get_node g' 4
                    = Some (with_node 4 (word_kw (lit "b") (lit "b") en_US
                                                 ROLE_DEFAULT))).
    { unfold get_node. rewrite Hn. reflexivity. }
    rewrite Hfour. reflexivity.
  - split; [exact Hn|]. split; [exact Hp|]. split; [exact Hs | exact Hnew].
Defined.

(** ** Interpretations and their fields *)

Lemma foldM_inv {A S} (I : S -> Prop) (f : S -> A -> Exc S)
      (l : list A) (s s' : S) :
  (forall s0 a s1, I s0 -> f s0 a = Ok s1 -> I s1) ->
  I s -> foldM f l s = Ok s' -> I s'.
Proof.
  intros Hstep. revert s. induction l as [|a l IH]; intros s Hs H.
  - cbn in H. apply Ok_inj in H. subst. exact Hs.
  - cbn in H. unfold bind in H. destruct (f s a) as [s1|e] eqn:Hf;
      [|discriminate].
    apply (IH s1); [eapply Hstep; eassumption|exact H].
Qed.

Lemma fold_left_inv {A S} (I : S -> Prop) (f : S -> A -> S)
      (l : list A) (s : S) :
  (forall s0 a, I s0 -> In a l -> I (f s0 a)) -> I s -> I (fold_left f l s).
Proof.
  revert s. induction l as [|a l IH]; intros s Hstep Hs; [exact Hs|].
  cbn. apply IH.
  - intros s0 b H0 Hb. apply Hstep; [exact H0|right; exact Hb].
  - apply Hstep; [exact Hs|left; reflexivity].
Qed.

Lemma get_node_In (g : Graph) (i : nat) (n : Node) :
  get_node g i = Some n -> In n (nodes g).
Proof. intros H. eapply nth_error_In. exact H. Qed.

Lemma Forall_set_nth {A} (P : A -> Prop) (i : nat) (x : A) (l : list A) :
  P x -> Forall P l -> Forall P (set_nth i x l).
Proof.
  intros Hx Hl. revert i. induction Hl as [|y l Hy Hl IH]; intros [|i]; cbn;
    constructor; auto.
Qed.

(** A split pass whose new nodes have a property keeps it on the graph. *)
Lemma pipeline_split_preserves (P : Node -> Prop)
      (f : Graph -> Node -> Exc (list Node)) (g g' : Graph) (r : nat) :
  (forall i n, P n -> P (with_node i n)) ->
  (forall g0 n news, f g0 n = Ok news -> Forall P news) ->
  Forall P (nodes g) ->
  pipeline_split f g r = Ok g' ->
  Forall P (nodes g').
Proof.
  intros Hwith Hf Hg H. unfold pipeline_split in H.
  eapply (foldM_inv (fun g0 => Forall P (nodes g0))); [|exact Hg|exact H].
  intros g0 leaf g1 Hg0 Hstep. cbv beta in Hstep.
  destruct (get_node g0 leaf) as [n|];
    [|apply Ok_inj in Hstep; subst; exact Hg0].
  unfold bind in Hstep. destruct (f g0 n) as [news|e] eqn:Hn; [|discriminate].
  apply Ok_inj in Hstep. subst g1. apply Hf in Hn.
  apply fold_left_inv; [|exact Hg0].
  intros g2 x Hg2 Hx. unfold attach. cbn [nodes add_edge add_node].
  apply Forall_app. split; [exact Hg2|].
  constructor; [|constructor]. apply Hwith.
  rewrite Forall_forall in Hn. apply Hn. exact Hx.
Qed.

(** A transformation that keeps a property on the graph keeps it over all
    leaves. *)
Lemma pipeline_transform_preserves (P : Node -> Prop)
      (f : Graph -> Node -> Exc Graph) (g g' : Graph) (r : nat) :
  (forall g0 n g1, Forall P (nodes g0) -> In n (nodes g0) ->
                   f g0 n = Ok g1 -> Forall P (nodes g1)) ->
  Forall P (nodes g) ->
  pipeline_transform f g r = Ok g' ->
  Forall P (nodes g').
Proof.
  intros Hf Hg H. unfold pipeline_transform in H.
  eapply (foldM_inv (fun g0 => Forall P (nodes g0))); [|exact Hg|exact H].
  intros g0 leaf g1 Hg0 Hstep. cbv beta in Hstep.
  destruct (get_node g0 leaf) as [n|] eqn:Hn;
    [|apply Ok_inj in Hstep; subst; exact Hg0].
  eapply Hf; [exact Hg0|eapply get_node_In; exact Hn|exact Hstep].
Qed.

Lemma uninterpreted_typed (n : Node) : uninterpreted n -> typed_ok n.
Proof.
  unfold uninterpreted, typed_ok, word_typed.
  destruct (data n) as [| | |w| | | |]; auto.
  intros Hia. rewrite Hia.
  split; [intros; discriminate|]. split; intros; discriminate.
Qed.

Ltac fresh_nodes :=
  repeat first
    [ apply Forall_nil
    | apply Forall_cons; [cbn; auto|]
    | apply Forall_app; split
    | apply Forall_map_all; intros; cbn; auto
    | apply Forall_flat_map_all; intros ].

Lemma split_passes_uninterpreted (L : Libs) (self : Processor)
      (f : Graph -> Node -> Exc (list Node)) :
  In f [_split_replacements L self; _split_punctuations L self;
        _split_minor_breaks L self; _split_abbreviations L self;
        _split_initialism L self; _split_major_breaks L self;
        _split_spell_out L self; _break_words L self;
        _split_ignore_non_words L self] ->
  forall g n news, f g n = Ok news -> Forall uninterpreted news.
Proof.
  intros Hin g n news. cbn in Hin.
  destruct Hin as [<-|[<-|[<-|[<-|[<-|[<-|[<-|[<-|[<-|[]]]]]]]]]].
  - unfold _split_replacements, bind, retokenize.
    repeat (progress (pass_cases; fresh_nodes)).
  - unfold _split_punctuations. repeat (progress (pass_cases; fresh_nodes)).
  - unfold _split_minor_breaks. repeat (progress (pass_cases; fresh_nodes)).
  - unfold _split_abbreviations, bind, retokenize.
    repeat (progress (pass_cases; fresh_nodes)).
  - unfold _split_initialism, bind.
    repeat (progress (pass_cases; fresh_nodes)).
  - unfold _split_major_breaks. repeat (progress (pass_cases; fresh_nodes)).
  - unfold _split_spell_out. repeat (progress (pass_cases; fresh_nodes)).
  - unfold _break_words, bind. repeat (progress (pass_cases; fresh_nodes)).
  - unfold _split_ignore_non_words.
    repeat (progress (pass_cases; fresh_nodes)).
Qed.

Lemma typed_ok_with_node (i : nat) (n : Node) :
  typed_ok n -> typed_ok (with_node i n).
Proof. intros H. exact H. Qed.

Lemma split_pass_typed (L : Libs) (self : Processor)
      (f : Graph -> Node -> Exc (list Node)) (g g' : Graph) (r : nat) :
  In f [_split_replacements L self; _split_punctuations L self;
        _split_minor_breaks L self; _split_abbreviations L self;
        _split_initialism L self; _split_major_breaks L self;
        _split_spell_out L self; _break_words L self;
        _split_ignore_non_words L self] ->
  Forall typed_ok (nodes g) ->
  pipeline_split f g r = Ok g' ->
  Forall typed_ok (nodes g').
Proof.
  intros Hin Hg H.
  eapply (pipeline_split_preserves typed_ok); [|
    |exact Hg|exact H].
  - apply typed_ok_with_node.
  - intros g0 n news Hn.
    eapply Forall_impl; [apply uninterpreted_typed|].
    eapply split_passes_uninterpreted; eassumption.
Qed.

Lemma word_typed_of (g : Graph) (n : Node) (w : WordData) :
  Forall typed_ok (nodes g) -> In n (nodes g) -> word_of n = Some w ->
  word_typed w.
Proof.
  intros Hg Hin Hw. rewrite Forall_forall in Hg. specialize (Hg n Hin).
  unfold typed_ok in Hg. unfold word_of in Hw.
  destruct (data n); try discriminate. injection Hw as <-. exact Hg.
Qed.

Lemma set_word_typed (g : Graph) (n : Node) (w : WordData) :
  Forall typed_ok (nodes g) -> word_typed w ->
  Forall typed_ok (nodes (set_word g n w)).
Proof.
  intros Hg Hw. unfold set_word, set_node. cbn [nodes].
  apply Forall_set_nth; [exact Hw|exact Hg].
Qed.

Ltac other_kind := intros Hk; vm_compute in Hk; discriminate.

Lemma as_number_typed (w : WordData) (d : Decimal) :
  word_typed (as_number w d).
Proof.
  unfold word_typed, as_number. cbn.
  split; [intros _; discriminate|]. split; other_kind.
Qed.

Lemma as_currency_symbol_typed (w : WordData) (sym : str) (d : Decimal) :
  word_typed (as_currency_symbol w sym d).
Proof.
  unfold word_typed, as_currency_symbol. cbn.
  split; [other_kind|]. split; [other_kind|].
  intros _. split; [discriminate|left; discriminate].
Qed.

Lemma as_currency_name_typed (w : WordData) (nm : str) (d : Decimal) :
  word_typed (as_currency_name w nm d).
Proof.
  unfold word_typed, as_currency_name. cbn.
  split; [other_kind|]. split; [other_kind|].
  intros _. split; [discriminate|right; discriminate].
Qed.

Lemma with_date_typed (w : WordData) (d : DateTime) :
  word_typed (with_date w DATE d).
Proof.
  unfold word_typed, with_date. cbn.
  split; [other_kind|]. split; [intros _; discriminate|other_kind].
Qed.

Lemma with_currency_name_typed (w : WordData) (nm : str) :
  word_typed w -> word_typed (with_currency_name w nm).
Proof.
  unfold word_typed, with_currency_name. cbn.
  intros [H1 [H2 H3]]. split; [exact H1|]. split; [exact H2|].
  intros Hc. split; [apply H3; exact Hc|right; discriminate].
Qed.

Lemma with_pos_typed (w : WordData) (tag : str) :
  word_typed w -> word_typed (with_pos w tag).
Proof. intros H. exact H. Qed.

Lemma with_phonemes_typed (w : WordData) (p : option (list str)) :
  word_typed w -> word_typed (with_phonemes w p).
Proof. intros H. exact H. Qed.

Lemma transform_number_typed (L : Libs) (self : Processor)
      (g : Graph) (n : Node) (g' : Graph) :
  Forall typed_ok (nodes g) -> In n (nodes g) ->
  _transform_number L self g n = Ok g' -> Forall typed_ok (nodes g').
Proof.
  intros Hg Hin. unfold _transform_number.
  pass_cases; try exact Hg.
  apply set_word_typed; [exact Hg|apply as_number_typed].
Qed.

Lemma transform_currency_typed (L : Libs) (self : Processor)
      (g : Graph) (n : Node) (g' : Graph) :
  Forall typed_ok (nodes g) -> In n (nodes g) ->
  _transform_currency L self g n = Ok g' -> Forall typed_ok (nodes g').
Proof.
  intros Hg Hin. unfold _transform_currency.
  pass_cases; try exact Hg; apply set_word_typed; try exact Hg;
    [apply as_currency_symbol_typed|apply as_currency_name_typed].
Qed.

Lemma transform_date_typed (L : Libs) (self : Processor)
      (g : Graph) (n : Node) (g' : Graph) :
  Forall typed_ok (nodes g) -> In n (nodes g) ->
  _transform_date L self g n = Ok g' -> Forall typed_ok (nodes g').
Proof.
  intros Hg Hin. unfold _transform_date.
  pass_cases; try exact Hg; apply set_word_typed; try exact Hg.
  - apply with_date_typed.
  - match goal with
    | H : str_eqb (interpret_as ?w) DATE = true |- _ =>
        apply str_eqb_eq in H; rewrite H
    end.
    apply with_date_typed.
Qed.

Lemma add_words_typed (g : Graph) (n : Node) (texts : list str) :
  Forall typed_ok (nodes g) -> Forall typed_ok (nodes (add_words g n texts)).
Proof.
  intros Hg. unfold add_words.
  apply (fold_left_inv (fun g0 => Forall typed_ok (nodes g0))); [|exact Hg].
  intros g0 t Hg0 _. cbn [nodes add_edge add_node].
  apply Forall_app. split; [exact Hg0|].
  constructor; [|constructor].
  apply uninterpreted_typed. reflexivity.
Qed.

Lemma verbalize_number_typed (L : Libs) (self : Processor)
      (g : Graph) (n : Node) (g' : Graph) :
  Forall typed_ok (nodes g) -> In n (nodes g) ->
  _verbalize_number L self g n = Ok g' -> Forall typed_ok (nodes g').
Proof.
  intros Hg Hin. unfold _verbalize_number.
  destruct (word_of n) as [word|];
    [|intros H; apply Ok_inj in H; subst; exact Hg].
  destruct (number word) as [num|];
    [|intros H; apply Ok_inj in H; subst; exact Hg].
  destruct (negb _); [intros H; apply Ok_inj in H; subst; exact Hg|].
  destruct (negb _); [intros H; apply Ok_inj in H; subst; exact Hg|].
  destruct (negb _); [discriminate|].
  unfold bind at 1.
  destruct (if str_eqb (format word) NUMBER_DIGITS then dec_digits num
            else Ok [num]) as [nums|e]; [|discriminate].
  intros H.
  eapply (foldM_inv (fun g0 => Forall typed_ok (nodes g0)));
    [|exact Hg|exact H].
  intros g0 d g1 Hg0 Hstep. cbv beta in Hstep. unfold bind in Hstep.
  destruct (to_num d) as [final_num|]; [|discriminate].
  destruct (num2words L final_num _); [|discriminate].
  apply Ok_inj in Hstep. subst. apply add_words_typed. exact Hg0.
Qed.

Lemma verbalize_date_typed (L : Libs) (self : Processor)
      (g : Graph) (n : Node) (g' : Graph) :
  Forall typed_ok (nodes g) -> In n (nodes g) ->
  _verbalize_date L self g n = Ok g' -> Forall typed_ok (nodes g').
Proof.
  intros Hg Hin. unfold _verbalize_date, bind.
  pass_cases; try exact Hg. apply add_words_typed. exact Hg.
Qed.

Lemma verbalize_currency_typed (L : Libs) (self : Processor)
      (g : Graph) (n : Node) (g' : Graph) :
  Forall typed_ok (nodes g) -> In n (nodes g) ->
  _verbalize_currency L self g n = Ok g' -> Forall typed_ok (nodes g').
Proof.
  intros Hg Hin. unfold _verbalize_currency.
  destruct (word_of n) as [word|] eqn:Hw;
    [|intros H; apply Ok_inj in H; subst; exact Hg].
  pose proof (word_typed_of g n word Hg Hin Hw) as Hword.
  assert (Hg1 : Forall typed_ok
                  (nodes (if truthy (currency_name word) then g
                          else set_word g n
                                 (named_currency_word
                                    (get_settings L self (lang n)) word)))).
  { unfold named_currency_word. destruct (truthy (currency_name word));
      [exact Hg|].
    apply set_word_typed; [exact Hg|].
    apply with_currency_name_typed. exact Hword. }
  unfold bind. pass_cases; try exact Hg; try apply add_words_typed;
    exact Hg1.
Qed.

Lemma nodes_add_edges_from (es : list (nat * nat)) (g : Graph) :
  nodes (add_edges_from g es) = nodes g.
Proof.
  unfold add_edges_from. revert g.
  induction es as [|e es IH]; intros g; [reflexivity|].
  cbn [fold_left]. rewrite IH. reflexivity.
Qed.

Lemma break_sentence_at_nodes (g : Graph) (leaf : Node) (g' : Graph) :
  break_sentence_at g leaf = Ok g' ->
  nodes g' = nodes g \/ nodes g' = nodes g ++ [new_sentence g].
Proof.
  unfold break_sentence_at.
  pass_cases; try (left; reflexivity).
  right. unfold move_to_new_sentence.
  rewrite nodes_add_edges_from. cbn [nodes remove_edges_from].
  rewrite nodes_add_edges_from. reflexivity.
Qed.

Lemma break_sentences_typed (g : Graph) (r : nat) (g' : Graph) :
  Forall typed_ok (nodes g) ->
  _break_sentences g r = Ok g' -> Forall typed_ok (nodes g').
Proof.
  intros Hg H. unfold _break_sentences in H.
  eapply (foldM_inv (fun g0 => Forall typed_ok (nodes g0)));
    [|exact Hg|exact H].
  intros g0 leaf g1 Hg0 Hstep. cbv beta in Hstep.
  destruct (get_node g0 leaf) as [n|];
    [|apply Ok_inj in Hstep; subst; exact Hg0].
  apply break_sentence_at_nodes in Hstep. destruct Hstep as [-> | ->];
    [exact Hg0|].
  apply Forall_app. split; [exact Hg0|]. constructor; [exact I|constructor].
Qed.

Lemma word_at_In (g : Graph) (i : nat) (n : Node) (w : WordData) :
  word_at g i = Some (n, w) -> In n (nodes g) /\ word_of n = Some w.
Proof.
  unfold word_at, word_of. destruct (get_node g i) as [n0|] eqn:Hn;
    [|discriminate].
  destruct (data n0) eqn:Hd; try discriminate.
  intros H. injection H as <- <-. split; [eapply get_node_In; exact Hn|].
  rewrite Hd. reflexivity.
Qed.

Lemma phonemize_word_typed (L : Libs) (self : Processor)
      (g : Graph) (i : nat) (g' : Graph) :
  Forall typed_ok (nodes g) ->
  phonemize_word L self g i = Ok g' -> Forall typed_ok (nodes g').
Proof.
  intros Hg. unfold phonemize_word.
  destruct (word_at g i) as [[n word]|] eqn:Hw;
    [|intros H; apply Ok_inj in H; subst; exact Hg].
  destruct (word_at_In _ _ _ _ Hw) as [Hin Hword].
  pose proof (word_typed_of g n word Hg Hin Hword) as Ht.
  destruct (has_phonemes word);
    [intros H; apply Ok_inj in H; subst; exact Hg|].
  unfold bind at 1.
  match goal with
  | |- match ?x with Ok _ => _ | Raise _ => _ end = _ -> _ =>
      destruct x as [word1|e] eqn:H1; [|discriminate]
  end.
  assert (T1 : word_typed word1).
  { revert H1. unfold bind. pass_cases; exact Ht. }
  unfold bind at 1.
  match goal with
  | |- match ?x with Ok _ => _ | Raise _ => _ end = _ -> _ =>
      destruct x as [word2|e] eqn:H2; [|discriminate]
  end.
  assert (T2 : word_typed word2).
  { revert H2. unfold bind. pass_cases; exact T1. }
  intros H. apply Ok_inj in H. subst.
  apply set_word_typed; assumption.
Qed.

Lemma process_sentence_typed (L : Libs) (self : Processor)
      (pos_flag phonemize : bool) (cur : Node) (g : Graph)
      (ids : list nat) (g' : Graph) :
  Forall typed_ok (nodes g) ->
  process_sentence L self pos_flag phonemize cur g ids = Ok g' ->
  Forall typed_ok (nodes g').
Proof.
  intros Hg. unfold process_sentence. unfold bind at 1.
  match goal with
  | |- match ?x with Ok _ => _ | Raise _ => _ end = _ -> _ =>
      destruct x as [g1|e] eqn:H1; [|discriminate]
  end.
  assert (Hg1 : Forall typed_ok (nodes g1)).
  { revert H1. unfold bind. pass_cases; try exact Hg.
    apply (fold_left_inv (fun g0 => Forall typed_ok (nodes g0)));
      [|exact Hg].
    intros gx it Hgx _.
    destruct (word_at gx (fst it)) as [[nx wx]|] eqn:Hw; [|exact Hgx].
    destruct (word_at_In _ _ _ _ Hw) as [Hin Hword].
    apply set_word_typed; [exact Hgx|].
    apply with_pos_typed. eapply word_typed_of; eassumption. }
  destruct phonemize; [|intros H; apply Ok_inj in H; subst; exact Hg1].
  intros H.
  eapply (foldM_inv (fun g0 => Forall typed_ok (nodes g0)));
    [|exact Hg1|exact H].
  intros g0 i g2 Hg0 Hstep. eapply phonemize_word_typed; eassumption.
Qed.

Lemma enrich_typed (L : Libs) (self : Processor)
      (pos_flag phonemize : bool) (g : Graph) (r : nat) (g' : Graph) :
  Forall typed_ok (nodes g) ->
  enrich L self pos_flag phonemize g r = Ok g' ->
  Forall typed_ok (nodes g').
Proof.
  intros Hg. unfold enrich. unfold bind at 1.
  match goal with
  | |- match ?x with Ok _ => _ | Raise _ => _ end = _ -> _ =>
      destruct x as [acc|e] eqn:H1; [|discriminate]
  end.
  assert (Hacc : Forall typed_ok (nodes (fst acc))).
  { eapply (foldM_inv (fun a : Graph * list nat =>
                         Forall typed_ok (nodes (fst a)))
                      _ _ (g, []));
      [|exact Hg|exact H1].
    intros [g0 ws] i [g1 ws1] Hg0 Hstep. cbn [fst] in *.
    unfold gather_step in Hstep.
    destruct (get_node g0 i) as [n|];
      [|apply Ok_inj in Hstep; injection Hstep as <- <-; exact Hg0].
    destruct (isSentenceNode n).
    - destruct ws as [|w0 ws0];
        [apply Ok_inj in Hstep; injection Hstep as <- <-; exact Hg0|].
      unfold bind in Hstep.
      destruct (process_sentence L self pos_flag phonemize n g0 (w0 :: ws0))
        as [g2|e] eqn:Hp; [|discriminate].
      apply Ok_inj in Hstep. injection Hstep as <- <-.
      eapply process_sentence_typed; eassumption.
    - destruct (_ && _); apply Ok_inj in Hstep; injection Hstep as <- <-;
        exact Hg0. }
  destruct (snd acc) as [|w0 ws0];
    [intros H; apply Ok_inj in H; subst; exact Hacc|].
  destruct (get_node (fst acc) _) as [cur|];
    [|intros H; apply Ok_inj in H; subst; exact Hacc].
  intros H. eapply process_sentence_typed; eassumption.
Qed.

Lemma post_process_sentences_typed (L : Libs) (self : Processor)
      (g : Graph) (r : nat) (g' : Graph) :
  no_post_processor L self ->
  post_process_sentences L self g r = Ok g' -> g' = g.
Proof.
  intros Hnone H. unfold post_process_sentences in H.
  eapply (foldM_inv (fun g0 => g0 = g)); [|reflexivity|exact H].
  intros g0 i g1 -> Hstep. cbv beta in Hstep.
  destruct (get_node g i) as [n|]; [|apply Ok_inj in Hstep; auto].
  destruct (isSentenceNode n); [|apply Ok_inj in Hstep; auto].
  rewrite Hnone in Hstep. apply Ok_inj in Hstep. auto.
Qed.

(** The passes keep the promise of the interpretations once it holds on
    the tree. *)
Lemma run_pipeline_typed (L : Libs) (self : Processor)
      (pos_flag phonemize post_process : bool) (g0 : Graph) (r : nat)
      (g : Graph) :
  post_process = false \/ no_post_processor L self ->
  Forall typed_ok (nodes g0) ->
  run_pipeline L self pos_flag phonemize post_process g0 r = Ok g ->
  Forall typed_ok (nodes g).
Proof.
  intros Hpp Hg0. unfold run_pipeline.
  repeat
    (unfold bind at 1;
     match goal with
     | |- match ?x with Ok _ => _ | Raise _ => _ end = _ -> _ =>
         let g1 := fresh "g" in
         let H1 := fresh "Hstep" in
         destruct x as [g1|] eqn:H1; [|discriminate];
         first
           [ apply (split_pass_typed L self) in H1;
             [|cbn; repeat (first [left; reflexivity|right])|assumption]
           | apply break_sentences_typed in H1; [|assumption]
           | apply (pipeline_transform_preserves typed_ok) in H1;
             [|first [ apply transform_number_typed
                     | apply transform_currency_typed
                     | apply transform_date_typed
                     | apply verbalize_number_typed
                     | apply verbalize_currency_typed
                     | apply verbalize_date_typed ]
              |assumption]
           | apply enrich_typed in H1; [|assumption] ]
     end).
  destruct post_process.
  - destruct Hpp as [Hf|Hnone]; [discriminate|].
    intros H. apply post_process_sentences_typed in H; [|exact Hnone].
    subst. assumption.
  - intros H. apply Ok_inj in H. subst. assumption.
Qed.

Lemma foldM_inv_in {A S} (I : S -> Prop) (f : S -> A -> Exc S)
      (l : list A) (s s' : S) :
  (forall s0 a s1, In a l -> I s0 -> f s0 a = Ok s1 -> I s1) ->
  I s -> foldM f l s = Ok s' -> I s'.
Proof.
  revert s. induction l as [|a l IH]; intros s Hstep Hs H.
  - cbn in H. apply Ok_inj in H. subst. exact Hs.
  - cbn in H. unfold bind in H. destruct (f s a) as [s1|e] eqn:Hf;
      [|discriminate].
    apply (IH s1).
    + intros s0 b s2 Hb. apply Hstep. right. exact Hb.
    + eapply Hstep; [left; reflexivity|exact Hs|exact Hf].
    + exact H.
Qed.

Ltac build_ok_tac :=
  unfold build_ok in *;
  repeat match goal with
         | H : _ /\ _ |- _ => destruct H
         end;
  cbn [say_as_stack graph root nodes add_edge add_node set_graph
       set_last_paragraph set_last_sentence];
  repeat split; auto;
  try (apply Forall_app; split; auto; repeat constructor);
  try (intros ? Hroot; injection Hroot as <-; exact I).

Lemma ensure_speak_ok (b : Build) : build_ok b -> build_ok (ensure_speak b).
Proof.
  intros H. unfold ensure_speak. destruct (last_speak b); [exact H|].
  build_ok_tac.
  intros r Hr. destruct (root b) as [r0|]; injection Hr as <-; auto.
  exact I.
Qed.

Lemma ensure_paragraph_ok (impl : bool) (b : Build) :
  build_ok b -> build_ok (ensure_paragraph impl b).
Proof.
  intros H. unfold ensure_paragraph. destruct (last_paragraph b); [exact H|].
  build_ok_tac.
Qed.

Lemma ensure_sentence_ok (b : Build) :
  build_ok b -> build_ok (ensure_sentence b).
Proof.
  intros H. unfold ensure_sentence. destruct (last_sentence b); [exact H|].
  build_ok_tac.
Qed.

Lemma push_lang_ok (b : Build) (t : str) (e : Element) :
  build_ok b -> build_ok (push_lang b t e).
Proof.
  intros H. unfold push_lang.
  destruct (attrib_no_namespace e (lit "lang")) as [[|c l]|]; exact H.
Qed.

Lemma pipeline_tokenize_typed (L : Libs) (self : Processor) (g : Graph)
      (parent : Node) (txt : str) (sc : Scope) :
  sc_say_as sc = None ->
  Forall typed_ok (nodes g) ->
  Forall typed_ok (nodes (_pipeline_tokenize L self g parent txt sc)).
Proof.
  intros Hsc Hg. unfold _pipeline_tokenize.
  apply (fold_left_inv (fun g0 => Forall typed_ok (nodes g0))); [|exact Hg].
  intros g0 ig Hg0 _. cbn [nodes add_edge add_node].
  apply Forall_app. split; [exact Hg0|].
  constructor; [|constructor].
  apply uninterpreted_typed. unfold uninterpreted, scoped_node, scoped_word.
  cbn. rewrite Hsc. reflexivity.
Qed.

Lemma on_text_ok (L : Libs) (self : Processor) (b : Build) (t : str) :
  build_ok b -> build_ok (on_text L self b t).
Proof.
  intros H. unfold on_text. destruct (skip_elements b); [exact H|].
  pose proof (ensure_sentence_ok _
                (ensure_paragraph_ok true _ (ensure_speak_ok _ H))) as H1.
  set (b1 := ensure_sentence (ensure_paragraph true (ensure_speak b))) in *.
  destruct (last_sentence b1) as [s_node|]; [|exact H1].
  assert (Hsc : sc_say_as (scope_kwargs b1 true) = None).
  { unfold scope_kwargs. cbn. destruct H1 as [-> _]. reflexivity. }
  destruct (in_word b1).
  - destruct H1 as [Hs [Hn Hr]]. unfold build_ok.
    cbn [say_as_stack graph root nodes add_edge add_node set_graph].
    split; [exact Hs|]. split; [|exact Hr].
    apply Forall_app. split; [exact Hn|]. constructor; [|constructor].
    apply uninterpreted_typed. unfold uninterpreted, scoped_node, scoped_word.
    cbn. rewrite Hs. reflexivity.
  - destruct H1 as [Hs [Hn Hr]]. unfold build_ok.
    cbn [say_as_stack graph root set_graph].
    split; [exact Hs|]. split; [|exact Hr].
    apply pipeline_tokenize_typed; assumption.
Qed.

Lemma on_end_ok (self : Processor) (b : Build) (e : Element) :
  build_ok b -> build_ok (on_end self b e).
Proof.
  intros H. unfold on_end.
  destruct (tag_is _ "voice"); [build_ok_tac|].
  destruct (tag_is _ "say-as").
  - destruct H as [Hs [Hn Hr]]. unfold build_ok. cbn. rewrite Hs.
    repeat split; assumption.
  - build_ok_tac.
Qed.

Lemma on_start_ok (b : Build) (e : Element)
      (is_last : bool) (b' : Build) :
  tag_is (tag_no_namespace (e_tag e)) "say-as" = false ->
  build_ok b -> on_start b e is_last = Ok b' -> build_ok b'.
Proof.
  intros Htag H. unfold on_start. rewrite Htag.
  destruct (skip_elements b);
    [intros Hb; apply Ok_inj in Hb; subst; exact H|].
  destruct (tag_is _ "speak").
  { intros Hb. apply Ok_inj in Hb. subst.
    pose proof (push_lang_ok b (tag_no_namespace (e_tag e)) e H) as H1.
    set (b1 := push_lang b (tag_no_namespace (e_tag e)) e) in *.
    destruct H1 as [Hs [Hn Hr]]. unfold build_ok.
    cbn [say_as_stack graph root nodes add_node].
    assert (Hroot : typed_ok
                      match root b1 with
                      | Some r => r
                      | None =>
                          scoped_node (len (graph b1)) (Some e) false
                                      (scope_kwargs b1 false) SpeakNode
                      end).
    { destruct (root b1) as [r|] eqn:Er; [apply Hr; reflexivity|exact I]. }
    split; [exact Hs|]. split.
    - apply Forall_app. split; [exact Hn|]. constructor; [exact Hroot|constructor].
    - intros r Hr'. injection Hr' as <-. exact Hroot. }
  destruct (tag_is _ "voice");
    [intros Hb; apply Ok_inj in Hb; subst; build_ok_tac|].
  destruct (tag_is _ "p").
  { intros Hb. apply Ok_inj in Hb. subst.
    pose proof (push_lang_ok _ (tag_no_namespace (e_tag e)) e
                  (ensure_speak_ok _ H)) as H1.
    build_ok_tac. }
  destruct (tag_is _ "s").
  { intros Hb. apply Ok_inj in Hb. subst.
    pose proof (push_lang_ok _ (tag_no_namespace (e_tag e)) e
                  (ensure_paragraph_ok false _ (ensure_speak_ok _ H))) as H1.
    build_ok_tac. }
  destruct (_ || _).
  { intros Hb. apply Ok_inj in Hb. subst.
    pose proof (push_lang_ok b (tag_no_namespace (e_tag e)) e H) as H1.
    build_ok_tac. }
  destruct (tag_is _ "break").
  { destruct (match last_sentence b with
              | Some n => Some n
              | None => match last_paragraph b with
                        | Some n => Some n
                        | None => last_speak b
                        end
              end); [|discriminate].
    intros Hb. apply Ok_inj in Hb. subst. build_ok_tac. }
  destruct (tag_is _ "sub");
    [intros Hb; apply Ok_inj in Hb; subst; build_ok_tac|].
  destruct (tag_is _ "metadata");
    intros Hb; apply Ok_inj in Hb; subst; build_ok_tac.
Qed.

(** A document without [<say-as>] gives a tree that keeps the promise of
    the interpretations: its words have none yet. *)
Lemma build_tree_ok (L : Libs) (self : Processor) (events : list Event)
      (b : Build) :
  no_say_as events -> build_tree L self events = Ok b -> build_ok b.
Proof.
  intros Hno H. unfold build_tree in H.
  eapply (foldM_inv_in build_ok); [|
    |exact H].
  - intros b0 ev b1 Hin Hb0 Hstep. destruct ev as [e il|t|e]; cbn in Hstep.
    + eapply on_start_ok; [|exact Hb0|exact Hstep].
      eapply Hno. exact Hin.
    + apply Ok_inj in Hstep. subst. apply on_text_ok. exact Hb0.
    + apply Ok_inj in Hstep. subst. apply on_end_ok. exact Hb0.
  - unfold build_ok, initial_build. cbn.
    repeat split; [constructor|intros r Hr; discriminate].
Qed.

(** What the currency transformation does to a word that has neither
    symbol nor name yet: nothing, or it makes it a currency amount with its
    value and exactly one of symbol and name. *)
Lemma transform_currency_sets_one (L : Libs) (self : Processor)
      (g : Graph) (n : Node) (word : WordData) (g' : Graph) :
  word_of n = Some word ->
  currency_symbol word = None -> currency_name word = None ->
  _transform_currency L self g n = Ok g' ->
  g' = g
  \/ exists w',
      g' = set_word g n w'
      /\ interpret_as w' = CURRENCY
      /\ number w' <> None
      /\ ((currency_symbol w' <> None /\ currency_name w' = None)
          \/ (currency_symbol w' = None /\ currency_name w' <> None)).
Proof.
  intros Hw Hsym Hname. unfold _transform_currency. rewrite Hw.
  pass_cases; try (left; reflexivity); right; eexists;
    (split; [reflexivity|]); cbn; (split; [reflexivity|]);
    (split; [discriminate|]).
  - left. split; [discriminate|exact Hname].
  - right. split; [exact Hsym|discriminate].
Qed.

(** C3, as stated, fails: a word forced to be a number by [<say-as>]
    keeps [interpret_as = number] without a value when its text does not
    parse; and the word "$10" ends with both its currency symbol and its
    currency name set. *)
Lemma interpretation_without_field :
  (exists g r w,
      process_events libs (processor libs (default_args en_US))
        (text_and_elements false forced_number) true true true = Ok (g, r)
      /\ word_data g 3 = Some w
      /\ interpret_as w = NUMBER /\ number w = None)
  /\ (exists g r w,
         call dollar_libs (processor dollar_libs (default_args en_US))
              (lit "$10") false true true true true = Ok (g, r)
         /\ word_data g 3 = Some w
         /\ interpret_as w = CURRENCY
         /\ currency_symbol w = Some (lit "$")
         /\ currency_name w = Some (lit "USD")).
Proof.
  split; eexists; eexists; eexists;
    (split; [vm_compute; reflexivity|]);
    (split; [vm_compute; reflexivity|]);
    repeat split.
Qed.

(** C3, amended: for a document without [<say-as>], after the whole
    pipeline every word node with [interpret_as = number] has its number,
    every one with [interpret_as = date] has its date, and every one with
    [interpret_as = currency] has its number and a currency symbol or a
    currency name.  The currency transformation sets exactly one of the
    two; verbalization then fills in the name, so that both can be set. *)
Theorem interpreted_words_have_their_fields (L : Libs) (self : Processor) :
  (forall events pos_flag phonemize post_process g r,
      no_say_as events ->
      post_process = false \/ no_post_processor L self ->
      process_events L self events pos_flag phonemize post_process
      = Ok (g, r) ->
      Forall typed_ok (nodes g))
  /\ (forall g n word g',
         word_of n = Some word ->
         currency_symbol word = None -> currency_name word = None ->
         _transform_currency L self g n = Ok g' ->
         g' = g
         \/ exists w',
             g' = set_word g n w'
             /\ interpret_as w' = CURRENCY
             /\ number w' <> None
             /\ ((currency_symbol w' <> None /\ currency_name w' = None)
                 \/ (currency_symbol w' = None /\ currency_name w' <> None))).
Proof.
  split.
  - intros events pos_flag phonemize post_process g r Hno Hpp H.
    unfold process_events in H. unfold bind at 1 in H.
    destruct (build_tree L self events) as [b|] eqn:Hb; [|discriminate].
    apply build_tree_ok in Hb; [|exact Hno].
    destruct Hb as [_ [Hn _]].
    destruct (root b) as [r0|]; [|discriminate].
    unfold bind in H.
    destruct (run_pipeline L self pos_flag phonemize post_process
                           (graph b) (node r0)) as [g1|] eqn:Hrun;
      [|discriminate].
    apply Ok_inj in H. injection H as <- <-.
    eapply run_pipeline_typed; eassumption.
  - intros. eapply transform_currency_sets_one; eassumption.
Qed.

(** The theorem at work on the text "$10": every node of the processed
    graph keeps the promise of its interpretation. *)
Lemma interpreted_words_have_their_fields_witness :
  exists g r,
    process_events dollar_libs (processor dollar_libs (default_args en_US))
      (text_and_elements false (leaf_element "speak" [] "$10"))
      true true false = Ok (g, r)
    /\ Forall typed_ok (nodes g).
Proof.
  eexists. eexists. split; [vm_compute; reflexivity|].
  eapply (proj1 (interpreted_words_have_their_fields dollar_libs
                   (processor dollar_libs (default_args en_US)))
            (text_and_elements false (leaf_element "speak" [] "$10"))
            true true false).
  - intros e is_last Hin. cbn in Hin.
    destruct Hin as [Hin|[Hin|[Hin|[]]]]; try discriminate.
    injection Hin as <- _. reflexivity.
  - left. reflexivity.
  - vm_compute. reflexivity.
Defined.

(** ** Plain text comes back *)

(** *** Splitting at whitespace *)

Lemma length_take_drop_while (p : ascii -> bool) (s : str) :
  length (take_while p s) + length (drop_while p s) = length s.
Proof. rewrite <- length_app, take_drop_while. reflexivity. Qed.

Lemma firstn_take_while (p : ascii -> bool) (s : str) :
  firstn (length (take_while p s)) s = take_while p s.
Proof.
  rewrite <- (take_drop_while p s) at 2. apply firstn_app_exact.
Qed.

Lemma skipn_take_while (p : ascii -> bool) (s : str) :
  skipn (length (take_while p s)) s = drop_while p s.
Proof.
  rewrite <- (take_drop_while p s) at 2. apply skipn_app_exact.
Qed.

Lemma downto_pos (n : nat) : 0 < n -> exists l, downto n 1 = n :: l.
Proof.
  intros H. destruct n as [|n]; [lia|]. cbn [downto].
  destruct (S n <? 1) eqn:E; [apply Nat.ltb_lt in E; lia|].
  eexists. reflexivity.
Qed.

(** The default split pattern finds the next run of whitespace. *)
Lemma search_whitespace (i : nat) (s : str) :
  search_from (prog DEFAULT_SPLIT_PATTERN) false i s
  = let part := take_while (fun c => negb (is_space c)) s in
    match drop_while (fun c => negb (is_space c)) s with
    | [] => None
    | rest =>
        Some {| m_start := i + length part;
                m_end := i + length part + length (take_while is_space rest);
                m_caps := [(1, take_while is_space rest)] |}
    end.
Proof.
  revert i. induction s as [|c s IH]; intros i; [reflexivity|].
  cbn [search_from prog DEFAULT_SPLIT_PATTERN m take_while drop_while].
  destruct (is_space c) eqn:Ec; cbn [negb].
  - cbn [length]. 
    destruct (downto_pos (S (length (take_while is_space s))) ltac:(lia))
      as [l Hl].
    rewrite Hl. cbn [map]. rewrite Nat.add_0_r, ?Ec.
    replace (i + S (length (take_while is_space s)) - i)
      with (S (length (take_while is_space s))) by lia.
    unfold set_cap. cbn [firstn length]. rewrite firstn_take_while.
    reflexivity.
  - cbn [length downto Nat.ltb Nat.leb map]. rewrite IH.
    cbn zeta. destruct (drop_while _ s); [reflexivity|].
    cbn [length]. rewrite <- !plus_n_Sm. reflexivity.
Qed.

(** The split of a text by the default pattern. *)
Lemma split_loop_whitespace (fuel n last : nat) (s : str) :
  split_loop fuel DEFAULT_SPLIT_PATTERN 0 n false last s = ws_split fuel s.
Proof.
  revert n last s. induction fuel as [|fuel IH]; intros n last s;
    [reflexivity|].
  cbn [split_loop ws_split]. cbn [Nat.eqb negb andb].
  rewrite search_whitespace. cbn zeta.
  destruct (drop_while (fun c => negb (is_space c)) s) as [|c rest] eqn:Ed;
    [reflexivity|].
  cbn [m_start m_end m_caps groups DEFAULT_SPLIT_PATTERN seq map get_cap
       Nat.eqb app].
  assert (Hrun : 0 < length (take_while is_space (c :: rest))).
  { assert (Hc : is_space c = true).
    { destruct (is_space c) eqn:Ec; [reflexivity|exfalso].
      clear IH. induction s as [|x s IHs]; [discriminate|].
      cbn in Ed. destruct (is_space x) eqn:Ex; cbn in Ed.
      - injection Ed as -> _. congruence.
      - apply IHs. exact Ed. }
    cbn. rewrite Hc. cbn. lia. }
  replace (last + length (take_while (fun c0 => negb (is_space c0)) s) - last)
    with (length (take_while (fun c0 => negb (is_space c0)) s)) by lia.
  rewrite firstn_take_while.
  replace (last + length (take_while (fun c0 => negb (is_space c0)) s)
           + length (take_while is_space (c :: rest))
           =? last + length (take_while (fun c0 => negb (is_space c0)) s))
    with false by (symmetry; apply Nat.eqb_neq; lia).
  rewrite IH. f_equal. f_equal. f_equal.
  replace (last + length (take_while (fun c0 => negb (is_space c0)) s)
           + length (take_while is_space (c :: rest)) - last)
    with (length (take_while (fun c0 => negb (is_space c0)) s)
          + length (take_while is_space (c :: rest))) by lia.
  rewrite Nat.add_comm, <- skipn_skipn, skipn_take_while, Ed.
  rewrite skipn_take_while. reflexivity.
Qed.

Lemma take_while_drop_while (p : ascii -> bool) (s : str) :
  take_while p (drop_while p s) = [].
Proof.
  induction s as [|c s IH]; [reflexivity|].
  cbn. destruct (p c) eqn:E; [exact IH|]. cbn. rewrite E. reflexivity.
Qed.

Lemma ws_split_S (fuel : nat) (s : str) :
  ws_split (S fuel) s
  = match drop_while (fun c => negb (is_space c)) s with
    | [] => [Some s]
    | rest => Some (take_while (fun c => negb (is_space c)) s)
              :: Some (take_while is_space rest)
              :: ws_split fuel (drop_while is_space rest)
    end.
Proof. reflexivity. Qed.

(** The kept groups of a text that does not begin with whitespace give the
    text back. *)
Lemma kept_groups_concat (fuel : nat) (s : str) :
  take_while is_space s = [] ->
  concat (map (fun g : option str * option str =>
                 part_str (fst g) ++ part_str (snd g))
              (filter (fun g => truthy (fst g)) (grouper (ws_split fuel s))))
  = s.
Proof.
  assert (Hlast : forall s0 : str,
             concat (map (fun g : option str * option str =>
                            part_str (fst g) ++ part_str (snd g))
                         (filter (fun g => truthy (fst g))
                                 (grouper [Some s0]))) = s0).
  { intros [|c s0]; cbn; [reflexivity|]. rewrite !app_nil_r. reflexivity. }
  revert s. induction fuel as [|fuel IH]; intros s Hs; [apply Hlast|].
  cbn [ws_split].
  destruct (drop_while (fun c => negb (is_space c)) s) as [|c rest] eqn:Ed;
    [apply Hlast|].
  cbn [grouper filter fst].
  assert (Hpart : exists x xs,
             take_while (fun c0 => negb (is_space c0)) s = x :: xs).
  { destruct s as [|x s]; [discriminate|].
    cbn in Hs. cbn. destruct (is_space x); [discriminate|].
    cbn. eexists. eexists. reflexivity. }
  destruct Hpart as [x [xs Hpart]]. rewrite Hpart. cbn [truthy map concat].
  cbn [fst snd part_str]. rewrite IH by apply take_while_drop_while.
  rewrite <- Hpart, <- app_assoc, take_drop_while, <- Ed, take_drop_while.
  reflexivity.
Qed.

Lemma token_texts_from (st : TextProcessorSettings) (fw : str) (k : nat)
      (G : list (option str * option str)) :
  keep_whitespace st = true ->
  map (tokenize_word_text st fw) (enumerate_from (S k) G)
  = map (fun g => part_str (fst g) ++ part_str (snd g)) G.
Proof.
  intros Hk. revert k. induction G as [|[p q] G IH]; intros k;
    [reflexivity|].
  cbn [enumerate_from map]. rewrite IH. f_equal.
  unfold tokenize_word_text. rewrite Hk. reflexivity.
Qed.

Lemma token_texts_concat (st : TextProcessorSettings) (fw : str)
      (G : list (option str * option str)) :
  keep_whitespace st = true -> G <> [] ->
  concat (map (tokenize_word_text st fw) (enumerate G))
  = fw ++ concat (map (fun g => part_str (fst g) ++ part_str (snd g)) G).
Proof.
  intros Hk HG. destruct G as [|[p q] G]; [congruence|].
  unfold enumerate. cbn [enumerate_from map concat].
  rewrite token_texts_from by exact Hk.
  unfold tokenize_word_text at 1. rewrite Hk. cbn [Nat.eqb fst snd].
  rewrite <- !app_assoc. reflexivity.
Qed.

Lemma strip_nonempty_lstrip (s : str) :
  nonempty (strip s) = true -> drop_while is_space s <> [].
Proof.
  unfold strip, rstrip, lstrip. intros H Hd. rewrite Hd in H. discriminate.
Qed.

(** The words of a text that is not blank, one after the other, are the
    text without its leading whitespace, after the leading part
    [get_whitespace] gives for the text. *)
Lemma tokens_give_text (st : TextProcessorSettings) (txt : str) :
  keep_whitespace st = true ->
  split_pattern st = DEFAULT_SPLIT_PATTERN ->
  nonempty (strip txt) = true ->
  concat (token_texts st txt) = fst (get_whitespace st txt) ++ lstrip txt.
Proof.
  intros Hk Hp Hne. unfold token_texts, tokenize_groups, lstrip.
  generalize (fst (get_whitespace st txt)). intros fw.
  rewrite Hp. unfold re_split. rewrite split_loop_whitespace.
  pose proof (strip_nonempty_lstrip txt Hne) as Hl.
  replace (2 * length txt + 2) with (S (S (2 * length txt))) by lia.
  destruct (take_while is_space txt) as [|c lead] eqn:Elead.
  - (* no leading whitespace *)
    assert (Hd : drop_while is_space txt = txt).
    { rewrite <- (take_drop_while is_space txt) at 2. rewrite Elead.
      reflexivity. }
    rewrite token_texts_concat; [|exact Hk|].
    + rewrite Hd. f_equal. apply kept_groups_concat. exact Elead.
    + intros HG.
      pose proof (kept_groups_concat (S (S (2 * length txt))) txt Elead) as Hc.
      rewrite HG in Hc. cbn in Hc. subst txt. apply Hl. reflexivity.
  - (* leading whitespace: the first group has an empty part *)
    assert (Hfirst : exists x xs, txt = x :: xs /\ is_space x = true).
    { destruct txt as [|x xs]; [discriminate|]. cbn in Elead.
      destruct (is_space x) eqn:Ex; [|discriminate].
      exists x, xs. split; [reflexivity | exact Ex]. }
    destruct Hfirst as [x [xs [Htxt Hx]]].
    assert (Hpart : take_while (fun c0 => negb (is_space c0)) txt = []).
    { rewrite Htxt. cbn. rewrite Hx. reflexivity. }
    assert (Hrest : drop_while (fun c0 => negb (is_space c0)) txt = txt).
    { rewrite Htxt. cbn. rewrite Hx. reflexivity. }
    rewrite ws_split_S, Hrest, Hpart.
    rewrite Htxt at 1. rewrite <- Htxt. cbv zeta.
    cbn [grouper filter fst truthy].
    rewrite token_texts_concat; [|exact Hk|].
    + f_equal. apply kept_groups_concat. apply take_while_drop_while.
    + intros HG.
      pose proof (kept_groups_concat (S (2 * length txt))
                    (drop_while is_space txt)
                    (take_while_drop_while is_space txt)) as Hc.
      rewrite HG in Hc. cbn in Hc. apply Hl. symmetry. exact Hc.
Qed.

(** Whitespace in front of a text does not show after stripping. *)
Lemma drop_while_all (p : ascii -> bool) (a b : str) :
  forallb p a = true -> drop_while p (a ++ b) = drop_while p b.
Proof.
  induction a as [|c a IH]; intros H; [reflexivity|].
  cbn in H. apply andb_prop in H. destruct H as [Hc Ha].
  cbn. rewrite Hc. apply IH. exact Ha.
Qed.

Lemma drop_while_idem (p : ascii -> bool) (s : str) :
  drop_while p (drop_while p s) = drop_while p s.
Proof.
  induction s as [|c s IH]; [reflexivity|].
  cbn. destruct (p c) eqn:E; [exact IH|]. cbn. rewrite E. reflexivity.
Qed.

Lemma strip_leading (fw s : str) :
  forallb is_space fw = true -> strip (fw ++ lstrip s) = strip s.
Proof.
  intros H. unfold strip, lstrip.
  rewrite (drop_while_all _ _ _ H), drop_while_idem. reflexivity.
Qed.

(** *** Plain text: the passes leave the tree of a plain text as it is *)

Lemma foldM_total {A S} (I : S -> Prop) (f : S -> A -> Exc S)
      (l : list A) (s : S) :
  (forall s0 a, In a l -> I s0 -> exists s1, f s0 a = Ok s1 /\ I s1) ->
  I s -> exists s', foldM f l s = Ok s' /\ I s'.
Proof.
  revert s. induction l as [|a l IH]; intros s Hstep Hs.
  - exists s. split; [reflexivity | exact Hs].
  - destruct (Hstep s a (or_introl eq_refl) Hs) as [s1 [Hf H1]].
    cbn. unfold bind. rewrite Hf. apply IH; [|exact H1].
    intros s0 b Hb H0. apply Hstep; [right; exact Hb | exact H0].
Qed.

Lemma map_set_nth_same {A B} (f : A -> B) (k : nat) (x x' : A) (l : list A) :
  nth_error l k = Some x -> f x' = f x -> map f (set_nth k x' l) = map f l.
Proof.
  revert k. induction l as [|y l IH]; intros [|k] H Hf; cbn in *;
    try discriminate.
  - injection H as ->. rewrite Hf. reflexivity.
  - f_equal. apply IH; assumption.
Qed.

Lemma plain_graph_calm (L : Libs) (st : TextProcessorSettings) (lg : str)
      (texts : list str) (g : Graph) :
  plain_graph L st lg texts g -> Forall (calm L st lg) (nodes g).
Proof.
  intros (n0 & n1 & n2 & ws & Hn & H0 & H1 & H2 & Hl & _ & Hw & _ & _).
  rewrite Hn in *.
  inversion Hl as [|? ? L0 Hl1]; subst.
  inversion Hl1 as [|? ? L1 Hl2]; subst.
  inversion Hl2 as [|? ? L2 Hl3]; subst.
  repeat constructor; try assumption;
    try (rewrite H0; exact I); try (rewrite H1; exact I);
    try (rewrite H2; exact I).
  rewrite Forall_forall in *. intros n Hin. split; [apply Hl3; exact Hin|].
  pose proof (Hw n Hin) as Hp. destruct Hp as [w [Hd Hrest]].
  rewrite Hd. exists w. split; [exact Hd | exact Hrest].
Qed.

Section PlainText.

Variable L : Libs.
Variable self : Processor.

Local Abbreviation lg0 := (default_lang self).
Local Abbreviation st0 := (get_settings L self (default_lang self)).

Hypothesis Hplain : plain_settings st0.
Hypothesis Hlocales : locales_set st0.

Ltac settings_facts :=
  destruct Hplain as (? & ? & ? & ? & ? & ? & ? & ? & ? & ? & ? & ? & ? & ?
                      & ? & ?).

Ltac use_settings :=
  repeat match goal with
         | H : _ = None |- _ => progress rewrite H
         | H : _ = [] |- _ => progress rewrite H
         | H : _ = true |- _ => progress rewrite H
         end.

Ltac quiet_pass :=
  let n := fresh "n" in
  let Hl := fresh "Hl" in
  let Hc := fresh "Hc" in
  intros n [Hl Hc]; settings_facts;
  unfold _split_replacements, _split_punctuations, _split_minor_breaks,
    _split_abbreviations, _split_initialism, _split_major_breaks,
    _break_words, _split_ignore_non_words, word_of;
  destruct (data n); try reflexivity;
  match goal with
  | |- context [nonempty (interpret_as ?w)] =>
      destruct (nonempty (interpret_as w)); try reflexivity
  end;
  try (destruct (negb (implicit n)); try reflexivity);
  rewrite Hl; use_settings; reflexivity.

Lemma split_replacements_quiet (g : Graph) :
  forall n, calm L st0 lg0 n -> _split_replacements L self g n = Ok [].
Proof. quiet_pass. Qed.

Lemma split_punctuations_quiet (g : Graph) :
  forall n, calm L st0 lg0 n -> _split_punctuations L self g n = Ok [].
Proof. quiet_pass. Qed.

Lemma split_minor_breaks_quiet (g : Graph) :
  forall n, calm L st0 lg0 n -> _split_minor_breaks L self g n = Ok [].
Proof. quiet_pass. Qed.

Lemma split_abbreviations_quiet (g : Graph) :
  forall n, calm L st0 lg0 n -> _split_abbreviations L self g n = Ok [].
Proof. quiet_pass. Qed.

Lemma split_initialism_quiet (g : Graph) :
  forall n, calm L st0 lg0 n -> _split_initialism L self g n = Ok [].
Proof. quiet_pass. Qed.

Lemma split_major_breaks_quiet (g : Graph) :
  forall n, calm L st0 lg0 n -> _split_major_breaks L self g n = Ok [].
Proof. quiet_pass. Qed.

Lemma break_words_quiet (g : Graph) :
  forall n, calm L st0 lg0 n -> _break_words L self g n = Ok [].
Proof. quiet_pass. Qed.

Lemma split_ignore_non_words_quiet (g : Graph) :
  forall n, calm L st0 lg0 n -> _split_ignore_non_words L self g n = Ok [].
Proof. quiet_pass. Qed.

Lemma split_spell_out_quiet (g : Graph) :
  forall n, calm L st0 lg0 n -> _split_spell_out L self g n = Ok [].
Proof.
  intros n [Hl Hc]. unfold _split_spell_out, word_of.
  destruct (data n) eqn:Hd; try reflexivity.
  destruct Hc as [w' [Hd' (_ & _ & Hi)]]. rewrite Hd in Hd'.
  injection Hd' as <-.
  destruct Hi as [Hi | [Hi _]]; rewrite Hi; reflexivity.
Qed.

(** A split pass that yields nothing leaves the graph as it is. *)
Lemma pipeline_split_quiet (f : Graph -> Node -> Exc (list Node))
      (g : Graph) (r : nat) :
  (forall n, In n (nodes g) -> f g n = Ok []) ->
  pipeline_split f g r = Ok g.
Proof.
  intros Hq. unfold pipeline_split.
  destruct (foldM_total (fun g' => g' = g)
              (fun g' leaf =>
                 match get_node g' leaf with
                 | Some n => news <- f g' n ;; Ok (fold_left (attach n) news g')
                 | None => Ok g'
                 end) (leaves g r) g) as [g' [Hf Hg]].
  - intros s0 a _ ->. exists g. split; [|reflexivity].
    destruct (get_node g a) as [n|] eqn:Hn; [|reflexivity].
    rewrite (Hq n (get_node_In g a n Hn)). reflexivity.
  - reflexivity.
  - rewrite Hf, Hg. reflexivity.
Qed.

Lemma break_sentences_quiet (g : Graph) (r : nat) :
  Forall (calm L st0 lg0) (nodes g) -> _break_sentences g r = Ok g.
Proof.
  intros Hc. unfold _break_sentences.
  destruct (foldM_total (fun g' => g' = g)
              (fun g' leaf =>
                 match get_node g' leaf with
                 | Some n => break_sentence_at g' n
                 | None => Ok g'
                 end) (leaves g r) g) as [g' [Hf Hg]].
  - intros s0 a _ ->. exists g. split; [|reflexivity].
    destruct (get_node g a) as [n|] eqn:Hn; [|reflexivity].
    rewrite Forall_forall in Hc.
    destruct (Hc n (get_node_In g a n Hn)) as [_ Hd].
    unfold break_sentence_at. destruct (data n); try reflexivity.
    contradiction.
  - reflexivity.
  - rewrite Hf, Hg. reflexivity.
Qed.

Lemma seq_nth_error (a len k x : nat) :
  nth_error (seq a len) k = Some x -> x = a + k.
Proof.
  intros H. assert (Hlt : k < len).
  { rewrite <- (length_seq len a). apply nth_error_Some. congruence. }
  apply (nth_error_nth _ _ 0) in H. rewrite seq_nth in H by exact Hlt.
  symmetry. exact H.
Qed.

(** A word of a plain tree changed in place, its text with whitespace
    kept, leaves a plain tree. *)
Lemma set_word_plain (texts : list str) (g : Graph) (i : nat) (n : Node)
      (w w' : WordData) :
  plain_graph L st0 lg0 texts g ->
  get_node g i = Some n -> data n = WordNode w ->
  text_with_ws w' = text_with_ws w ->
  plain_word L st0 (with_data (WordNode w') n) ->
  plain_graph L st0 lg0 texts (set_word g n w').
Proof.
  intros (n0 & n1 & n2 & ws & Hn & H0 & H1 & H2 & Hl & Hnum & Hw & Ht & He)
         Hi Hd Htws Hp.
  unfold get_node in Hi. rewrite Hn in Hi.
  destruct i as [|[|[|k]]]; cbn in Hi;
    try (injection Hi as <-; congruence).
  assert (Hk : node n = 3 + k).
  { apply (seq_nth_error 3 (length ws)). rewrite <- Hnum.
    rewrite nth_error_map, Hi. reflexivity. }
  exists n0, n1, n2, (set_nth k (with_data (WordNode w') n) ws).
  unfold set_word, set_node. cbn [nodes edges]. rewrite Hn, Hk.
  cbn [set_nth Nat.add]. rewrite length_set_nth.
  split; [reflexivity|]. repeat (split; [assumption|]).
  rewrite Hn in Hl.
  inversion Hl as [|? ? L0 Hl1]; subst.
  inversion Hl1 as [|? ? L1 Hl2]; subst.
  inversion Hl2 as [|? ? L2 Hl3]; subst.
  split.
  { repeat (constructor; [assumption|]).
    apply Forall_set_nth; [|exact Hl3]. cbn.
    rewrite Forall_forall in Hl3. apply Hl3. eapply nth_error_In. exact Hi. }
  split.
  { rewrite (map_set_nth_same node k n); [exact Hnum | exact Hi | reflexivity]. }
  split.
  { apply Forall_set_nth; assumption. }
  split; [|exact He].
  rewrite (map_set_nth_same word_text_with_ws k n);
    [reflexivity | exact Hi |].
  unfold word_text_with_ws. cbn. rewrite Hd. exact Htws.
Qed.

(** What the passes know of a node they are given. *)
Lemma plain_graph_node (texts : list str) (g : Graph) (i : nat) (n : Node) :
  plain_graph L st0 lg0 texts g -> get_node g i = Some n ->
  calm L st0 lg0 n.
Proof.
  intros Hg Hi. pose proof (plain_graph_calm _ _ _ _ _ Hg) as Hc.
  rewrite Forall_forall in Hc. apply Hc. eapply get_node_In. exact Hi.
Qed.

Ltac plain_node Hg Hi :=
  let Hc := fresh "Hc" in
  let Hl := fresh "Hl" in
  let Hd := fresh "Hd" in
  let Hd' := fresh "Hd'" in
  pose proof (plain_graph_node _ _ _ _ Hg Hi) as [Hl Hc];
  unfold _transform_number, _transform_currency, _transform_date,
    _verbalize_number, _verbalize_currency, _verbalize_date, word_of;
  match goal with
  | |- context [data ?n] => destruct (data n) eqn:Hd
  end;
  try (eexists; split; [reflexivity | exact Hg]);
  destruct Hc as [? [Hd' (Htx & (Fn & Fc & Fd) & Hst)]];
  rewrite Hd in Hd'; injection Hd' as <-; rewrite ?Hl.

Lemma transform_number_plain (texts : list str) (g : Graph) (i : nat)
      (n : Node) :
  plain_graph L st0 lg0 texts g -> get_node g i = Some n ->
  exists g', _transform_number L self g n = Ok g'
             /\ plain_graph L st0 lg0 texts g'.
Proof.
  intros Hg Hi. plain_node Hg Hi.
  assert (Hskip : nonempty (interpret_as w)
                  && negb (str_eqb (interpret_as w) NUMBER) = false).
  { destruct Hst as [E | [E _]]; rewrite E; reflexivity. }
  rewrite Hskip. destruct Hlocales as [Hbabel _]. rewrite Hbabel.
  cbn [negb].
  destruct (parse_decimal L (text w) (babel_locale st0)) as [d|] eqn:Ep;
    [|eexists; split; [reflexivity | exact Hg]].
  eexists. split; [reflexivity|].
  apply (set_word_plain texts g i n w); try assumption; [reflexivity|].
  assert (Em : maybe (is_maybe_number st0) (text w) = false).
  { destruct Fn as [E | E]; [exact E | discriminate]. }
  exists (as_number w d). cbn [data with_data as_number text text_with_ws
                               interpret_as].
  split; [reflexivity|]. split; [assumption|].
  split; [split; [left; exact Em | split; assumption]|].
  right. split; [reflexivity | exact Em].
Qed.

Lemma transform_currency_plain (texts : list str) (g : Graph) (i : nat)
      (n : Node) :
  plain_graph L st0 lg0 texts g -> get_node g i = Some n ->
  exists g', _transform_currency L self g n = Ok g'
             /\ plain_graph L st0 lg0 texts g'.
Proof.
  intros Hg Hi. plain_node Hg Hi.
  destruct Hst as [E | [E _]]; rewrite E;
    [|eexists; split; [reflexivity | exact Hg]].
  cbn [nonempty andb].
  destruct (maybe (is_maybe_currency st0) (text w)) eqn:Em;
    [|eexists; split; [reflexivity | exact Hg]].
  destruct Fc as [E1 | E1]; [congruence|].
  destruct Hlocales as [Hbabel _]. rewrite Hbabel.
  cbn [negb]. rewrite E1.
  eexists; split; [reflexivity | exact Hg].
Qed.

Lemma transform_date_plain (texts : list str) (g : Graph) (i : nat)
      (n : Node) :
  plain_graph L st0 lg0 texts g -> get_node g i = Some n ->
  exists g', _transform_date L self g n = Ok g'
             /\ plain_graph L st0 lg0 texts g'.
Proof.
  intros Hg Hi. plain_node Hg Hi.
  destruct Hst as [E | [E _]]; rewrite E;
    [|eexists; split; [reflexivity | exact Hg]].
  cbn [nonempty andb].
  destruct (maybe (is_maybe_date st0) (text w)) eqn:Em;
    [|eexists; split; [reflexivity | exact Hg]].
  destruct Fd as [E2 | E2]; [congruence|].
  destruct Hlocales as [_ Hdate]. rewrite Hdate.
  cbn [negb]. rewrite E2.
  eexists; split; [reflexivity | exact Hg].
Qed.

Lemma verbalize_number_plain (texts : list str) (g : Graph) (i : nat)
      (n : Node) :
  plain_graph L st0 lg0 texts g -> get_node g i = Some n ->
  exists g', _verbalize_number L self g n = Ok g'
             /\ plain_graph L st0 lg0 texts g'.
Proof.
  intros Hg Hi. plain_node Hg Hi.
  destruct (number w); [|eexists; split; [reflexivity | exact Hg]].
  destruct Hst as [E | [E Em]]; rewrite E;
    [eexists; split; [reflexivity | exact Hg]|].
  rewrite Em. eexists; split; [reflexivity | exact Hg].
Qed.

Lemma verbalize_currency_plain (texts : list str) (g : Graph) (i : nat)
      (n : Node) :
  plain_graph L st0 lg0 texts g -> get_node g i = Some n ->
  exists g', _verbalize_currency L self g n = Ok g'
             /\ plain_graph L st0 lg0 texts g'.
Proof.
  intros Hg Hi. plain_node Hg Hi.
  destruct (number w); [|eexists; split; [reflexivity | exact Hg]].
  destruct Hst as [E | [E _]]; rewrite E;
    eexists; split; try reflexivity; exact Hg.
Qed.

Lemma verbalize_date_plain (texts : list str) (g : Graph) (i : nat)
      (n : Node) :
  plain_graph L st0 lg0 texts g -> get_node g i = Some n ->
  exists g', _verbalize_date L self g n = Ok g'
             /\ plain_graph L st0 lg0 texts g'.
Proof.
  intros Hg Hi. plain_node Hg Hi.
  destruct (date w); [|eexists; split; [reflexivity | exact Hg]].
  destruct Hst as [E | [E _]]; rewrite E;
    eexists; split; try reflexivity; exact Hg.
Qed.

(** A transformation that keeps plain trees keeps them on every leaf. *)
Lemma pipeline_transform_plain (f : Graph -> Node -> Exc Graph)
      (texts : list str) (g : Graph) (r : nat) :
  (forall g0 i n,
      plain_graph L st0 lg0 texts g0 -> get_node g0 i = Some n ->
      exists g', f g0 n = Ok g' /\ plain_graph L st0 lg0 texts g') ->
  plain_graph L st0 lg0 texts g ->
  exists g', pipeline_transform f g r = Ok g'
             /\ plain_graph L st0 lg0 texts g'.
Proof.
  intros Hf Hg. unfold pipeline_transform.
  apply (foldM_total (plain_graph L st0 lg0 texts)); [|exact Hg].
  intros s0 a _ Hs. destruct (get_node s0 a) as [n|] eqn:Hn.
  - apply (Hf s0 a n Hs Hn).
  - exists s0. split; [reflexivity | exact Hs].
Qed.

Lemma phonemize_word_plain (texts : list str) (g : Graph) (i : nat) :
  plain_graph L st0 lg0 texts g ->
  exists g', phonemize_word L self g i = Ok g'
             /\ plain_graph L st0 lg0 texts g'.
Proof.
  intros Hg. unfold phonemize_word, word_at.
  destruct (get_node g i) as [n|] eqn:Hi;
    [|eexists; split; [reflexivity | exact Hg]].
  pose proof (plain_graph_node _ _ _ _ Hg Hi) as [Hl Hc].
  destruct (data n) eqn:Hd;
    try (eexists; split; [reflexivity | exact Hg]).
  destruct (has_phonemes w) eqn:Hph;
    [eexists; split; [reflexivity | exact Hg]|].
  settings_facts. rewrite Hl. use_settings. unfold bind. rewrite Hph.
  eexists. split; [reflexivity|].
  apply (set_word_plain texts g i n w); try assumption; [reflexivity|].
  destruct Hc as [w0 [Hd' Hrest]]. rewrite Hd in Hd'. injection Hd' as <-.
  exists w. split; [reflexivity | exact Hrest].
Qed.

Lemma process_sentence_plain (texts : list str) (pos_flag phonemize : bool)
      (cur : Node) (g : Graph) (word_ids : list nat) :
  plain_graph L st0 lg0 texts g -> lang cur = lg0 ->
  exists g', process_sentence L self pos_flag phonemize cur g word_ids = Ok g'
             /\ plain_graph L st0 lg0 texts g'.
Proof.
  intros Hg Hl. unfold process_sentence. rewrite Hl.
  assert (Hpos : get_parts_of_speech st0 = None) by (settings_facts; assumption).
  rewrite Hpos.
  assert (H1 : (if pos_flag then Ok g else Ok g) = Ok g :> Exc Graph)
    by (destruct pos_flag; reflexivity).
  unfold bind. rewrite H1.
  destruct phonemize; [|eexists; split; [reflexivity | exact Hg]].
  apply (foldM_total (plain_graph L st0 lg0 texts)); [|exact Hg].
  intros s0 a _ Hs. apply phonemize_word_plain. exact Hs.
Qed.

Lemma gather_step_plain (texts : list str) (pos_flag phonemize : bool)
      (acc : Graph * list nat) (i : nat) :
  plain_graph L st0 lg0 texts (fst acc) ->
  exists acc', gather_step L self pos_flag phonemize acc i = Ok acc'
               /\ plain_graph L st0 lg0 texts (fst acc').
Proof.
  destruct acc as [g sentence_words]. cbn [fst]. intros Hg.
  unfold gather_step.
  destruct (get_node g i) as [n|] eqn:Hi;
    [|eexists; split; [reflexivity | exact Hg]].
  pose proof (plain_graph_node _ _ _ _ Hg Hi) as [Hl _].
  destruct (isSentenceNode n).
  - destruct sentence_words as [|a l];
      [eexists; split; [reflexivity | exact Hg]|].
    destruct (process_sentence_plain texts pos_flag phonemize n g (a :: l)
                Hg Hl) as [g' [Hp Hg']].
    unfold bind. rewrite Hp. eexists. split; [reflexivity | exact Hg'].
  - destruct ((out_degree g i =? 0) && isWordNode n);
      eexists; (split; [reflexivity | exact Hg]).
Qed.

Lemma enrich_plain (texts : list str) (pos_flag phonemize : bool)
      (g : Graph) (r : nat) :
  plain_graph L st0 lg0 texts g ->
  exists g', enrich L self pos_flag phonemize g r = Ok g'
             /\ plain_graph L st0 lg0 texts g'.
Proof.
  intros Hg. unfold enrich.
  destruct (foldM_total (fun acc => plain_graph L st0 lg0 texts (fst acc))
              (gather_step L self pos_flag phonemize)
              (dfs_preorder_nodes g r) (g, [])) as [acc [Hf Hacc]].
  - intros s0 a _ Hs. apply gather_step_plain. exact Hs.
  - exact Hg.
  - unfold bind. rewrite Hf.
    destruct (snd acc) as [|a l];
      [eexists; split; [reflexivity | exact Hacc]|].
    destruct (get_node (fst acc) (last (dfs_preorder_nodes g r) r))
      as [cur|] eqn:Hcur;
      [|eexists; split; [reflexivity | exact Hacc]].
    pose proof (plain_graph_node _ _ _ _ Hacc Hcur) as [Hl _].
    apply process_sentence_plain; assumption.
Qed.

Lemma post_process_sentences_plain (g : Graph) (r : nat) :
  Forall (calm L st0 lg0) (nodes g) ->
  post_process_sentences L self g r = Ok g.
Proof.
  intros Hc. unfold post_process_sentences.
  destruct (foldM_total (fun g' => g' = g)
              (fun g' i =>
                 match get_node g' i with
                 | Some n =>
                     if isSentenceNode n then
                       match post_process_sentence
                               (get_settings L self (lang n)) with
                       | Some f => f g' n
                       | None => Ok g'
                       end
                     else Ok g'
                 | None => Ok g'
                 end) (dfs_preorder_nodes g r) g) as [g' [Hf Hg]].
  - intros s0 a _ ->. exists g. split; [|reflexivity].
    destruct (get_node g a) as [n|] eqn:Hn; [|reflexivity].
    rewrite Forall_forall in Hc.
    destruct (Hc n (get_node_In g a n Hn)) as [Hl _].
    destruct (isSentenceNode n); [|reflexivity].
    rewrite Hl. settings_facts. use_settings. reflexivity.
  - reflexivity.
  - rewrite Hf, Hg. reflexivity.
Qed.

(** The passes of the pipeline leave the tree of a plain text a plain
    tree with the same texts. *)
Lemma run_pipeline_plain (texts : list str)
      (pos_flag phonemize post_process : bool) (g : Graph) (r : nat) :
  plain_graph L st0 lg0 texts g ->
  exists g', run_pipeline L self pos_flag phonemize post_process g r = Ok g'
             /\ plain_graph L st0 lg0 texts g'.
Proof.
  intros Hg. pose proof (plain_graph_calm _ _ _ _ _ Hg) as Hc.
  rewrite Forall_forall in Hc.
  unfold run_pipeline, bind.
  rewrite (pipeline_split_quiet (_split_replacements L self))
    by (intros n Hn; apply split_replacements_quiet, Hc, Hn).
  rewrite (pipeline_split_quiet (_split_punctuations L self))
    by (intros n Hn; apply split_punctuations_quiet, Hc, Hn).
  rewrite (pipeline_split_quiet (_split_minor_breaks L self))
    by (intros n Hn; apply split_minor_breaks_quiet, Hc, Hn).
  rewrite (pipeline_split_quiet (_split_abbreviations L self))
    by (intros n Hn; apply split_abbreviations_quiet, Hc, Hn).
  rewrite (pipeline_split_quiet (_split_initialism L self))
    by (intros n Hn; apply split_initialism_quiet, Hc, Hn).
  rewrite (pipeline_split_quiet (_split_major_breaks L self))
    by (intros n Hn; apply split_major_breaks_quiet, Hc, Hn).
  rewrite (pipeline_split_quiet (_split_punctuations L self))
    by (intros n Hn; apply split_punctuations_quiet, Hc, Hn).
  rewrite (pipeline_split_quiet (_split_initialism L self))
    by (intros n Hn; apply split_initialism_quiet, Hc, Hn).
  rewrite break_sentences_quiet by (apply Forall_forall; exact Hc).
  rewrite (pipeline_split_quiet (_split_spell_out L self))
    by (intros n Hn; apply split_spell_out_quiet, Hc, Hn).
  destruct (pipeline_transform_plain (_transform_number L self) texts g r
              (transform_number_plain texts) Hg) as [g1 [E1 Hg1]].
  rewrite E1.
  destruct (pipeline_transform_plain (_transform_currency L self) texts g1 r
              (transform_currency_plain texts) Hg1) as [g2 [E2 Hg2]].
  rewrite E2.
  destruct (pipeline_transform_plain (_transform_date L self) texts g2 r
              (transform_date_plain texts) Hg2) as [g3 [E3 Hg3]].
  rewrite E3.
  destruct (pipeline_transform_plain (_verbalize_number L self) texts g3 r
              (verbalize_number_plain texts) Hg3) as [g4 [E4 Hg4]].
  rewrite E4.
  destruct (pipeline_transform_plain (_verbalize_currency L self) texts g4 r
              (verbalize_currency_plain texts) Hg4) as [g5 [E5 Hg5]].
  rewrite E5.
  destruct (pipeline_transform_plain (_verbalize_date L self) texts g5 r
              (verbalize_date_plain texts) Hg5) as [g6 [E6 Hg6]].
  rewrite E6.
  pose proof (plain_graph_calm _ _ _ _ _ Hg6) as Hc6.
  rewrite Forall_forall in Hc6.
  rewrite (pipeline_split_quiet (_break_words L self))
    by (intros n Hn; apply break_words_quiet, Hc6, Hn).
  rewrite (pipeline_split_quiet (_split_ignore_non_words L self))
    by (intros n Hn; apply split_ignore_non_words_quiet, Hc6, Hn).
  destruct (enrich_plain texts pos_flag phonemize g6 r Hg6) as [g7 [E7 Hg7]].
  rewrite E7.
  destruct post_process; [|eexists; split; [reflexivity | exact Hg7]].
  rewrite post_process_sentences_plain
    by (eapply plain_graph_calm; exact Hg7).
  eexists; split; [reflexivity | exact Hg7].
Qed.

End PlainText.

(** *** Plain text: the order of the nodes and the sentences *)

Lemma star_out_edges (u : nat) (l : list nat) :
  filter (fun e : nat * nat => fst e =? u) (map (fun k => (2, 3 + k)) l)
  = if u =? 2 then map (fun k => (2, 3 + k)) l else [].
Proof.
  induction l as [|k l IH]; [destruct (u =? 2); reflexivity|].
  cbn [map filter fst]. rewrite IH.
  rewrite (Nat.eqb_sym 2 u). destruct (u =? 2); reflexivity.
Qed.

Lemma map_star_seq (a m : nat) :
  map snd (map (fun k => (2, 3 + k)) (seq a m)) = seq (3 + a) m.
Proof.
  revert a. induction m as [|m IH]; intros a; [reflexivity|].
  cbn [seq map snd]. f_equal. rewrite IH. reflexivity.
Qed.

Section Star.

Variable g : Graph.
Variable m : nat.
Hypothesis Hedges :
  edges g = (0, 1) :: (1, 2) :: map (fun k => (2, 3 + k)) (seq 0 m).

Lemma star_successors_0 : successors g 0 = [1].
Proof.
  unfold successors, out_edges. rewrite Hedges. cbn [filter fst Nat.eqb].
  rewrite star_out_edges. reflexivity.
Qed.

Lemma star_successors_1 : successors g 1 = [2].
Proof.
  unfold successors, out_edges. rewrite Hedges. cbn [filter fst Nat.eqb].
  rewrite star_out_edges. reflexivity.
Qed.

Lemma star_successors_2 : successors g 2 = seq 3 m.
Proof.
  unfold successors, out_edges. rewrite Hedges. cbn [filter fst Nat.eqb].
  rewrite star_out_edges. cbn [Nat.eqb]. apply map_star_seq.
Qed.

Lemma star_out_edges_word (k : nat) : out_edges g (3 + k) = [].
Proof.
  unfold out_edges. rewrite Hedges. cbn [filter fst Nat.eqb Nat.add].
  rewrite star_out_edges. reflexivity.
Qed.

(** The words are visited in their order: they have no successors. *)
Lemma dfs_words (n a fuel : nat) (visited : list nat) :
  n <= fuel -> 3 <= a -> (forall v, In v visited -> v < a) ->
  dfs fuel g (seq a n) visited = seq a n.
Proof.
  revert a fuel visited. induction n as [|n IH]; intros a fuel visited Hf Ha Hv.
  - destruct fuel; reflexivity.
  - destruct fuel as [|fuel]; [lia|]. cbn [seq dfs].
    assert (Hnew : existsb (Nat.eqb a) visited = false).
    { destruct (existsb (Nat.eqb a) visited) eqn:E; [|reflexivity].
      apply existsb_exists in E. destruct E as [v [Hin Hv']].
      apply Nat.eqb_eq in Hv'. subst v. apply Hv in Hin. lia. }
    rewrite Hnew. f_equal.
    replace a with (3 + (a - 3)) at 1 by lia.
    unfold successors. rewrite star_out_edges_word. cbn [map app].
    apply IH; [lia | lia |].
    intros v [<- | Hin]; [lia|]. apply Hv in Hin. lia.
Qed.

(** Depth first, the nodes of a plain tree come in the order of their
    numbers. *)
Lemma star_preorder : dfs_preorder_nodes g 0 = seq 0 (3 + m).
Proof.
  unfold dfs_preorder_nodes. rewrite Hedges.
  cbn [length]. rewrite length_map, length_seq.
  cbn [dfs existsb]. rewrite star_successors_0. cbn [app existsb Nat.eqb orb].
  rewrite star_successors_1. cbn [app existsb Nat.eqb orb].
  rewrite star_successors_2, app_nil_r. cbn [Nat.add seq]. do 3 f_equal.
  rewrite dfs_words; [reflexivity | lia | lia |].
  intros v [<- | [<- | [<- | []]]]; lia.
Qed.

End Star.

Lemma star_out_degree_0 (g : Graph) (m : nat) :
  edges g = (0, 1) :: (1, 2) :: map (fun k => (2, 3 + k)) (seq 0 m) ->
  out_degree g 0 = 1.
Proof.
  intros He. unfold out_degree.
  rewrite <- (length_map snd). change (map snd (out_edges g 0))
    with (successors g 0).
  rewrite (star_successors_0 g m He). reflexivity.
Qed.

Lemma star_out_degree_1 (g : Graph) (m : nat) :
  edges g = (0, 1) :: (1, 2) :: map (fun k => (2, 3 + k)) (seq 0 m) ->
  out_degree g 1 = 1.
Proof.
  intros He. unfold out_degree.
  rewrite <- (length_map snd). change (map snd (out_edges g 1))
    with (successors g 1).
  rewrite (star_successors_1 g m He). reflexivity.
Qed.

Section PlainSentences.

Variable L : Libs.
Variable self : Processor.
Variables major_breaks minor_breaks punctuations explicit_lang
          break_phonemes : bool.

(** The loop of [sentences] over the words of a plain tree gathers their
    texts with whitespace, in order. *)
Lemma sentences_step_words (g : Graph) (m : nat) (ws : list Node) :
  edges g = (0, 1) :: (1, 2) :: map (fun k => (2, 3 + k)) (seq 0 m) ->
  Forall (fun n => exists w, data n = WordNode w) ws ->
  forall (a : nat) (it : Iter),
    (forall k n, nth_error ws k = Some n -> get_node g (3 + a + k) = Some n) ->
    let it' :=
      fold_left (sentences_step L self g major_breaks minor_breaks
                                punctuations explicit_lang break_phonemes)
                (seq (3 + a) (length ws)) it in
    map w_text_with_ws (it_words it')
    = map w_text_with_ws (it_words it) ++ map word_text_with_ws ws
    /\ it_out it' = it_out it
    /\ it_last_sentence_node it' = it_last_sentence_node it.
Proof.
  intros He Hws. induction Hws as [|n ws [w Hd] Hws IH]; intros a it Hget.
  - cbn. rewrite app_nil_r. repeat split.
  - cbn [length seq fold_left].
    assert (Hn : get_node g (3 + a) = Some n).
    { rewrite <- (Nat.add_0_r (3 + a)). apply Hget. reflexivity. }
    assert (Hstep : sentences_step L self g major_breaks minor_breaks
                      punctuations explicit_lang break_phonemes it (3 + a)
                    = push_word it
                        {| idx := it_word_idx it; sent_idx := it_sent_idx it;
                           w_text := text w;
                           w_text_with_ws := text_with_ws w;
                           w_phonemes := phonemes w; w_pos := pos w;
                           w_lang := get_lang self explicit_lang (lang n);
                           w_voice := voice n; is_break := false;
                           is_punctuation := false |}).
    { unfold sentences_step. rewrite Hn. unfold isSentenceNode, out_degree.
      rewrite Hd, (star_out_edges_word g m He). cbn [length Nat.eqb].
      unfold leaf_word. rewrite Hd. reflexivity. }
    rewrite Hstep.
    specialize (IH (S a) (push_word it
                        {| idx := it_word_idx it; sent_idx := it_sent_idx it;
                           w_text := text w;
                           w_text_with_ws := text_with_ws w;
                           w_phonemes := phonemes w; w_pos := pos w;
                           w_lang := get_lang self explicit_lang (lang n);
                           w_voice := voice n; is_break := false;
                           is_punctuation := false |})).
    replace (3 + S a) with (S (3 + a)) in IH by lia.
    destruct IH as (Hw & Ho & Hlast).
    { intros k n' Hk. replace (S (3 + a) + k) with (3 + a + S k) by lia.
      apply Hget. exact Hk. }
    split; [|split; assumption].
    rewrite Hw. cbn [push_word it_words]. rewrite map_app, <- app_assoc.
    cbn [map app w_text_with_ws]. unfold word_text_with_ws at 2.
    rewrite Hd. reflexivity.
Qed.

Lemma words_of_sentence (n : Node) (ws : list Word) (si : nat) :
  map w_text_with_ws (words (make_sentence L self explicit_lang n ws si))
  = map w_text_with_ws ws.
Proof.
  unfold make_sentence. cbn [words].
  destruct (common_voice ws []); [reflexivity|].
  rewrite map_map. reflexivity.
Qed.

(** The words of the sentences of a plain tree are its texts. *)
Lemma sentences_plain (st : TextProcessorSettings) (lg : str)
      (texts : list str) (g : Graph) (r : Node) :
  plain_graph L st lg texts g -> node r = 0 ->
  map w_text_with_ws
      (all_words L self g r major_breaks minor_breaks punctuations
                 explicit_lang break_phonemes)
  = texts.
Proof.
  intros (n0 & n1 & n2 & ws & Hn & H0 & H1 & H2 & _ & _ & Hw & Ht & He) Hr.
  unfold all_words, sentences. rewrite Hr, (star_preorder g (length ws) He).
  cbn [Nat.add seq fold_left].
  assert (S0 : forall it,
             sentences_step L self g major_breaks minor_breaks punctuations
                            explicit_lang break_phonemes it 0 = it).
  { intros it. unfold sentences_step, get_node, isSentenceNode.
    rewrite Hn. cbn [nth_error]. rewrite H0.
    rewrite (star_out_degree_0 g _ He). reflexivity. }
  assert (S1 : forall it,
             sentences_step L self g major_breaks minor_breaks punctuations
                            explicit_lang break_phonemes it 1 = it).
  { intros it. unfold sentences_step, get_node, isSentenceNode.
    rewrite Hn. cbn [nth_error]. rewrite H1.
    rewrite (star_out_degree_1 g _ He). reflexivity. }
  rewrite S0, S1.
  assert (S2 : sentences_step L self g major_breaks minor_breaks punctuations
                 explicit_lang break_phonemes
                 {| it_sent_idx := 0; it_word_idx := 0; it_words := [];
                    it_last_sentence_node := None; it_out := [] |} 2
               = {| it_sent_idx := 0; it_word_idx := 0; it_words := [];
                    it_last_sentence_node := Some n2; it_out := [] |}).
  { unfold sentences_step, get_node, isSentenceNode.
    rewrite Hn. cbn [nth_error]. rewrite H2. reflexivity. }
  rewrite S2.
  destruct (sentences_step_words g (length ws) ws He) with
    (a := 0)
    (it := {| it_sent_idx := 0; it_word_idx := 0; it_words := [];
              it_last_sentence_node := Some n2; it_out := [] |})
    as (Hwords & Hout & Hlast).
  { apply Forall_forall. intros n Hin. rewrite Forall_forall in Hw.
    destruct (Hw n Hin) as [w [Hd _]]. exists w. exact Hd. }
  { intros k n Hk. unfold get_node. rewrite Hn. cbn. exact Hk. }
  cbn [Nat.add it_words it_out it_last_sentence_node map app] in *.
  rewrite Hlast, Hout.
  match goal with
  | |- context [it_words ?x] => destruct (it_words x) as [|w0 l0] eqn:Ew
  end.
  - cbn. rewrite <- Ht, <- Hwords. reflexivity.
  - cbn [app flat_map]. rewrite app_nil_r, words_of_sentence.
    rewrite <- Ht, <- Hwords. reflexivity.
Qed.

End PlainSentences.

(** *** Plain text: the tree that is built *)

Lemma speak_events (txt : str) :
  nonempty (strip txt) = true ->
  text_and_elements false (speak_element txt)
  = [EvStart (speak_element txt) false; EvText txt;
     EvEnd (speak_element txt)].
Proof.
  intros H. unfold speak_element. cbn [text_and_elements text_event].
  rewrite H. reflexivity.
Qed.

Section PlainBuild.

Variable L : Libs.
Variable self : Processor.

Local Abbreviation lg0 := (default_lang self).
Local Abbreviation st0 := (get_settings L self (default_lang self)).

(** The loop of [__call__] on [<speak>txt</speak>]: the text is tokenized
    under the implicit sentence. *)
Lemma build_tree_speak (txt : str) :
  nonempty (strip txt) = true ->
  exists b,
    build_tree L self (text_and_elements false (speak_element txt)) = Ok b
    /\ root b = Some (speak_node lg0 txt)
    /\ graph b = _pipeline_tokenize L self (plain_base lg0 txt)
                   (implicit_node 2 lg0 SentenceNode) txt (plain_scope lg0).
Proof.
  intros Hne. rewrite (speak_events txt Hne).
  eexists. split; [reflexivity|]. split; reflexivity.
Qed.

Lemma fold_left_map_arg {A B S} (f : S -> B -> S) (h : A -> B)
      (l : list A) (s : S) :
  fold_left (fun s0 a => f s0 (h a)) l s = fold_left f (map h l) s.
Proof.
  revert s. induction l as [|a l IH]; intros s; [reflexivity|].
  cbn. apply IH.
Qed.

Lemma star_edge_fresh (m a n : nat) :
  a + n <= m ->
  existsb (edge_eqb (2, 3 + m)) (map (fun k => (2, 3 + k)) (seq a n)) = false.
Proof.
  revert a. induction n as [|n IH]; intros a Ha; [reflexivity|].
  cbn [seq map existsb]. rewrite IH by lia.
  unfold edge_eqb. cbn [fst snd].
  replace (3 + m =? 3 + a) with false; [reflexivity|].
  symmetry. apply Nat.eqb_neq. lia.
Qed.

(** The loop of [_pipeline_tokenize]: a word node for each text, numbered
    in order, under the sentence. *)
Lemma tokenize_loop (lg : str) (n0 n1 n2 : Node) (texts : list str) :
  forall (ws : list Node) (g : Graph),
    nodes g = n0 :: n1 :: n2 :: ws ->
    edges g = (0, 1) :: (1, 2)
              :: map (fun k => (2, 3 + k)) (seq 0 (length ws)) ->
    exists ws',
      nodes (fold_left
               (fun g' t =>
                  add_edge
                    (add_node g'
                       (scoped_node (len g') None true (plain_scope lg)
                          (scoped_word (plain_scope lg) (strip t) t)))
                    2 (len g'))
               texts g)
      = n0 :: n1 :: n2 :: ws ++ ws'
      /\ edges (fold_left
                  (fun g' t =>
                     add_edge
                       (add_node g'
                          (scoped_node (len g') None true (plain_scope lg)
                             (scoped_word (plain_scope lg) (strip t) t)))
                       2 (len g'))
                  texts g)
         = (0, 1) :: (1, 2)
           :: map (fun k => (2, 3 + k)) (seq 0 (length (ws ++ ws')))
      /\ map node ws' = seq (3 + length ws) (length ws')
      /\ map word_text_with_ws ws' = texts
      /\ Forall (fun n => lang n = lg
                          /\ exists w, data n = WordNode w
                                       /\ text w = strip (text_with_ws w)
                                       /\ interpret_as w = []) ws'.
Proof.
  induction texts as [|t texts IH]; intros ws g Hn He.
  - exists []. cbn [fold_left]. rewrite app_nil_r.
    repeat split; try assumption. constructor.
  - cbn [fold_left].
    assert (Hlen : len g = 3 + length ws).
    { unfold len. rewrite Hn. reflexivity. }
    rewrite Hlen.
    destruct (IH (ws ++ [scoped_node (3 + length ws) None true
                           (plain_scope lg)
                           (scoped_word (plain_scope lg) (strip t) t)])
                 (add_edge
                    (add_node g
                       (scoped_node (3 + length ws) None true (plain_scope lg)
                          (scoped_word (plain_scope lg) (strip t) t)))
                    2 (3 + length ws)))
      as (ws' & Hn' & He' & Hnum & Ht & Hf).
    + cbn [add_edge add_node nodes]. rewrite Hn. reflexivity.
    + cbn [add_edge add_node edges]. unfold has_edge. rewrite He.
      cbn [existsb]. rewrite star_edge_fresh by lia.
      rewrite length_app. cbn [length]. rewrite Nat.add_1_r, seq_S, map_app.
      reflexivity.
    + exists (scoped_node (3 + length ws) None true (plain_scope lg)
                (scoped_word (plain_scope lg) (strip t) t) :: ws').
      rewrite <- app_assoc in Hn', He'. cbn [app] in Hn', He'.
      split; [exact Hn'|]. split; [exact He'|].
      rewrite length_app in Hnum. cbn [length] in Hnum.
      split.
      { cbn [map length seq scoped_node node]. f_equal. rewrite Hnum.
        f_equal. lia. }
      split.
      { cbn [map]. rewrite Ht. reflexivity. }
      constructor; [|exact Hf].
      split; [reflexivity|]. eexists. split; [reflexivity|].
      split; reflexivity.
Qed.

(** The tree built for a plain text is a plain tree of its tokens. *)
Lemma tokenize_plain (txt : str) :
  plain_settings st0 -> no_numerals L st0 txt ->
  plain_graph L st0 lg0 (token_texts st0 txt)
    (_pipeline_tokenize L self (plain_base lg0 txt)
       (implicit_node 2 lg0 SentenceNode) txt (plain_scope lg0)).
Proof.
  intros Hplain Hno.
  assert (Hpre : pre_process_text st0 = None).
  { destruct Hplain as (_ & _ & Hpre & _). exact Hpre. }
  assert (Heq : _pipeline_tokenize L self (plain_base lg0 txt)
                  (implicit_node 2 lg0 SentenceNode) txt (plain_scope lg0)
                = fold_left
                    (fun g' t =>
                       add_edge
                         (add_node g'
                            (scoped_node (len g') None true (plain_scope lg0)
                               (scoped_word (plain_scope lg0) (strip t) t)))
                         2 (len g'))
                    (token_texts st0 txt) (plain_base lg0 txt)).
  { unfold _pipeline_tokenize, token_texts. cbn [sc_lang plain_scope].
    rewrite Hpre. rewrite <- fold_left_map_arg. reflexivity. }
  rewrite Heq.
  destruct (tokenize_loop lg0 (speak_node lg0 txt)
              (implicit_node 1 lg0 ParagraphNode)
              (implicit_node 2 lg0 SentenceNode) (token_texts st0 txt)
              [] (plain_base lg0 txt) eq_refl eq_refl)
    as (ws & Hn & He & Hnum & Ht & Hf).
  cbn [app length Nat.add] in Hn, He, Hnum.
  exists (speak_node lg0 txt), (implicit_node 1 lg0 ParagraphNode),
    (implicit_node 2 lg0 SentenceNode), ws.
  split; [exact Hn|]. repeat (split; [reflexivity|]).
  rewrite Forall_forall in Hf.
  split.
  { rewrite Hn. repeat (constructor; [reflexivity|]).
    apply Forall_forall. intros n Hin. apply (Hf n Hin). }
  split; [exact Hnum|].
  split; [|split; [exact Ht | exact He]].
  apply Forall_forall. intros n Hin.
  destruct (Hf n Hin) as [_ [w (Hd & Htx & Hi)]].
  exists w. split; [exact Hd|]. split; [exact Htx|].
  split; [|left; exact Hi].
  rewrite Htx. apply Hno. rewrite <- Ht.
  replace (text_with_ws w) with (word_text_with_ws n)
    by (unfold word_text_with_ws; rewrite Hd; reflexivity).
  apply in_map. exact Hin.
Qed.

End PlainBuild.

(** *** Plain text: the round trip *)

(** A text that is not blank is not empty: the reader gives a speak
    element with the text. *)
Lemma speak_document_text (txt : str) :
  nonempty (strip txt) = true -> speak_document txt = speak_element txt.
Proof. destruct txt; [discriminate | reflexivity]. Qed.

(** A blank text gives a tree with the speak node only, and no word. *)
Lemma blank_text_no_words (L : Libs) (self : Processor) (txt : str)
      (pos_flag phonemize post_process major_breaks minor_breaks
       punctuations explicit_lang break_phonemes : bool) :
  nonempty (strip txt) = false ->
  exists g r,
    process_events L self (text_and_elements false (speak_document txt))
                   pos_flag phonemize post_process = Ok (g, r)
    /\ all_words L self g r major_breaks minor_breaks punctuations
                 explicit_lang break_phonemes = [].
Proof.
  intros Hb.
  assert (Hev : text_and_elements false (speak_document txt)
                = [EvStart (speak_document txt) false;
                   EvEnd (speak_document txt)]).
  { unfold speak_document. cbn [text_and_elements].
    destruct txt as [|c txt]; [reflexivity|].
    cbn [text_event]. rewrite Hb. reflexivity. }
  rewrite Hev.
  set (r := {| node := 0; element := Some (speak_document txt);
               voice := []; lang := default_lang self; implicit := false;
               data := SpeakNode |}).
  exists {| nodes := [r]; edges := []; log := [] |}, r.
  split; [|reflexivity].
  destruct post_process; reflexivity.
Qed.

(** The reader of the fixtures gives the text back when it is made of XML
    characters and has no carriage return (its line ends are those of
    XML). *)
Lemma plain_fromstring_gives_back (txt : str) :
  forallb xml_char txt = true -> normalize_eol txt = txt ->
  plain_fromstring (xml_text txt false true) = Ok (speak_document txt).
Proof.
  intros Hall Heol. rewrite xml_text_plain, plain_fromstring_wrapped.
  rewrite (chardata_escape txt Hall), Heol.
  destruct txt; reflexivity.
Qed.

Lemma drop_while_first (p : ascii -> bool) (s : str) (c : ascii) (r : str) :
  drop_while p s = c :: r -> p c = false.
Proof.
  induction s as [|x s IH]; [discriminate|].
  cbn. destruct (p x) eqn:E; [exact IH|].
  intros H. injection H as <- _. exact E.
Qed.

Lemma drop_while_last (p : ascii -> bool) (l : str) (c : ascii) :
  p c = false -> drop_while p (l ++ [c]) <> [].
Proof.
  intros Hc. induction l as [|x l IH]; cbn.
  - rewrite Hc. discriminate.
  - destruct (p x); [exact IH | discriminate].
Qed.

(** A blank text is whitespace only. *)
Lemma blank_lstrip (txt : str) :
  nonempty (strip txt) = false -> lstrip txt = [].
Proof.
  unfold strip, rstrip. intros H.
  destruct (lstrip txt) as [|c r] eqn:E; [reflexivity|].
  exfalso. pose proof (drop_while_first _ _ _ _ E) as Hc.
  cbn [rev] in H.
  pose proof (drop_while_last is_space (rev r) c Hc) as Hd.
  destruct (drop_while is_space (rev r ++ [c])) as [|y ys] eqn:Ed;
    [congruence|].
  cbn [rev] in H.
  destruct (rev ys ++ [y]) eqn:Er; [|discriminate].
  destruct (rev ys); discriminate.
Qed.

(** C1, as stated, fails: with the word break "-" the words of
    "ninety-nine" are "ninety " and "nine"; the break is replaced by the
    join string, and the texts do not give the input back. *)
Lemma word_breaks_change_text :
  texts_with_ws libs (processor libs word_breaks_args)
    (call libs (processor libs word_breaks_args) (lit "ninety-nine")
          false true true true true)
  = Ok [lit "ninety "; lit "nine"]
  /\ strip (concat [lit "ninety "; lit "nine"]) <> strip (lit "ninety-nine").
Proof.
  split; [vm_compute; reflexivity|].
  vm_compute. discriminate.
Qed.

(** C1, amended.  Assume that the settings of the default language only
    split at whitespace and keep it (no pre-processing, replacements,
    punctuation, breaks, word breaks, abbreviations, initialisms, non-word
    test, tagger, lexicon or post-processor), that they name their locales,
    that no word of the text is a number, a currency amount or a date, and
    that the XML reader gives the escaped and wrapped text back as the text
    of one speak element (which it cannot for a text with a carriage return
    or with a character XML does not allow).  Then processing succeeds, and
    the texts with whitespace of the words of all sentences, one after the
    other,
    - are the text without its leading whitespace, after the leading part
      the setting [get_whitespace] gives for the whole text; a blank text
      gives no word at all;
    - are the text up to leading and trailing whitespace, when that leading
      part is whitespace;
    - are the text itself, when the text has no leading whitespace and
      that leading part is empty. *)
Theorem plain_text_round_trip (L : Libs) (self : Processor) (txt : str)
        (pos_flag phonemize post_process major_breaks minor_breaks
         punctuations explicit_lang break_phonemes : bool) :
  plain_settings (get_settings L self (default_lang self)) ->
  locales_set (get_settings L self (default_lang self)) ->
  no_numerals L (get_settings L self (default_lang self)) txt ->
  fromstring L (xml_text txt false true) = Ok (speak_document txt) ->
  exists g r,
    call L self txt false pos_flag phonemize post_process true = Ok (g, r)
    /\ let first_ws :=
         fst (get_whitespace (get_settings L self (default_lang self)) txt) in
       let out :=
         concat (map w_text_with_ws
                     (all_words L self g r major_breaks minor_breaks
                                punctuations explicit_lang break_phonemes)) in
       out = (if nonempty (strip txt) then first_ws ++ lstrip txt else [])
       /\ (forallb is_space first_ws = true -> strip out = strip txt)
       /\ (lstrip txt = txt -> first_ws = [] -> out = txt).
Proof.
  intros Hplain Hlocales Hno Hxml. unfold call, bind. rewrite Hxml.
  set (first_ws :=
         fst (get_whitespace (get_settings L self (default_lang self)) txt)).
  assert (Hall : forall g r,
             concat (map w_text_with_ws
                         (all_words L self g r major_breaks minor_breaks
                                    punctuations explicit_lang
                                    break_phonemes))
             = (if nonempty (strip txt) then first_ws ++ lstrip txt else [])
             -> let out :=
                  concat (map w_text_with_ws
                              (all_words L self g r major_breaks minor_breaks
                                         punctuations explicit_lang
                                         break_phonemes)) in
                out = (if nonempty (strip txt) then first_ws ++ lstrip txt
                       else [])
                /\ (forallb is_space first_ws = true -> strip out = strip txt)
                /\ (lstrip txt = txt -> first_ws = [] -> out = txt)).
  { intros g r Hout out. subst out. rewrite Hout.
    split; [reflexivity|]. split.
    - intros Hws. destruct (nonempty (strip txt)) eqn:Hne.
      + apply strip_leading. exact Hws.
      + destruct (strip txt); [reflexivity | discriminate].
    - intros Hl Hf. destruct (nonempty (strip txt)) eqn:Hne.
      + rewrite Hf, Hl. reflexivity.
      + rewrite <- Hl. symmetry. apply blank_lstrip. exact Hne. }
  destruct (nonempty (strip txt)) eqn:Hne.
  - rewrite (speak_document_text txt Hne).
    destruct (build_tree_speak L self txt Hne) as (b & Hb & Hroot & Hgraph).
    destruct (run_pipeline_plain L self Hplain Hlocales
                (token_texts (get_settings L self (default_lang self)) txt)
                pos_flag phonemize post_process (graph b) 0) as [g [Hrun Hg]].
    { rewrite Hgraph. apply tokenize_plain; assumption. }
    exists g, (speak_node (default_lang self) txt).
    split.
    + unfold process_events, bind. rewrite Hb, Hroot.
      cbn [node speak_node]. rewrite Hrun. reflexivity.
    + apply Hall.
      rewrite (sentences_plain L self major_breaks minor_breaks punctuations
                 explicit_lang break_phonemes _ _ _ g
                 (speak_node (default_lang self) txt) Hg eq_refl).
      destruct Hplain as (Hk & Hp & _).
      apply tokens_give_text; assumption.
  - destruct (blank_text_no_words L self txt pos_flag phonemize post_process
                major_breaks minor_breaks punctuations explicit_lang
                break_phonemes Hne) as (g & r & Hev & Hwords).
    exists g, r. split; [exact Hev|]. apply Hall. rewrite Hwords.
    reflexivity.
Qed.

(** The theorem at work on "Hello  big world ", with the English defaults
    and the reader of the fixtures: the words are "Hello  ", "big " and
    "world ", and their texts give the text back. *)
Lemma plain_text_round_trip_witness :
  exists g r,
    call libs (processor libs (default_args en_US))
         (lit "Hello  big world ") false true true true true = Ok (g, r)
    /\ map w_text_with_ws
           (all_words libs (processor libs (default_args en_US)) g r
                      true true true false true)
       = [lit "Hello  "; lit "big "; lit "world "]
    /\ concat (map w_text_with_ws
                   (all_words libs (processor libs (default_args en_US)) g r
                              true true true false true))
       = lit "Hello  big world ".
Proof.
  assert (Hplain : plain_settings
                     (get_settings libs (processor libs (default_args en_US))
                        (default_lang (processor libs (default_args en_US)))))
    by (repeat split; reflexivity).
  assert (Hloc : locales_set
                   (get_settings libs (processor libs (default_args en_US))
                      (default_lang (processor libs (default_args en_US)))))
    by (split; reflexivity).
  assert (Hno : no_numerals libs
                  (get_settings libs (processor libs (default_args en_US))
                     (default_lang (processor libs (default_args en_US))))
                  (lit "Hello  big world ")).
  { intros t Ht. vm_compute in Ht.
    repeat (destruct Ht as [<- | Ht]; [repeat split; left; reflexivity|]).
    destruct Ht. }
  assert (Hxml : fromstring libs (xml_text (lit "Hello  big world ")
                                           false true)
                 = Ok (speak_document (lit "Hello  big world ")))
    by (vm_compute; reflexivity).
  destruct (plain_text_round_trip libs (processor libs (default_args en_US))
              (lit "Hello  big world ") true true true true true true false
              true Hplain Hloc Hno Hxml)
    as [g [r [Hcall [Hout _]]]].
  exists g, r. split; [exact Hcall|].
  split; [|rewrite Hout; reflexivity].
  vm_compute in Hcall. injection Hcall as <- <-. vm_compute. reflexivity.
Defined.

(** * Further properties *)

(** ** The sentences and words that are emitted *)

Section SentencesSay.

Variable L : Libs.
Variable self : Processor.
Variable g : Graph.
Variables major_breaks minor_breaks punctuations explicit_lang
          break_phonemes : bool.

Lemma said_make_sentence (n : Node) (ws : list Word) (si : nat) :
  map said (words (make_sentence L self explicit_lang n ws si))
  = map said ws.
Proof.
  unfold make_sentence. cbn [words].
  destruct (common_voice ws []); [reflexivity|].
  rewrite map_map. reflexivity.
Qed.

Lemma leaf_word_said (it : Iter) (n : Node) :
  option_map said
    (leaf_word self major_breaks minor_breaks punctuations explicit_lang
               break_phonemes it n)
  = spoken major_breaks minor_breaks punctuations n.
Proof.
  unfold leaf_word, spoken. destruct (data n) as [| | |w|bt t tws|tm|t tws|];
    try reflexivity.
  - destruct (_ || _); reflexivity.
  - destruct punctuations; reflexivity.
Qed.

(** What the loop of [sentences] has gathered after a part of the
    traversal: the words of the sentences that are complete and the words
    of the one being gathered say the leaves met so far; no sentence is
    complete before a sentence node was met. *)
Lemma sentences_loop_says (order pre : list nat) (it : Iter) :
  map said (flat_map words (it_out it) ++ it_words it)
  = spoken_leaves g major_breaks minor_breaks punctuations pre ->
  (it_last_sentence_node it = None <-> meets_sentence g pre = false) ->
  (it_last_sentence_node it = None -> it_out it = []) ->
  let it' :=
    fold_left (sentences_step L self g major_breaks minor_breaks
                              punctuations explicit_lang break_phonemes)
              order it in
  map said (flat_map words (it_out it') ++ it_words it')
  = spoken_leaves g major_breaks minor_breaks punctuations (pre ++ order)
  /\ (it_last_sentence_node it' = None
      <-> meets_sentence g (pre ++ order) = false)
  /\ (it_last_sentence_node it' = None -> it_out it' = []).
Proof.
  revert pre it. induction order as [|i order IH]; intros pre it Hs Hm Ho.
  - cbn. rewrite app_nil_r. repeat split; try apply Hm; assumption.
  - cbn [fold_left].
    replace (pre ++ i :: order) with ((pre ++ [i]) ++ order)
      by (rewrite <- app_assoc; reflexivity).
    apply IH; unfold sentences_step, spoken_leaves, meets_sentence in *;
      rewrite ?flat_map_app, ?existsb_app; cbn [flat_map existsb];
      destruct (get_node g i) as [n|] eqn:Hn.
    + (* what is said *)
      destruct (isSentenceNode n) eqn:Hsn.
      * rewrite !app_nil_r.
        destruct (it_words it) as [|w ws] eqn:Ew;
          [cbn [it_out it_words]; exact Hs|].
        destruct (it_last_sentence_node it) as [l|] eqn:El;
          cbn [it_out it_words]; [|exact Hs].
        rewrite flat_map_app. cbn [flat_map]. rewrite !app_nil_r.
        rewrite map_app, said_make_sentence, <- map_app. exact Hs.
      * destruct (out_degree g i =? 0); [|rewrite !app_nil_r; exact Hs].
        pose proof (leaf_word_said it n) as Hl.
        destruct (leaf_word self major_breaks minor_breaks punctuations
                            explicit_lang break_phonemes it n) as [w|];
          cbn [option_map] in Hl; rewrite <- Hl.
        -- cbn [push_word it_out it_words]. rewrite app_assoc, map_app, Hs.
           rewrite app_nil_r. reflexivity.
        -- rewrite !app_nil_r. exact Hs.
    + rewrite !app_nil_r. exact Hs.
    + (* whether a sentence node was met *)
      destruct (isSentenceNode n) eqn:Hsn.
      * cbn [orb]. rewrite orb_true_r.
        destruct (it_words it); [|destruct (it_last_sentence_node it)];
          cbn [it_last_sentence_node]; split; discriminate.
      * rewrite orb_false_r.
        destruct (out_degree g i =? 0); [|exact Hm].
        destruct (leaf_word _ _ _ _ _ _ _ _); [|exact Hm].
        cbn [push_word it_last_sentence_node]. exact Hm.
    + rewrite orb_false_r. exact Hm.
    + (* no sentence is complete before a sentence node *)
      destruct (isSentenceNode n) eqn:Hsn.
      * destruct (it_words it); [|destruct (it_last_sentence_node it)];
          cbn [it_last_sentence_node]; discriminate.
      * destruct (out_degree g i =? 0); [|exact Ho].
        destruct (leaf_word _ _ _ _ _ _ _ _); [|exact Ho].
        cbn [push_word it_last_sentence_node it_out]. exact Ho.
    + exact Ho.
Qed.

End SentencesSay.

Lemma all_words_said (L : Libs) (self : Processor) (g : Graph)
      (r : Node) (major_breaks minor_breaks punctuations explicit_lang
                  break_phonemes : bool) :
  map said (all_words L self g r major_breaks minor_breaks punctuations
                      explicit_lang break_phonemes)
  = if meets_sentence g (dfs_preorder_nodes g (node r))
    then spoken_leaves g major_breaks minor_breaks punctuations
                       (dfs_preorder_nodes g (node r))
    else [].
Proof.
  unfold all_words, sentences.
  pose proof (sentences_loop_says L self g major_breaks minor_breaks
                punctuations explicit_lang break_phonemes
                (dfs_preorder_nodes g (node r)) []
                {| it_sent_idx := 0; it_word_idx := 0; it_words := [];
                   it_last_sentence_node := None; it_out := [] |}
                eq_refl (conj (fun _ => eq_refl) (fun _ => eq_refl))
                (fun _ => eq_refl)) as H.
  cbv zeta in H. cbn [app] in H.
  match type of H with
  | context [fold_left ?f ?l ?a] => set (it := fold_left f l a) in *
  end.
  destruct H as (Hs & Hm & Ho).
  destruct (meets_sentence g (dfs_preorder_nodes g (node r))) eqn:Em.
  - rewrite <- Hs.
    destruct (it_last_sentence_node it) as [l|] eqn:El.
    + destruct (it_words it) as [|w ws] eqn:Ew.
      * rewrite app_nil_r. reflexivity.
      * rewrite flat_map_app. cbn [flat_map]. rewrite app_nil_r.
        rewrite !map_app, said_make_sentence. reflexivity.
    + destruct Hm as [Hm _]. specialize (Hm eq_refl). discriminate.
  - destruct Hm as [_ Hm]. specialize (Hm eq_refl).
    rewrite Hm, (Ho Hm). destruct (it_words it); reflexivity.
Qed.

(** X1: the texts with whitespace of the words of all sentences are
    exactly those of the leaves of the tree, in the order of the
    depth-first traversal (breaks and punctuation as the options say),
    when the traversal meets a sentence node; without a sentence node no
    word is emitted at all. *)
Theorem words_say_the_leaves (L : Libs) (self : Processor) (g : Graph)
        (r : Node) (major_breaks minor_breaks punctuations explicit_lang
                    break_phonemes : bool) :
  (meets_sentence g (dfs_preorder_nodes g (node r)) = true ->
   map said (all_words L self g r major_breaks minor_breaks punctuations
                       explicit_lang break_phonemes)
   = spoken_leaves g major_breaks minor_breaks punctuations
                   (dfs_preorder_nodes g (node r)))
  /\ (meets_sentence g (dfs_preorder_nodes g (node r)) = false ->
      sentences L self g r major_breaks minor_breaks punctuations
                explicit_lang break_phonemes = []).
Proof.
  split; intros Hm.
  - rewrite all_words_said, Hm. reflexivity.
  - pose proof (sentences_loop_says L self g major_breaks minor_breaks
                  punctuations explicit_lang break_phonemes
                  (dfs_preorder_nodes g (node r)) []
                  {| it_sent_idx := 0; it_word_idx := 0; it_words := [];
                     it_last_sentence_node := None; it_out := [] |}
                  eq_refl (conj (fun _ => eq_refl) (fun _ => eq_refl))
                  (fun _ => eq_refl)) as H.
    cbv zeta in H. cbn [app] in H. destruct H as (_ & [_ Hl] & Ho).
    specialize (Hl Hm). unfold sentences. rewrite Hl, (Ho Hl).
    match goal with
    | |- context [it_words ?x] => destruct (it_words x); reflexivity
    end.
Qed.

Lemma filter_plain_said (ws : list Word) :
  map w_text_with_ws (filter is_plain ws)
  = map (fun t : str * bool * bool => fst (fst t))
        (filter (fun t : str * bool * bool =>
                   negb (snd (fst t)) && negb (snd t))
                (map said ws)).
Proof.
  induction ws as [|w ws IH]; [reflexivity|].
  cbn [map filter].
  change (negb (snd (fst (said w))) && negb (snd (said w)))
    with (is_plain w).
  destruct (is_plain w); cbn [map]; rewrite IH; reflexivity.
Qed.

Lemma spoken_leaves_plain (g : Graph) (mb nb pu : bool) (order : list nat) :
  filter (fun t : str * bool * bool => negb (snd (fst t)) && negb (snd t))
         (spoken_leaves g mb nb pu order)
  = spoken_leaves g false false false order.
Proof.
  unfold spoken_leaves. induction order as [|i order IH]; [reflexivity|].
  cbn [flat_map]. rewrite filter_app, IH. f_equal.
  destruct (get_node g i) as [n|]; [|reflexivity].
  destruct (isSentenceNode n); [reflexivity|].
  destruct (out_degree g i =? 0); [|reflexivity].
  unfold spoken. destruct (data n) as [| | |w|bt t tws|tm|t tws|];
    try reflexivity.
  - destruct (_ || _); reflexivity.
  - destruct pu; reflexivity.
Qed.

(** X2: the options of [sentences] that leave out breaks and punctuation
    change nothing else: among the emitted words, those that are neither a
    break nor a punctuation have the same texts with whitespace, in the
    same order, whatever the options. *)
Theorem options_only_drop_breaks (L : Libs) (self : Processor) (g : Graph)
        (r : Node) (mb nb pu el bp mb' nb' pu' el' bp' : bool) :
  map w_text_with_ws (filter is_plain (all_words L self g r mb nb pu el bp))
  = map w_text_with_ws
        (filter is_plain (all_words L self g r mb' nb' pu' el' bp')).
Proof.
  rewrite !filter_plain_said, !all_words_said.
  destruct (meets_sentence g (dfs_preorder_nodes g (node r)));
    [|reflexivity].
  rewrite !spoken_leaves_plain. reflexivity.
Qed.

Lemma make_sentence_numbered (L : Libs) (self : Processor)
      (explicit_lang : bool) (n : Node) (ws : list Word) (si : nat) :
  ws <> [] -> map idx ws = seq 0 (length ws) ->
  Forall (fun w => sent_idx w = si) ws ->
  s_idx (make_sentence L self explicit_lang n ws si) = si
  /\ well_numbered (make_sentence L self explicit_lang n ws si).
Proof.
  intros Hne Hidx Hs. unfold well_numbered, make_sentence.
  cbn [s_idx words]. split; [reflexivity|].
  destruct (common_voice ws []) as [|c v]; [repeat split; assumption|].
  split; [destruct ws; [congruence|discriminate]|].
  rewrite length_map, map_map. split; [exact Hidx|].
  apply Forall_map. exact Hs.
Qed.

(** The numbering the loop of [sentences] keeps. *)
Lemma sentences_loop_numbers (L : Libs) (self : Processor) (g : Graph)
      (mb nb pu el bp : bool) (order : list nat) (it : Iter) :
  map s_idx (it_out it) = seq 0 (it_sent_idx it) ->
  Forall well_numbered (it_out it) ->
  map idx (it_words it) = seq 0 (it_word_idx it) ->
  Forall (fun w => sent_idx w = it_sent_idx it) (it_words it) ->
  let it' := fold_left (sentences_step L self g mb nb pu el bp) order it in
  map s_idx (it_out it') = seq 0 (it_sent_idx it')
  /\ Forall well_numbered (it_out it')
  /\ map idx (it_words it') = seq 0 (it_word_idx it')
  /\ Forall (fun w => sent_idx w = it_sent_idx it') (it_words it').
Proof.
  revert it. induction order as [|i order IH]; intros it Ho Hn Hw Hs.
  - cbn. repeat split; assumption.
  - cbn [fold_left].
    assert (Hlen : length (it_words it) = it_word_idx it).
    { rewrite <- (length_map idx), Hw, length_seq. reflexivity. }
    apply IH; unfold sentences_step;
      destruct (get_node g i) as [n|]; try assumption;
      (destruct (isSentenceNode n);
       [destruct (it_words it) as [|w ws] eqn:Ew; try assumption;
        destruct (it_last_sentence_node it) as [l|]; try assumption;
        cbn [it_out it_sent_idx it_words it_word_idx]
       |destruct (out_degree g i =? 0); try assumption;
        unfold leaf_word;
        destruct (data n) as [| | |w|bt t tws|tm|t tws|]; try assumption;
        try (destruct (_ || _); try assumption);
        try (destruct pu; try assumption);
        cbn [push_word it_out it_sent_idx it_words it_word_idx];
        try assumption]).
    all: first
      [ reflexivity
      | solve [constructor]
      | solve [rewrite map_app, seq_S, Ho; reflexivity]
      | solve [rewrite map_app, seq_S, Hw; reflexivity]
      | solve [apply Forall_app; split; [exact Hs|repeat constructor]]
      | idtac ].
    apply Forall_app. split; [exact Hn|]. constructor; [|constructor].
    apply make_sentence_numbered; [discriminate| |exact Hs].
    rewrite Hw, <- Hlen. reflexivity.
Qed.

(** X3: the sentences are numbered from zero in the order they are
    emitted; no sentence is empty; in every sentence the words are
    numbered from zero and carry the number of their sentence. *)
Theorem sentences_are_numbered (L : Libs) (self : Processor) (g : Graph)
        (r : Node) (mb nb pu el bp : bool) :
  map s_idx (sentences L self g r mb nb pu el bp)
  = seq 0 (length (sentences L self g r mb nb pu el bp))
  /\ Forall well_numbered (sentences L self g r mb nb pu el bp).
Proof.
  unfold sentences.
  pose proof (sentences_loop_numbers L self g mb nb pu el bp
                (dfs_preorder_nodes g (node r))
                {| it_sent_idx := 0; it_word_idx := 0; it_words := [];
                   it_last_sentence_node := None; it_out := [] |}
                eq_refl (Forall_nil _) eq_refl (Forall_nil _)) as H.
  cbv zeta in H.
  match type of H with
  | context [fold_left ?f ?l ?a] => set (it := fold_left f l a) in *
  end.
  destruct H as (Ho & Hn & Hw & Hs).
  assert (Hout : length (it_out it) = it_sent_idx it).
  { rewrite <- (length_map s_idx), Ho, length_seq. reflexivity. }
  assert (Hlen : length (it_words it) = it_word_idx it).
  { rewrite <- (length_map idx), Hw, length_seq. reflexivity. }
  destruct (it_words it) as [|w ws] eqn:Ew;
    [rewrite Hout; split; assumption|].
  destruct (it_last_sentence_node it) as [l|];
    [|rewrite Hout; split; assumption].
  rewrite length_app, Hout, Nat.add_1_r, seq_S, map_app, Ho. cbn [map].
  split; [reflexivity|].
  apply Forall_app. split; [exact Hn|]. constructor; [|constructor].
  apply make_sentence_numbered; [discriminate| |exact Hs].
  rewrite Hw, <- Hlen. reflexivity.
Qed.

(** ** The voice of a sentence *)

Lemma common_voice_none (ws : list Word) (sv : str) :
  (forall w, In w ws -> w_voice w = []) -> common_voice ws sv = sv.
Proof.
  induction ws as [|w ws IH]; intros H; [reflexivity|].
  cbn. rewrite (H w (or_introl eq_refl)). apply IH.
  intros w' Hin. apply H. right. exact Hin.
Qed.

Lemma common_voice_same (ws : list Word) (v : str) :
  (forall w, In w ws -> w_voice w = [] \/ w_voice w = v) ->
  common_voice ws v = v.
Proof.
  induction ws as [|w ws IH]; intros H; [reflexivity|].
  assert (Ht : forall w', In w' ws -> w_voice w' = [] \/ w_voice w' = v).
  { intros w' Hin. apply H. right. exact Hin. }
  cbn. destruct (H w (or_introl eq_refl)) as [E | E]; rewrite E.
  - apply IH. exact Ht.
  - destruct v as [|c v]; [apply IH; exact Ht|].
    rewrite str_eqb_refl. cbn [negb andb]. rewrite andb_false_r.
    apply IH. exact Ht.
Qed.

Lemma common_voice_first (ws : list Word) (v : str) :
  (forall w, In w ws -> w_voice w = [] \/ w_voice w = v) ->
  (exists w, In w ws /\ w_voice w = v) ->
  common_voice ws [] = v.
Proof.
  induction ws as [|w ws IH]; intros H [w0 [Hin Hv]]; [destruct Hin|].
  assert (Ht : forall w', In w' ws -> w_voice w' = [] \/ w_voice w' = v).
  { intros w' Hin'. apply H. right. exact Hin'. }
  cbn. destruct (w_voice w) as [|c u] eqn:E.
  - destruct Hin as [<- | Hin].
    + rewrite E in Hv. subst v. apply common_voice_none.
      intros w' Hin'. destruct (Ht w' Hin'); assumption.
    + apply IH; [exact Ht|]. exists w0. split; assumption.
  - destruct (H w (or_introl eq_refl)) as [E' | E']; [congruence|].
    rewrite E in E'. rewrite <- E' in Ht |- *.
    apply common_voice_same. exact Ht.
Qed.

Lemma common_voice_conflict (ws : list Word) (sv : str) :
  sv <> [] ->
  (exists w, In w ws /\ w_voice w <> [] /\ w_voice w <> sv) ->
  common_voice ws sv = [].
Proof.
  revert sv. induction ws as [|w ws IH]; intros sv Hsv [w0 (Hin & Hne & Hd)];
    [destruct Hin|].
  cbn. destruct (w_voice w) as [|c u] eqn:E.
  - destruct Hin as [<- | Hin]; [congruence|].
    apply IH; [exact Hsv|]. exists w0. repeat split; assumption.
  - destruct (str_eqb sv (c :: u)) eqn:Es.
    + apply str_eqb_eq in Es. rewrite andb_false_r.
      apply IH; [discriminate|]. exists w0.
      destruct Hin as [<- | Hin]; [congruence|].
      repeat split; try assumption. congruence.
    + destruct sv; [congruence|]. reflexivity.
Qed.

Lemma common_voice_two (ws : list Word) :
  (exists w1 w2, In w1 ws /\ In w2 ws /\ w_voice w1 <> []
                 /\ w_voice w2 <> [] /\ w_voice w1 <> w_voice w2) ->
  common_voice ws [] = [].
Proof.
  induction ws as [|w ws IH]; intros (w1 & w2 & H1 & H2 & N1 & N2 & Hd);
    [destruct H1|].
  cbn. destruct (w_voice w) as [|c u] eqn:E.
  - apply IH. exists w1, w2.
    destruct H1 as [<- | H1]; [congruence|].
    destruct H2 as [<- | H2]; [congruence|].
    repeat split; assumption.
  - apply common_voice_conflict; [discriminate|].
    destruct (str_eqb (w_voice w1) (c :: u)) eqn:E1.
    + apply str_eqb_eq in E1. exists w2.
      destruct H2 as [<- | H2]; [congruence|].
      repeat split; try assumption. congruence.
    + exists w1.
      assert (Hn : w_voice w1 <> c :: u).
      { intros Heq. apply str_eqb_eq in Heq. congruence. }
      destruct H1 as [<- | H1]; [congruence|].
      repeat split; assumption.
Qed.

(** X4: the voice of a sentence.  When the words that have a voice all
    have the same one, it is the voice of the sentence and every word of
    the sentence gets it; when two words have different voices, or no word
    has one, the sentence has no voice and its words are left as they
    are. *)
Theorem sentence_voice (L : Libs) (self : Processor) (explicit_lang : bool)
        (n : Node) (ws : list Word) (si : nat) :
  (forall v,
      (exists w, In w ws /\ w_voice w = v) -> v <> [] ->
      (forall w, In w ws -> w_voice w = [] \/ w_voice w = v) ->
      s_voice (make_sentence L self explicit_lang n ws si) = v
      /\ Forall (fun w => w_voice w = v)
                (words (make_sentence L self explicit_lang n ws si)))
  /\ ((exists w1 w2, In w1 ws /\ In w2 ws /\ w_voice w1 <> []
                     /\ w_voice w2 <> [] /\ w_voice w1 <> w_voice w2) ->
      s_voice (make_sentence L self explicit_lang n ws si) = []
      /\ words (make_sentence L self explicit_lang n ws si) = ws)
  /\ ((forall w, In w ws -> w_voice w = []) ->
      s_voice (make_sentence L self explicit_lang n ws si) = []
      /\ words (make_sentence L self explicit_lang n ws si) = ws).
Proof.
  unfold make_sentence. cbn [s_voice words].
  split; [|split].
  - intros v Hex Hv Hall.
    rewrite (common_voice_first ws v) by assumption.
    split; [reflexivity|].
    destruct v as [|c v]; [congruence|].
    apply Forall_map. apply Forall_forall. intros w _. reflexivity.
  - intros Htwo. rewrite common_voice_two by assumption.
    split; reflexivity.
  - intros Hnone. rewrite common_voice_none by assumption.
    split; reflexivity.
Qed.

(** ** Scopes while the document is read *)

Lemma tag_is_eq (t : str) (name : string) :
  tag_is t name = true -> t = lit name.
Proof. unfold tag_is. apply str_eqb_eq. Qed.

(** Evaluates the tests on a tag that is known. *)
Ltac tag_tests :=
  repeat match goal with
         | |- context [tag_is (lit ?a) ?b] =>
             let v := eval vm_compute in (tag_is (lit a) b) in
             change (tag_is (lit a) b) with v
         end.

(** While [skip_elements] is set, text and elements make no node, and only
    the end of [<metadata>] clears it. *)
Lemma skipping_keeps_graph (L : Libs) (self : Processor)
      (inner : list Event) (b : Build) :
  skip_elements b = true ->
  (forall e, In (EvEnd e) inner ->
             tag_is (tag_no_namespace (e_tag e)) "metadata" = false) ->
  exists b',
    foldM (on_event L self) inner b = Ok b'
    /\ graph b' = graph b /\ skip_elements b' = true.
Proof.
  revert b. induction inner as [|ev inner IH]; intros b Hs Hin.
  - exists b. split; [reflexivity|]. split; [reflexivity | exact Hs].
  - assert (Hstep : exists b1, on_event L self b ev = Ok b1
                               /\ graph b1 = graph b
                               /\ skip_elements b1 = true).
    { destruct ev as [e il|t|e]; cbn [on_event].
      - unfold on_start. rewrite Hs. exists b.
        split; [reflexivity|]. split; [reflexivity | exact Hs].
      - unfold on_text. rewrite Hs. exists b.
        split; [reflexivity|]. split; [reflexivity | exact Hs].
      - eexists. split; [reflexivity|]. unfold on_end.
        rewrite (Hin e (or_introl eq_refl)).
        destruct (tag_is (tag_no_namespace (e_tag e)) "voice");
          [split; [reflexivity | exact Hs]|].
        destruct (tag_is (tag_no_namespace (e_tag e)) "say-as");
          [split; [reflexivity | exact Hs]|].
        cbn [graph skip_elements]. rewrite !andb_false_r.
        split; [reflexivity | exact Hs]. }
    destruct Hstep as (b1 & H1 & Hg1 & Hs1).
    destruct (IH b1 Hs1) as (b' & H' & Hg' & Hs').
    { intros e He. apply Hin. right. exact He. }
    exists b'. cbn [foldM]. unfold bind. rewrite H1.
    split; [exact H'|]. split; [congruence | exact Hs'].
Qed.

(** X5: nothing inside [<metadata>] is spoken: from the start of the
    element to its end no node and no edge is added to the tree, whatever
    text and elements it holds, and reading goes on after it. *)
Theorem metadata_makes_no_node (L : Libs) (self : Processor) (b : Build)
        (m : Element) (is_last : bool) (inner : list Event) :
  skip_elements b = false ->
  tag_is (tag_no_namespace (e_tag m)) "metadata" = true ->
  (forall e, In (EvEnd e) inner ->
             tag_is (tag_no_namespace (e_tag e)) "metadata" = false) ->
  exists b',
    foldM (on_event L self) (EvStart m is_last :: inner ++ [EvEnd m]) b
    = Ok b'
    /\ graph b' = graph b /\ skip_elements b' = false.
Proof.
  intros Hs Hm Hin. apply tag_is_eq in Hm.
  cbn [foldM on_event]. unfold on_start at 1. rewrite Hs, Hm. tag_tests.
  cbn [orb]. unfold bind at 1.
  match goal with
  | |- context [foldM _ _ ?b1] =>
      destruct (skipping_keeps_graph L self inner b1 eq_refl Hin)
        as (b2 & H2 & Hg2 & Hs2)
  end.
  assert (Happ : forall l1 l2 (s s1 : Build),
             foldM (on_event L self) l1 s = Ok s1 ->
             foldM (on_event L self) (l1 ++ l2) s
             = foldM (on_event L self) l2 s1).
  { induction l1 as [|x l1 IH]; intros l2 s s1 H.
    - cbn in H. injection H as <-. reflexivity.
    - cbn [app foldM] in *. unfold bind in *.
      destruct (on_event L self s x); [|discriminate].
      apply IH. exact H. }
  rewrite (Happ _ _ _ _ H2). cbn [foldM on_event]. unfold bind.
  eexists. split; [reflexivity|].
  unfold on_end. rewrite Hm. tag_tests. cbn [orb andb negb graph
                                             skip_elements].
  split; [exact Hg2 | reflexivity].
Qed.

(** *** What a text chunk creates *)

Lemma created_none (P : Node -> Prop) (g : Graph) :
  len g <= len g /\ Forall P (created g g).
Proof.
  split; [apply Nat.le_refl|]. unfold created, len. rewrite skipn_all.
  constructor.
Qed.

Lemma created_more (P : Node -> Prop) (g0 g : Graph) (n : Node) :
  len g0 <= len g /\ Forall P (created g0 g) -> P n ->
  len g0 <= len (add_node g n) /\ Forall P (created g0 (add_node g n)).
Proof.
  intros [Hle Hc] Hn. unfold created, len in *. cbn [nodes add_node]. split.
  - rewrite length_app. lia.
  - rewrite skipn_app.
    replace (length (nodes g0) - length (nodes g)) with 0 by lia.
    apply Forall_app. split; [exact Hc|].
    constructor; [exact Hn | constructor].
Qed.

Lemma created_more_under (P : Node -> Prop) (g0 g : Graph) (n : Node)
      (u v : nat) :
  len g0 <= len g /\ Forall P (created g0 g) -> P n ->
  len g0 <= len (add_edge (add_node g n) u v)
  /\ Forall P (created g0 (add_edge (add_node g n) u v)).
Proof. intros Hg Hn. exact (created_more P g0 g n Hg Hn). Qed.

Lemma ensure_speak_scope (b : Build) (for_word : bool) :
  scope_kwargs (ensure_speak b) for_word = scope_kwargs b for_word.
Proof. unfold ensure_speak. destruct (last_speak b); reflexivity. Qed.

Lemma ensure_paragraph_scope (impl : bool) (b : Build) (for_word : bool) :
  scope_kwargs (ensure_paragraph impl b) for_word = scope_kwargs b for_word.
Proof. unfold ensure_paragraph. destruct (last_paragraph b); reflexivity. Qed.

Lemma ensure_sentence_scope (b : Build) (for_word : bool) :
  scope_kwargs (ensure_sentence b) for_word = scope_kwargs b for_word.
Proof. unfold ensure_sentence. destruct (last_sentence b); reflexivity. Qed.

Lemma pipeline_tokenize_creates (L : Libs) (self : Processor)
      (P : Node -> Prop) (g0 g : Graph) (parent : Node) (txt : str)
      (sc : Scope) :
  (forall i t tws, P (scoped_node i None true sc (scoped_word sc t tws))) ->
  len g0 <= len g /\ Forall P (created g0 g) ->
  len g0 <= len (_pipeline_tokenize L self g parent txt sc)
  /\ Forall P (created g0 (_pipeline_tokenize L self g parent txt sc)).
Proof.
  intros Hw. unfold _pipeline_tokenize.
  generalize (enumerate
                (tokenize_groups (get_settings L self (sc_lang sc))
                   match pre_process_text (get_settings L self (sc_lang sc))
                   with
                   | Some f => f txt
                   | None => txt
                   end)).
  intros l. revert g. induction l as [|ig l IH]; intros g Hg; [exact Hg|].
  cbn [fold_left]. apply IH. apply created_more_under; [exact Hg|].
  apply Hw.
Qed.

(** The nodes a text chunk creates: an implicit speak node, paragraph and
    sentence where none is open, with the scope of nodes, and the words,
    with the scope of words. *)
Lemma on_text_creates (L : Libs) (self : Processor) (P : Node -> Prop)
      (b : Build) (t : str) :
  (forall n, data n = SpeakNode -> P n) ->
  (forall i impl,
      P (scoped_node i None impl (scope_kwargs b false) ParagraphNode)) ->
  (forall i impl,
      P (scoped_node i None impl (scope_kwargs b false) SentenceNode)) ->
  (forall i impl tx tws,
      P (scoped_node i None impl (scope_kwargs b true)
                     (scoped_word (scope_kwargs b true) tx tws))) ->
  Forall P (created (graph b) (graph (on_text L self b t))).
Proof.
  intros Hsp Hp Hs Hw.
  assert (G1 : len (graph b) <= len (graph (ensure_speak b))
               /\ Forall P (created (graph b) (graph (ensure_speak b)))).
  { unfold ensure_speak. destruct (last_speak b); [apply created_none|].
    cbn [graph]. apply created_more; [apply created_none|].
    apply Hsp. reflexivity. }
  assert (G2 : len (graph b)
               <= len (graph (ensure_paragraph true (ensure_speak b)))
               /\ Forall P (created (graph b)
                              (graph (ensure_paragraph true
                                        (ensure_speak b))))).
  { unfold ensure_paragraph.
    destruct (last_paragraph (ensure_speak b)); [exact G1|].
    cbn [graph set_last_paragraph].
    apply created_more_under; [exact G1|].
    rewrite ensure_speak_scope. apply Hp. }
  assert (G3 : len (graph b)
               <= len (graph (ensure_sentence
                                (ensure_paragraph true (ensure_speak b))))
               /\ Forall P (created (graph b)
                              (graph (ensure_sentence
                                        (ensure_paragraph true
                                           (ensure_speak b)))))).
  { unfold ensure_sentence.
    destruct (last_sentence (ensure_paragraph true (ensure_speak b)));
      [exact G2|].
    cbn [graph set_last_sentence].
    apply created_more_under; [exact G2|].
    rewrite ensure_paragraph_scope, ensure_speak_scope. apply Hs. }
  unfold on_text. destruct (skip_elements b); [apply created_none|].
  cbv zeta.
  destruct (last_sentence
              (ensure_sentence (ensure_paragraph true (ensure_speak b))));
    [|exact (proj2 G3)].
  rewrite ensure_sentence_scope, ensure_paragraph_scope, ensure_speak_scope.
  destruct (in_word
              (ensure_sentence (ensure_paragraph true (ensure_speak b)))).
  - cbn [graph set_graph].
    apply created_more_under; [exact G3 | apply Hw].
  - cbn [graph set_graph].
    apply pipeline_tokenize_creates; [intros; apply Hw | exact G3].
Qed.

(** X6: the scope of [<voice>] and of [<say-as>].  The start of the element
    creates no node.  A text chunk that follows the start of a [<voice>]
    with a name gives the voice to every node it creates, an implicit
    speak node apart; a text chunk that follows the start of a [<say-as>]
    gives every word it creates the interpretation and the format of the
    element.  The end of the element restores the state the start was met
    in. *)
Theorem voice_and_say_as_scopes (L : Libs) (self : Processor) (b : Build)
        (e : Element) (is_last : bool) (t : str) :
  skip_elements b = false ->
  (tag_is (tag_no_namespace (e_tag e)) "voice" = true ->
   forall v,
     attrib_no_namespace e (lit "name") = Some v ->
     exists b1,
       on_start b e is_last = Ok b1
       /\ graph b1 = graph b
       /\ Forall (fun n => data n = SpeakNode \/ voice n = v)
                 (created (graph b1) (graph (on_text L self b1 t)))
       /\ on_end self b1 e = b)
  /\ (tag_is (tag_no_namespace (e_tag e)) "say-as" = true ->
      exists b1,
        on_start b e is_last = Ok b1
        /\ graph b1 = graph b
        /\ Forall (fun n =>
                     forall w,
                       data n = WordNode w ->
                       interpret_as w = attrib_or_empty e "interpret-as"
                       /\ format w = attrib_or_empty e "format")
                  (created (graph b1) (graph (on_text L self b1 t)))
        /\ on_end self b1 e = b).
Proof.
  intros Hs. split.
  - intros Ht v Hv. apply tag_is_eq in Ht.
    unfold on_start. rewrite Hs, Ht. tag_tests. cbn [orb].
    eexists. split; [reflexivity|]. split; [reflexivity|]. split.
    + unfold attrib_or_empty. rewrite Hv.
      apply on_text_creates.
      * intros n Hn. left. exact Hn.
      * intros i impl. right. reflexivity.
      * intros i impl. right. reflexivity.
      * intros i impl tx tws. right. reflexivity.
    + unfold on_end. rewrite Ht. tag_tests. cbn.
      destruct b; cbn in Hs; subst; reflexivity.
  - intros Ht. apply tag_is_eq in Ht.
    unfold on_start. rewrite Hs, Ht. tag_tests. cbn [orb].
    eexists. split; [reflexivity|]. split; [reflexivity|]. split.
    + apply on_text_creates.
      * intros n Hn w Hw. congruence.
      * intros i impl w Hw. discriminate Hw.
      * intros i impl w Hw. discriminate Hw.
      * intros i impl tx tws w Hw. cbn in Hw. injection Hw as <-.
        split; reflexivity.
    + unfold on_end. rewrite Ht. tag_tests. cbn.
      destruct b; cbn in Hs; subst; reflexivity.
Qed.

Lemma ensure_speak_lang (b : Build) :
  lang_stack (ensure_speak b) = lang_stack b
  /\ skip_elements (ensure_speak b) = skip_elements b.
Proof. unfold ensure_speak. destruct (last_speak b); split; reflexivity. Qed.

Lemma ensure_paragraph_lang (impl : bool) (b : Build) :
  lang_stack (ensure_paragraph impl b) = lang_stack b.
Proof. unfold ensure_paragraph. destruct (last_paragraph b); reflexivity. Qed.

(** X7: the scope of a language.  On [<speak>], [<p>], [<s>], [<w>] and
    [<token>] a [lang] attribute sets the language for what the element
    holds; at the end of the element the stack of languages is what it was
    at its start, and the language is again the one of the enclosing
    element, or the default language. *)
Theorem lang_scope (self : Processor) (b : Build) (e : Element)
        (is_last : bool) (lg : str) :
  skip_elements b = false ->
  In (tag_no_namespace (e_tag e))
     [lit "speak"; lit "p"; lit "s"; lit "w"; lit "token"] ->
  attrib_no_namespace e (lit "lang") = Some lg -> lg <> [] ->
  exists b1,
    on_start b e is_last = Ok b1
    /\ current_lang b1 = lg
    /\ lang_stack (on_end self b1 e) = lang_stack b
    /\ current_lang (on_end self b1 e)
       = match lang_stack b with
         | (_, l) :: _ => l
         | [] => default_lang self
         end.
Proof.
  intros Hs Ht Ha Hlg. destruct lg as [|c lg]; [congruence|].
  assert (Hpush : forall b0 t,
             lang_stack (push_lang b0 t e) = (t, c :: lg) :: lang_stack b0
             /\ current_lang (push_lang b0 t e) = c :: lg).
  { intros b0 t. unfold push_lang. rewrite Ha. split; reflexivity. }
  assert (Hend : forall b1 t,
             tag_no_namespace (e_tag e) = t ->
             tag_is t "voice" = false -> tag_is t "say-as" = false ->
             lang_stack b1 = (t, c :: lg) :: lang_stack b ->
             lang_stack (on_end self b1 e) = lang_stack b
             /\ current_lang (on_end self b1 e)
                = match lang_stack b with
                  | (_, l) :: _ => l
                  | [] => default_lang self
                  end).
  { intros b1 t Et Hv Hsa Hl. unfold on_end. rewrite Et, Hv, Hsa, Hl.
    rewrite str_eqb_refl. cbn [lang_stack current_lang].
    split; reflexivity. }
  unfold on_start. rewrite Hs.
  destruct Ht as [Ht | [Ht | [Ht | [Ht | [Ht | []]]]]]; rewrite <- Ht;
    tag_tests; cbn [orb]; eexists; (split; [reflexivity|]).
  - split; [apply Hpush|].
    apply (Hend _ (lit "speak")); try reflexivity; [symmetry; exact Ht|].
    cbn [lang_stack]. apply Hpush.
  - split; [cbn [set_last_paragraph current_lang]; apply Hpush|].
    apply (Hend _ (lit "p")); try reflexivity; [symmetry; exact Ht|].
    cbn [set_last_paragraph lang_stack].
    rewrite (proj1 (Hpush _ _)), (proj1 (ensure_speak_lang b)). reflexivity.
  - split; [cbn [set_last_sentence current_lang]; apply Hpush|].
    apply (Hend _ (lit "s")); try reflexivity; [symmetry; exact Ht|].
    cbn [set_last_sentence lang_stack].
    rewrite (proj1 (Hpush _ _)), ensure_paragraph_lang,
      (proj1 (ensure_speak_lang b)). reflexivity.
  - split; [apply Hpush|].
    apply (Hend _ (lit "w")); try reflexivity; [symmetry; exact Ht|].
    cbn [lang_stack]. apply Hpush.
  - split; [apply Hpush|].
    apply (Hend _ (lit "token")); try reflexivity; [symmetry; exact Ht|].
    cbn [lang_stack]. apply Hpush.
Qed.

(** ** What the passes keep of the tree *)

Lemma enumerate_from_In {A} (l : list A) (k i : nat) (x : A) :
  In (i, x) (enumerate_from k l) ->
  exists j, i = k + j /\ nth_error l j = Some x.
Proof.
  revert k. induction l as [|y l IH]; intros k H; [destruct H|].
  cbn in H. destruct H as [H | H].
  - injection H as <- <-. exists 0. split; [lia | reflexivity].
  - destruct (IH (S k) H) as [j [-> Hj]]. exists (S j).
    split; [lia | exact Hj].
Qed.

Lemma numbered_iff (g : Graph) :
  numbered g = true
  <-> (forall i n, get_node g i = Some n -> node n = i).
Proof.
  unfold numbered, get_node, enumerate. rewrite forallb_forall. split.
  - intros H i n Hn. apply Nat.eqb_eq.
    apply (H (i, n)). apply (enumerate_from_nth (nodes g) 0 i n Hn).
  - intros H [i n] Hin. apply enumerate_from_In in Hin.
    destruct Hin as [j [-> Hj]]. cbn. apply Nat.eqb_eq. apply H. exact Hj.
Qed.

Lemma nth_error_set_nth {A} (i j : nat) (x : A) (l : list A) :
  nth_error (set_nth i x l) j
  = if (j =? i) && (i <? length l) then Some x else nth_error l j.
Proof.
  revert i j. induction l as [|y l IH]; intros i j.
  - cbn. rewrite andb_false_r. destruct i; reflexivity.
  - destruct i as [|i], j as [|j]; cbn; try reflexivity.
    rewrite IH. reflexivity.
Qed.

Lemma numbered_add_node (g : Graph) (n : Node) :
  numbered g = true -> node n = len g -> numbered (add_node g n) = true.
Proof.
  rewrite !numbered_iff. intros H Hn i m Hi.
  unfold get_node, add_node in Hi. cbn [nodes] in Hi.
  destruct (Nat.lt_ge_cases i (length (nodes g))) as [Hlt | Hge].
  - rewrite nth_error_app1 in Hi by exact Hlt. apply H. exact Hi.
  - rewrite nth_error_app2 in Hi by exact Hge.
    destruct (i - length (nodes g)) as [|k] eqn:Ek; cbn in Hi.
    + injection Hi as <-. rewrite Hn. unfold len. lia.
    + destruct k; discriminate.
Qed.

Lemma numbered_nodes (g g' : Graph) :
  nodes g' = nodes g -> numbered g' = numbered g.
Proof. unfold numbered. intros ->. reflexivity. Qed.

Lemma same_shape_refl (g : Graph) : numbered g = true -> same_shape g g.
Proof. intros H. split; [exact H|]. split; reflexivity. Qed.

Lemma same_shape_trans (a b c : Graph) :
  same_shape a b -> same_shape b c -> same_shape a c.
Proof.
  intros (_ & E1 & T1) (N2 & E2 & T2).
  split; [exact N2|]. split; congruence.
Qed.

Lemma keeps_texts_refl (g : Graph) : numbered g = true -> keeps_texts g g.
Proof.
  intros H. split; [exact H|]. exists []. rewrite app_nil_r. reflexivity.
Qed.

Lemma keeps_texts_trans (a b c : Graph) :
  keeps_texts a b -> keeps_texts b c -> keeps_texts a c.
Proof.
  intros (_ & m1 & T1) (N2 & m2 & T2). split; [exact N2|].
  exists (m1 ++ m2). rewrite T2, T1, app_assoc. reflexivity.
Qed.

Lemma same_shape_keeps (g g' : Graph) : same_shape g g' -> keeps_texts g g'.
Proof.
  intros (N & _ & T). split; [exact N|]. exists []. rewrite app_nil_r.
  exact T.
Qed.

(** A word changed in place, its texts kept. *)
Lemma set_word_same_shape (g : Graph) (i : nat) (n : Node)
      (w w' : WordData) :
  numbered g = true -> get_node g i = Some n -> data n = WordNode w ->
  text w' = text w -> text_with_ws w' = text_with_ws w ->
  same_shape g (set_word g n w').
Proof.
  intros Hnum Hi Hd Ht Htws.
  pose proof (proj1 (numbered_iff g) Hnum) as Hn.
  unfold set_word, set_node. rewrite (Hn i n Hi).
  split; [|split; [reflexivity|]].
  - apply numbered_iff. intros j m Hj. unfold get_node in Hj.
    cbn [nodes] in Hj. rewrite nth_error_set_nth in Hj.
    destruct ((j =? i) && (i <? length (nodes g))) eqn:E.
    + injection Hj as <-. cbn [node with_data].
      apply andb_true_iff in E. destruct E as [E _].
      apply Nat.eqb_eq in E. subst j. apply (Hn i n Hi).
    + apply Hn. exact Hj.
  - cbn [nodes]. apply (map_set_nth_same texts_of i n); [exact Hi|].
    unfold texts_of. cbn [data with_data]. rewrite Hd, Ht, Htws.
    reflexivity.
Qed.

Lemma attach_numbered (leaf x : Node) (g : Graph) :
  numbered g = true -> numbered (attach leaf g x) = true.
Proof.
  intros Hn.
  rewrite (numbered_nodes (add_node g (with_node (len g) x)))
    by reflexivity.
  apply numbered_add_node; [exact Hn | reflexivity].
Qed.

(** New nodes under a leaf. *)
Lemma attach_keeps (leaf : Node) (news : list Node) (g : Graph) :
  numbered g = true -> keeps_texts g (fold_left (attach leaf) news g).
Proof.
  revert g. induction news as [|x news IH]; intros g Hn;
    [apply keeps_texts_refl; exact Hn|].
  cbn [fold_left]. eapply keeps_texts_trans;
    [|apply IH; apply attach_numbered; exact Hn].
  split; [apply attach_numbered; exact Hn|].
  exists [texts_of (with_node (len g) x)]. unfold attach.
  cbn [nodes add_edge add_node]. rewrite map_app. reflexivity.
Qed.

(** Whatever the split function, a split pass only adds nodes. *)
Lemma pipeline_split_keeps (f : Graph -> Node -> Exc (list Node))
      (g g' : Graph) (r : nat) :
  numbered g = true -> pipeline_split f g r = Ok g' -> keeps_texts g g'.
Proof.
  intros Hn H. unfold pipeline_split in H.
  eapply (foldM_inv (fun g0 => keeps_texts g g0));
    [|apply keeps_texts_refl; exact Hn|exact H].
  intros g0 leaf g1 Hg0 Hstep. cbv beta in Hstep.
  destruct (get_node g0 leaf) as [n|];
    [|apply Ok_inj in Hstep; subst; exact Hg0].
  unfold bind in Hstep. destruct (f g0 n) as [news|e]; [|discriminate].
  apply Ok_inj in Hstep. subst g1.
  eapply keeps_texts_trans; [exact Hg0|].
  apply attach_keeps. apply Hg0.
Qed.

Lemma word_of_data (n : Node) (w : WordData) :
  word_of n = Some w -> data n = WordNode w.
Proof.
  unfold word_of. destruct (data n); try discriminate.
  intros H. injection H as ->. reflexivity.
Qed.

(** A pass over the leaves keeps what each of its steps keeps. *)
Lemma pipeline_transform_keeps (R : Graph -> Graph -> Prop)
      (f : Graph -> Node -> Exc Graph) (g g' : Graph) (r : nat) :
  (forall a, numbered a = true -> R a a) ->
  (forall a b c, R a b -> R b c -> R a c) ->
  (forall a b, R a b -> numbered b = true) ->
  (forall g0 i n g1, numbered g0 = true -> get_node g0 i = Some n ->
                     f g0 n = Ok g1 -> R g0 g1) ->
  numbered g = true -> pipeline_transform f g r = Ok g' -> R g g'.
Proof.
  intros Hrefl Htrans Hnum Hf Hn H. unfold pipeline_transform in H.
  eapply (foldM_inv (fun g0 => R g g0)); [|apply Hrefl; exact Hn|exact H].
  intros g0 leaf g1 Hg0 Hstep. cbv beta in Hstep.
  destruct (get_node g0 leaf) as [n|] eqn:En;
    [|apply Ok_inj in Hstep; subst; exact Hg0].
  eapply Htrans; [exact Hg0|].
  eapply Hf; [eapply Hnum; exact Hg0 | exact En | exact Hstep].
Qed.

Ltac same_or_set Hnum Hi :=
  first
    [ apply same_shape_refl; exact Hnum
    | eapply set_word_same_shape;
      [exact Hnum | exact Hi | apply word_of_data; eassumption
       | reflexivity | reflexivity] ].

Lemma transform_number_same_shape (L : Libs) (self : Processor)
      (g : Graph) (i : nat) (n : Node) (g' : Graph) :
  numbered g = true -> get_node g i = Some n ->
  _transform_number L self g n = Ok g' -> same_shape g g'.
Proof.
  intros Hnum Hi. unfold _transform_number.
  pass_cases; same_or_set Hnum Hi.
Qed.

Lemma transform_currency_same_shape (L : Libs) (self : Processor)
      (g : Graph) (i : nat) (n : Node) (g' : Graph) :
  numbered g = true -> get_node g i = Some n ->
  _transform_currency L self g n = Ok g' -> same_shape g g'.
Proof.
  intros Hnum Hi. unfold _transform_currency.
  pass_cases; same_or_set Hnum Hi.
Qed.

Lemma transform_date_same_shape (L : Libs) (self : Processor)
      (g : Graph) (i : nat) (n : Node) (g' : Graph) :
  numbered g = true -> get_node g i = Some n ->
  _transform_date L self g n = Ok g' -> same_shape g g'.
Proof.
  intros Hnum Hi. unfold _transform_date.
  pass_cases; same_or_set Hnum Hi.
Qed.

Lemma add_words_keeps (g : Graph) (n : Node) (texts : list str) :
  numbered g = true -> keeps_texts g (add_words g n texts).
Proof.
  unfold add_words. revert g.
  induction texts as [|t texts IH]; intros g Hn;
    [apply keeps_texts_refl; exact Hn|].
  cbn [fold_left].
  assert (Hn1 : numbered
                  (add_edge
                     (add_node g (with_node (len g)
                                    (word_kw (strip t) t (lang n)
                                             ROLE_DEFAULT)))
                     (node n)
                     (node (with_node (len g)
                              (word_kw (strip t) t (lang n) ROLE_DEFAULT))))
                = true).
  { rewrite (numbered_nodes
               (add_node g (with_node (len g)
                              (word_kw (strip t) t (lang n) ROLE_DEFAULT))))
      by reflexivity.
    apply numbered_add_node; [exact Hn | reflexivity]. }
  eapply keeps_texts_trans; [|apply IH; exact Hn1].
  split; [exact Hn1|].
  eexists. cbn [nodes add_edge add_node]. rewrite map_app. reflexivity.
Qed.

Lemma verbalize_number_keeps (L : Libs) (self : Processor)
      (g : Graph) (i : nat) (n : Node) (g' : Graph) :
  numbered g = true -> get_node g i = Some n ->
  _verbalize_number L self g n = Ok g' -> keeps_texts g g'.
Proof.
  intros Hnum Hi. unfold _verbalize_number.
  assert (Hsame : forall g1, Ok g = Ok g1 -> keeps_texts g g1).
  { intros g1 H. apply Ok_inj in H. subst.
    apply keeps_texts_refl. exact Hnum. }
  destruct (word_of n) as [word|]; [|apply Hsame].
  destruct (number word) as [num|]; [|apply Hsame].
  destruct (negb _); [apply Hsame|].
  destruct (negb _); [apply Hsame|].
  destruct (negb _); [discriminate|].
  unfold bind at 1.
  destruct (if str_eqb (format word) NUMBER_DIGITS then dec_digits num
            else Ok [num]) as [nums|e]; [|discriminate].
  intros H.
  eapply (foldM_inv (fun g0 => keeps_texts g g0));
    [|apply keeps_texts_refl; exact Hnum|exact H].
  intros g0 d g1 Hg0 Hstep. cbv beta in Hstep. unfold bind in Hstep.
  destruct (to_num d) as [final_num|]; [|discriminate].
  destruct (num2words L final_num _); [|discriminate].
  apply Ok_inj in Hstep. subst.
  eapply keeps_texts_trans; [exact Hg0|].
  apply add_words_keeps. apply Hg0.
Qed.

Lemma verbalize_date_keeps (L : Libs) (self : Processor)
      (g : Graph) (i : nat) (n : Node) (g' : Graph) :
  numbered g = true -> get_node g i = Some n ->
  _verbalize_date L self g n = Ok g' -> keeps_texts g g'.
Proof.
  intros Hnum Hi. unfold _verbalize_date, bind.
  pass_cases; first [ apply keeps_texts_refl; exact Hnum
                    | apply add_words_keeps; exact Hnum ].
Qed.

Lemma verbalize_currency_keeps (L : Libs) (self : Processor)
      (g : Graph) (i : nat) (n : Node) (g' : Graph) :
  numbered g = true -> get_node g i = Some n ->
  _verbalize_currency L self g n = Ok g' -> keeps_texts g g'.
Proof.
  intros Hnum Hi. unfold _verbalize_currency.
  destruct (word_of n) as [word|] eqn:Hw;
    [|intros H; apply Ok_inj in H; subst; apply keeps_texts_refl;
      exact Hnum].
  assert (Hg1 : same_shape g
                  (if truthy (currency_name word) then g
                   else set_word g n
                          (named_currency_word
                             (get_settings L self (lang n)) word))).
  { destruct (truthy (currency_name word)) eqn:Et;
      [apply same_shape_refl; exact Hnum|].
    eapply set_word_same_shape;
      [exact Hnum | exact Hi | apply word_of_data; exact Hw | |];
      unfold named_currency_word; rewrite Et; reflexivity. }
  pose proof (same_shape_keeps _ _ Hg1) as Hk.
  remember (if truthy (currency_name word) then g
            else set_word g n
                   (named_currency_word (get_settings L self (lang n))
                                        word)) as g1 eqn:Eg1.
  clear Eg1. unfold bind.
  pass_cases;
    first
      [ apply keeps_texts_refl; exact Hnum
      | eapply keeps_texts_trans; [exact Hk|];
        apply add_words_keeps; apply Hg1
      | exact Hk ].
Qed.

Lemma break_sentence_at_keeps (g : Graph) (leaf : Node) (g' : Graph) :
  numbered g = true -> break_sentence_at g leaf = Ok g' -> keeps_texts g g'.
Proof.
  intros Hnum H. apply break_sentence_at_nodes in H.
  destruct H as [H | H].
  - split; [rewrite (numbered_nodes g) by exact H; exact Hnum|].
    exists []. rewrite H, app_nil_r. reflexivity.
  - split.
    + rewrite (numbered_nodes (add_node g (new_sentence g))) by exact H.
      apply numbered_add_node; [exact Hnum | reflexivity].
    + exists [None]. rewrite H, map_app. reflexivity.
Qed.

Lemma break_sentences_keeps (g : Graph) (r : nat) (g' : Graph) :
  numbered g = true -> _break_sentences g r = Ok g' -> keeps_texts g g'.
Proof.
  intros Hnum H. unfold _break_sentences in H.
  eapply (foldM_inv (fun g0 => keeps_texts g g0));
    [|apply keeps_texts_refl; exact Hnum|exact H].
  intros g0 leaf g1 Hg0 Hstep. cbv beta in Hstep.
  destruct (get_node g0 leaf) as [n|];
    [|apply Ok_inj in Hstep; subst; exact Hg0].
  eapply keeps_texts_trans; [exact Hg0|].
  eapply break_sentence_at_keeps; [apply Hg0 | exact Hstep].
Qed.

Lemma word_at_data (g : Graph) (i : nat) (n : Node) (w : WordData) :
  word_at g i = Some (n, w) -> get_node g i = Some n /\ data n = WordNode w.
Proof.
  unfold word_at. destruct (get_node g i) as [m|]; [|discriminate].
  destruct (data m) eqn:Hd; try discriminate.
  intros H. injection H as <- <-. split; [reflexivity | exact Hd].
Qed.

Lemma phonemize_word_same_shape (L : Libs) (self : Processor)
      (g : Graph) (i : nat) (g' : Graph) :
  numbered g = true -> phonemize_word L self g i = Ok g' -> same_shape g g'.
Proof.
  intros Hnum. unfold phonemize_word.
  destruct (word_at g i) as [[n word]|] eqn:Hw;
    [|intros H; apply Ok_inj in H; subst; apply same_shape_refl; exact Hnum].
  destruct (word_at_data g i n word Hw) as [Hi Hd].
  destruct (has_phonemes word);
    [intros H; apply Ok_inj in H; subst; apply same_shape_refl; exact Hnum|].
  unfold bind.
  destruct (match lookup_phonemes (get_settings L self (lang n)) with
            | Some f =>
                match f (text word) (Some (role word)) with
                | Ok p => Ok (with_phonemes word p)
                | Raise e => Raise e
                end
            | None => Ok word
            end) as [word1|e] eqn:E1; [|discriminate].
  assert (T1 : text word1 = text word
               /\ text_with_ws word1 = text_with_ws word).
  { revert E1. pass_cases; split; reflexivity. }
  destruct (if has_phonemes word1 then Ok word1
            else match guess_phonemes (get_settings L self (lang n)) with
                 | Some f =>
                     match f (text word1) (Some (role word1)) with
                     | Ok p => Ok (with_phonemes word1 p)
                     | Raise e => Raise e
                     end
                 | None => Ok word1
                 end) as [word2|e] eqn:E2; [|discriminate].
  assert (T2 : text word2 = text word1
               /\ text_with_ws word2 = text_with_ws word1).
  { revert E2. pass_cases; split; reflexivity. }
  intros H. apply Ok_inj in H. subst g'.
  eapply set_word_same_shape; [exact Hnum | exact Hi | exact Hd | |].
  - rewrite (proj1 T2). apply T1.
  - rewrite (proj2 T2). apply T1.
Qed.

Lemma process_sentence_same_shape (L : Libs) (self : Processor)
      (pos_flag phonemize : bool) (cur : Node) (g : Graph)
      (word_ids : list nat) (g' : Graph) :
  numbered g = true ->
  process_sentence L self pos_flag phonemize cur g word_ids = Ok g' ->
  same_shape g g'.
Proof.
  intros Hnum. unfold process_sentence. unfold bind at 1.
  assert (Htag : forall tags,
             same_shape g
               (fold_left
                  (fun g0 it =>
                     match word_at g0 (fst it) with
                     | Some (n, w) => set_word g0 n (with_pos w (snd it))
                     | None => g0
                     end) (combine word_ids tags) g)).
  { intros tags.
    apply (fold_left_inv (fun g0 => same_shape g g0));
      [|apply same_shape_refl; exact Hnum].
    intros g0 it Hg0 _.
    destruct (word_at g0 (fst it)) as [[n w]|] eqn:Hw; [|exact Hg0].
    destruct (word_at_data g0 (fst it) n w Hw) as [Hi Hd].
    eapply same_shape_trans; [exact Hg0|].
    eapply set_word_same_shape;
      [apply Hg0 | exact Hi | exact Hd | reflexivity | reflexivity]. }
  assert (Hphon : forall g1, same_shape g g1 ->
                    (if phonemize
                     then foldM (phonemize_word L self) word_ids g1
                     else Ok g1) = Ok g' -> same_shape g g').
  { intros g1 Hg1 H. destruct phonemize;
      [|apply Ok_inj in H; subst; exact Hg1].
    eapply (foldM_inv (fun g0 => same_shape g g0)); [|exact Hg1|exact H].
    intros g0 i g2 Hg0 Hstep.
    eapply same_shape_trans; [exact Hg0|].
    eapply phonemize_word_same_shape; [apply Hg0 | exact Hstep]. }
  destruct pos_flag; [|apply Hphon; apply same_shape_refl; exact Hnum].
  destruct (get_parts_of_speech (get_settings L self (lang cur)))
    as [tagger|]; [|apply Hphon; apply same_shape_refl; exact Hnum].
  unfold bind. destruct (tagger _) as [tags|e]; [|discriminate].
  apply Hphon. apply Htag.
Qed.

Lemma enrich_same_shape (L : Libs) (self : Processor)
      (pos_flag phonemize : bool) (g : Graph) (r : nat) (g' : Graph) :
  numbered g = true ->
  enrich L self pos_flag phonemize g r = Ok g' -> same_shape g g'.
Proof.
  intros Hnum. unfold enrich. unfold bind at 1.
  destruct (foldM (gather_step L self pos_flag phonemize)
                  (dfs_preorder_nodes g r) (g, [])) as [acc|e] eqn:Hf;
    [|discriminate].
  assert (Hacc : same_shape g (fst acc)).
  { eapply (foldM_inv (fun a => same_shape g (fst a)) _ _ (g, []));
      [|apply same_shape_refl; exact Hnum|exact Hf].
    intros [g0 ws] i [g1 ws1] Hg0 Hstep. cbn [fst] in *.
    unfold gather_step in Hstep.
    destruct (get_node g0 i) as [n|];
      [|apply Ok_inj in Hstep; injection Hstep as <- <-; exact Hg0].
    destruct (isSentenceNode n).
    - destruct ws as [|a l];
        [apply Ok_inj in Hstep; injection Hstep as <- <-; exact Hg0|].
      unfold bind in Hstep.
      destruct (process_sentence L self pos_flag phonemize n g0 (a :: l))
        as [g2|e] eqn:Hp; [|discriminate].
      apply Ok_inj in Hstep. injection Hstep as <- <-.
      eapply same_shape_trans; [exact Hg0|].
      eapply process_sentence_same_shape; [apply Hg0 | exact Hp].
    - destruct ((out_degree g0 i =? 0) && isWordNode n);
        apply Ok_inj in Hstep; injection Hstep as <- <-; exact Hg0. }
  destruct (snd acc) as [|a l];
    [intros H; apply Ok_inj in H; subst; exact Hacc|].
  destruct (get_node (fst acc) (last (dfs_preorder_nodes g r) r))
    as [cur|];
    [|intros H; apply Ok_inj in H; subst; exact Hacc].
  intros H. eapply same_shape_trans; [exact Hacc|].
  eapply process_sentence_same_shape; [apply Hacc | exact H].
Qed.

Lemma add_edge_In (g : Graph) (u v : nat) :
  incl (edges g) (edges (add_edge g u v))
  /\ In (u, v) (edges (add_edge g u v)).
Proof.
  unfold add_edge. cbn [edges].
  destruct (has_edge (edges g) (u, v)) eqn:E.
  - split; [apply incl_refl | apply has_edge_In; exact E].
  - split; [apply incl_appl, incl_refl
           | apply in_or_app; right; left; reflexivity].
Qed.

Lemma adds_children_refl (n : Node) (g : Graph) : adds_children n g g.
Proof.
  exists []. rewrite app_nil_r. repeat split; try constructor.
  - apply incl_refl.
  - intros m [].
Qed.

Lemma adds_children_trans (n : Node) (a b c : Graph) :
  adds_children n a b -> adds_children n b c -> adds_children n a c.
Proof.
  intros (n1 & N1 & S1 & F1 & I1 & C1) (n2 & N2 & S2 & F2 & I2 & C2).
  exists (n1 ++ n2). split; [rewrite N2, N1, app_assoc; reflexivity|].
  split.
  { rewrite map_app, length_app, seq_app, S1, S2. do 2 f_equal.
    unfold len. rewrite N1, length_app. reflexivity. }
  split; [apply Forall_app; split; assumption|].
  split; [eapply incl_tran; eassumption|].
  intros m Hm. apply in_app_or in Hm. destruct Hm as [Hm | Hm].
  - apply I2. apply C1. exact Hm.
  - apply C2. exact Hm.
Qed.

Lemma add_words_children (g : Graph) (n : Node) (texts : list str) :
  adds_children n g (add_words g n texts).
Proof.
  unfold add_words. revert g.
  induction texts as [|t texts IH]; intros g; [apply adds_children_refl|].
  cbn [fold_left]. eapply adds_children_trans; [|apply IH].
  exists [with_node (len g) (word_kw (strip t) t (lang n) ROLE_DEFAULT)].
  cbn [nodes add_edge add_node node with_node map length seq].
  split; [reflexivity|]. split; [reflexivity|].
  split.
  { constructor; [|constructor]. cbn. repeat split.
    eexists. repeat split. }
  pose proof (add_edge_In
                (add_node g (with_node (len g)
                               (word_kw (strip t) t (lang n) ROLE_DEFAULT)))
                (node n) (len g)) as [Hi Hn].
  split; [exact Hi|].
  intros m [<- | []]. exact Hn.
Qed.

(** X10: number and date verbalization only add words under the word
    they verbalize: the nodes that were there stay as they are, in their
    places; the new nodes are implicit word nodes in the language of the
    word, not interpreted, numbered on from the old nodes, with the
    stripped text with whitespace as their text; each of them is a child
    of the word, and no edge is lost. *)
Theorem verbalizers_add_children (L : Libs) (self : Processor)
        (g : Graph) (n : Node) :
  (forall g', _verbalize_number L self g n = Ok g' -> adds_children n g g')
  /\ (forall g', _verbalize_date L self g n = Ok g' -> adds_children n g g').
Proof.
  split; intros g'.
  - unfold _verbalize_number.
    assert (Hsame : forall g1, Ok g = Ok g1 -> adds_children n g g1).
    { intros g1 H. apply Ok_inj in H. subst. apply adds_children_refl. }
    destruct (word_of n) as [word|]; [|apply Hsame].
    destruct (number word) as [num|]; [|apply Hsame].
    destruct (negb _); [apply Hsame|].
    destruct (negb _); [apply Hsame|].
    destruct (negb _); [discriminate|].
    unfold bind at 1.
    destruct (if str_eqb (format word) NUMBER_DIGITS then dec_digits num
              else Ok [num]) as [nums|e]; [|discriminate].
    intros H.
    eapply (foldM_inv (fun g0 => adds_children n g g0));
      [|apply adds_children_refl|exact H].
    intros g0 d g1 Hg0 Hstep. cbv beta in Hstep. unfold bind in Hstep.
    destruct (to_num d) as [final_num|]; [|discriminate].
    destruct (num2words L final_num _); [|discriminate].
    apply Ok_inj in Hstep. subst.
    eapply adds_children_trans; [exact Hg0 | apply add_words_children].
  - unfold _verbalize_date, bind.
    pass_cases; first [apply adds_children_refl | apply add_words_children].
Qed.

(** X8: no pass of the pipeline changes the text or the text with
    whitespace of a node that is in the tree, and none removes a node: the
    tree after the passes has the nodes it had, with the same texts, and
    the nodes the passes added after them. *)
Theorem pipeline_keeps_texts (L : Libs) (self : Processor)
        (pos_flag phonemize post_process : bool) (g : Graph) (r : nat)
        (g' : Graph) :
  numbered g = true ->
  post_process = false \/ no_post_processor L self ->
  run_pipeline L self pos_flag phonemize post_process g r = Ok g' ->
  numbered g' = true
  /\ exists more,
      map texts_of (nodes g') = map texts_of (nodes g) ++ more.
Proof.
  intros Hnum Hpp. change (run_pipeline L self pos_flag phonemize
                             post_process g r = Ok g' -> keeps_texts g g').
  unfold run_pipeline.
  assert (Hsplit : forall f a b,
             keeps_texts g a -> pipeline_split f a r = Ok b ->
             keeps_texts g b).
  { intros f a b Ha H. eapply keeps_texts_trans; [exact Ha|].
    eapply pipeline_split_keeps; [apply Ha | exact H]. }
  assert (Htrans : forall f a b,
             (forall g0 i n g1, numbered g0 = true ->
                                get_node g0 i = Some n ->
                                f g0 n = Ok g1 -> keeps_texts g0 g1) ->
             keeps_texts g a -> pipeline_transform f a r = Ok b ->
             keeps_texts g b).
  { intros f a b Hf Ha H. eapply keeps_texts_trans; [exact Ha|].
    eapply (pipeline_transform_keeps keeps_texts);
      [apply keeps_texts_refl | apply keeps_texts_trans
       | intros x y Hxy; apply Hxy | exact Hf | apply Ha | exact H]. }
  assert (Hbreak : forall a b,
             keeps_texts g a -> _break_sentences a r = Ok b ->
             keeps_texts g b).
  { intros a b Ha H. eapply keeps_texts_trans; [exact Ha|].
    eapply break_sentences_keeps; [apply Ha | exact H]. }
  assert (Henrich : forall a b,
             keeps_texts g a ->
             enrich L self pos_flag phonemize a r = Ok b ->
             keeps_texts g b).
  { intros a b Ha H. eapply keeps_texts_trans; [exact Ha|].
    apply same_shape_keeps.
    eapply enrich_same_shape; [apply Ha | exact H]. }
  pose proof (keeps_texts_refl g Hnum) as H0.
  repeat
    (unfold bind at 1;
     match goal with
     | |- match ?x with Ok _ => _ | Raise _ => _ end = _ -> _ =>
         let g1 := fresh "g" in
         let H1 := fresh "Hstep" in
         destruct x as [g1|] eqn:H1; [|discriminate];
         first
           [ apply Hsplit in H1; [|assumption]
           | apply Hbreak in H1; [|assumption]
           | apply Htrans in H1;
             [| intros g0' i' n' g1' N0 G0 F0;
                first
                  [ apply same_shape_keeps;
                    first [ eapply transform_number_same_shape; eassumption
                          | eapply transform_currency_same_shape;
                            eassumption
                          | eapply transform_date_same_shape; eassumption ]
                  | eapply verbalize_number_keeps; eassumption
                  | eapply verbalize_currency_keeps; eassumption
                  | eapply verbalize_date_keeps; eassumption ]
              | assumption ]
           | apply Henrich in H1; [|assumption] ]
     end).
  destruct post_process.
  - destruct Hpp as [Hpp | Hpp]; [discriminate|].
    intros H. apply (post_process_sentences_typed L self _ _ _ Hpp) in H.
    subst. assumption.
  - intros H. apply Ok_inj in H. subst. assumption.
Qed.

(** X9: the transformation passes, the part-of-speech tagger and the
    phonemizer add no node and no edge, and change no text: after them the
    tree has the same edges and, node by node, the same text and text with
    whitespace. *)
Theorem transforms_add_nothing (L : Libs) (self : Processor)
        (pos_flag phonemize : bool) (g : Graph) (r : nat) :
  numbered g = true ->
  (forall g', pipeline_transform (_transform_number L self) g r = Ok g' ->
              same_shape g g')
  /\ (forall g', pipeline_transform (_transform_currency L self) g r = Ok g' ->
                 same_shape g g')
  /\ (forall g', pipeline_transform (_transform_date L self) g r = Ok g' ->
                 same_shape g g')
  /\ (forall g', enrich L self pos_flag phonemize g r = Ok g' ->
                 same_shape g g').
Proof.
  intros Hnum.
  assert (Hpass : forall f g',
             (forall g0 i n g1, numbered g0 = true ->
                                get_node g0 i = Some n ->
                                f g0 n = Ok g1 -> same_shape g0 g1) ->
             pipeline_transform f g r = Ok g' -> same_shape g g').
  { intros f g' Hf H.
    eapply (pipeline_transform_keeps same_shape);
      [apply same_shape_refl | apply same_shape_trans
       | intros x y Hxy; apply Hxy | exact Hf | exact Hnum | exact H]. }
  split; [|split; [|split]]; intros g' H.
  - apply (Hpass _ _ (transform_number_same_shape L self) H).
  - apply (Hpass _ _ (transform_currency_same_shape L self) H).
  - apply (Hpass _ _ (transform_date_same_shape L self) H).
  - eapply enrich_same_shape; [exact Hnum | exact H].
Qed.

Lemma break_sentence_at_same (g : Graph) (leaf : Node) (g' : Graph) :
  (forall s, In s (nodes g) -> isSentenceNode s = true ->
             implicit s = false) ->
  break_sentence_at g leaf = Ok g' -> g' = g.
Proof.
  intros Hex. unfold break_sentence_at.
  destruct (data leaf) as [| | |w|bt t tws|tm|t tws|];
    try (intros H; apply Ok_inj in H; auto).
  destruct bt; [|intros H; apply Ok_inj in H; auto].
  destruct (path_to_sentence (S (len g)) g (node leaf)) as [s_path|] eqn:Hp;
    [|discriminate].
  destruct (path_to_sentence_nodes _ _ _ _ Hp) as [Hin Hsent].
  destruct (rev s_path) as [|s_node [|below rest]] eqn:Hr;
    try discriminate.
  assert (Hs : In s_node (nodes g)).
  { destruct (Hin s_node) as [k Hk].
    - apply in_rev. rewrite Hr. left. reflexivity.
    - eapply get_node_In. exact Hk. }
  rewrite (Hex s_node Hs (Hsent _ _ eq_refl)). cbn [negb].
  intros H. apply Ok_inj in H. auto.
Qed.

(** X11: explicit sentences are never broken: in a tree whose sentence
    nodes are all explicit, the sentence breaker changes nothing. *)
Theorem explicit_sentences_are_kept (g : Graph) (r : nat) (g' : Graph) :
  (forall s, In s (nodes g) -> isSentenceNode s = true ->
             implicit s = false) ->
  _break_sentences g r = Ok g' -> g' = g.
Proof.
  intros Hex H. unfold _break_sentences in H.
  eapply (foldM_inv (fun g0 => g0 = g)); [|reflexivity|exact H].
  intros g0 leaf g1 -> Hstep. cbv beta in Hstep.
  destruct (get_node g leaf) as [n|]; [|apply Ok_inj in Hstep; auto].
  eapply break_sentence_at_same; [exact Hex | exact Hstep].
Qed.

(** X12: the sentence breaker removes and changes no node: it only adds
    sentence nodes after the nodes of the tree, and these are implicit and
    have no element and no language. *)
Theorem break_sentences_adds_sentences (g : Graph) (r : nat) (g' : Graph) :
  _break_sentences g r = Ok g' ->
  exists news,
    nodes g' = nodes g ++ news
    /\ Forall (fun n => data n = SentenceNode /\ implicit n = true
                        /\ element n = None /\ lang n = []) news.
Proof.
  intros H. unfold _break_sentences in H.
  eapply (foldM_inv
            (fun g0 =>
               exists news,
                 nodes g0 = nodes g ++ news
                 /\ Forall (fun n => data n = SentenceNode
                                     /\ implicit n = true
                                     /\ element n = None /\ lang n = [])
                           news));
    [| exists []; rewrite app_nil_r; split; [reflexivity | constructor]
     | exact H].
  intros g0 leaf g1 [news [Hn Hf]] Hstep. cbv beta in Hstep.
  destruct (get_node g0 leaf) as [n|];
    [|apply Ok_inj in Hstep; subst; exists news; split; assumption].
  apply break_sentence_at_nodes in Hstep. destruct Hstep as [E | E].
  - exists news. rewrite E. split; assumption.
  - exists (news ++ [new_sentence g0]). rewrite E, Hn, app_assoc.
    split; [reflexivity|]. apply Forall_app. split; [exact Hf|].
    constructor; [|constructor]. repeat split.
Qed.

(** ** Words that are broken apart *)

Lemma with_outer_ws_concat {A} (st : TextProcessorSettings) (fw lw : str)
      (f : A -> str) (parts : list A) (k last : nat) :
  keep_whitespace st = true -> parts <> [] ->
  last = k + length parts - 1 ->
  concat (map (fun ip : nat * A =>
                 with_outer_ws st fw lw last (fst ip) (f (snd ip)))
              (enumerate_from k parts))
  = (if k =? 0 then fw else []) ++ join (join_str st) (map f parts) ++ lw.
Proof.
  intros Hk. revert k. induction parts as [|p parts IH]; intros k Hne Hl;
    [congruence|].
  destruct parts as [|q parts].
  - cbn [enumerate_from map concat join fst snd length] in *.
    unfold with_outer_ws. rewrite Hk.
    replace (k =? last) with true by (symmetry; apply Nat.eqb_eq; lia).
    rewrite app_nil_r. destruct (k =? 0); rewrite <- ?app_assoc; reflexivity.
  - change (enumerate_from k (p :: q :: parts))
      with ((k, p) :: enumerate_from (S k) (q :: parts)).
    cbn [map concat fst snd]. rewrite (IH (S k)); [|discriminate|].
    + cbn [Nat.eqb app]. unfold with_outer_ws. rewrite Hk.
      replace (k =? last) with false
        by (symmetry; apply Nat.eqb_neq; cbn [length] in Hl; lia).
      change (map f (p :: q :: parts)) with (f p :: map f (q :: parts)).
      cbn [join map]. destruct (k =? 0); rewrite <- ?app_assoc; reflexivity.
    + cbn [length] in *. lia.
Qed.

(** X13: what [_break_words] makes of a word.  Only an implicit word
    without interpretation is broken, and only where the pattern of word
    breaks splits its text in two parts or more.  Each part becomes an
    implicit word in the language of the word; with whitespace kept, the
    texts with whitespace of the new words, one after the other, are the
    parts joined by the join string, between the whitespace the word began
    and ended with: the break characters themselves are not kept. *)
Theorem break_words_rejoins (L : Libs) (self : Processor) (g : Graph)
        (n : Node) (w : WordData) (news : list Node) :
  word_of n = Some w ->
  _break_words L self g n = Ok news -> news <> [] ->
  interpret_as w = [] /\ implicit n = true
  /\ exists pat,
      word_breaks_pattern (get_settings L self (lang n)) = Some pat
      /\ length news = length (re_split pat (text w) 0)
      /\ 2 <= length news
      /\ Forall (fun m => lang m = lang n /\ implicit m = true) news
      /\ (keep_whitespace (get_settings L self (lang n)) = true ->
          concat (map word_text_with_ws news)
          = fst (get_whitespace (get_settings L self (lang n))
                                (text_with_ws w))
            ++ join (join_str (get_settings L self (lang n)))
                    (map part_str (re_split pat (text w) 0))
            ++ snd (get_whitespace (get_settings L self (lang n))
                                   (text_with_ws w)))
      /\ (keep_whitespace (get_settings L self (lang n)) = false ->
          map word_text_with_ws news
          = map part_str (re_split pat (text w) 0)).
Proof.
  intros Hw. unfold _break_words. rewrite Hw.
  destruct (interpret_as w) as [|c ia] eqn:Hia; cbn [nonempty];
    [|intros H; apply Ok_inj in H; congruence].
  destruct (implicit n) eqn:Hi; cbn [negb];
    [|intros H; apply Ok_inj in H; congruence].
  set (st := get_settings L self (lang n)).
  destruct (word_breaks_pattern st) as [pat|] eqn:Hp;
    [|intros H; apply Ok_inj in H; congruence].
  unfold bind. destruct (in_lexicon st (text w)) as [known|e];
    [|discriminate].
  destruct known; [intros H; apply Ok_inj in H; congruence|].
  destruct (length (re_split pat (text w) 0) <? 2) eqn:Hlen;
    [intros H; apply Ok_inj in H; congruence|].
  apply Nat.ltb_ge in Hlen.
  destruct (get_whitespace st (text_with_ws w)) as [first_ws last_ws] eqn:Ews.
  intros H Hne. apply Ok_inj in H. subst news.
  split; [reflexivity|]. split; [reflexivity|]. exists pat.
  split; [reflexivity|].
  assert (Hl : forall {A B} (f : nat * A -> B) (l : list A) k,
             length (map f (enumerate_from k l)) = length l).
  { intros A B f l. induction l as [|x l IH]; intros k; [reflexivity|].
    cbn. f_equal. apply IH. }
  unfold enumerate. rewrite Hl. split; [reflexivity|]. split; [exact Hlen|].
  split.
  { apply Forall_map_all. intros ip. split; reflexivity. }
  rewrite map_map. cbn [fst snd]. split; intros Hk.
  - change (fun x : nat * option str =>
              word_text_with_ws
                (word_kw
                   (strip (with_outer_ws st first_ws last_ws
                             (length (re_split pat (text w) 0) - 1)
                             (fst x) (part_str (snd x))))
                   (with_outer_ws st first_ws last_ws
                      (length (re_split pat (text w) 0) - 1)
                      (fst x) (part_str (snd x)))
                   (lang n) ROLE_DEFAULT))
      with (fun x : nat * option str =>
              with_outer_ws st first_ws last_ws
                (length (re_split pat (text w) 0) - 1)
                (fst x) (part_str (snd x))).
    rewrite (with_outer_ws_concat st first_ws last_ws part_str); try assumption.
    + reflexivity.
    + intros E. rewrite E in Hlen. cbn in Hlen. lia.
    + reflexivity.
  - assert (He : forall (l : list (option str)) k,
               map (fun x : nat * option str =>
                      word_text_with_ws
                        (word_kw
                           (strip (with_outer_ws st first_ws last_ws
                                     (length (re_split pat (text w) 0) - 1)
                                     (fst x) (part_str (snd x))))
                           (with_outer_ws st first_ws last_ws
                              (length (re_split pat (text w) 0) - 1)
                              (fst x) (part_str (snd x)))
                           (lang n) ROLE_DEFAULT))
                   (enumerate_from k l)
               = map part_str l).
    { induction l as [|x l IH]; intros k; [reflexivity|].
      cbn [enumerate_from map]. rewrite IH. f_equal.
      unfold word_text_with_ws, word_kw, with_outer_ws. cbn.
      rewrite Hk. reflexivity. }
    apply He.
Qed.

(** ** The words of the tokenizer *)

Lemma drop_while_nil_all (p : ascii -> bool) (s : str) :
  drop_while p s = [] -> forallb p s = true.
Proof.
  induction s as [|c s IH]; [reflexivity|].
  cbn. destruct (p c); [exact IH | discriminate].
Qed.

Lemma length_drop_while (p : ascii -> bool) (s : str) :
  length (drop_while p s) <= length s.
Proof.
  induction s as [|c s IH]; [apply Nat.le_refl|].
  cbn. destruct (p c); cbn; lia.
Qed.

Lemma drop_while_head (p : ascii -> bool) (s r : str) (c : ascii) :
  drop_while p s = c :: r -> p c = false.
Proof.
  induction s as [|x s IH]; [discriminate|].
  cbn. destruct (p x) eqn:E; [exact IH|].
  intros H. injection H as <- _. exact E.
Qed.

Lemma drop_while_pad (p : ascii -> bool) (a s : str) :
  forallb p a = true -> drop_while p (a ++ s) = drop_while p s.
Proof.
  induction a as [|c a IH]; [reflexivity|].
  cbn. destruct (p c); [exact IH | discriminate].
Qed.

(** Stripping a text without whitespace at its ends, between two runs of
    whitespace, gives the text. *)
Lemma strip_pad (a p b : str) :
  forallb is_space a = true -> forallb is_space b = true ->
  p <> [] -> forallb (fun c => negb (is_space c)) p = true ->
  strip (a ++ p ++ b) = p.
Proof.
  intros Ha Hb Hne Hp. unfold strip, lstrip, rstrip.
  rewrite (drop_while_pad is_space a) by exact Ha.
  assert (Hfirst : forall q r, q <> [] ->
             forallb (fun c => negb (is_space c)) q = true ->
             drop_while is_space (q ++ r) = q ++ r).
  { intros [|c q] r Hq Hall; [congruence|]. cbn in *.
    apply andb_true_iff in Hall. destruct Hall as [Hc _].
    apply negb_true_iff in Hc. rewrite Hc. reflexivity. }
  rewrite (Hfirst p b Hne Hp), rev_app_distr.
  rewrite (drop_while_pad is_space (rev b))
    by (rewrite forallb_rev; exact Hb).
  rewrite <- (app_nil_r (rev p)).
  rewrite Hfirst; [rewrite app_nil_r; apply rev_involutive| |].
  - intros E. apply (f_equal (@rev ascii)) in E.
    rewrite rev_involutive in E. cbn in E. congruence.
  - rewrite forallb_rev. exact Hp.
Qed.

(** The groups the tokenizer keeps: a part that is not empty and holds no
    whitespace, and a separator that is whitespace. *)
Lemma kept_groups_are_words (fuel : nat) (s : str) :
  length s < fuel ->
  Forall (fun grp : option str * option str =>
            exists p,
              fst grp = Some p /\ p <> []
              /\ forallb (fun c => negb (is_space c)) p = true
              /\ forallb is_space (part_str (snd grp)) = true)
         (filter (fun grp => truthy (fst grp)) (grouper (ws_split fuel s))).
Proof.
  revert s. induction fuel as [|fuel IH]; intros s Hlen; [lia|].
  assert (Hlast : forall s0 : str,
             drop_while (fun c => negb (is_space c)) s0 = [] ->
             Forall (fun grp : option str * option str =>
                       exists p,
                         fst grp = Some p /\ p <> []
                         /\ forallb (fun c => negb (is_space c)) p = true
                         /\ forallb is_space (part_str (snd grp)) = true)
                    (filter (fun grp => truthy (fst grp))
                            (grouper [Some s0]))).
  { intros [|c s0] Hd; cbn; constructor; [|constructor].
    exists (c :: s0). repeat split; [discriminate|].
    apply drop_while_nil_all. exact Hd. }
  rewrite ws_split_S.
  destruct (drop_while (fun c => negb (is_space c)) s) as [|c rest] eqn:Ed;
    [apply Hlast; exact Ed|].
  cbn [grouper filter fst].
  assert (Hrec : Forall
                   (fun grp : option str * option str =>
                      exists p,
                        fst grp = Some p /\ p <> []
                        /\ forallb (fun c0 => negb (is_space c0)) p = true
                        /\ forallb is_space (part_str (snd grp)) = true)
                   (filter (fun grp => truthy (fst grp))
                           (grouper (ws_split fuel
                                       (drop_while is_space (c :: rest)))))).
  { apply IH.
    pose proof (length_drop_while (fun c0 => negb (is_space c0)) s) as H1.
    rewrite Ed in H1.
    pose proof (drop_while_head _ _ _ _ Ed) as Hc.
    apply negb_false_iff in Hc. cbn [drop_while]. rewrite Hc.
    pose proof (length_drop_while is_space rest) as H2.
    cbn [length] in H1. lia. }
  destruct (take_while (fun c0 => negb (is_space c0)) s) as [|x xs] eqn:Et;
    cbn [truthy]; [exact Hrec|].
  constructor; [|exact Hrec].
  exists (x :: xs). cbn [fst snd part_str].
  split; [reflexivity|]. split; [discriminate|].
  split; [rewrite <- Et; apply take_while_all | apply take_while_all].
Qed.

(** The leading part the default [get_whitespace] gives is whitespace. *)
Lemma get_whitespace_leading (s : str) :
  forallb is_space (fst (Utils.get_whitespace s)) = true.
Proof.
  unfold Utils.get_whitespace.
  destruct (nonempty _ && forallb _ _); cbn [fst];
    [apply take_while_all | reflexivity].
Qed.

(** X14: the words of the tokenizer.  With the default split pattern every
    word [_pipeline_tokenize] makes has a text that is not empty and holds
    no whitespace; with whitespace kept, the text is the text with
    whitespace without its outer whitespace. *)
Theorem tokens_are_words (L : Libs) (self : Processor) (g : Graph)
        (parent : Node) (txt : str) (sc : Scope) :
  split_pattern (get_settings L self (sc_lang sc)) = DEFAULT_SPLIT_PATTERN ->
  (keep_whitespace (get_settings L self (sc_lang sc)) = true ->
   forall s, get_whitespace (get_settings L self (sc_lang sc)) s
             = Utils.get_whitespace s) ->
  Forall (fun n =>
            exists w,
              data n = WordNode w /\ text w <> []
              /\ forallb (fun c => negb (is_space c)) (text w) = true
              /\ text w = strip (text_with_ws w))
         (created g (_pipeline_tokenize L self g parent txt sc)).
Proof.
  intros Hp Hw. unfold _pipeline_tokenize.
  set (st := get_settings L self (sc_lang sc)) in *.
  set (txt' := match pre_process_text st with
               | Some f => f txt
               | None => txt
               end).
  assert (Hgroups : Forall
            (fun ig : nat * (option str * option str) =>
               exists p,
                 strip (tokenize_word_text st (fst (get_whitespace st txt'))
                                           ig) = p
                 /\ p <> []
                 /\ forallb (fun c => negb (is_space c)) p = true)
            (enumerate (tokenize_groups st txt'))).
  { unfold tokenize_groups. rewrite Hp. unfold re_split.
    rewrite split_loop_whitespace.
    pose proof (kept_groups_are_words (2 * length txt' + 2) txt'
                  ltac:(lia)) as Hk.
    rewrite Forall_forall in Hk. apply Forall_forall.
    intros [i [part sep]] Hin.
    apply enumerate_from_In in Hin. destruct Hin as [j [_ Hj]].
    apply nth_error_In in Hj.
    destruct (Hk _ Hj) as [p (Ep & Hne & Hnw & Hsep)].
    cbn [fst snd] in Ep, Hsep. subst part.
    exists p. split; [|split; assumption].
    unfold tokenize_word_text. cbn [part_str].
    destruct (keep_whitespace st) eqn:Ek.
    - rewrite (Hw eq_refl).
      destruct (i =? 0).
      + rewrite <- app_assoc.
        apply strip_pad; try assumption. apply get_whitespace_leading.
      + apply (strip_pad [] p); try assumption. reflexivity.
    - rewrite <- (app_nil_r p) at 1.
      apply (strip_pad [] p []); try assumption; reflexivity. }
  revert Hgroups. generalize (enumerate (tokenize_groups st txt')).
  intros l Hl.
  assert (G : forall g1,
             len g <= len g1 ->
             Forall (fun n =>
                       exists w,
                         data n = WordNode w /\ text w <> []
                         /\ forallb (fun c => negb (is_space c)) (text w)
                            = true
                         /\ text w = strip (text_with_ws w))
                    (created g g1) ->
             let g2 :=
               fold_left
                 (fun g' ig =>
                    add_edge
                      (add_node g'
                         (scoped_node (len g') None true sc
                            (scoped_word sc
                               (strip (tokenize_word_text st
                                         (fst (get_whitespace st txt')) ig))
                               (tokenize_word_text st
                                  (fst (get_whitespace st txt')) ig))))
                      (node parent)
                      (node
                         (scoped_node (len g') None true sc
                            (scoped_word sc
                               (strip (tokenize_word_text st
                                         (fst (get_whitespace st txt')) ig))
                               (tokenize_word_text st
                                  (fst (get_whitespace st txt')) ig)))))
                 l g1 in
             Forall (fun n =>
                       exists w,
                         data n = WordNode w /\ text w <> []
                         /\ forallb (fun c => negb (is_space c)) (text w)
                            = true
                         /\ text w = strip (text_with_ws w))
                    (created g g2)).
  { induction Hl as [|ig l Hig Hl IH]; intros g1 Hle Hc; [exact Hc|].
    cbn [fold_left]. apply IH.
    - unfold len in *. cbn [nodes add_edge add_node].
      rewrite length_app. lia.
    - unfold created, len in *. cbn [nodes add_edge add_node].
      rewrite skipn_app.
      replace (length (nodes g) - length (nodes g1)) with 0 by lia.
      apply Forall_app. split; [exact Hc|].
      constructor; [|constructor].
      destruct Hig as [p (Ep & Hne & Hnw)].
      eexists. split; [reflexivity|].
      cbn [text text_with_ws]. rewrite Ep.
      split; [exact Hne|]. split; [exact Hnw | reflexivity]. }
  apply G; [apply Nat.le_refl|].
  unfold created, len. rewrite skipn_all. constructor.
Qed.

(** ** Locales and the settings of a language *)

Lemma lower_chr_underscore (c : ascii) :
  chr_eqb (lower_chr c) "_"%char = chr_eqb c "_"%char.
Proof.
  destruct c as [[] [] [] [] [] [] [] []]; vm_compute; reflexivity.
Qed.

Lemma before_chr_app (c : ascii) (x y : str) :
  contains c x = false -> before_chr c (x ++ c :: y) = x.
Proof.
  unfold before_chr, contains.
  induction x as [|a x IH]; cbn [app take_while existsb]; intros H.
  - assert (E : chr_eqb c c = true) by apply Ascii.eqb_refl.
    rewrite E. reflexivity.
  - apply orb_false_iff in H. destruct H as [Ha Hx].
    assert (E : chr_eqb a c = false).
    { unfold chr_eqb in *. rewrite Ascii.eqb_sym. exact Ha. }
    rewrite E. cbn [negb]. rewrite (IH Hx). reflexivity.
Qed.

Lemma before_underscore_lower (x z : str) :
  before_chr "_"%char (lower x ++ "_"%char :: z)
  = lower (before_chr "_"%char x).
Proof.
  unfold before_chr, lower.
  induction x as [|a x IH]; cbn [map app take_while].
  - assert (E : chr_eqb "_"%char "_"%char = true) by reflexivity.
    rewrite E. reflexivity.
  - rewrite lower_chr_underscore.
    destruct (chr_eqb a "_"%char); cbn [negb map]; [reflexivity|].
    rewrite IH. reflexivity.
Qed.

(** X15: the locales [__post_init__] derives.  With no locale given, the
    number language is the locale; a language without a dash is its own
    locale; a language [x-y] gets the locale [lower x _ upper y], and the
    date language is the lower-cased [x] up to its first underscore. *)
Theorem locale_defaults (L : Libs) (a : TextProcessorSettingsArgs) :
  a_babel_locale a = None -> a_num2words_lang a = None ->
  a_dateparser_lang a = None ->
  num2words_lang (post_init L a) = babel_locale (post_init L a)
  /\ (contains "-"%char (a_lang a) = false ->
      babel_locale (post_init L a) = a_lang a
      /\ dateparser_lang (post_init L a) = before_chr "_"%char (a_lang a))
  /\ (forall x y,
         a_lang a = x ++ "-"%char :: y -> contains "-"%char x = false ->
         babel_locale (post_init L a) = lower x ++ lit "_" ++ upper y
         /\ dateparser_lang (post_init L a)
            = lower (before_chr "_"%char x)).
Proof.
  intros Hb Hn Hd. unfold post_init.
  cbn [num2words_lang babel_locale dateparser_lang].
  rewrite Hb, Hn, Hd.
  split; [reflexivity|]. split.
  - intros Hc. rewrite Hc. split; reflexivity.
  - intros x y Hl Hx.
    assert (Hc : contains "-"%char (a_lang a) = true).
    { rewrite Hl. unfold contains. rewrite existsb_app. cbn [existsb].
      assert (E : chr_eqb "-"%char "-"%char = true) by reflexivity.
      rewrite E. rewrite orb_true_r. reflexivity. }
    rewrite Hc. cbv zeta. rewrite Hl, (before_chr_app _ _ _ Hx).
    replace (skipn (S (length x)) (x ++ "-"%char :: y)) with y.
    + cbn [join]. split; [reflexivity|].
      apply (before_underscore_lower x (upper y)).
    + change (x ++ "-"%char :: y) with (x ++ ["-"%char] ++ y).
      rewrite app_assoc.
      replace (S (length x)) with (length (x ++ ["-"%char]))
        by (rewrite length_app; cbn; lia).
      rewrite skipn_app, skipn_all, Nat.sub_diag. reflexivity.
Qed.

Lemma locale_defaults_witness :
  babel_locale (post_init libs (default_args (lit "en-us"))) = lit "en_US"
  /\ dateparser_lang (post_init libs (default_args (lit "en-us")))
     = lit "en".
Proof.
  exact (proj2 (proj2 (locale_defaults libs (default_args (lit "en-us"))
                         eq_refl eq_refl eq_refl))
               (lit "en") (lit "us") eq_refl eq_refl).
Defined.

Lemma settings_get_last (st : list (str * TextProcessorSettings)) (k : str)
      (v : TextProcessorSettings) :
  settings_get st k = None -> settings_get (st ++ [(k, v)]) k = Some v.
Proof.
  induction st as [|[k' v'] st IH]; cbn [settings_get app].
  - rewrite str_eqb_refl. reflexivity.
  - destruct (str_eqb k' k); [discriminate | exact IH].
Qed.

Lemma settings_get_more (st more : list (str * TextProcessorSettings))
      (k : str) (v : TextProcessorSettings) :
  settings_get st k = Some v -> settings_get (st ++ more) k = Some v.
Proof.
  induction st as [|[k' v'] st IH]; cbn [settings_get app]; [discriminate|].
  destruct (str_eqb k' k); [trivial | exact IH].
Qed.

(** X16: a processor has settings for its default language.  After
    [__init__], [get_settings] with no language gives the settings of the
    default language: the given ones if there are any, else the ones made
    from the keyword arguments; the given settings of every other language
    are returned as given. *)
Theorem default_language_settings (L : Libs) (dl : str)
        (st : list (str * TextProcessorSettings))
        (kwargs : str -> TextProcessorSettingsArgs) :
  get_settings L (init L dl st kwargs) []
  = get_settings L (init L dl st kwargs) dl
  /\ settings_get (settings (init L dl st kwargs)) dl
     = Some (get_settings L (init L dl st kwargs) dl)
  /\ (settings_get st dl = None ->
      get_settings L (init L dl st kwargs) dl = post_init L (kwargs dl))
  /\ (forall lg s,
         lg <> [] -> settings_get st lg = Some s ->
         get_settings L (init L dl st kwargs) lg = s).
Proof.
  assert (Hdl : match dl with [] => dl | _ => dl end = dl)
    by (destruct dl; reflexivity).
  assert (Hget : get_settings L (init L dl st kwargs) dl
                 = match settings_get st dl with
                   | Some s => s
                   | None => post_init L (kwargs dl)
                   end).
  { unfold get_settings, init. cbn [default_lang settings]. rewrite Hdl.
    destruct (settings_get st dl) as [s|] eqn:E.
    - rewrite E. reflexivity.
    - rewrite (settings_get_last _ _ _ E). reflexivity. }
  split; [|split; [|split]].
  - unfold get_settings. cbn [init default_lang]. rewrite Hdl. reflexivity.
  - rewrite Hget. unfold init. cbn [settings].
    destruct (settings_get st dl) as [s|] eqn:E; [exact E|].
    apply settings_get_last. exact E.
  - intros E. rewrite Hget, E. reflexivity.
  - intros lg s Hlg E. unfold get_settings, init.
    cbn [default_lang settings].
    destruct lg as [|c lg]; [congruence|].
    destruct (settings_get st dl).
    + rewrite E. reflexivity.
    + rewrite (settings_get_more _ _ _ _ E). reflexivity.
Qed.

(** ** The theorems on concrete documents *)

Lemma metadata_makes_no_node_witness :
  exists b',
    foldM (on_event libs (processor libs (default_args en_US)))
          (EvStart metadata_element false
             :: [EvStart (leaf_element "title" [] "x") true;
                 EvText (lit "x");
                 EvEnd (leaf_element "title" [] "x")]
             ++ [EvEnd metadata_element])
          (initial_build (processor libs (default_args en_US)))
    = Ok b'
    /\ graph b'
       = graph (initial_build (processor libs (default_args en_US)))
    /\ skip_elements b' = false.
Proof.
  apply metadata_makes_no_node.
  - reflexivity.
  - vm_compute. reflexivity.
  - intros e [H | [H | [H | []]]]; try discriminate.
    injection H as <-. vm_compute. reflexivity.
Defined.

Lemma voice_and_say_as_scopes_witness :
  exists b1,
    on_start (initial_build (processor libs (default_args en_US)))
             (leaf_element "voice" [(lit "name", lit "en")] "hi") false
    = Ok b1
    /\ map (fun n => (node n, voice n))
           (created (graph b1)
              (graph (on_text libs (processor libs (default_args en_US))
                              b1 (lit "hi you"))))
       = [(0, []); (1, lit "en"); (2, lit "en"); (3, lit "en");
          (4, lit "en")]
    /\ Forall (fun n => data n = SpeakNode \/ voice n = lit "en")
              (created (graph b1)
                 (graph (on_text libs (processor libs (default_args en_US))
                                 b1 (lit "hi you"))))
    /\ on_end (processor libs (default_args en_US)) b1
              (leaf_element "voice" [(lit "name", lit "en")] "hi")
       = initial_build (processor libs (default_args en_US)).
Proof.
  destruct (proj1 (voice_and_say_as_scopes
                     libs (processor libs (default_args en_US))
                     (initial_build (processor libs (default_args en_US)))
                     (leaf_element "voice" [(lit "name", lit "en")] "hi")
                     false (lit "hi you") eq_refl)
              ltac:(vm_compute; reflexivity) (lit "en")
              ltac:(vm_compute; reflexivity))
    as [b1 [Hstart [Hg [Hall Hend]]]].
  exists b1. split; [exact Hstart|].
  split; [|split; [exact Hall | exact Hend]].
  vm_compute in Hstart. injection Hstart as <-. vm_compute. reflexivity.
Defined.

Lemma lang_scope_witness :
  exists b1,
    on_start (initial_build (processor libs (default_args en_US)))
             (leaf_element "s" [(lit "lang", lit "de")] "hallo") false
    = Ok b1
    /\ current_lang b1 = lit "de"
    /\ lang_stack
         (on_end (processor libs (default_args en_US)) b1
                 (leaf_element "s" [(lit "lang", lit "de")] "hallo"))
       = []
    /\ current_lang
         (on_end (processor libs (default_args en_US)) b1
                 (leaf_element "s" [(lit "lang", lit "de")] "hallo"))
       = en_US.
Proof.
  apply (lang_scope (processor libs (default_args en_US))
                    (initial_build (processor libs (default_args en_US)))
                    (leaf_element "s" [(lit "lang", lit "de")] "hallo")
                    false (lit "de")).
  - reflexivity.
  - right. right. left. reflexivity.
  - vm_compute. reflexivity.
  - discriminate.
Defined.

Lemma pipeline_keeps_texts_witness :
  exists g',
    run_pipeline libs (processor libs major_breaks_args) false false false
                 parsed_graph 0 = Ok g'
    /\ length (nodes parsed_graph) < length (nodes g')
    /\ numbered g' = true
    /\ exists more,
        map texts_of (nodes g') = map texts_of (nodes parsed_graph) ++ more.
Proof.
  destruct (run_pipeline libs (processor libs major_breaks_args) false false
                         false parsed_graph 0) as [g'|e] eqn:E;
    [|vm_compute in E; discriminate].
  exists g'. split; [reflexivity|]. split.
  - vm_compute in E. injection E as <-. vm_compute. lia.
  - apply (pipeline_keeps_texts libs (processor libs major_breaks_args)
             false false false parsed_graph 0 g').
    + vm_compute. reflexivity.
    + left. reflexivity.
    + exact E.
Defined.

Lemma transforms_add_nothing_witness :
  exists g',
    pipeline_transform
      (_transform_number libs (processor libs major_breaks_args))
      parsed_graph 0 = Ok g'
    /\ g' <> parsed_graph
    /\ same_shape parsed_graph g'.
Proof.
  destruct (pipeline_transform
              (_transform_number libs (processor libs major_breaks_args))
              parsed_graph 0) as [g'|e] eqn:E;
    [|vm_compute in E; discriminate].
  exists g'. split; [reflexivity|]. split.
  - vm_compute in E. injection E as <-. vm_compute. discriminate.
  - apply (proj1 (transforms_add_nothing
                    libs (processor libs major_breaks_args) false false
                    parsed_graph 0 ltac:(vm_compute; reflexivity))).
    exact E.
Defined.

Lemma explicit_sentences_are_kept_witness :
  _break_sentences explicit_sentence_graph 0 = Ok explicit_sentence_graph.
Proof.
  destruct (_break_sentences explicit_sentence_graph 0) as [g'|e] eqn:E;
    [|vm_compute in E; discriminate].
  f_equal.
  apply (explicit_sentences_are_kept explicit_sentence_graph 0 g');
    [|exact E].
  intros s Hin.
  vm_compute in Hin.
  repeat (destruct Hin as [<- | Hin];
          [intros H; first [discriminate H | reflexivity]|]).
  destruct Hin.
Defined.

Lemma break_sentences_adds_sentences_witness :
  exists g' news,
    _break_sentences two_sentences_graph 0 = Ok g'
    /\ nodes g' = nodes two_sentences_graph ++ news
    /\ news <> []
    /\ Forall (fun n => data n = SentenceNode /\ implicit n = true
                        /\ element n = None /\ lang n = []) news.
Proof.
  destruct (_break_sentences two_sentences_graph 0) as [g'|e] eqn:E;
    [|vm_compute in E; discriminate].
  destruct (break_sentences_adds_sentences two_sentences_graph 0 g' E)
    as [news [Hn Hall]].
  exists g', news. split; [reflexivity|]. split; [exact Hn|].
  split; [|exact Hall].
  intros ->. rewrite app_nil_r in Hn.
  vm_compute in E. injection E as <-. vm_compute in Hn. discriminate.
Defined.

Lemma break_words_rejoins_witness :
  exists news,
    _break_words libs (processor libs word_breaks_args) ninety_nine_graph
                 ninety_nine_node = Ok news
    /\ length news = 2
    /\ concat (map word_text_with_ws news) = lit "ninety nine ".
Proof.
  destruct (_break_words libs (processor libs word_breaks_args)
                         ninety_nine_graph ninety_nine_node)
    as [news|e] eqn:E; [|vm_compute in E; discriminate].
  exists news. split; [reflexivity|].
  assert (Hne : news <> []).
  { intros ->. vm_compute in E. discriminate. }
  destruct (break_words_rejoins
              libs (processor libs word_breaks_args) ninety_nine_graph
              ninety_nine_node _ news eq_refl E Hne)
    as (_ & _ & pat & Hpat & Hlen & _ & _ & Hkeep & _).
  vm_compute in Hpat. injection Hpat as <-.
  split.
  - rewrite Hlen. vm_compute. reflexivity.
  - rewrite (Hkeep eq_refl). vm_compute. reflexivity.
Defined.

Lemma tokens_are_words_witness :
  Forall (fun n =>
            exists w,
              data n = WordNode w /\ text w <> []
              /\ forallb (fun c => negb (is_space c)) (text w) = true
              /\ text w = strip (text_with_ws w))
         (created (plain_base en_US (lit " a  b "))
                  (_pipeline_tokenize
                     libs (processor libs (default_args en_US))
                     (plain_base en_US (lit " a  b "))
                     (implicit_node 2 en_US SentenceNode) (lit " a  b ")
                     (plain_scope en_US))).
Proof.
  apply tokens_are_words.
  - reflexivity.
  - intros _ s. reflexivity.
Defined.

(** ** The tree of a document *)

Lemma tree_like_first (g : Graph) (n : Node) :
  tree_like g -> nodes g = [] -> node n = 0 -> tree_like (add_node g n).
Proof.
  intros (Hn & He & Hlt) Hg Hnode. unfold tree_like.
  split; [apply numbered_add_node; [exact Hn | unfold len; rewrite Hg; exact Hnode]|].
  unfold len in *. cbn [add_node nodes edges]. rewrite Hg in *. cbn in *.
  split; assumption.
Qed.

Lemma tree_like_grow (g : Graph) (n : Node) (p : nat) :
  tree_like g -> p < len g -> node n = len g ->
  tree_like (add_edge (add_node g n) p (node n)).
Proof.
  intros (Hn & He & Hlt) Hp Hnode. rewrite Hnode.
  assert (Hnew : has_edge (edges g) (p, len g) = false).
  { unfold has_edge. apply not_true_is_false. intros H.
    apply existsb_exists in H. destruct H as [[u v] [Hin Heq]].
    unfold edge_eqb in Heq. cbn in Heq.
    apply andb_true_iff in Heq. destruct Heq as [_ Hv].
    apply Nat.eqb_eq in Hv.
    assert (Hv' : In v (map snd (edges g)))
      by (apply in_map_iff; exists (u, v); split; [reflexivity | exact Hin]).
    rewrite He in Hv'. apply in_seq in Hv'. lia. }
  unfold tree_like, add_edge. cbn [nodes edges add_node].
  rewrite Hnew. split; [|split].
  - rewrite (numbered_nodes (add_node g n)) by reflexivity.
    apply numbered_add_node; assumption.
  - unfold len in *. cbn [nodes]. rewrite map_app, He, length_app.
    cbn [map snd length].
    replace (length (nodes g) + 1 - 1) with (S (length (nodes g) - 1))
      by lia.
    rewrite seq_S. f_equal. f_equal. lia.
  - apply Forall_app. split; [exact Hlt|].
    constructor; [cbn; exact Hp | constructor].
Qed.

Lemma known_grow (g g' : Graph) (o : option Node) :
  known g o -> len g <= len g' -> known g' o.
Proof. intros H Hle n Hn. specialize (H n Hn). lia. Qed.

Lemma len_add (g : Graph) (n : Node) (p c : nat) :
  len (add_edge (add_node g n) p c) = S (len g).
Proof.
  unfold len. cbn [nodes add_edge add_node]. rewrite length_app. cbn. lia.
Qed.

Lemma known_none (g : Graph) : known g None.
Proof. intros n H. discriminate. Qed.

Lemma known_new (g : Graph) (n : Node) :
  node n < len g -> known g (Some n).
Proof. intros H m Hm. injection Hm as <-. exact H. Qed.

Lemma ensure_speak_tree (b : Build) :
  tree_build b ->
  tree_build (ensure_speak b) /\ last_speak (ensure_speak b) <> None.
Proof.
  intros (Ht & Hroot & Hspeak & Ks & Kp & Kse & Kr). unfold ensure_speak.
  destruct (last_speak b) as [n|] eqn:E.
  - split; [|rewrite E; discriminate]. unfold tree_build. rewrite E. tauto.
  - split; [|cbn [last_speak]; discriminate].
    pose proof (Hroot (Hspeak eq_refl)) as Hempty.
    rewrite (Hspeak eq_refl).
    assert (Hlen : len (graph b) = 0) by (unfold len; rewrite Hempty; reflexivity).
    unfold tree_build.
    cbn [graph root last_speak last_paragraph last_sentence].
    assert (Hle : len (graph b) <= len (add_node (graph b)
              (with_node (len (graph b))
                 {| node := 0; element := None; voice := []; lang := [];
                    implicit := true; data := SpeakNode |}))).
    { unfold len. cbn [nodes add_node]. rewrite length_app. lia. }
    split; [apply tree_like_first; [exact Ht | exact Hempty | exact Hlen]|].
    split; [discriminate|]. split; [discriminate|].
    assert (Hk : known (add_node (graph b)
              (with_node (len (graph b))
                 {| node := 0; element := None; voice := []; lang := [];
                    implicit := true; data := SpeakNode |}))
              (Some (with_node (len (graph b))
                 {| node := 0; element := None; voice := []; lang := [];
                    implicit := true; data := SpeakNode |}))).
    { apply known_new. unfold len. cbn [nodes add_node with_node node].
      rewrite length_app. cbn. lia. }
    split; [exact Hk|].
    split; [eapply known_grow; eassumption|].
    split; [eapply known_grow; eassumption | exact Hk].
Qed.

Lemma ensure_paragraph_tree (impl : bool) (b : Build) :
  tree_build b -> last_speak b <> None ->
  tree_build (ensure_paragraph impl b)
  /\ last_speak (ensure_paragraph impl b) <> None
  /\ last_paragraph (ensure_paragraph impl b) <> None.
Proof.
  intros (Ht & Hroot & Hspeak & Ks & Kp & Kse & Kr) Hs.
  unfold ensure_paragraph.
  destruct (last_paragraph b) as [n|] eqn:E.
  - split; [|split; [exact Hs | congruence]].
    unfold tree_build. rewrite E. tauto.
  - assert (Hp : speak_number b < len (graph b)).
    { unfold speak_number. destruct (last_speak b) as [s|] eqn:Es;
        [apply Ks; reflexivity | congruence]. }
    unfold set_last_paragraph.
    cbn [graph root last_speak last_paragraph last_sentence].
    split; [|split; [exact Hs | discriminate]].
    unfold tree_build.
    cbn [graph root last_speak last_paragraph last_sentence].
    split; [apply tree_like_grow; [exact Ht | exact Hp | reflexivity]|].
    split.
    { intros Hr. specialize (Hroot Hr). unfold len in Hp.
      rewrite Hroot in Hp. cbn in Hp. lia. }
    split; [exact Hspeak|].
    split; [eapply known_grow; [exact Ks | rewrite len_add; lia]|].
    split; [apply known_new; rewrite len_add; cbn; lia|].
    split; eapply known_grow; try eassumption; rewrite len_add; lia.
Qed.

Lemma ensure_sentence_tree (b : Build) :
  tree_build b -> last_paragraph b <> None ->
  tree_build (ensure_sentence b)
  /\ last_sentence (ensure_sentence b) <> None.
Proof.
  intros (Ht & Hroot & Hspeak & Ks & Kp & Kse & Kr) Hs.
  unfold ensure_sentence.
  destruct (last_sentence b) as [n|] eqn:E.
  - split; [|congruence]. unfold tree_build. rewrite E. tauto.
  - assert (Hp : paragraph_number b < len (graph b)).
    { unfold paragraph_number. destruct (last_paragraph b) as [s|] eqn:Es;
        [apply Kp; reflexivity | congruence]. }
    unfold set_last_sentence.
    cbn [graph root last_speak last_paragraph last_sentence].
    split; [|discriminate].
    unfold tree_build.
    cbn [graph root last_speak last_paragraph last_sentence].
    split; [apply tree_like_grow; [exact Ht | exact Hp | reflexivity]|].
    split.
    { intros Hr. specialize (Hroot Hr). unfold len in Hp.
      rewrite Hroot in Hp. cbn in Hp. lia. }
    split; [exact Hspeak|].
    split; [eapply known_grow; [exact Ks | rewrite len_add; lia]|].
    split; [eapply known_grow; [exact Kp | rewrite len_add; lia]|].
    split; [apply known_new; rewrite len_add; cbn; lia|].
    eapply known_grow; [exact Kr | rewrite len_add; lia].
Qed.

Lemma push_lang_tree (b : Build) (t : str) (e : Element) :
  tree_build b -> tree_build (push_lang b t e).
Proof.
  intros H. unfold push_lang.
  destruct (attrib_no_namespace e (lit "lang")) as [[|c l]|]; exact H.
Qed.

Lemma push_lang_same (b : Build) (t : str) (e : Element) :
  graph (push_lang b t e) = graph b
  /\ root (push_lang b t e) = root b
  /\ last_speak (push_lang b t e) = last_speak b
  /\ last_paragraph (push_lang b t e) = last_paragraph b
  /\ last_sentence (push_lang b t e) = last_sentence b.
Proof.
  unfold push_lang.
  destruct (attrib_no_namespace e (lit "lang")) as [[|c l]|];
    repeat split; reflexivity.
Qed.

Lemma pipeline_tokenize_tree (L : Libs) (self : Processor) (g : Graph)
      (parent : Node) (txt : str) (sc : Scope) :
  tree_like g -> node parent < len g ->
  tree_like (_pipeline_tokenize L self g parent txt sc)
  /\ len g <= len (_pipeline_tokenize L self g parent txt sc).
Proof.
  intros Ht Hp. unfold _pipeline_tokenize.
  apply (fold_left_inv (fun g0 => tree_like g0 /\ len g <= len g0));
    [|split; [exact Ht | apply Nat.le_refl]].
  intros g0 ig [Ht0 Hle] _. split.
  - apply tree_like_grow; [exact Ht0 | lia | reflexivity].
  - rewrite len_add. lia.
Qed.

Lemma on_text_tree (L : Libs) (self : Processor) (b : Build) (t : str) :
  tree_build b -> tree_build (on_text L self b t).
Proof.
  intros H. unfold on_text. destruct (skip_elements b); [exact H|].
  destruct (ensure_speak_tree b H) as [H1 S1].
  destruct (ensure_paragraph_tree true _ H1 S1) as (H2 & S2 & P2).
  destruct (ensure_sentence_tree _ H2 P2) as (H3 & _).
  set (b1 := ensure_sentence (ensure_paragraph true (ensure_speak b))) in *.
  destruct (last_sentence b1) as [s_node|] eqn:Es; [|exact H3].
  destruct H3 as (Ht & Hroot & Hspeak & Ks & Kp & Kse & Kr).
  pose proof (Kse s_node Es) as Hs.
  assert (Hnon : nodes (graph b1) <> []).
  { intros E. unfold len in Hs. rewrite E in Hs. cbn in Hs. lia. }
  destruct (in_word b1).
  - unfold tree_build, set_graph.
    cbn [graph root last_speak last_paragraph last_sentence].
    split; [apply tree_like_grow; [exact Ht | exact Hs | reflexivity]|].
    split; [intros Hr; destruct (Hnon (Hroot Hr))|].
    split; [exact Hspeak|].
    rewrite Es.
    repeat split; eapply known_grow; try eassumption;
      try (rewrite <- Es; eassumption); rewrite len_add; lia.
  - destruct (pipeline_tokenize_tree
                L self (graph b1) s_node
                match last_alias b with Some a => a | None => t end
                (scope_kwargs b1 true) Ht Hs) as [Ht' Hle].
    unfold tree_build, set_graph.
    cbn [graph root last_speak last_paragraph last_sentence].
    split; [exact Ht'|].
    split; [intros Hr; destruct (Hnon (Hroot Hr))|].
    split; [exact Hspeak|].
    rewrite Es.
    repeat split; eapply known_grow; try eassumption;
      rewrite <- Es; eassumption.
Qed.

Lemma on_end_tree (self : Processor) (b : Build) (e : Element) :
  tree_build b -> tree_build (on_end self b e).
Proof.
  intros (Ht & Hroot & Hspeak & Ks & Kp & Kse & Kr). unfold on_end.
  destruct (tag_is _ "voice");
    [unfold tree_build; cbn; tauto|].
  destruct (tag_is _ "say-as");
    [unfold tree_build; cbn; tauto|].
  unfold tree_build.
  cbn [graph root last_speak last_paragraph last_sentence].
  split; [exact Ht|]. split; [exact Hroot|].
  split; [destruct (_ && tag_is _ "speak"); [trivial | exact Hspeak]|].
  split; [destruct (_ && tag_is _ "speak"); assumption|].
  split; [destruct (_ && tag_is _ "p"); [apply known_none | exact Kp]|].
  split; [destruct (_ && tag_is _ "s"); [apply known_none | exact Kse]|].
  exact Kr.
Qed.

Lemma on_start_tree (b : Build) (e : Element) (is_last : bool)
      (b' : Build) :
  tag_is (tag_no_namespace (e_tag e)) "speak" = false \/ root b = None ->
  tree_build b -> on_start b e is_last = Ok b' -> tree_build b'.
Proof.
  intros Hfirst H. unfold on_start.
  destruct (skip_elements b);
    [intros Hb; apply Ok_inj in Hb; subst; exact H|].
  destruct (tag_is _ "speak") eqn:Etag.
  { destruct Hfirst as [Hf | Hr]; [discriminate|].
    intros Hb. apply Ok_inj in Hb. subst.
    pose proof (push_lang_tree b (tag_no_namespace (e_tag e)) e H) as H1.
    destruct (push_lang_same b (tag_no_namespace (e_tag e)) e)
      as (Eg & Er & _).
    set (b1 := push_lang b (tag_no_namespace (e_tag e)) e) in *.
    destruct H1 as (Ht & Hroot & Hspeak & Ks & Kp & Kse & Kr).
    rewrite Er, Hr.
    assert (Hempty : nodes (graph b1) = [])
      by (apply Hroot; rewrite Er; exact Hr).
    assert (Hlen : len (graph b1) = 0)
      by (unfold len; rewrite Hempty; reflexivity).
    unfold tree_build.
    cbn [graph root last_speak last_paragraph last_sentence].
    split; [apply tree_like_first; [exact Ht | exact Hempty | exact Hlen]|].
    split; [discriminate|]. split; [discriminate|].
    assert (Hle : len (graph b1)
                  <= len (add_node (graph b1)
                            (scoped_node (len (graph b1)) (Some e) false
                               (scope_kwargs b1 false) SpeakNode))).
    { unfold len. cbn [nodes add_node]. rewrite length_app. lia. }
    assert (Hk : known (add_node (graph b1)
                          (scoped_node (len (graph b1)) (Some e) false
                             (scope_kwargs b1 false) SpeakNode))
                       (Some (scoped_node (len (graph b1)) (Some e) false
                                (scope_kwargs b1 false) SpeakNode))).
    { apply known_new. unfold len.
      cbn [nodes add_node scoped_node node]. rewrite length_app. cbn. lia. }
    split; [exact Hk|].
    split; [eapply known_grow; eassumption|].
    split; [eapply known_grow; eassumption | exact Hk]. }
  clear Hfirst.
  destruct (tag_is _ "voice");
    [intros Hb; apply Ok_inj in Hb; subst; exact H|].
  destruct (tag_is _ "p").
  { intros Hb. apply Ok_inj in Hb. subst.
    destruct (ensure_speak_tree b H) as [H1 S1].
    pose proof (push_lang_tree _ (tag_no_namespace (e_tag e)) e H1) as H2.
    destruct (push_lang_same (ensure_speak b) (tag_no_namespace (e_tag e)) e)
      as (_ & _ & Es & _).
    set (b1 := push_lang (ensure_speak b) (tag_no_namespace (e_tag e)) e)
      in *.
    destruct H2 as (Ht & Hroot & Hspeak & Ks & Kp & Kse & Kr).
    assert (Hp : speak_number b1 < len (graph b1)).
    { unfold speak_number. destruct (last_speak b1) as [s|] eqn:E;
        [apply Ks; reflexivity | congruence]. }
    unfold tree_build, set_last_paragraph.
    cbn [graph root last_speak last_paragraph last_sentence].
    split; [apply tree_like_grow; [exact Ht | exact Hp | reflexivity]|].
    split.
    { intros Hr. specialize (Hroot Hr). unfold len in Hp.
      rewrite Hroot in Hp. cbn in Hp. lia. }
    split; [exact Hspeak|].
    split; [eapply known_grow; [exact Ks | rewrite len_add; lia]|].
    split; [apply known_new; rewrite len_add; cbn; lia|].
    split; eapply known_grow; try eassumption; rewrite len_add; lia. }
  destruct (tag_is _ "s").
  { intros Hb. apply Ok_inj in Hb. subst.
    destruct (ensure_speak_tree b H) as [H1 S1].
    destruct (ensure_paragraph_tree false _ H1 S1) as (H2 & S2 & P2).
    pose proof (push_lang_tree _ (tag_no_namespace (e_tag e)) e H2) as H3.
    destruct (push_lang_same (ensure_paragraph false (ensure_speak b))
                             (tag_no_namespace (e_tag e)) e)
      as (_ & _ & _ & Ep & _).
    set (b1 := push_lang (ensure_paragraph false (ensure_speak b))
                         (tag_no_namespace (e_tag e)) e) in *.
    destruct H3 as (Ht & Hroot & Hspeak & Ks & Kp & Kse & Kr).
    assert (Hp : paragraph_number b1 < len (graph b1)).
    { unfold paragraph_number. destruct (last_paragraph b1) as [s|] eqn:E;
        [apply Kp; reflexivity | congruence]. }
    unfold tree_build, set_last_sentence.
    cbn [graph root last_speak last_paragraph last_sentence].
    split; [apply tree_like_grow; [exact Ht | exact Hp | reflexivity]|].
    split.
    { intros Hr. specialize (Hroot Hr). unfold len in Hp.
      rewrite Hroot in Hp. cbn in Hp. lia. }
    split; [exact Hspeak|].
    split; [eapply known_grow; [exact Ks | rewrite len_add; lia]|].
    split; [eapply known_grow; [exact Kp | rewrite len_add; lia]|].
    split; [apply known_new; rewrite len_add; cbn; lia|].
    eapply known_grow; [exact Kr | rewrite len_add; lia]. }
  destruct (_ || _).
  { intros Hb. apply Ok_inj in Hb. subst.
    pose proof (push_lang_tree b (tag_no_namespace (e_tag e)) e H) as H1.
    exact H1. }
  destruct (tag_is _ "break").
  { destruct H as (Ht & Hroot & Hspeak & Ks & Kp & Kse & Kr).
    destruct (match last_sentence b with
              | Some n => Some n
              | None => match last_paragraph b with
                        | Some n => Some n
                        | None => last_speak b
                        end
              end) as [t|] eqn:Et; [|discriminate].
    assert (Hp : node t < len (graph b)).
    { destruct (last_sentence b) as [s|];
        [injection Et as <-; apply Kse; reflexivity|].
      destruct (last_paragraph b) as [p|];
        [injection Et as <-; apply Kp; reflexivity|].
      apply Ks. exact Et. }
    intros Hb. apply Ok_inj in Hb. subst.
    unfold tree_build, set_graph.
    cbn [graph root last_speak last_paragraph last_sentence].
    split; [apply (tree_like_grow (graph b) _ (node t));
            [exact Ht | exact Hp | reflexivity]|].
    split.
    { intros Hr. specialize (Hroot Hr). unfold len in Hp.
      rewrite Hroot in Hp. cbn in Hp. lia. }
    split; [exact Hspeak|].
    repeat split; eapply known_grow; try eassumption; rewrite len_add; lia. }
  destruct (tag_is _ "say-as");
    [intros Hb; apply Ok_inj in Hb; subst; exact H|].
  destruct (tag_is _ "sub");
    [intros Hb; apply Ok_inj in Hb; subst; exact H|].
  destruct (tag_is _ "metadata");
    intros Hb; apply Ok_inj in Hb; subst; exact H.
Qed.

Lemma on_event_tree (L : Libs) (self : Processor) (b : Build) (ev : Event)
      (b' : Build) :
  (forall e il, ev = EvStart e il ->
                tag_is (tag_no_namespace (e_tag e)) "speak" = false
                \/ root b = None) ->
  tree_build b -> on_event L self b ev = Ok b' -> tree_build b'.
Proof.
  intros Hev Hb Hstep. destruct ev as [e il|t|e]; cbn in Hstep.
  - eapply on_start_tree; [apply (Hev e il eq_refl) | exact Hb | exact Hstep].
  - apply Ok_inj in Hstep. subst. apply on_text_tree. exact Hb.
  - apply Ok_inj in Hstep. subst. apply on_end_tree. exact Hb.
Qed.

(** X17: the document tree.  When no [<speak>] starts after the first
    event, the graph [__call__] builds is a tree numbered by creation:
    every node object carries its number, every node but the first has
    exactly one edge into it, and that edge comes from an older node. *)
Theorem document_is_a_tree (L : Libs) (self : Processor)
        (events : list Event) (b : Build) :
  one_speak events -> build_tree L self events = Ok b ->
  tree_like (graph b).
Proof.
  intros Hone H. unfold build_tree in H.
  assert (H0 : tree_build (initial_build self)).
  { unfold tree_build, tree_like, known, initial_build. cbn.
    repeat split; try constructor; intros; discriminate. }
  destruct events as [|ev rest].
  - cbn in H. apply Ok_inj in H. subst. apply H0.
  - cbn [foldM] in H. unfold bind in H.
    destruct (on_event L self (initial_build self) ev) as [b1|x] eqn:E1;
      [|discriminate].
    assert (H1 : tree_build b1).
    { eapply on_event_tree; [|exact H0|exact E1].
      intros e il _. right. reflexivity. }
    refine (proj1 (foldM_inv_in tree_build (on_event L self) rest b1 b
                     _ H1 H)).
    intros s0 a s1 Hin Hs0 Hstep.
    eapply on_event_tree; [|exact Hs0|exact Hstep].
    intros e il ->. left. apply (Hone e il). exact Hin.
Qed.

Lemma document_is_a_tree_witness :
  exists b,
    build_tree libs (processor libs major_breaks_args)
               (text_and_elements false (speak_element (lit "a. b 21")))
    = Ok b
    /\ graph b = parsed_graph
    /\ tree_like (graph b).
Proof.
  destruct (build_tree libs (processor libs major_breaks_args)
              (text_and_elements false (speak_element (lit "a. b 21"))))
    as [b|x] eqn:E; [|vm_compute in E; discriminate].
  exists b. split; [reflexivity|]. split.
  - unfold parsed_graph. rewrite E. reflexivity.
  - apply (document_is_a_tree
             libs (processor libs major_breaks_args)
             (text_and_elements false (speak_element (lit "a. b 21"))) b);
      [|exact E].
    intros e il Hin. vm_compute in Hin.
    repeat (destruct Hin as [Hin | Hin]; [discriminate Hin|]).
    destruct Hin.
Defined.

(** ** Words that are spoken for *)

(** X18: words that are spoken for are left alone.  A node that is not a
    word, or a word with an interpretation ([<say-as>]), is split by no
    pass, except for the spelling out of a word to spell out. *)
Theorem interpreted_words_are_not_split (L : Libs) (self : Processor)
        (g : Graph) (n : Node) :
  (forall w, word_of n = Some w -> interpret_as w <> []) ->
  Forall (fun pass : Libs -> Processor -> Graph -> Node -> Exc (list Node) =>
            pass L self g n = Ok [])
         [_split_replacements; _split_punctuations; _split_major_breaks;
          _split_minor_breaks; _break_words; _split_abbreviations;
          _split_initialism; _split_ignore_non_words]
  /\ ((forall w, word_of n = Some w -> interpret_as w <> SPELL_OUT) ->
      _split_spell_out L self g n = Ok []).
Proof.
  intros H. split.
  - repeat constructor.
    all: cbv beta delta [_split_replacements _split_punctuations
                         _split_major_breaks _split_minor_breaks
                         _break_words _split_abbreviations
                         _split_initialism _split_ignore_non_words].
    all: destruct (word_of n) as [w|]; [|reflexivity].
    all: specialize (H w eq_refl).
    all: destruct (interpret_as w); [congruence | reflexivity].
  - intros Hs. unfold _split_spell_out.
    destruct (word_of n) as [w|]; [|reflexivity].
    specialize (Hs w eq_refl).
    destruct (str_eqb (interpret_as w) SPELL_OUT) eqn:E; [|reflexivity].
    apply str_eqb_eq in E. congruence.
Qed.

Lemma interpreted_words_are_not_split_witness :
  _split_major_breaks libs (processor libs major_breaks_args)
                      ten_dollars_graph ten_dollars_node = Ok []
  /\ _split_spell_out libs (processor libs major_breaks_args)
                      ten_dollars_graph ten_dollars_node = Ok [].
Proof.
  assert (H : forall w, word_of ten_dollars_node = Some w ->
                        interpret_as w <> []).
  { intros w Hw. injection Hw as <-. discriminate. }
  destruct (interpreted_words_are_not_split
              libs (processor libs major_breaks_args) ten_dollars_graph
              ten_dollars_node H) as [Hall Hspell].
  split.
  - apply Forall_inv_tail in Hall. apply Forall_inv_tail in Hall.
    apply Forall_inv in Hall. exact Hall.
  - apply Hspell. intros w Hw. injection Hw as <-. discriminate.
Defined.

(** ** Splitting loses no text *)

(** *** What a match spans *)

Lemma startswith_length (s l : str) :
  startswith s l = true -> length l <= length s.
Proof.
  intros H. apply startswith_firstn in H.
  pose proof (f_equal (@length ascii) H) as E.
  rewrite length_firstn in E. lia.
Qed.

Lemma In_downto (n mn k : nat) : In k (downto n mn) -> k <= n.
Proof.
  induction n as [|n IH]; cbn [downto].
  - destruct (0 <? mn); cbn; [tauto | lia].
  - destruct (S n <? mn); cbn; [tauto|].
    intros [H | H]; [lia | specialize (IH H); lia].
Qed.

Lemma length_take_while_le (c : ascii -> bool) (s : str) :
  length (take_while c s) <= length s.
Proof.
  induction s as [|x s IH]; [apply Nat.le_refl|].
  cbn. destruct (c x); cbn; lia.
Qed.

(** A candidate ends at or after the position it starts at, within the
    subject, and leaves the subject from its end on. *)
Lemma m_span (r : regex) (i : nat) (s : str) (cs : caps) (j : nat)
      (s' : str) (cs' : caps) :
  In (j, s', cs') (m r i s cs) ->
  i <= j /\ j - i <= length s /\ s' = skipn (j - i) s.
Proof.
  revert i s cs j s' cs'.
  induction r as [| |l|c|c mn|a IHa b IHb|a IHa b IHb|a IHa|k a IHa| |];
    intros i s cs j s' cs' H; cbn [m] in H.
  - destruct H.
  - destruct H as [H | []]. injection H as <- <- <-.
    rewrite Nat.sub_diag. split; [lia|split; [lia|reflexivity]].
  - destruct (startswith s l) eqn:E; [|destruct H].
    destruct H as [H | []]. injection H as <- <- <-.
    apply startswith_length in E.
    replace (i + length l - i) with (length l) by lia.
    split; [lia|split; [exact E|reflexivity]].
  - destruct s as [|x s]; [destruct H|].
    destruct (c x); [|destruct H].
    destruct H as [H | []]. injection H as <- <- <-.
    replace (S i - i) with 1 by lia. cbn.
    split; [lia|split; [lia|reflexivity]].
  - apply in_map_iff in H. destruct H as [k [E Hk]].
    injection E as <- <- <-. apply In_downto in Hk.
    pose proof (length_take_while_le c s).
    replace (i + k - i) with k by lia.
    split; [lia|split; [lia|reflexivity]].
  - apply in_app_iff in H. destruct H as [H | H]; [eapply IHa | eapply IHb];
      exact H.
  - apply in_flat_map in H. destruct H as [[[j1 s1] cs1] [H1 H2]].
    apply IHa in H1. apply IHb in H2.
    destruct H1 as (L1 & B1 & ->). destruct H2 as (L2 & B2 & ->).
    rewrite length_skipn in B2.
    split; [lia|]. split; [lia|].
    rewrite skipn_skipn. f_equal. lia.
  - apply in_app_iff in H. destruct H as [H | [H | []]];
      [eapply IHa; exact H|].
    injection H as <- <- <-. rewrite Nat.sub_diag.
    split; [lia|split; [lia|reflexivity]].
  - apply in_map_iff in H. destruct H as [[[j1 s1] cs1] [E H1]].
    injection E as <- <- <-. eapply IHa. exact H1.
  - destruct (i =? 0); [|destruct H]. destruct H as [H | []].
    injection H as <- <- <-. rewrite Nat.sub_diag.
    split; [lia|split; [lia|reflexivity]].
  - assert (Hin : In (j, s', cs') [(i, s, cs)]).
    { destruct s as [|x [|y s0]]; [exact H| |destruct H].
      destruct (chr_eqb x (ascii_of_nat 10)); [exact H | destruct H]. }
    destruct Hin as [E | []]. injection E as <- <- <-.
    rewrite Nat.sub_diag. split; [lia|split; [lia|reflexivity]].
Qed.

Lemma whole_group_whole (p : Pattern) :
  whole_group p = true -> groups p = 1 /\ whole (prog p).
Proof.
  unfold whole_group, whole. intros H.
  apply andb_true_iff in H. destruct H as [Hg H].
  apply Nat.eqb_eq in Hg. split; [exact Hg|].
  destruct (prog p) as [| |l|c|c mn|a b|a b|a|k a| |]; try discriminate H.
  - destruct a as [| |l|c|c mn|a1 a2|a1 a2|a1|k a1| |]; try discriminate H.
    + destruct k as [|[|k]]; try discriminate H.
      destruct b; try discriminate H.
      right. right. eexists. reflexivity.
    + destruct b as [| |l|c|c mn|b1 b2|b1 b2|b1|k b1| |];
        try discriminate H.
      destruct k as [|[|k]]; try discriminate H.
      right. left. eexists. reflexivity.
  - destruct k as [|[|k]]; try discriminate H.
    left. eexists. reflexivity.
Qed.

(** A candidate of a pattern that is one group has the text it spans as
    the group. *)
Lemma m_whole (r : regex) (i : nat) (s : str) (j : nat) (s' : str)
      (cs' : caps) :
  whole r -> In (j, s', cs') (m r i s []) ->
  i <= j /\ j - i <= length s
  /\ get_cap cs' 1 = Some (firstn (j - i) s).
Proof.
  assert (G : forall a cs0,
             In (j, s', cs') (m (RGroup 1 a) i s cs0) ->
             i <= j /\ j - i <= length s
             /\ get_cap cs' 1 = Some (firstn (j - i) s)).
  { intros a cs0 H. pose proof (m_span _ _ _ _ _ _ _ H) as (L1 & B1 & _).
    split; [exact L1|]. split; [exact B1|].
    cbn [m] in H. apply in_map_iff in H.
    destruct H as [[[j1 s1] cs1] [E _]]. injection E as <- <- <-.
    reflexivity. }
  intros [[a ->] | [[a ->] | [a ->]]] H.
  - eapply G. exact H.
  - change (m (RSeq RBegin (RGroup 1 a)) i s [])
      with (flat_map (fun c : cand =>
                        let '(j0, s0, cs0) := c in m (RGroup 1 a) j0 s0 cs0)
                     (m RBegin i s [])) in H.
    cbn [m] in H. destruct (i =? 0); [|destruct H].
    cbn [flat_map] in H. rewrite app_nil_r in H. eapply G. exact H.
  - change (m (RSeq (RGroup 1 a) REnd) i s [])
      with (flat_map (fun c : cand =>
                        let '(j0, s0, cs0) := c in m REnd j0 s0 cs0)
                     (m (RGroup 1 a) i s [])) in H.
    apply in_flat_map in H. destruct H as [[[j1 s1] cs1] [H1 H2]].
    assert (Hin : In (j, s', cs') [(j1, s1, cs1)]).
    { cbn [m] in H2. destruct s1 as [|x [|y s0]]; [exact H2| |destruct H2].
      destruct (chr_eqb x (ascii_of_nat 10)); [exact H2 | destruct H2]. }
    destruct Hin as [E | []]. injection E as <- <- <-.
    eapply G. exact H1.
Qed.

Lemma search_from_eq (r : regex) (adv : bool) (i : nat) (s : str) :
  search_from r adv i s
  = match (if adv
           then filter (fun c => negb (cand_end c =? i)) (m r i s [])
           else m r i s []) with
    | (j, _, cs) :: _ => Some {| m_start := i; m_end := j; m_caps := cs |}
    | [] =>
        match s with
        | [] => None
        | _ :: s' => search_from r false (S i) s'
        end
    end.
Proof. destruct s; reflexivity. Qed.

(** What [search] finds for a pattern that is one group. *)
Lemma search_from_whole (r : regex) (s : str) (adv : bool) (i : nat)
      (mt : Match) :
  whole r -> search_from r adv i s = Some mt ->
  i <= m_start mt /\ m_start mt <= m_end mt /\ m_end mt - i <= length s
  /\ get_cap (m_caps mt) 1
     = Some (firstn (m_end mt - m_start mt) (skipn (m_start mt - i) s)).
Proof.
  intros Hr. revert adv i. induction s as [|x s IH]; intros adv i H;
    rewrite search_from_eq in H.
  all: destruct (if adv
                 then filter (fun c => negb (cand_end c =? i)) (m r i _ [])
                 else m r i _ []) as [|[[j s1] cs1] rest] eqn:E.
  all: try discriminate H.
  all: try (injection H as <-; cbn [m_start m_end m_caps];
            assert (Hin : In (j, s1, cs1) (m r i _ []))
              by (destruct adv;
                  [assert (Hf : In (j, s1, cs1)
                                   (filter (fun c => negb (cand_end c =? i))
                                           (m r i _ [])))
                     by (rewrite E; left; reflexivity);
                   apply filter_In in Hf; apply Hf
                  | rewrite E; left; reflexivity]);
            destruct (m_whole _ _ _ _ _ _ Hr Hin) as (L1 & B1 & C1);
            rewrite Nat.sub_diag; cbn [skipn];
            repeat split; [lia | exact L1 | exact B1 | exact C1]).
  apply IH in H. destruct H as (L1 & L2 & B1 & C1).
  split; [lia|]. split; [exact L2|]. split; [cbn [length]; lia|].
  rewrite C1. replace (m_start mt - i) with (S (m_start mt - S i)) by lia.
  reflexivity.
Qed.

Lemma three_parts {A} (a b : nat) (s : list A) :
  a <= b -> firstn a s ++ firstn (b - a) (skipn a s) ++ skipn b s = s.
Proof.
  intros H. replace (skipn b s) with (skipn (b - a) (skipn a s))
    by (rewrite skipn_skipn; f_equal; lia).
  rewrite (firstn_skipn (b - a) (skipn a s)). apply firstn_skipn.
Qed.

(** The parts of a split by a pattern that is one group give the subject
    back. *)
Lemma split_loop_concat (p : Pattern) (fuel maxsplit n : nat) (adv : bool)
      (last : nat) (s : str) :
  whole_group p = true ->
  concat (map part_str (split_loop fuel p maxsplit n adv last s)) = s.
Proof.
  intros Hp. destruct (whole_group_whole p Hp) as [Hg Hr].
  revert n adv last s. induction fuel as [|fuel IH]; intros n adv last s;
    cbn [split_loop]; [cbn; apply app_nil_r|].
  destruct (negb (maxsplit =? 0) && (maxsplit <=? n));
    [cbn; apply app_nil_r|].
  destruct (search_from (prog p) adv last s) as [mt|] eqn:E;
    [|cbn; apply app_nil_r].
  destruct (search_from_whole _ _ _ _ _ Hr E) as (L1 & L2 & B1 & C1).
  rewrite Hg. cbn [seq map concat part_str app].
  rewrite IH, C1. cbn [part_str].
  replace (m_end mt - m_start mt)
    with ((m_end mt - last) - (m_start mt - last)) by lia.
  apply three_parts. lia.
Qed.

Lemma filter_none_concat (parts : list (option str)) :
  concat (filter_none parts) = concat (map part_str parts).
Proof.
  induction parts as [|[[|c s]|] parts IH]; cbn; rewrite ?IH; reflexivity.
Qed.

Lemma split_in_two (p : Pattern) (s : str) (k : nat) (a b : str) :
  whole_group p = true ->
  filter_none (re_split p s k) = [a; b] -> a ++ b = s.
Proof.
  intros Hp H. pose proof (filter_none_concat (re_split p s k)) as E.
  rewrite H in E. unfold re_split in E.
  rewrite (split_loop_concat p _ _ _ _ _ _ Hp) in E.
  cbn in E. rewrite app_nil_r in E. exact E.
Qed.

(** *** Punctuation *)

Lemma peel_begin_concat (pat : Pattern) (fuel : nat) (fw : str) (b : bool)
      (s : str) (ps : list str) (w : str) :
  whole_group pat = true ->
  peel_begin fuel pat fw b s = Some (ps, w) ->
  exists pre,
    pre ++ w = s
    /\ concat ps
       = (match ps with [] => [] | _ => if b then fw else [] end) ++ pre.
Proof.
  intros Hp. revert b s ps w.
  induction fuel as [|fuel IH]; intros b s ps w H; [discriminate|].
  cbn [peel_begin] in H.
  destruct (nonempty s);
    [|injection H as <- <-; exists []; split; reflexivity].
  destruct (filter_none (re_split pat s 1)) as [|x [|y [|z l]]] eqn:E;
    try (injection H as <- <-; exists []; split; reflexivity).
  destruct (peel_begin fuel pat fw false y) as [[ps' w']|] eqn:Er;
    [|discriminate].
  injection H as <- <-.
  destruct (IH _ _ _ _ Er) as [pre' [E1 E2]].
  assert (E3 : concat ps' = pre') by (rewrite E2; destruct ps'; reflexivity).
  exists (x ++ pre'). split.
  - rewrite <- app_assoc, E1. apply (split_in_two pat s 1 x y Hp E).
  - cbn [concat]. rewrite E3. destruct b; rewrite <- ?app_assoc; reflexivity.
Qed.

Lemma peel_end_concat (pat : Pattern) (fuel : nat) (s : str)
      (ps : list str) (w : str) :
  whole_group pat = true ->
  peel_end fuel pat s = Some (ps, w) -> w ++ concat (rev ps) = s.
Proof.
  intros Hp. revert s ps w.
  induction fuel as [|fuel IH]; intros s ps w H; [discriminate|].
  cbn [peel_end] in H.
  destruct (nonempty s);
    [|injection H as <- <-; apply app_nil_r].
  destruct (filter_none (re_split pat s 1)) as [|x [|y [|z l]]] eqn:E;
    try (injection H as <- <-; apply app_nil_r).
  destruct (peel_end fuel pat x) as [[ps' w']|] eqn:Er; [|discriminate].
  injection H as <- <-.
  cbn [rev]. rewrite concat_app. cbn [concat]. rewrite app_nil_r, app_assoc.
  rewrite (IH _ _ _ Er). apply (split_in_two pat s 1 x y Hp E).
Qed.

Lemma concat_mark_last (keep : bool) (lw : str) (l : list str) (k last : nat) :
  last = k + length l - 1 ->
  concat (map (fun ip : nat * str =>
                 if keep && (fst ip =? last) then snd ip ++ lw else snd ip)
              (enumerate_from k l))
  = concat l ++ (if keep && nonempty_list l then lw else []).
Proof.
  revert k. induction l as [|x l IH]; intros k Hl.
  - cbn. rewrite andb_false_r. reflexivity.
  - cbn [enumerate_from map concat fst snd].
    destruct l as [|y l].
    + cbn [enumerate_from map concat length nonempty_list] in *.
      replace (k =? last) with true by (symmetry; apply Nat.eqb_eq; lia).
      destruct keep; cbn [andb]; rewrite ?app_nil_r; reflexivity.
    + rewrite (IH (S k)) by (cbn [length] in *; lia).
      replace (k =? last) with false
        by (symmetry; apply Nat.eqb_neq; cbn [length] in Hl; lia).
      rewrite andb_false_r. cbn [nonempty_list]. rewrite <- app_assoc.
      reflexivity.
Qed.

Lemma concat_word_node (t lg rl : str) :
  concat (map node_text_with_ws
              (if nonempty t then [word_kw (strip t) t lg rl] else []))
  = t.
Proof. destruct t; cbn; rewrite ?app_nil_r; reflexivity. Qed.

(** X19: splitting off punctuation loses no text.  With punctuation
    patterns that are one capturing group (as the ones made from the
    punctuation sets are), the pieces [_split_punctuations] makes of a
    word carry, in order, the text of the word, followed by the trailing
    whitespace of the word when whitespace is kept, and preceded by its
    leading whitespace only if a begin punctuation took it. *)
Theorem split_punctuations_keeps_text (L : Libs) (self : Processor)
        (g : Graph) (n : Node) (w : WordData) (news : list Node) :
  word_of n = Some w ->
  (forall pat,
      begin_punctuations_pattern (get_settings L self (lang n)) = Some pat ->
      whole_group pat = true) ->
  (forall pat,
      end_punctuations_pattern (get_settings L self (lang n)) = Some pat ->
      whole_group pat = true) ->
  _split_punctuations L self g n = Ok news -> news <> [] ->
  exists lead,
    (lead = []
     \/ lead = fst (get_whitespace (get_settings L self (lang n))
                                   (text_with_ws w)))
    /\ (begin_punctuations_pattern (get_settings L self (lang n)) = None ->
        lead = [])
    /\ concat (map node_text_with_ws news)
       = lead ++ text w
         ++ (if keep_whitespace (get_settings L self (lang n))
             then snd (get_whitespace (get_settings L self (lang n))
                                      (text_with_ws w))
             else []).
Proof.
  intros Hw Hbp Hep H Hne. unfold _split_punctuations in H. rewrite Hw in H.
  destruct (nonempty (interpret_as w)); [apply Ok_inj in H; congruence|].
  set (st := get_settings L self (lang n)) in *.
  destruct (get_whitespace st (text_with_ws w)) as [fw lw] eqn:Ews.
  cbn [fst snd].
  assert (Hbegin :
            forall r,
              match begin_punctuations_pattern st with
              | Some pat =>
                  peel_begin (S (length (text w))) pat fw true (text w)
              | None => Some ([], text w)
              end = Some r ->
              exists lead pre,
                (lead = [] \/ lead = fw)
                /\ (begin_punctuations_pattern st = None -> lead = [])
                /\ pre ++ snd r = text w
                /\ concat (fst r) = lead ++ pre).
  { intros [ps w1] Hr.
    destruct (begin_punctuations_pattern st) as [pat|] eqn:Eb.
    - destruct (peel_begin_concat pat _ _ _ _ _ _ (Hbp pat eq_refl) Hr)
        as [pre [E1 E2]].
      exists (match ps with [] => [] | _ => fw end), pre.
      split; [destruct ps; [left | right]; reflexivity|].
      split; [discriminate|]. split; assumption.
    - injection Hr as <- <-. exists [], [].
      split; [left; reflexivity|]. split; [reflexivity|].
      split; reflexivity. }
  assert (Hend :
            forall w1 r,
              match end_punctuations_pattern st with
              | Some pat => peel_end (S (length (text w))) pat w1
              | None => Some ([], w1)
              end = Some r ->
              snd r ++ concat (rev (fst r)) = w1).
  { intros w1 [ps w2] Hr.
    destruct (end_punctuations_pattern st) as [pat|] eqn:Ee.
    - apply (peel_end_concat pat _ _ _ _ (Hep pat eq_refl) Hr).
    - injection Hr as <- <-. apply app_nil_r. }
  assert (Hbody :
            forall (bres : option (list str * str))
                   (eres : str -> option (list str * str)),
              (match bres with
               | None => Raise (lit "the loop does not end")
               | Some (begin_puncts, word_text1) =>
                   match eres word_text1 with
                   | None => Raise (lit "the loop does not end")
                   | Some (end_punctuations, word_text2) =>
                       let begin_nodes :=
                         map (fun p => punct_kw (strip p) p (lang n))
                             begin_puncts in
                       if negb (nonempty_list begin_puncts
                                || nonempty_list end_punctuations)
                       then Ok begin_nodes
                       else
                         let word_text :=
                           if keep_whitespace st
                              && negb (nonempty_list end_punctuations)
                           then word_text2 ++ lw else word_text2 in
                         let word_nodes :=
                           if nonempty word_text
                           then [word_kw (strip word_text) word_text (lang n)
                                         ROLE_DEFAULT]
                           else [] in
                         let last_punct_idx :=
                           length end_punctuations - 1 in
                         let end_nodes :=
                           map (fun ip : nat * str =>
                                  let punct_text :=
                                    if keep_whitespace st
                                       && (fst ip =? last_punct_idx)
                                    then snd ip ++ lw else snd ip in
                                  punct_kw (strip punct_text) punct_text
                                           (lang n))
                               (enumerate (rev end_punctuations)) in
                         Ok (begin_nodes ++ word_nodes ++ end_nodes)
                   end
               end) = Ok news ->
              exists bp w1 ep w2,
                bres = Some (bp, w1) /\ eres w1 = Some (ep, w2)
                /\ concat (map node_text_with_ws news)
                   = concat bp ++ w2 ++ concat (rev ep)
                     ++ (if keep_whitespace st then lw else [])).
  { intros [[bp w1]|] eres Hb; [|discriminate].
    destruct (eres w1) as [[ep w2]|] eqn:Ee; [|discriminate].
    cbv zeta in Hb.
    destruct (negb (nonempty_list bp || nonempty_list ep)) eqn:Eany.
    { apply Ok_inj in Hb. apply negb_true_iff in Eany.
      apply orb_false_iff in Eany. destruct Eany as [Eb _].
      destruct bp; [|discriminate]. cbn in Hb. congruence. }
    apply Ok_inj in Hb. subst news.
    exists bp, w1, ep, w2. split; [reflexivity|]. split; [exact Ee|].
    rewrite !map_app, !concat_app. f_equal.
    { rewrite map_map. cbn. rewrite map_id. reflexivity. }
    rewrite map_map. unfold enumerate.
    match goal with
    | |- context [concat (map ?f (enumerate_from 0 (rev ep)))] =>
        assert (Hends :
                  concat (map f (enumerate_from 0 (rev ep)))
                  = concat (rev ep)
                    ++ (if keep_whitespace st && nonempty_list (rev ep)
                        then lw else []))
          by (apply (concat_mark_last (keep_whitespace st) lw (rev ep) 0
                                      (length ep - 1));
              rewrite length_rev; reflexivity)
    end.
    rewrite Hends.
    assert (Hrev : nonempty_list (rev ep) = nonempty_list ep).
    { destruct ep as [|e ep]; [reflexivity|]. cbn [rev].
      destruct (rev ep); reflexivity. }
    rewrite Hrev.
    match goal with
    | |- context [concat (map node_text_with_ws ?l)] =>
        assert (Hword :
                  concat (map node_text_with_ws l)
                  = if keep_whitespace st && negb (nonempty_list ep)
                    then w2 ++ lw else w2)
          by apply concat_word_node
    end.
    rewrite Hword.
    destruct (keep_whitespace st), ep as [|e ep];
      cbn [andb negb nonempty_list rev concat app];
      rewrite ?app_nil_r, <- ?app_assoc; reflexivity. }
  assert (Hfinish :
            forall (bres : option (list str * str))
                   (eres : str -> option (list str * str)),
              (forall r, bres = Some r ->
                         exists lead pre,
                           (lead = [] \/ lead = fw)
                           /\ (begin_punctuations_pattern st = None ->
                               lead = [])
                           /\ pre ++ snd r = text w
                           /\ concat (fst r) = lead ++ pre) ->
              (forall w1 r, eres w1 = Some r ->
                            snd r ++ concat (rev (fst r)) = w1) ->
              (exists bp w1 ep w2,
                  bres = Some (bp, w1) /\ eres w1 = Some (ep, w2)
                  /\ concat (map node_text_with_ws news)
                     = concat bp ++ w2 ++ concat (rev ep)
                       ++ (if keep_whitespace st then lw else [])) ->
              exists lead,
                (lead = [] \/ lead = fw)
                /\ (begin_punctuations_pattern st = None -> lead = [])
                /\ concat (map node_text_with_ws news)
                   = lead ++ text w
                     ++ (if keep_whitespace st then lw else [])).
  { intros bres eres Hb He (bp & w1 & ep & w2 & E1 & E2 & E3).
    destruct (Hb _ E1) as (lead & pre & Hl1 & Hl2 & Hpre & Hcat).
    pose proof (He _ _ E2) as Hw1. cbn [fst snd] in *.
    exists lead. split; [exact Hl1|]. split; [exact Hl2|].
    rewrite E3, Hcat, <- Hpre, <- Hw1, <- !app_assoc. reflexivity. }
  destruct (begin_punctuations_pattern st) as [bpat|] eqn:Eb;
    destruct (end_punctuations_pattern st) as [epat|] eqn:Ee.
  4: { apply Ok_inj in H. congruence. }
  - apply (Hfinish
             (peel_begin (S (length (text w))) bpat fw true (text w))
             (fun w1 => peel_end (S (length (text w))) epat w1));
      [exact Hbegin | exact Hend |].
    apply (Hbody _ (fun w1 => peel_end (S (length (text w))) epat w1)).
    exact H.
  - apply (Hfinish
             (peel_begin (S (length (text w))) bpat fw true (text w))
             (fun w1 => Some ([], w1)));
      [exact Hbegin | exact Hend |].
    apply (Hbody _ (fun w1 => Some ([], w1))). exact H.
  - apply (Hfinish
             (Some ([], text w))
             (fun w1 => peel_end (S (length (text w))) epat w1));
      [exact Hbegin | exact Hend |].
    apply (Hbody (Some ([], text w))
                 (fun w1 => peel_end (S (length (text w))) epat w1)).
    exact H.
Qed.

(** The patterns [__post_init__] makes from the punctuation and break
    sets are one capturing group. *)
Lemma set_patterns_whole (L : Libs) (a : TextProcessorSettingsArgs)
      (pat : Pattern) :
  (a_begin_punctuations_pattern a = None ->
   begin_punctuations_pattern (post_init L a) = Some pat ->
   whole_group pat = true)
  /\ (a_end_punctuations_pattern a = None ->
      end_punctuations_pattern (post_init L a) = Some pat ->
      whole_group pat = true)
  /\ (a_major_breaks_pattern a = None ->
      major_breaks_pattern (post_init L a) = Some pat ->
      whole_group pat = true)
  /\ (a_minor_breaks_pattern a = None ->
      minor_breaks_pattern (post_init L a) = Some pat ->
      whole_group pat = true).
Proof.
  unfold post_init.
  cbn [begin_punctuations_pattern end_punctuations_pattern
       major_breaks_pattern minor_breaks_pattern].
  unfold pattern_or_set.
  repeat split; intros -> H.
  - destruct (set_or_empty (a_begin_punctuations a)); [discriminate|].
    injection H as <-. reflexivity.
  - destruct (set_or_empty (a_end_punctuations a)); [discriminate|].
    injection H as <-. reflexivity.
  - destruct (a_major_breaks a); [discriminate|].
    injection H as <-. reflexivity.
  - destruct (a_minor_breaks a); [discriminate|].
    injection H as <-. reflexivity.
Qed.

Lemma split_punctuations_keeps_text_witness :
  exists news lead,
    _split_punctuations libs (processor libs parens_args) empty_graph
                        parens_node = Ok news
    /\ length news = 3
    /\ (lead = [] \/ lead = lit " ")
    /\ concat (map node_text_with_ws news) = lead ++ lit "(hi)" ++ lit " ".
Proof.
  destruct (_split_punctuations libs (processor libs parens_args)
                                empty_graph parens_node)
    as [news|e] eqn:E; [|vm_compute in E; discriminate].
  assert (Hne : news <> []).
  { intros ->. vm_compute in E. discriminate. }
  destruct (split_punctuations_keeps_text
              libs (processor libs parens_args) empty_graph parens_node
              _ news eq_refl
              ltac:(intros pat Hp; vm_compute in Hp; injection Hp as <-;
                    reflexivity)
              ltac:(intros pat Hp; vm_compute in Hp; injection Hp as <-;
                    reflexivity)
              E Hne) as (lead & H1 & _ & H3).
  exists news, lead. split; [reflexivity|].
  split; [vm_compute in E; injection E as <-; reflexivity|].
  split; [exact H1 | exact H3].
Defined.

(** X20: splitting at a break keeps a prefix of the word.  With a break
    pattern that is one capturing group (as the ones made from the break
    sets are), the pieces [_split_major_breaks] and [_split_minor_breaks]
    make of a word carry, in order, the text with whitespace of the word
    up to the end of its first break; what follows the first break in the
    word (the parts of the split after the second) is in no piece. *)
Theorem break_splits_keep_a_prefix (L : Libs) (self : Processor)
        (g : Graph) (n : Node) (w : WordData) :
  word_of n = Some w ->
  (forall pat news,
      major_breaks_pattern (get_settings L self (lang n)) = Some pat ->
      whole_group pat = true ->
      _split_major_breaks L self g n = Ok news -> news <> [] ->
      text_with_ws w
      = concat (map node_text_with_ws news)
        ++ concat (map part_str
                       (skipn 2 (re_split pat (text_with_ws w) 0))))
  /\ (forall pat news,
         minor_breaks_pattern (get_settings L self (lang n)) = Some pat ->
         whole_group pat = true ->
         _split_minor_breaks L self g n = Ok news -> news <> [] ->
         text_with_ws w
         = concat (map node_text_with_ws news)
           ++ concat (map part_str
                          (skipn 2 (re_split pat (text_with_ws w) 0)))).
Proof.
  intros Hw.
  assert (Hparts : forall pat p0 p1 rest,
             whole_group pat = true ->
             re_split pat (text_with_ws w) 0 = p0 :: p1 :: rest ->
             text_with_ws w
             = part_str p0 ++ part_str p1 ++ concat (map part_str rest)).
  { intros pat p0 p1 rest Hp E.
    pose proof (split_loop_concat pat (2 * length (text_with_ws w) + 2)
                                  0 0 false 0 (text_with_ws w) Hp) as C.
    unfold re_split in E. rewrite E in C. cbn [map concat] in C.
    symmetry. exact C. }
  split; intros pat news Hpat Hp H Hne.
  - unfold _split_major_breaks in H. rewrite Hw in H.
    destruct (nonempty (interpret_as w)); [apply Ok_inj in H; congruence|].
    rewrite Hpat in H.
    destruct (re_split pat (text_with_ws w) 0) as [|p0 [|p1 rest]] eqn:E;
      try (apply Ok_inj in H; congruence).
    rewrite (Hparts pat p0 p1 rest Hp E). cbn [skipn].
    destruct (nonempty (strip (part_str p0)));
      apply Ok_inj in H; subst news; cbn; rewrite ?app_nil_r;
      rewrite <- ?app_assoc; reflexivity.
  - unfold _split_minor_breaks in H. rewrite Hw in H.
    destruct (nonempty (interpret_as w)); [apply Ok_inj in H; congruence|].
    rewrite Hpat in H.
    destruct (re_split pat (text_with_ws w) 0) as [|p0 [|p1 rest]] eqn:E;
      try (apply Ok_inj in H; congruence).
    rewrite (Hparts pat p0 p1 rest Hp E). cbn [skipn].
    apply Ok_inj in H. subst news. cbn. rewrite ?app_nil_r.
    rewrite <- ?app_assoc. reflexivity.
Qed.

Lemma break_splits_keep_a_prefix_witness :
  exists news,
    _split_minor_breaks libs (processor libs parens_args) empty_graph
                        comma_node = Ok news
    /\ lit "a,b " = concat (map node_text_with_ws news) ++ lit "b ".
Proof.
  destruct (_split_minor_breaks libs (processor libs parens_args)
                                empty_graph comma_node)
    as [news|e] eqn:E; [|vm_compute in E; discriminate].
  assert (Hne : news <> []).
  { intros ->. vm_compute in E. discriminate. }
  exists news. split; [reflexivity|].
  exact (proj2 (break_splits_keep_a_prefix
                  libs (processor libs parens_args) empty_graph comma_node
                  _ eq_refl)
               (compile_minor [lit ","]) news eq_refl eq_refl E Hne).
Defined.
